(** * MiraETS: the entity/component store, views, observers, the
      dependency-graph scheduler, binary serialization and prefabs

    A shallow embedding of
      include/Mira/ETS/ComponentMask.hpp, include/Mira/ETS/SparseSet.hpp,
      include/Mira/ETS/World.hpp, src/Mira/ETS/World.cpp,
      src/Mira/ETS/SystemScheduler.cpp, include/Mira/ETS/Errors.hpp,
      include/Mira/ETS/Serialization.hpp, src/Mira/ETS/Serialization.cpp
      (the registration of serializers, [DeserializeComponent] and the
      binary format) and src/Mira/ETS/Prefab.cpp ([Instantiate]).

    Conventions.
    - Unsigned machine integers ([uint32_t], [uint64_t], [size_t]) are values
      of [N]; every cast and every 32-bit addition of the source is written
      out with its wrap-around ([u32]).  The signed in-degree counters of the
      scheduler are values of [Z].
    - [std::vector] is [list]; an element access outside the vector, a failed
      [assert] and a null-pointer dereference have no defined result in the
      source, and the operation that would perform one returns [None].
    - [std::unordered_map] keyed by [std::type_index] is a [gmap] keyed by the
      component id of the type ([ComponentID<T>::Value()] gives every type one
      id for the life of the process).
    - The component types of a program are told apart by their component
      ids; the values of all of them are taken from one type [Component]
      (the sum of the program's component types).  The specialization of
      [SparseSet] for empty types is [SparseSet.Tag]; it is the primary
      template at [unit] with the data vector dropped ([with_data]).
    - A callback ([std::function<void(EntityID, T&)>]) is a name together
      with what it writes through the component reference; each invocation
      is recorded.  The function given to [View::Each] gets references to
      the components of an entity; it is the function from the values
      behind the references to the values it leaves there, and what it
      leaves is written to the stores.  A callback that re-enters the world
      is outside the model.
    - A [std::ostream] is the sequence of bytes written to it, a
      [std::istream] the bytes not yet read and the state of the stream.
      Integers are written and read as their object representation, least
      significant byte first.  A [simdjson::dom::element] is a value of a
      type [Json] of which nothing is assumed, a [simdjson::dom::object] the
      sequence of its fields; the functions that parse JSON text are not
      part of the embedding. *)

From Stdlib Require Import NArith ZArith Lia List Permutation Sorted Strings.Byte.
From stdpp Require Import base numbers option list gmap strings.

Local Open Scope N_scope.

Ltac Zify.zify_post_hook ::= Z.to_euclidean_division_equations.

(** ** Machine integers *)

(** [static_cast<uint32_t>(x)] *)
Definition u32 (x : N) : N := x mod 2 ^ 32.

(** [using EntityID = uint64_t] *)
Abbreviation EntityID := N.

(** The values an [EntityID] can hold. *)
Definition is_u64 (x : N) : Prop := x < 2 ^ 64.

(** [constexpr size_t k_NullIndex = std::numeric_limits<size_t>::max()] *)
Definition k_NullIndex : N := 2 ^ 64 - 1.

Module Internal.

Definition GetIndex (entity : EntityID) : N :=
    u32 (N.land entity 0xFFFFFFFF).

Definition GetGeneration (entity : EntityID) : N :=
    u32 (N.shiftr entity 32).

Definition k_PageSize : N := 4096.

Definition GetPageID (index : N) : N := index / k_PageSize.

Definition GetPageOffset (index : N) : N := index mod k_PageSize.

End Internal.

(** [(static_cast<EntityID>(generation) << 32) | index], the expression by
    which World.cpp builds an identifier from a generation and an index. *)
Definition MakeEntityID (generation index : N) : EntityID :=
  N.lor (N.shiftl generation 32) index.

(** ** ComponentMask.hpp *)

Module ComponentMask.

(** [std::array<uint64_t, 4> m_Words] *)
Record t := Mk { w0 : N; w1 : N; w2 : N; w3 : N }.

(** [m_Words[index]], for the word indices 0 to 3 the class uses. *)
Definition GetWord (m : t) (index : N) : N :=
  match index with
  | 0 => w0 m
  | 1 => w1 m
  | 2 => w2 m
  | _ => w3 m
  end.

(** [m_Words[index] = w] *)
Definition SetWord (m : t) (index : N) (w : N) : t :=
  match index with
  | 0 => Mk w (w1 m) (w2 m) (w3 m)
  | 1 => Mk (w0 m) w (w2 m) (w3 m)
  | 2 => Mk (w0 m) (w1 m) w (w3 m)
  | _ => Mk (w0 m) (w1 m) (w2 m) w
  end.

(** [explicit ComponentMask(unsigned long long val = 0)] *)
Definition Make (val : N) : t := Mk val 0 0 0.

(** [void Set(size_t bit)] *)
Definition SetBit (m : t) (bit : N) : t :=
  if bit <? 256
  then SetWord m (bit / 64)
         (N.lor (GetWord m (bit / 64)) (N.shiftl 1 (bit mod 64)))
  else m.

(** [void Reset(size_t bit)]; [~x] on 64 bits is [N.lnot x 64]. *)
Definition ResetBit (m : t) (bit : N) : t :=
  if bit <? 256
  then SetWord m (bit / 64)
         (N.land (GetWord m (bit / 64)) (N.lnot (N.shiftl 1 (bit mod 64)) 64))
  else m.

(** [void Reset()] *)
Definition ResetAll (m : t) : t := Mk 0 0 0 0.

(** [bool Test(size_t bit) const] *)
Definition Test (m : t) (bit : N) : bool :=
  if 256 <=? bit then false
  else negb (N.land (GetWord m (bit / 64)) (N.shiftl 1 (bit mod 64)) =? 0).

(** [bool Any() const] *)
Definition Any (m : t) : bool :=
  existsb (λ w, negb (w =? 0)) [w0 m; w1 m; w2 m; w3 m].

(** [bool Contains(const ComponentMask& other) const]: the loop leaves at
    the first word that fails, as [forallb] does. *)
Definition Contains (m other : t) : bool :=
  forallb (λ i, N.land (GetWord m i) (GetWord other i) =? GetWord other i)
          [0; 1; 2; 3].

(** [bool None() const] *)
Definition NoneSet (m : t) : bool := negb (Any m).

(** [size_t Size() const] *)
Definition Size (m : t) : N := 256.

(** [bool operator==(const ComponentMask& other) const] and [operator!=]:
    the comparison of the two arrays. *)
Definition op_eq (m other : t) : bool :=
  forallb (λ i, GetWord m i =? GetWord other i) [0; 1; 2; 3].

Definition op_ne (m other : t) : bool := negb (op_eq m other).

(** [ComponentMask operator&(const ComponentMask& other) const] *)
Definition op_and (m other : t) : t :=
  fold_left (λ result i, SetWord result i (N.land (GetWord m i) (GetWord other i)))
            [0; 1; 2; 3] (Make 0).

(** [ComponentMask operator|(const ComponentMask& other) const] *)
Definition op_or (m other : t) : t :=
  fold_left (λ result i, SetWord result i (N.lor (GetWord m i) (GetWord other i)))
            [0; 1; 2; 3] (Make 0).

(** [__builtin_ctzll(w)]; the source calls it on non-zero words only. *)
Fixpoint ctz_pos (p : positive) : N :=
  match p with
  | xO q => N.succ (ctz_pos q)
  | _ => 0
  end.

Definition ctzll (w : N) : N :=
  match w with
  | Npos p => ctz_pos p
  | N0 => 0
  end.

(** The inner loop of [ForEachSetBit] on word [i]:
    [while (w) { bit = ctz(w); f(i * 64 + bit); w &= ~(1ULL << bit); }].
    [f] acts on a state of type [S].  A 64-bit word needs at most 64 turns
    ([word_loop_fuel] below). *)
Fixpoint word_loop {S : Type} (fuel : nat) (i w : N) (f : N → S → S) (s : S) : S :=
  match fuel with
  | O => s
  | Datatypes.S fuel' =>
      if w =? 0 then s
      else
        let bit := ctzll w in
        word_loop fuel' i (N.land w (N.lnot (N.shiftl 1 bit) 64)) f
                  (f (i * 64 + bit) s)
  end.

(** [template<typename F> void ForEachSetBit(F&& f) const] *)
Definition ForEachSetBit {S : Type} (m : t) (f : N → S → S) (s : S) : S :=
  fold_left (λ s i, word_loop 64 i (GetWord m i) f s) [0; 1; 2; 3] s.

(** Every word fits 64 bits. *)
Definition wf (m : t) : Prop :=
  w0 m < 2 ^ 64 ∧ w1 m < 2 ^ 64 ∧ w2 m < 2 ^ 64 ∧ w3 m < 2 ^ 64.

(** The set bits of a mask, in ascending order. *)
Definition set_bits (m : t) : list N :=
  List.filter (Test m) (map N.of_nat (seq 0 256)).

End ComponentMask.

(** ** Vectors *)

(** [v[i] = x]; defined inside the vector only. *)
Definition vec_set {A : Type} (v : list A) (i : nat) (x : A) : option (list A) :=
if (i <? length v)%nat then Some (<[i := x]> v) else None.

(** [v.pop_back()]; defined on a non-empty vector only. *)
Definition pop_back {A : Type} (v : list A) : option (list A) :=
match v with
| [] => None
| _ => Some (take (length v - 1) v)
end.

(** [n - 1] on [size_t]. *)
Definition size_pred (n : N) : N := (n + (2 ^ 64 - 1)) mod 2 ^ 64.

(** ** SparseSet.hpp *)

Module SparseSet.

(** [std::vector<std::unique_ptr<size_t[]>> m_SparsePages]: a page is
    absent ([nullptr], [None]) or an array of [k_PageSize] slots. *)
Abbreviation Pages := (list (option (list N))).

Definition pageId (index : N) : nat := N.to_nat (Internal.GetPageID index).
Definition pageOffset (index : N) : nat := N.to_nat (Internal.GetPageOffset index).

(** [std::make_unique<size_t[]>(k_PageSize)] filled with [k_NullIndex]. *)
Definition new_page : list N := replicate (N.to_nat Internal.k_PageSize) k_NullIndex.

(** Reading [m_SparsePages[pageId][pageOffset]]. *)
Definition slot_get (pages : Pages) (index : N) : option N :=
  match pages !! pageId index with
  | Some (Some page) => page !! pageOffset index
  | _ => None
  end.

(** [m_SparsePages[pageId][pageOffset] = v] *)
Definition slot_set (pages : Pages) (index : N) (v : N) : option Pages :=
  match pages !! pageId index with
  | Some (Some page) =>
      page' ← vec_set page (pageOffset index) v;
      Some (<[pageId index := Some page']> pages)
  | _ => None
  end.

(** The first two statements of [Insert]: grow the page table up to
    [pageId] and allocate the page when its pointer is null. *)
Definition ensure_page (pages : Pages) (index : N) : Pages :=
  let pages1 :=
    if (length pages <=? pageId index)%nat
    then resize (pageId index + 1) None pages
    else pages in
  match pages1 !! pageId index with
  | Some None => <[pageId index := Some new_page]> pages1
  | _ => pages1
  end.

(** Reading the sparse index at an entity index; an absent page reads as
    all-null. *)
Definition read (pages : Pages) (index : N) : N :=
  default k_NullIndex (slot_get pages index).

Section WithComponent.

Context {Component : Type}.

Record t := Mk {
    m_DenseData : list Component;
    m_DenseToEntity : list EntityID;
    m_SparsePages : Pages
  }.

Definition empty : t := Mk [] [] [].

  (** [size_t Size() const] returns [m_DenseData.size()]. *)
Definition Size (s : t) : N := N.of_nat (length (m_DenseData s)).

Definition GetEntities (s : t) : list EntityID := m_DenseToEntity s.

Definition GetData (s : t) : list Component := m_DenseData s.

  (** [void Insert(EntityID entity, Component component)] *)
Definition Insert (s : t) (entity : EntityID) (component : Component) : option t :=
    let index := Internal.GetIndex entity in
    let pages := ensure_page (m_SparsePages s) index in
    denseIndex ← slot_get pages index;
    if negb (denseIndex =? k_NullIndex) then
      data ← vec_set (m_DenseData s) (N.to_nat denseIndex) component;
      entities ← vec_set (m_DenseToEntity s) (N.to_nat denseIndex) entity;
      Some (Mk data entities pages)
    else
      pages' ← slot_set pages index (Size s);
      Some (Mk (m_DenseData s ++ [component]) (m_DenseToEntity s ++ [entity]) pages').

  (** [bool Contains(EntityID entity) const noexcept] *)
Definition Contains (s : t) (entity : EntityID) : option bool :=
    let index := Internal.GetIndex entity in
    match m_SparsePages s !! pageId index with
    | None | Some None => Some false
    | Some (Some page) =>
        denseIndex ← page !! pageOffset index;
        if denseIndex =? k_NullIndex then Some false
        else
          stored ← m_DenseToEntity s !! N.to_nat denseIndex;
          Some (stored =? entity)
    end.

  (** [void Remove(EntityID entity)] *)
Definition Remove (s : t) (entity : EntityID) : option t :=
    let index := Internal.GetIndex entity in
    match m_SparsePages s !! pageId index with
    | None | Some None => Some s
    | Some (Some page) =>
        denseIndexToRemove ← page !! pageOffset index;
        if denseIndexToRemove =? k_NullIndex then Some s
        else
          stored ← m_DenseToEntity s !! N.to_nat denseIndexToRemove;
          if negb (stored =? entity) then Some s
          else
            let lastDenseIndex := size_pred (Size s) in
            s1 ← (if negb (denseIndexToRemove =? lastDenseIndex) then
                    lastEntity ← m_DenseToEntity s !! N.to_nat lastDenseIndex;
                    lastData ← m_DenseData s !! N.to_nat lastDenseIndex;
                    let lastEntityIndex := Internal.GetIndex lastEntity in
                    data ← vec_set (m_DenseData s) (N.to_nat denseIndexToRemove) lastData;
                    entities ← vec_set (m_DenseToEntity s) (N.to_nat denseIndexToRemove) lastEntity;
                    pages ← slot_set (m_SparsePages s) lastEntityIndex denseIndexToRemove;
                    Some (Mk data entities pages)
                  else Some s);
            data ← pop_back (m_DenseData s1);
            entities ← pop_back (m_DenseToEntity s1);
            pages ← slot_set (m_SparsePages s1) index k_NullIndex;
            Some (Mk data entities pages)
    end.

  (** [Component& Get(EntityID entity)], read through the reference. *)
Definition Get (s : t) (entity : EntityID) : option Component :=
    c ← Contains s entity;
    if c : bool then
      denseIndex ← slot_get (m_SparsePages s) (Internal.GetIndex entity);
      m_DenseData s !! N.to_nat denseIndex
    else None.

  (** [Get(entity) = component], a write through the reference. *)
Definition Assign (s : t) (entity : EntityID) (component : Component) : option t :=
    c ← Contains s entity;
    if c : bool then
      denseIndex ← slot_get (m_SparsePages s) (Internal.GetIndex entity);
      data ← vec_set (m_DenseData s) (N.to_nat denseIndex) component;
      Some (Mk data (m_DenseToEntity s) (m_SparsePages s))
    else None.

  (** What the sparse index says of an entity index. *)
Definition sparse_at (s : t) (index : N) : N := read (m_SparsePages s) index.

End WithComponent.

Arguments t : clear implicits.

(** The specialization for empty component types
    ([requires std::is_empty_v<Component>]): the same members without
    [m_DenseData]. *)
Module Tag.

Record t := Mk {
  m_DenseToEntity : list EntityID;
  m_SparsePages : Pages
}.

Definition empty : t := Mk [] [].

(** [size_t Size() const] returns [m_DenseToEntity.size()]. *)
Definition Size (s : t) : N := N.of_nat (length (m_DenseToEntity s)).

Definition GetEntities (s : t) : list EntityID := m_DenseToEntity s.

(** [void Insert(EntityID entity, Component)] *)
Definition Insert (s : t) (entity : EntityID) : option t :=
  let index := Internal.GetIndex entity in
  let pages := ensure_page (m_SparsePages s) index in
  denseIndex ← slot_get pages index;
  if negb (denseIndex =? k_NullIndex) then
    entities ← vec_set (m_DenseToEntity s) (N.to_nat denseIndex) entity;
    Some (Mk entities pages)
  else
    pages' ← slot_set pages index (Size s);
    Some (Mk (m_DenseToEntity s ++ [entity]) pages').

(** [bool Contains(EntityID entity) const noexcept] *)
Definition Contains (s : t) (entity : EntityID) : option bool :=
  let index := Internal.GetIndex entity in
  match m_SparsePages s !! pageId index with
  | None | Some None => Some false
  | Some (Some page) =>
      denseIndex ← page !! pageOffset index;
      if denseIndex =? k_NullIndex then Some false
      else
        stored ← m_DenseToEntity s !! N.to_nat denseIndex;
        Some (stored =? entity)
  end.

(** [void Remove(EntityID entity)] *)
Definition Remove (s : t) (entity : EntityID) : option t :=
  let index := Internal.GetIndex entity in
  match m_SparsePages s !! pageId index with
  | None | Some None => Some s
  | Some (Some page) =>
      denseIndexToRemove ← page !! pageOffset index;
      if denseIndexToRemove =? k_NullIndex then Some s
      else
        stored ← m_DenseToEntity s !! N.to_nat denseIndexToRemove;
        if negb (stored =? entity) then Some s
        else
          let lastDenseIndex := size_pred (Size s) in
          s1 ← (if negb (denseIndexToRemove =? lastDenseIndex) then
                  lastEntity ← m_DenseToEntity s !! N.to_nat lastDenseIndex;
                  let lastEntityIndex := Internal.GetIndex lastEntity in
                  entities ← vec_set (m_DenseToEntity s) (N.to_nat denseIndexToRemove) lastEntity;
                  pages ← slot_set (m_SparsePages s) lastEntityIndex denseIndexToRemove;
                  Some (Mk entities pages)
                else Some s);
          entities ← pop_back (m_DenseToEntity s1);
          pages ← slot_set (m_SparsePages s1) index k_NullIndex;
          Some (Mk entities pages)
  end.

(** [Component& Get(EntityID)]: the one static instance, under
    [assert(Contains(entity))]. *)
Definition Get (s : t) (entity : EntityID) : option unit :=
  c ← Contains s entity;
  if c : bool then Some tt else None.

End Tag.

End SparseSet.

(** ** Observer.hpp *)

Inductive ComponentEvent := Added | Removed | Modified.

(** ** World.hpp, World.cpp *)

Module World.

Section WithComponent.

Context {Component : Type}.

(** [ComponentCallback<T>]: the callback's name and what it writes through
    its [T&] argument. *)
Record Callback := MkCallback {
  cb_name : nat;
  cb_run : EntityID → Component → Component
}.

(** [struct SignalStorage<T>] *)
Record SignalStorage := MkSignals {
  onAdded : list Callback;
  onRemoved : list Callback;
  onModified : list Callback
}.

(** One invocation [cb(id, component)] made by [TriggerEvent<T>]. *)
Record Call := MkCall {
  call_event : ComponentEvent;
  call_component : N;
  call_name : nat;
  call_entity : EntityID;
  call_value : Component
}.

(** The data members of [class World].  [m_StoresByID[c]] is a pointer to a
    store owned by [m_ComponentStores]; [Some k] points at the store kept
    under key [k].  [m_OnRemovedTriggers[c]] is empty ([None]) or the closure
    that calls [TriggerEvent<T>(eid, Removed)] for the type with id [k]. *)
Record t := Mk {
  m_StoresByID : list (option N);
  m_ComponentStores : gmap N (SparseSet.t Component);
  m_ComponentSignals : gmap N SignalStorage;
  m_OnRemovedTriggers : list (option N);
  m_EntitySignatures : list ComponentMask.t;
  m_EntityGenerations : list N;
  m_FreeEntities : list EntityID
}.

Definition empty : t := Mk [] ∅ ∅ [] [] [] [].

Definition with_StoresByID (w : t) (x : list (option N)) : t :=
  Mk x (m_ComponentStores w) (m_ComponentSignals w) (m_OnRemovedTriggers w)
     (m_EntitySignatures w) (m_EntityGenerations w) (m_FreeEntities w).

Definition with_ComponentStores (w : t) (x : gmap N (SparseSet.t Component)) : t :=
  Mk (m_StoresByID w) x (m_ComponentSignals w) (m_OnRemovedTriggers w)
     (m_EntitySignatures w) (m_EntityGenerations w) (m_FreeEntities w).

Definition with_ComponentSignals (w : t) (x : gmap N SignalStorage) : t :=
  Mk (m_StoresByID w) (m_ComponentStores w) x (m_OnRemovedTriggers w)
     (m_EntitySignatures w) (m_EntityGenerations w) (m_FreeEntities w).

Definition with_OnRemovedTriggers (w : t) (x : list (option N)) : t :=
  Mk (m_StoresByID w) (m_ComponentStores w) (m_ComponentSignals w) x
     (m_EntitySignatures w) (m_EntityGenerations w) (m_FreeEntities w).

Definition with_EntitySignatures (w : t) (x : list ComponentMask.t) : t :=
  Mk (m_StoresByID w) (m_ComponentStores w) (m_ComponentSignals w) (m_OnRemovedTriggers w)
     x (m_EntityGenerations w) (m_FreeEntities w).

Definition with_EntityGenerations (w : t) (x : list N) : t :=
  Mk (m_StoresByID w) (m_ComponentStores w) (m_ComponentSignals w) (m_OnRemovedTriggers w)
     (m_EntitySignatures w) x (m_FreeEntities w).

Definition with_FreeEntities (w : t) (x : list EntityID) : t :=
  Mk (m_StoresByID w) (m_ComponentStores w) (m_ComponentSignals w) (m_OnRemovedTriggers w)
     (m_EntitySignatures w) (m_EntityGenerations w) x.

(** [v.resize(index + 1)] under the guard [index >= v.size()], where [index]
    is a [uint32_t]: the sum is taken on 32 bits. *)
Definition grow_to_index {A : Type} (v : list A) (index : N) (x : A) : list A :=
  if (length v <=? N.to_nat index)%nat
  then resize (N.to_nat (u32 (index + 1))) x v
  else v.

(** [v.resize(id + 1)] under the guard [id >= v.size()], where [id] is a
    [size_t] component id. *)
Definition grow_to_id {A : Type} (v : list A) (id : N) (x : A) : list A :=
  if (length v <=? N.to_nat id)%nat
  then resize (N.to_nat (id + 1)) x v
  else v.

(** [bool IsAlive(EntityID id) const noexcept] *)
Definition IsAlive (w : t) (id : EntityID) : option bool :=
  let index := Internal.GetIndex id in
  let generation := Internal.GetGeneration id in
  if (N.to_nat index <? length (m_EntitySignatures w))%nat then
    g ← m_EntityGenerations w !! N.to_nat index;
    Some (g =? generation)
  else Some false.

(** [bool HasComponent(EntityID id) const], for the type with id [c]. *)
Definition HasComponent (w : t) (c : N) (id : EntityID) : bool :=
  let index := Internal.GetIndex id in
  match m_EntitySignatures w !! N.to_nat index with
  | None => false
  | Some signature => ComponentMask.Test signature c
  end.

(** [SparseSet<T>& GetStore()], for the type with id [c]: the store and the
    world, in which the store exists from now on. *)
Definition GetStore (w : t) (c : N) : SparseSet.t Component * t :=
  match m_ComponentStores w !! c with
  | Some store => (store, w)
  | None =>
      (SparseSet.empty,
       with_ComponentStores w (<[c := SparseSet.empty]> (m_ComponentStores w)))
  end.

(** Writing a store back at its place in [m_ComponentStores] (the source
    works on the store through a reference). *)
Definition put_store (w : t) (c : N) (store : SparseSet.t Component) : t :=
  with_ComponentStores w (<[c := store]> (m_ComponentStores w)).

(** [T& GetComponent(EntityID id)], read through the reference. *)
Definition GetComponent (w : t) (c : N) (id : EntityID) : option (Component * t) :=
  let '(store, w1) := GetStore w c in
  component ← SparseSet.Get store id;
  Some (component, w1).

(** [for (auto& cb : callbacks) cb(id, component);] with [component] a
    reference: the value after the loop and the invocations made. *)
Fixpoint run_callbacks (callbacks : list Callback) (event : ComponentEvent) (c : N)
    (id : EntityID) (component : Component) : Component * list Call :=
  match callbacks with
  | [] => (component, [])
  | cb :: rest =>
      let '(final, calls) := run_callbacks rest event c id (cb_run cb id component) in
      (final, MkCall event c (cb_name cb) id component :: calls)
  end.

Definition callbacks_of (signals : SignalStorage) (event : ComponentEvent) : list Callback :=
  match event with
  | Added => onAdded signals
  | Removed => onRemoved signals
  | Modified => onModified signals
  end.

(** [void TriggerEvent(EntityID id, ComponentEvent event)] *)
Definition TriggerEvent (w : t) (c : N) (id : EntityID) (event : ComponentEvent)
    : option (t * list Call) :=
  match m_ComponentSignals w !! c with
  | None => Some (w, [])
  | Some signals =>
      let '(store, w1) := GetStore w c in
      component ← SparseSet.Get store id;
      let '(final, calls) := run_callbacks (callbacks_of signals event) event c id component in
      store' ← SparseSet.Assign store id final;
      Some (put_store w1 c store', calls)
  end.

(** [void EnsureSignalStorage()] *)
Definition EnsureSignalStorage (w : t) (c : N) : t :=
  let id := c in
  let triggers := grow_to_id (m_OnRemovedTriggers w) id None in
  match triggers !! N.to_nat id with
  | Some None => with_OnRemovedTriggers w (<[N.to_nat id := Some c]> triggers)
  | _ => with_OnRemovedTriggers w triggers
  end.

(** [SignalStorage<T>& GetSignals()] *)
Definition GetSignals (w : t) (c : N) : SignalStorage * t :=
  match m_ComponentSignals w !! c with
  | Some signals => (signals, w)
  | None =>
      (MkSignals [] [] [],
       with_ComponentSignals w (<[c := MkSignals [] [] []]> (m_ComponentSignals w)))
  end.

(** [void OnEvent(ComponentEvent event, Func&& callback)] *)
Definition OnEvent (w : t) (c : N) (event : ComponentEvent) (callback : Callback) : t :=
  let w1 := EnsureSignalStorage w c in
  let '(signals, w2) := GetSignals w1 c in
  let signals' :=
    match event with
    | Added => MkSignals (onAdded signals ++ [callback]) (onRemoved signals) (onModified signals)
    | Removed => MkSignals (onAdded signals) (onRemoved signals ++ [callback]) (onModified signals)
    | Modified => MkSignals (onAdded signals) (onRemoved signals) (onModified signals ++ [callback])
    end in
  with_ComponentSignals w2 (<[c := signals']> (m_ComponentSignals w2)).

(** [void AddComponent(EntityID id, T component)] *)
Definition AddComponent (w : t) (c : N) (id : EntityID) (component : Component)
    : option (t * list Call) :=
  let index := Internal.GetIndex id in
  let w := with_EntitySignatures w
             (grow_to_index (m_EntitySignatures w) index (ComponentMask.Make 0)) in
  let '(store, w) := GetStore w c in
  store' ← SparseSet.Insert store id component;
  let w := put_store w c store' in
  let compId := c in
  signature ← m_EntitySignatures w !! N.to_nat index;
  let w := with_EntitySignatures w
             (<[N.to_nat index := ComponentMask.SetBit signature compId]> (m_EntitySignatures w)) in
  let w := with_StoresByID w (grow_to_id (m_StoresByID w) compId None) in
  byID ← vec_set (m_StoresByID w) (N.to_nat compId) (Some c);
  let w := with_StoresByID w byID in
  let w := EnsureSignalStorage w c in
  TriggerEvent w c id Added.

(** [void RemoveComponent(EntityID id)] *)
Definition RemoveComponent (w : t) (c : N) (id : EntityID) : option (t * list Call) :=
  let index := Internal.GetIndex id in
  if (N.to_nat index <? length (m_EntitySignatures w))%nat && HasComponent w c id then
    '(w, calls) ← TriggerEvent w c id Removed;
    let '(store, w) := GetStore w c in
    store' ← SparseSet.Remove store id;
    let w := put_store w c store' in
    signature ← m_EntitySignatures w !! N.to_nat index;
    let w := with_EntitySignatures w
               (<[N.to_nat index := ComponentMask.ResetBit signature c]> (m_EntitySignatures w)) in
    Some (w, calls)
  else Some (w, []).

(** [void PatchComponent(EntityID id, Func&& func)]; [func] is what the
    caller's function writes through the reference. *)
Definition PatchComponent (w : t) (c : N) (id : EntityID) (func : Component → Component)
    : option (t * list Call) :=
  if HasComponent w c id then
    '(component, w) ← GetComponent w c id;
    let '(store, w) := GetStore w c in
    store' ← SparseSet.Assign store id (func component);
    TriggerEvent (put_store w c store') c id Modified
  else Some (w, []).

(** [EntityID CreateEntity()] *)
Definition CreateEntity (w : t) : option (EntityID * t) :=
  match last (m_FreeEntities w) with
  | Some id =>
      free ← pop_back (m_FreeEntities w);
      let index := Internal.GetIndex id in
      generation ← m_EntityGenerations w !! N.to_nat index;
      Some (MakeEntityID generation index, with_FreeEntities w free)
  | None =>
      let index := u32 (N.of_nat (length (m_EntitySignatures w))) in
      let w := with_EntitySignatures w (m_EntitySignatures w ++ [ComponentMask.Make 0]) in
      let w := with_EntityGenerations w (m_EntityGenerations w ++ [0]) in
      Some (index, w)
  end.

(** The first loop of [CreateEntitiesBulk]:
    [while (count > 0 && !m_FreeEntities.empty())].  Every turn pops the free
    list, so its length bounds the number of turns; with no turn left and the
    condition still true there is no result. *)
Fixpoint drain_free (turns : nat) (count : N) (w : t) (entities : list EntityID)
    : option (N * t * list EntityID) :=
  if (0 <? count) && negb (bool_decide (m_FreeEntities w = [])) then
    match turns with
    | O => None
    | S turns' =>
        '(id, w) ← CreateEntity w;
        drain_free turns' (count - 1) w (entities ++ [id])
    end
  else Some (count, w, entities).

(** [std::vector<EntityID> CreateEntitiesBulk(size_t count)].  The counter of
    the second loop is a [uint32_t] compared with the [size_t] count: from
    [2^32] on the loop has no end and the call no result. *)
Definition CreateEntitiesBulk (w : t) (count : N) : option (list EntityID * t) :=
  '(count, w, entities) ← drain_free (length (m_FreeEntities w)) count w [];
  if 0 <? count then
    let startIndex := u32 (N.of_nat (length (m_EntitySignatures w))) in
    let size := N.to_nat ((startIndex + count) mod 2 ^ 64) in
    let w := with_EntitySignatures w (resize size (ComponentMask.Make 0) (m_EntitySignatures w)) in
    let w := with_EntityGenerations w (resize size 0 (m_EntityGenerations w)) in
    if count <? 2 ^ 32 then
      Some (entities ++ map (λ i, u32 (startIndex + N.of_nat i)) (seq 0 (N.to_nat count)), w)
    else None
  else Some (entities, w).

(** [EntityID CreateEntity(EntityID id)] *)
Definition CreateEntity_id (w : t) (id : EntityID) : option (EntityID * t) :=
  let index := Internal.GetIndex id in
  let generation := Internal.GetGeneration id in
  let w :=
    if (length (m_EntitySignatures w) <=? N.to_nat index)%nat then
      let w := with_EntitySignatures w
                 (resize (N.to_nat (u32 (index + 1))) (ComponentMask.Make 0) (m_EntitySignatures w)) in
      with_EntityGenerations w (resize (N.to_nat (u32 (index + 1))) 0 (m_EntityGenerations w))
    else w in
  alive ← IsAlive w id;
  if alive : bool then Some (id, w)
  else
    let w := with_FreeEntities w
               (List.filter (λ eid, negb (Internal.GetIndex eid =? index)) (m_FreeEntities w)) in
    generations ← vec_set (m_EntityGenerations w) (N.to_nat index) generation;
    let w := with_EntityGenerations w generations in
    signature ← m_EntitySignatures w !! N.to_nat index;
    let w := with_EntitySignatures w
               (<[N.to_nat index := ComponentMask.ResetAll signature]> (m_EntitySignatures w)) in
    Some (id, w).

(** [m_StoresByID[i]->Remove(id)] *)
Definition remove_by_id (w : t) (k : N) (id : EntityID) : option t :=
  store ← m_ComponentStores w !! k;
  store' ← SparseSet.Remove store id;
  Some (put_store w k store').

(** The body of the lambda [DestroyEntity] hands to [ForEachSetBit]. *)
Definition destroy_bit (id : EntityID) (i : N) (acc : option (t * list Call))
    : option (t * list Call) :=
  '(w, calls) ← acc;
  '(w, fired) ←
    match m_OnRemovedTriggers w !! N.to_nat i with
    | Some (Some k) => TriggerEvent w k id Removed
    | _ => Some (w, [])
    end;
  w ←
    match m_StoresByID w !! N.to_nat i with
    | Some (Some k) => remove_by_id w k id
    | _ => Some w
    end;
  Some (w, calls ++ fired).

(** [void DestroyEntity(EntityID id)] *)
Definition DestroyEntity (w : t) (id : EntityID) : option (t * list Call) :=
  let index := Internal.GetIndex id in
  alive ← IsAlive w id;
  if alive : bool then
    signature ← m_EntitySignatures w !! N.to_nat index;
    '(w, calls) ← ComponentMask.ForEachSetBit signature (destroy_bit id) (Some (w, []));
    signature ← m_EntitySignatures w !! N.to_nat index;
    let w := with_EntitySignatures w
               (<[N.to_nat index := ComponentMask.ResetAll signature]> (m_EntitySignatures w)) in
    generation ← m_EntityGenerations w !! N.to_nat index;
    let w := with_EntityGenerations w
               (<[N.to_nat index := u32 (generation + 1)]> (m_EntityGenerations w)) in
    generation ← m_EntityGenerations w !! N.to_nat index;
    let w := with_FreeEntities w (m_FreeEntities w ++ [MakeEntityID generation index]) in
    Some (w, calls)
  else Some (w, []).

(** [size_t GetEntityCount() const noexcept] *)
Definition GetEntityCount (w : t) : N := N.of_nat (length (m_EntitySignatures w)).

(** [EntityID GetEntityAt(uint32_t index) const noexcept] *)
Definition GetEntityAt (w : t) (index : N) : option EntityID :=
  generation ← m_EntityGenerations w !! N.to_nat index;
  Some (MakeEntityID generation index).

(** [const ComponentMask& GetEntityMask(EntityID id) const noexcept] *)
Definition GetEntityMask (w : t) (id : EntityID) : option ComponentMask.t :=
  m_EntitySignatures w !! N.to_nat (u32 id).

(** *** [World::View<Components...>] *)

(** The constructor of [View]: one [Set] per component of the pack. *)
Definition View_mask (cs : list N) : ComponentMask.t :=
  fold_left ComponentMask.SetBit cs (ComponentMask.Make 0).

(** [std::tie(m_World.GetStore<Components>()...)]: the stores of the pack,
    each kept under its component id. *)
Fixpoint GetStores (w : t) (cs : list N) : list (N * SparseSet.t Component) * t :=
  match cs with
  | [] => ([], w)
  | c :: rest =>
      let '(store, w) := GetStore w c in
      let '(stores, w) := GetStores w rest in
      ((c, store) :: stores, w)
  end.

(** [findSmallest]: the first store of the pack whose size is below every
    size before it.  [minSize] starts at the largest [size_t]. *)
Definition findSmallest (stores : list (N * SparseSet.t Component)) : N * option N :=
  fold_left
    (λ '(minSize, smallest) '(c, store),
       if SparseSet.Size store <? minSize then (SparseSet.Size store, Some c)
       else (minSize, smallest))
    stores (2 ^ 64 - 1, None).

(** The reference that element [pos] of the argument pack of [func] is
    bound to, for the row [i] of the driving store: [drivingData[i]] at the
    driving position, [std::get<I>(stores).Get(entity)] at every other one.
    The tuple [stores] holds references to the stores of the world, so the
    store is the one of component [c] as the world has it now.  (For a
    driving type that is empty the source reads the driving position with
    [Get] as well; the component types of [World] here are those of the
    primary template.) *)
Definition read_arg (w : t) (c : N) (driving : bool) (i : nat) (entity : EntityID)
    : option Component :=
  store ← m_ComponentStores w !! c;
  if driving then SparseSet.GetData store !! i else SparseSet.Get store entity.

(** A write of [func] through that reference. *)
Definition write_arg (w : t) (c : N) (driving : bool) (i : nat) (entity : EntityID)
    (component : Component) : option t :=
  store ← m_ComponentStores w !! c;
  store' ← (if driving then
              data ← vec_set (SparseSet.m_DenseData store) i component;
              Some (SparseSet.Mk data (SparseSet.m_DenseToEntity store)
                                 (SparseSet.m_SparsePages store))
            else SparseSet.Assign store entity component);
  Some (put_store w c store').

(** The arguments [func] is called with, for the row [i] of the driving
    store: the values behind the references, in the order of the pack. *)
Fixpoint call_args (w : t) (cs : list N) (pos drivingIdx : nat) (i : nat) (entity : EntityID)
    : option (list Component) :=
  match cs with
  | [] => Some []
  | c :: rest =>
      component ← read_arg w c (pos =? drivingIdx)%nat i entity;
      args ← call_args w rest (S pos) drivingIdx i entity;
      Some (component :: args)
  end.

(** What [func] has left in the references when it returns, written where
    the references point, in the order of the pack.  A reference for which
    [results] has no value was not written.  Two references of one type
    are one object, so a function leaves one value in both. *)
Fixpoint write_args (w : t) (cs : list N) (pos drivingIdx : nat) (i : nat) (entity : EntityID)
    (results : list Component) : option t :=
  match cs, results with
  | c :: rest, component :: results' =>
      w ← write_arg w c (pos =? drivingIdx)%nat i entity component;
      write_args w rest (S pos) drivingIdx i entity results'
  | _, _ => Some w
  end.

(** The loop of [callEach] over the dense rows of the driving store, from
    row [i] on.  [func] is the caller's function: from the values of the
    references it is called with to the values it leaves in them.  Each
    call is recorded with the entity of its row and its arguments.
    [entities] is the dense entity sequence of the driving store, which a
    write through a component reference does not change. *)
Fixpoint each_rows (w : t) (mask : ComponentMask.t) (cs : list N) (drivingIdx : nat) (i : nat)
    (entities : list EntityID) (func : list Component → list Component)
    : option (list (EntityID * list Component) * t) :=
  match entities with
  | [] => Some ([], w)
  | entity :: rest =>
      let index := Internal.GetIndex entity in
      signature ← m_EntitySignatures w !! N.to_nat index;
      '(here, w) ← (if ComponentMask.Contains signature mask then
                      args ← call_args w cs 0 drivingIdx i entity;
                      w ← write_args w cs 0 drivingIdx i entity (func args);
                      Some ([(entity, args)], w)
                    else Some ([], w));
      '(calls, w) ← each_rows w mask cs drivingIdx (S i) rest func;
      Some (here ++ calls, w)
  end.

(** The position of the first store of the pack that is the store of
    component [c]: the first [DrivingIdx] for which
    [&drivingStore == smallestStorePtr]. *)
Fixpoint driving_index (stores : list (N * SparseSet.t Component)) (c : N) : nat :=
  match stores with
  | [] => 0
  | (c', _) :: rest => if c' =? c then 0%nat else S (driving_index rest c)
  end.

(** [callEach] with the store of component [c] as the driving store: the
    calls of [func] and the world they leave. *)
Definition each_from (w : t) (cs : list N) (c : N) (func : list Component → list Component)
    : option (list (EntityID * list Component) * t) :=
  let '(stores, w) := GetStores w cs in
  let '(store, w) := GetStore w c in
  each_rows w (View_mask cs) cs (driving_index stores c) 0 (SparseSet.GetEntities store) func.

(** [void Each(Func&& func)]: the calls of [func], each with the entity of
    the row it was made for and the arguments it was given, and the world
    afterwards: the stores of the pack exist, and the components hold what
    [func] wrote through its references. *)
Definition Each (w : t) (cs : list N) (func : list Component → list Component)
    : option (list (EntityID * list Component) * t) :=
  match cs with
  | [] => Some ([], w)
  | _ =>
      let '(stores, w1) := GetStores w cs in
      match snd (findSmallest stores) with
      | None => Some ([], w1)
      | Some c => each_from w cs c func
      end
  end.

End WithComponent.

Arguments t : clear implicits.
Arguments Callback : clear implicits.
Arguments SignalStorage : clear implicits.
Arguments Call : clear implicits.

End World.

(** ** SystemScheduler.hpp, SystemScheduler.cpp: named systems and their
       dependency graph

    The anonymous systems ([m_Systems]) and the thread pool play no part in
    the graph mode and are left out.  A system function is known by a
    number; the empty [std::function] is [None]. *)

Module SystemScheduler.

(** [struct SystemNode] *)
Record SystemNode := MkNode {
  Name : string;
  Func : option nat;
  Dependencies : list string;
  Dependents : list string
}.

(** A default-constructed node, as [operator[]] makes one for a missing key. *)
Definition default_node : SystemNode := MkNode EmptyString None [] [].

(** [std::unordered_map<std::string, SystemNode>]: the entries, in the order
    in which the map is iterated (an order the standard leaves open; no
    theorem below depends on it). *)
Abbreviation Graph := (list (string * SystemNode)).

(** [m_Graph.find(name)] *)
Fixpoint graph_find (g : Graph) (name : string) : option SystemNode :=
  match g with
  | [] => None
  | (k, node) :: rest => if bool_decide (k = name) then Some node else graph_find rest name
  end.

(** [m_Graph[name] = node] *)
Fixpoint graph_set (g : Graph) (name : string) (node : SystemNode) : Graph :=
  match g with
  | [] => [(name, node)]
  | (k, old) :: rest =>
      if bool_decide (k = name) then (k, node) :: rest
      else (k, old) :: graph_set rest name node
  end.

(** [m_Graph[name]], read: a missing key gets a default node. *)
Definition graph_index (g : Graph) (name : string) : SystemNode * Graph :=
  match graph_find g name with
  | Some node => (node, g)
  | None => (default_node, graph_set g name default_node)
  end.

Record t := Mk {
  m_Graph : Graph;
  m_BatchedGraph : list (list string);
  m_GraphDirty : bool
}.

(** A new scheduler: [bool m_GraphDirty = true]. *)
Definition empty : t := Mk [] [] true.

(** [m_Graph[dep].Dependents.push_back(name)] *)
Definition push_dependent (g : Graph) (dep name : string) : Graph :=
  let '(node, g) := graph_index g dep in
  graph_set g dep (MkNode (Name node) (Func node) (Dependencies node) (Dependents node ++ [name])).

(** [void AddSystem(std::string name, std::function<void()> system,
    std::vector<std::string> dependencies)] *)
Definition AddSystem (s : t) (name : string) (system : option nat) (dependencies : list string) : t :=
  let node := MkNode name system dependencies [] in
  let g := graph_set (m_Graph s) name node in
  let '(added, g) := graph_index g name in
  let g :=
    fold_left
      (λ g dep, if graph_find g dep is Some _ then push_dependent g dep name else g)
      (Dependencies added) g in
  let g :=
    fold_left
      (λ g '(otherName, otherNode),
         if bool_decide (otherName = name) then g
         else
           fold_left
             (λ g dep, if bool_decide (dep = name) then push_dependent g name otherName else g)
             (Dependencies otherNode) g)
      g g in
  Mk g (m_BatchedGraph s) true.

(** [std::unordered_map<std::string, int> inDegree], read with
    [operator[]]: a missing key reads as 0.  The counters stay within the
    range of [int] as long as the dependency lists are shorter than [2^31]. *)
Definition degree (inDegree : gmap string Z) (name : string) : Z :=
  default 0%Z (inDegree !! name).

(** The body of the first loop of [RebuildGraph], and the loop. *)
Definition init_step (st : gmap string Z * list string) (entry : string * SystemNode)
    : gmap string Z * list string :=
  let '(inDegree, currentBatch) := st in
  let '(name, node) := entry in
  let inDegree := <[name := Z.of_nat (length (Dependencies node))]> inDegree in
  if (degree inDegree name =? 0)%Z then (inDegree, currentBatch ++ [name])
  else (inDegree, currentBatch).

Definition init_degrees (g : Graph) : gmap string Z * list string :=
  fold_left init_step g (∅, []).

(** [if (--inDegree[dependent] == 0) nextBatch.push_back(dependent);] *)
Definition release (st : gmap string Z * list string) (dependent : string)
    : gmap string Z * list string :=
  let '(inDegree, nextBatch) := st in
  let v := (degree inDegree dependent - 1)%Z in
  let inDegree := <[dependent := v]> inDegree in
  if (v =? 0)%Z then (inDegree, nextBatch ++ [dependent]) else (inDegree, nextBatch).

(** [for (const auto& dependent : m_Graph[name].Dependents) ...] *)
Definition visit (acc : Graph * (gmap string Z * list string)) (name : string)
    : Graph * (gmap string Z * list string) :=
  let '(g, st) := acc in
  let '(node, g) := graph_index g name in
  (g, fold_left release (Dependents node) st).

(** [while (!currentBatch.empty()) { ... }].  Under [graph_ok] every turn
    records nodes that were not recorded before, so that the number of nodes
    plus one bounds the turns; with no turn left there is no result. *)
Fixpoint batches_loop (turns : nat) (g : Graph) (inDegree : gmap string Z)
    (currentBatch : list string) (batched : list (list string))
    : option (Graph * list (list string)) :=
  match currentBatch with
  | [] => Some (g, batched)
  | _ =>
      match turns with
      | O => None
      | S turns' =>
          let batched := batched ++ [currentBatch] in
          let '(g, (inDegree, nextBatch)) :=
            fold_left visit currentBatch (g, (inDegree, [])) in
          batches_loop turns' g inDegree nextBatch batched
      end
  end.

(** How a call ends: normally, or with
    [std::runtime_error("SystemScheduler: Dependency cycle detected or
    missing dependencies.")]. *)
Inductive Outcome := Done | CycleError.

(** The sum of the batch sizes. *)
Definition totalNodes (batched : list (list string)) : nat :=
  fold_left (λ total batch, (total + length batch)%nat) batched 0%nat.

(** [void RebuildGraph()] *)
Definition RebuildGraph (s : t) : option (t * Outcome) :=
  let '(inDegree, currentBatch) := init_degrees (m_Graph s) in
  '(g, batched) ← batches_loop (S (length (m_Graph s))) (m_Graph s) inDegree currentBatch [];
  if (totalNodes batched <? length g)%nat
  then Some (Mk g batched (m_GraphDirty s), CycleError)
  else Some (Mk g batched false, Done).

(** The functions of one batch: a batch of one runs on the caller's thread,
    a larger one is handed to the pool and awaited; the calls of a batch are
    not ordered among themselves.  Calling an empty function has no result
    here. *)
Fixpoint batch_funcs (g : Graph) (batch : list string) : option (list nat * Graph) :=
  match batch with
  | [] => Some ([], g)
  | name :: rest =>
      let '(node, g) := graph_index g name in
      f ← Func node;
      '(fs, g) ← batch_funcs g rest;
      Some (f :: fs, g)
  end.

Fixpoint run_batches (g : Graph) (batched : list (list string))
    : option (list (list nat) * Graph) :=
  match batched with
  | [] => Some ([], g)
  | batch :: rest =>
      '(fs, g) ← batch_funcs g batch;
      '(executed, g) ← run_batches g rest;
      Some (fs :: executed, g)
  end.

(** [void RunGraph()]: the scheduler afterwards, how the call ended, and the
    functions that were executed, batch by batch. *)
Definition RunGraph (s : t) : option (t * Outcome * list (list nat)) :=
  match m_Graph s with
  | [] => Some (s, Done, [])
  | _ =>
      '(s, outcome) ← (if m_GraphDirty s then RebuildGraph s else Some (s, Done));
      match outcome with
      | CycleError => Some (s, CycleError, [])
      | Done =>
          '(executed, g) ← run_batches (m_Graph s) (m_BatchedGraph s);
          Some (Mk g (m_BatchedGraph s) (m_GraphDirty s), Done, executed)
      end
  end.

(** *** Well-formed graphs *)

Fixpoint count (x : string) (l : list string) : nat :=
  match l with
  | [] => 0
  | y :: rest => ((if bool_decide (y = x) then 1 else 0) + count x rest)%nat
  end.

Definition names (g : Graph) : list string := map fst g.

(** The graph as [AddSystem] keeps it while every name is added once: the
    names are distinct, every listed dependent is a node, and [n] lists [m]
    as a dependent as often as [m] lists [n] as a dependency. *)
Definition graph_ok (g : Graph) : bool :=
  bool_decide (NoDup (names g))
  && forallb (λ '(n, node_n),
        forallb (λ m, bool_decide (m ∈ names g)) (Dependents node_n)
        && forallb (λ '(m, node_m),
             (count m (Dependents node_n) =? count n (Dependencies node_m))%nat) g) g.

(** The batches are those of the graph, or the graph is marked dirty. *)
Definition sched_ok (s : t) : bool :=
  graph_ok (m_Graph s)
  && (m_GraphDirty s
      || match RebuildGraph s with
         | Some (s', Done) => bool_decide (m_BatchedGraph s' = m_BatchedGraph s)
         | _ => false
         end).

(** [a] lists [b] as a dependency. *)
Definition depends_on (g : Graph) (a b : string) : Prop :=
  ∃ node, graph_find g a = Some node ∧ b ∈ Dependencies node.

(** Some node lists a dependency for which there is no node. *)
Definition has_missing_dependency (g : Graph) : Prop :=
  ∃ a b, depends_on g a b ∧ graph_find g b = None.

(** Some node depends on itself through one or more dependencies. *)
Definition has_cycle (g : Graph) : Prop := ∃ a, tc (depends_on g) a a.

End SystemScheduler.

(** tests/SystemSchedulerTests.cpp: the schedulers of the tests
    RunGraph_SequentialDependencies, RunGraph_ParallelBranches and
    RunGraph_CycleDetection, and a scheduler with a missing dependency. *)
Definition sched_chain : SystemScheduler.t :=
  let s := SystemScheduler.empty in
  let s := SystemScheduler.AddSystem s "SystemA"%string (Some 1%nat) ([] : list string)%string in
  let s := SystemScheduler.AddSystem s "SystemB"%string (Some 2%nat) (["SystemA"] : list string)%string in
  SystemScheduler.AddSystem s "SystemC"%string (Some 3%nat) (["SystemB"] : list string)%string.

Definition sched_branches : SystemScheduler.t :=
  let s := SystemScheduler.empty in
  let s := SystemScheduler.AddSystem s "A"%string (Some 1%nat) ([] : list string)%string in
  let s := SystemScheduler.AddSystem s "B"%string (Some 2%nat) ([] : list string)%string in
  SystemScheduler.AddSystem s "C"%string (Some 3%nat) (["A"; "B"] : list string)%string.

Definition sched_cycle : SystemScheduler.t :=
  let s := SystemScheduler.empty in
  let s := SystemScheduler.AddSystem s "A"%string (Some 1%nat) (["B"] : list string)%string in
  SystemScheduler.AddSystem s "B"%string (Some 2%nat) (["A"] : list string)%string.

Definition sched_missing : SystemScheduler.t :=
  let s := SystemScheduler.empty in
  let s := SystemScheduler.AddSystem s "A"%string (Some 1%nat) ([] : list string)%string in
  SystemScheduler.AddSystem s "B"%string (Some 2%nat) (["A"; "Nowhere"] : list string)%string.

(** A name added twice: "B" is added, then "C", then "B" again with the same
    dependencies.  The graph has the cycle B, C. *)
Definition sched_readded : SystemScheduler.t :=
  let s := SystemScheduler.empty in
  let s := SystemScheduler.AddSystem s "A"%string (Some 1%nat) ([] : list string)%string in
  let s := SystemScheduler.AddSystem s "B"%string (Some 2%nat) (["A"; "C"] : list string)%string in
  let s := SystemScheduler.AddSystem s "C"%string (Some 3%nat) (["B"] : list string)%string in
  SystemScheduler.AddSystem s "B"%string (Some 2%nat) (["A"; "C"] : list string)%string.

(** ** Errors.hpp *)

Module ErrorCode.

Inductive t :=
| None | InvalidJson | MissingField | TypeMismatch
| ComponentNotRegistered | UnknownPrefab | InternalError.

End ErrorCode.

#[global] Instance ErrorCode_eq_dec : EqDecision ErrorCode.t.
Proof. solve_decision. Defined.

Module Result.

(** [struct Result] *)
Record t := Mk { code : ErrorCode.t; message : string }.

Definition Success (r : t) : bool := bool_decide (code r = ErrorCode.None).

Definition Ok : t := Mk ErrorCode.None EmptyString.

Definition Error (code : ErrorCode.t) (message : string) : t := Mk code message.

End Result.

(** [if (m_Reporter) m_Reporter->Report(res)]: the results handed to the
    reporter.  [m_Reporter] is a pointer that [SetErrorReporter] may set to
    null; the flag says whether it is set. *)
Definition report (m_Reporter : bool) (res : Result.t) : list Result.t :=
  if m_Reporter then [res] else [].

(** ** Streams *)

(** A [std::istream] over a buffer: the bytes not yet extracted, and
    whether the stream state is good. *)
Record istream := MkIn { in_bytes : list Byte.byte; in_good : bool }.

(** [is.read(buffer, n)] and the test [!is.read(...)] of the source: the
    [n] bytes extracted, or nothing when the stream is not good or has fewer
    than [n] bytes left; the stream is not good after that. *)
Definition read (stream : istream) (n : nat) : option (list Byte.byte) * istream :=
  if in_good stream then
    if (n <=? length (in_bytes stream))%nat
    then (Some (take n (in_bytes stream)), MkIn (drop n (in_bytes stream)) true)
    else (None, MkIn [] false)
  else (None, stream).

(** The object representation of an unsigned integer of [n] bytes, as
    [os.write(reinterpret_cast<const char*>(&x), sizeof(x))] writes it and
    [is.read(reinterpret_cast<char*>(&x), sizeof(x))] reads it back, least
    significant byte first. *)
Fixpoint le_bytes (n : nat) (x : N) : list Byte.byte :=
  match n with
  | O => []
  | S n' => default Byte.x00 (Byte.of_N (x mod 256)) :: le_bytes n' (x / 256)
  end.

Fixpoint le_value (bytes : list Byte.byte) : N :=
  match bytes with
  | [] => 0
  | b :: rest => Byte.to_N b + 256 * le_value rest
  end.

(** ** Serialization.hpp, Serialization.cpp *)

Module SerializationContext.

Section WithComponent.

Context {Component Json : Type}.

(** [struct ComponentSerializer].  A function member is empty or a closure
    that [Register<T>] or [RegisterBinary<T>] built: the component id of the
    [T] it was compiled for, and the user's function it calls.  A user's
    JSON deserializer returns the component or throws a [std::exception],
    of which [what()] is kept; a user's binary deserializer returns the
    component and leaves the stream as it read it. *)
Record ComponentSerializer := MkSerializer {
  name : string;
  id : N;
  serialize : option (N * (Component → string));
  deserialize : option (N * (Json → Component + string));
  binarySerialize : option (N * (Component → list Byte.byte));
  binaryDeserialize : option (N * (istream → Component * istream))
}.

(** The data members of [class SerializationContext].
    [m_SerializersByID[cid]] is null or a pointer to an element of
    [m_SerializersByName], here the key of the element.
    [m_ComponentTypeToName] is keyed by the component id of the type. *)
Record t := Mk {
  m_SerializersByName : gmap string ComponentSerializer;
  m_SerializersByID : list (option string);
  m_ComponentTypeToName : gmap N string;
  m_Reporter : bool
}.

Definition empty : t := Mk ∅ [] ∅ true.

(** [void SetErrorReporter(ErrorReporter* reporter)] *)
Definition SetErrorReporter (ctx : t) (reporter : bool) : t :=
  Mk (m_SerializersByName ctx) (m_SerializersByID ctx) (m_ComponentTypeToName ctx) reporter.

(** [m_SerializersByName[name]]: the element, value-initialized when the
    key is new. *)
Definition serializer_at (ctx : t) (key : string) : ComponentSerializer :=
  default (MkSerializer EmptyString 0 None None None None) (m_SerializersByName ctx !! key).

(** The end of [Register] and of [RegisterBinary]: the element is stored,
    the vector of pointers is resized and the pointer and the name of the
    type are set. *)
Definition store_serializer (ctx : t) (cid : N) (key : string) (serializer : ComponentSerializer)
    : option t :=
  let byID := World.grow_to_id (m_SerializersByID ctx) cid None in
  byID ← vec_set byID (N.to_nat cid) (Some key);
  Some (Mk (<[key := serializer]> (m_SerializersByName ctx)) byID
           (<[cid := key]> (m_ComponentTypeToName ctx)) (m_Reporter ctx)).

(** [void Register<T>(name, serialize, deserialize)], for the type with id
    [cid]. *)
Definition Register (ctx : t) (cid : N) (key : string)
    (serialize_fn : Component → string) (deserialize_fn : Json → Component + string)
    : option t :=
  let serializer := serializer_at ctx key in
  store_serializer ctx cid key
    (MkSerializer key cid (Some (cid, serialize_fn)) (Some (cid, deserialize_fn))
       (binarySerialize serializer) (binaryDeserialize serializer)).

(** [void RegisterBinary<T>(name, serialize, deserialize)] *)
Definition RegisterBinary (ctx : t) (cid : N) (key : string)
    (serialize_fn : Component → list Byte.byte) (deserialize_fn : istream → Component * istream)
    : option t :=
  let serializer := serializer_at ctx key in
  store_serializer ctx cid key
    (MkSerializer key cid (serialize serializer) (deserialize serializer)
       (Some (cid, serialize_fn)) (Some (cid, deserialize_fn))).


(** The test of the two loops over [cid] in [SerializeBinary]:
    [cid < mask.Size() && mask.Test(cid)], then
    [serializer && serializer->binarySerialize].  The name of the serializer
    and its function when all hold. *)
Definition binary_at (ctx : t) (mask : ComponentMask.t) (cid : N)
    : option (option (string * (N * (Component → list Byte.byte)))) :=
  if (cid <? ComponentMask.Size mask) && ComponentMask.Test mask cid then
    pointer ← m_SerializersByID ctx !! N.to_nat cid;
    match pointer with
    | Some key =>
        serializer ← m_SerializersByName ctx !! key;
        match binarySerialize serializer with
        | Some fn => Some (Some (name serializer, fn))
        | None => Some None
        end
    | None => Some None
    end
  else Some None.

(** The first loop of [SerializeBinary]: the entities that are alive. *)
Fixpoint count_alive (w : World.t Component) (indices : list nat) (entityCount : N)
    : option N :=
  match indices with
  | [] => Some entityCount
  | i :: rest =>
      entity ← World.GetEntityAt w (N.of_nat i);
      alive ← World.IsAlive w entity;
      count_alive w rest (if alive : bool then u32 (entityCount + 1) else entityCount)
  end.

(** The loop that counts the components of an entity. *)
Fixpoint count_components (ctx : t) (mask : ComponentMask.t) (cids : list nat)
    (componentCount : N) : option N :=
  match cids with
  | [] => Some componentCount
  | cid :: rest =>
      found ← binary_at ctx mask (N.of_nat cid);
      count_components ctx mask rest
        (if found is Some _ then u32 (componentCount + 1) else componentCount)
  end.

(** The loop that writes the components of an entity: the length of the
    name, the name, and what the user's function writes. *)
Fixpoint write_components (ctx : t) (entity : EntityID) (mask : ComponentMask.t)
    (cids : list nat) (w : World.t Component) (os : list Byte.byte)
    : option (list Byte.byte * World.t Component) :=
  match cids with
  | [] => Some (os, w)
  | cid :: rest =>
      found ← binary_at ctx mask (N.of_nat cid);
      match found with
      | Some (key, (c, serialize_fn)) =>
          let nameLen := u32 (N.of_nat (String.length key)) in
          let os := os ++ le_bytes 4 nameLen in
          let os := os ++ take (N.to_nat nameLen) (String.list_byte_of_string key) in
          '(component, w) ← World.GetComponent w c entity;
          write_components ctx entity mask rest w (os ++ serialize_fn component)
      | None => write_components ctx entity mask rest w os
      end
  end.

(** The second loop of [SerializeBinary]. *)
Fixpoint write_entities (ctx : t) (indices : list nat) (w : World.t Component)
    (os : list Byte.byte) : option (list Byte.byte * World.t Component) :=
  match indices with
  | [] => Some (os, w)
  | i :: rest =>
      entity ← World.GetEntityAt w (N.of_nat i);
      alive ← World.IsAlive w entity;
      if alive : bool then
        let os := os ++ le_bytes 8 entity in
        mask ← World.GetEntityMask w entity;
        let cids := seq 0 (length (m_SerializersByID ctx)) in
        componentCount ← count_components ctx mask cids 0;
        let os := os ++ le_bytes 4 componentCount in
        '(os, w) ← write_components ctx entity mask cids w os;
        write_entities ctx rest w os
      else write_entities ctx rest w os
  end.

(** [Result SerializeBinary(World& world, std::ostream& os)]: what is
    written to the stream, and the world (in which the stores that were
    asked for exist from now on).  The result is always [Result::Ok()]. *)
Definition SerializeBinary (ctx : t) (w : World.t Component)
    : option (Result.t * list Byte.byte * World.t Component) :=
  let totalEntities := u32 (World.GetEntityCount w) in
  let indices := seq 0 (N.to_nat totalEntities) in
  entityCount ← count_alive w indices 0;
  '(os, w) ← write_entities ctx indices w (le_bytes 4 entityCount);
  Some (Result.Ok, os, w).

(** How a loop of [DeserializeBinary] ends: it runs to its end or breaks,
    or the function returns. *)
Inductive Flow := Continue | Return (res : Result.t).

(** The inner loop of [DeserializeBinary], [componentCount - j] turns. *)
Fixpoint read_components (ctx : t) (newId : EntityID) (turns : nat)
    (w : World.t Component) (stream : istream) (calls : list (World.Call Component))
    : option (Flow * World.t Component * istream * list (World.Call Component) * list Result.t) :=
  match turns with
  | O => Some (Continue, w, stream, calls, [])
  | S turns' =>
      let '(nameLen, stream) := read stream 4 in
      match nameLen with
      | None => Some (Continue, w, stream, calls, [])
      | Some nameLen =>
          let '(key, stream) := read stream (N.to_nat (le_value nameLen)) in
          match key with
          | None => Some (Continue, w, stream, calls, [])
          | Some key =>
              let key := String.string_of_list_byte key in
              match binaryDeserialize <$> m_SerializersByName ctx !! key with
              | Some (Some (c, deserialize_fn)) =>
                  let '(component, stream) := deserialize_fn stream in
                  '(w, fired) ← World.AddComponent w c newId component;
                  read_components ctx newId turns' w stream (calls ++ fired)
              | _ =>
                  let res := Result.Error ErrorCode.ComponentNotRegistered
                               ("Component not registered or lacks binary deserializer: "
                                +:+ key) in
                  Some (Return res, w, stream, calls, report (m_Reporter ctx) res)
              end
          end
      end
  end.

(** The outer loop of [DeserializeBinary], [entityCount - i] turns. *)
Fixpoint read_entities (ctx : t) (turns : nat) (w : World.t Component) (stream : istream)
    (calls : list (World.Call Component))
    : option (Result.t * World.t Component * istream * list (World.Call Component) * list Result.t) :=
  match turns with
  | O => Some (Result.Ok, w, stream, calls, [])
  | S turns' =>
      let '(entity, stream) := read stream 8 in
      match entity with
      | None => Some (Result.Ok, w, stream, calls, [])
      | Some entity =>
          '(newId, w) ← World.CreateEntity_id w (le_value entity);
          let '(componentCount, stream) := read stream 4 in
          match componentCount with
          | None => Some (Result.Ok, w, stream, calls, [])
          | Some componentCount =>
              '(flow, w, stream, calls, reported) ←
                read_components ctx newId (N.to_nat (le_value componentCount)) w stream calls;
              match flow with
              | Return res => Some (res, w, stream, calls, reported)
              | Continue => read_entities ctx turns' w stream calls
              end
          end
      end
  end.

(** [Result DeserializeBinary(World& world, std::istream& is)]: the result,
    the world, the stream, the observer calls made and the results
    reported. *)
Definition DeserializeBinary (ctx : t) (w : World.t Component) (stream : istream)
    : option (Result.t * World.t Component * istream * list (World.Call Component) * list Result.t) :=
  let '(entityCount, stream) := read stream 4 in
  match entityCount with
  | None => Some (Result.Ok, w, stream, [], [])
  | Some entityCount => read_entities ctx (N.to_nat (le_value entityCount)) w stream []
  end.

End WithComponent.

Arguments ComponentSerializer : clear implicits.
Arguments t : clear implicits.

End SerializationContext.

(** ** Prefab.hpp, Prefab.cpp *)

Module PrefabManager.

Section WithComponent.

Context {Component Json : Type}.

(** The data members of [class PrefabManager] that [Instantiate] reads:
    a prefab is a [simdjson::dom::object], here the sequence of its fields,
    key and value.  The serialization context [m_Context] is a reference and
    is passed to the function. *)
Record t := Mk {
  m_Prefabs : gmap string (list (string * Json));
  m_Reporter : bool
}.



End WithComponent.

Arguments t : clear implicits.

End PrefabManager.

(** ** Invariants of the sparse set *)

Section SparseSetInvariant.

Context {Component : Type}.

(** Every allocated page has [k_PageSize] slots. *)
Definition pages_ok (pages : SparseSet.Pages) : Prop :=
  ∀ p page, pages !! p = Some (Some page) → length page = N.to_nat Internal.k_PageSize.

(** The invariants of [SparseSet<T>]: the dense sequences have one length;
    the sparse slot of every dense entry is the position of the entry; every
    non-null sparse slot is the position of an entry with that index. *)
Record sset_inv (s : SparseSet.t Component) : Prop := {
  inv_len : length (SparseSet.m_DenseData s) = length (SparseSet.m_DenseToEntity s);
  inv_pages : pages_ok (SparseSet.m_SparsePages s);
  inv_dense : ∀ i e, SparseSet.m_DenseToEntity s !! i = Some e →
                     SparseSet.sparse_at s (Internal.GetIndex e) = N.of_nat i;
  inv_sparse : ∀ index, index < 2 ^ 32 → SparseSet.sparse_at s index ≠ k_NullIndex →
                        ∃ e, SparseSet.m_DenseToEntity s !! N.to_nat (SparseSet.sparse_at s index) = Some e
                             ∧ Internal.GetIndex e = index;
  inv_bound : N.of_nat (length (SparseSet.m_DenseToEntity s)) <= 2 ^ 32
}.

(** The mutations of a sparse set. *)
Inductive SetOp :=
| OpInsert (entity : EntityID) (component : Component)
| OpRemove (entity : EntityID).

Definition run_op (s : SparseSet.t Component) (o : SetOp) : option (SparseSet.t Component) :=
  match o with
  | OpInsert entity component => SparseSet.Insert s entity component
  | OpRemove entity => SparseSet.Remove s entity
  end.

(** A sequence of mutations, first to last. *)
Fixpoint run_ops (s : SparseSet.t Component) (ops : list SetOp) : option (SparseSet.t Component) :=
  match ops with
  | [] => Some s
  | o :: rest => s' ← run_op s o; run_ops s' rest
  end.

(** The identifier passed to the last [Insert] of the sequence whose
    identifier has the index [index]. *)
Fixpoint last_insert (ops : list SetOp) (index : N) : option EntityID :=
  match ops with
  | [] => None
  | OpInsert entity _ :: rest =>
      match last_insert rest index with
      | Some e => Some e
      | None => if Internal.GetIndex entity =? index then Some entity else None
      end
  | OpRemove _ :: rest => last_insert rest index
  end.

End SparseSetInvariant.

(** The set of an empty type as a set of the primary template: one [tt]
    for every entity. *)
Definition with_data (s : SparseSet.Tag.t) : SparseSet.t unit :=
  SparseSet.Mk (replicate (length (SparseSet.Tag.m_DenseToEntity s)) tt)
               (SparseSet.Tag.m_DenseToEntity s) (SparseSet.Tag.m_SparsePages s).

Definition tag_run_op (s : SparseSet.Tag.t) (o : @SetOp unit) : option SparseSet.Tag.t :=
  match o with
  | OpInsert entity _ => SparseSet.Tag.Insert s entity
  | OpRemove entity => SparseSet.Tag.Remove s entity
  end.

Fixpoint tag_run_ops (s : SparseSet.Tag.t) (ops : list (@SetOp unit)) : option SparseSet.Tag.t :=
  match ops with
  | [] => Some s
  | o :: rest => s' ← tag_run_op s o; tag_run_ops s' rest
  end.

(** ** Calls of the public interface of [World], and reachable states *)

Section WorldStates.

Import World.

Context {Component : Type}.

Implicit Type w : World.t Component.

(** The store of component [c]; a store that was never asked for is an
    empty sparse set. *)
Definition store_of w (c : N) : SparseSet.t Component :=
  default SparseSet.empty (m_ComponentStores w !! c).

(** One call of the public interface. *)
Inductive Op :=
| CallCreateEntity
| CallCreateEntitiesBulk (count : N)
| CallCreateEntity_id (id : EntityID)
| CallDestroyEntity (id : EntityID)
| CallOnEvent (c : N) (event : ComponentEvent) (callback : Callback Component)
| CallPatchComponent (c : N) (id : EntityID) (func : Component → Component)
| CallAddComponent (c : N) (id : EntityID) (component : Component)
| CallRemoveComponent (c : N) (id : EntityID)
| CallEach (cs : list N) (func : list Component → list Component).

(** The world after a call that has a result. *)
Definition exec w (o : Op) : option (World.t Component) :=
  match o with
  | CallCreateEntity => snd <$> CreateEntity w
  | CallCreateEntitiesBulk count => snd <$> CreateEntitiesBulk w count
  | CallCreateEntity_id id => snd <$> CreateEntity_id w id
  | CallDestroyEntity id => fst <$> DestroyEntity w id
  | CallOnEvent c event callback => Some (OnEvent w c event callback)
  | CallPatchComponent c id func => fst <$> PatchComponent w c id func
  | CallAddComponent c id component => fst <$> AddComponent w c id component
  | CallRemoveComponent c id => fst <$> RemoveComponent w c id
  | CallEach cs func => snd <$> Each w cs func
  end.

Definition is_alive w (id : EntityID) : bool :=
  match IsAlive w id with
  | Some true => true
  | _ => false
  end.

(** The slot of [id] exists and has a signature bit set. *)
Definition slot_populated w (id : EntityID) : bool :=
  match m_EntitySignatures w !! N.to_nat (Internal.GetIndex id) with
  | Some signature => ComponentMask.Any signature
  | None => false
  end.

(** The discipline of use under which the store keeps its invariants:
    identifiers are 64-bit values; components are added to and removed from
    live entities; component ids are below 256; an identifier is recreated
    only over a slot that holds no component; bulk creation happens while
    the 32-bit index space is not exhausted. *)
Definition disciplined w (o : Op) : bool :=
  match o with
  | CallCreateEntitiesBulk _ => N.of_nat (length (m_EntitySignatures w)) <? 2 ^ 32
  | CallCreateEntity_id id => (id <? 2 ^ 64) && negb (slot_populated w id)
  | CallDestroyEntity id => id <? 2 ^ 64
  | CallAddComponent c id _ => (c <? 256) && (id <? 2 ^ 64) && is_alive w id
  | CallRemoveComponent c id => (id <? 2 ^ 64) && (is_alive w id || negb (HasComponent w c id))
  | _ => true
  end.

Definition any_use w (o : Op) : bool := true.

(** The states reachable from the empty world by calls that satisfy [G]. *)
Inductive reachable_by (G : World.t Component → Op → bool) : World.t Component → Prop :=
| reach_empty : reachable_by G World.empty
| reach_step w o w' :
    reachable_by G w → G w o = true → exec w o = Some w' → reachable_by G w'.

(** Reachable through the public interface, used in any way. *)
Definition api_reachable : World.t Component → Prop := reachable_by any_use.

(** Reachable through the public interface, used on live entities. *)
Definition reachable : World.t Component → Prop := reachable_by disciplined.

(** A sequence of calls, first to last; no result when a call has none or
    does not satisfy [G]. *)
Fixpoint run (G : World.t Component → Op → bool) w (ops : list Op) : option (World.t Component) :=
  match ops with
  | [] => Some w
  | o :: rest => if G w o then w' ← exec w o; run G w' rest else None
  end.

(** The invariants of the store. *)
Record world_inv w : Prop := {
  wi_len : length (m_EntityGenerations w) = length (m_EntitySignatures w);
  wi_gens : ∀ i g, m_EntityGenerations w !! i = Some g → g < 2 ^ 32;
  wi_masks : ∀ i m, m_EntitySignatures w !! i = Some m → ComponentMask.wf m;
  wi_stores : ∀ c, sset_inv (store_of w c);
  wi_stored : ∀ c e, e ∈ SparseSet.m_DenseToEntity (store_of w c) →
                     is_u64 e ∧ IsAlive w e = Some true ∧ HasComponent w c e = true;
  wi_bits : ∀ c e, is_u64 e → IsAlive w e = Some true → HasComponent w c e = true →
                   e ∈ SparseSet.m_DenseToEntity (store_of w c);
  wi_byid : ∀ c e, HasComponent w c e = true →
                   m_StoresByID w !! N.to_nat c = Some (Some c) ∧
                   m_OnRemovedTriggers w !! N.to_nat c = Some (Some c) ∧
                   is_Some (m_ComponentStores w !! c);
  wi_trig : ∀ i k, m_OnRemovedTriggers w !! i = Some (Some k) → k = N.of_nat i;
  wi_free : ∀ e, e ∈ m_FreeEntities w →
                 (N.to_nat (Internal.GetIndex e) < length (m_EntitySignatures w))%nat
}.

(** What holds of every state the interface produces, however it is used:
    the signatures are made of 64-bit words, every store keeps the
    invariants of the sparse set, a Removed trigger is registered under the
    id of its own component, and a store that holds an entity has its
    pointer and its trigger registered. *)
Record api_inv w : Prop := {
  ai_masks : Forall ComponentMask.wf (m_EntitySignatures w);
  ai_stores : ∀ c, sset_inv (store_of w c);
  ai_trig : ∀ i k, m_OnRemovedTriggers w !! i = Some (Some k) → k = N.of_nat i;
  ai_rows : ∀ c, SparseSet.m_DenseToEntity (store_of w c) ≠ [] →
                 m_StoresByID w !! N.to_nat c = Some (Some c) ∧
                 m_OnRemovedTriggers w !! N.to_nat c = Some (Some c)
}.

(** The components of [id] are recorded consistently: the signature of its
    slot is made of 64-bit words, the stores keep their invariants, a
    component of the signature has its store and its trigger registered and
    its store holds [id], and a store that holds [id] has its bit in the
    signature. *)
Record destroy_pre w (id : EntityID) : Prop := {
  dp_stores : ∀ c, sset_inv (store_of w c);
  dp_mask : ∀ m, m_EntitySignatures w !! N.to_nat (Internal.GetIndex id) = Some m →
                 ComponentMask.wf m;
  dp_byid : ∀ c, HasComponent w c id = true →
                 m_StoresByID w !! N.to_nat c = Some (Some c) ∧
                 m_OnRemovedTriggers w !! N.to_nat c = Some (Some c) ∧
                 is_Some (m_ComponentStores w !! c);
  dp_bits : ∀ c, HasComponent w c id = true →
                 id ∈ SparseSet.m_DenseToEntity (store_of w c);
  dp_stored : ∀ c, id ∈ SparseSet.m_DenseToEntity (store_of w c) →
                   HasComponent w c id = true
}.

(** [w'] differs from [w] in component values, in stores, triggers and
    pointers that came into existence, and in registered callbacks only. *)
Record same_shape w w' : Prop := {
  ss_sigs : m_EntitySignatures w' = m_EntitySignatures w;
  ss_gens : m_EntityGenerations w' = m_EntityGenerations w;
  ss_free : m_FreeEntities w' = m_FreeEntities w;
  ss_ents : ∀ c, SparseSet.m_DenseToEntity (store_of w' c) = SparseSet.m_DenseToEntity (store_of w c);
  ss_inv : ∀ c, sset_inv (store_of w c) → sset_inv (store_of w' c);
  ss_byid : ∀ i k, m_StoresByID w !! i = Some (Some k) → m_StoresByID w' !! i = Some (Some k);
  ss_trig : ∀ i k, m_OnRemovedTriggers w !! i = Some (Some k) →
                   m_OnRemovedTriggers w' !! i = Some (Some k);
  ss_trig_ok : (∀ i k, m_OnRemovedTriggers w !! i = Some (Some k) → k = N.of_nat i) →
               ∀ i k, m_OnRemovedTriggers w' !! i = Some (Some k) → k = N.of_nat i;
  ss_some : ∀ c, is_Some (m_ComponentStores w !! c) → is_Some (m_ComponentStores w' !! c)
}.

(** The invocations [TriggerEvent<T>(id, event)] makes in [w], for the type
    with id [c]. *)
Definition trigger_calls w (c : N) (id : EntityID) (event : ComponentEvent) : list (Call Component) :=
  match m_ComponentSignals w !! c with
  | None => []
  | Some signals =>
      match SparseSet.Get (store_of w c) id with
      | Some component => snd (run_callbacks (callbacks_of signals event) event c id component)
      | None => []
      end
  end.

(** The callbacks registered for an event of component [c], in
    registration order. *)
Definition observers w (c : N) (event : ComponentEvent) : list (Callback Component) :=
  match m_ComponentSignals w !! c with
  | None => []
  | Some signals => callbacks_of signals event
  end.

(** Which callback an invocation went to: component, event, name. *)
Definition call_key (call : Call Component) : N * ComponentEvent * nat :=
  (call_component call, call_event call, call_name call).

(** The filter of [View::Each] on an entity of the driving store. *)
Definition passes w (mask : ComponentMask.t) (entity : EntityID) : bool :=
  match m_EntitySignatures w !! N.to_nat (Internal.GetIndex entity) with
  | Some signature => ComponentMask.Contains signature mask
  | None => false
  end.

(** The state of the loop of [DestroyEntity w id] after the bits [done]:
    only the stores of these components have changed, and they have lost
    [id] and nothing else. *)
Record destroy_inv w (id : EntityID) (wc : World.t Component) (done : list N) : Prop := {
  di_sigs : m_EntitySignatures wc = m_EntitySignatures w;
  di_gens : m_EntityGenerations wc = m_EntityGenerations w;
  di_free : m_FreeEntities wc = m_FreeEntities w;
  di_signals : m_ComponentSignals wc = m_ComponentSignals w;
  di_byid : m_StoresByID wc = m_StoresByID w;
  di_trig : m_OnRemovedTriggers wc = m_OnRemovedTriggers w;
  di_inv : ∀ c, sset_inv (store_of wc c);
  di_todo : ∀ c, c ∉ done → store_of wc c = store_of w c;
  di_done : ∀ c, c ∈ done →
                 ∀ x, x ∈ SparseSet.m_DenseToEntity (store_of wc c) ↔
                      x ∈ SparseSet.m_DenseToEntity (store_of w c) ∧ x ≠ id;
  di_some : ∀ c, is_Some (m_ComponentStores w !! c) → is_Some (m_ComponentStores wc !! c)
}.

End WorldStates.

(** ** The invariant of the batching loop of [RebuildGraph] *)

(** The dependencies and the dependents a name has in the graph. *)
Definition dependencies_of (g : SystemScheduler.Graph) (name : string) : list string :=
  match SystemScheduler.graph_find g name with
  | Some node => SystemScheduler.Dependencies node
  | None => []
  end.

Definition dependents_of (g : SystemScheduler.Graph) (name : string) : list string :=
  match SystemScheduler.graph_find g name with
  | Some node => SystemScheduler.Dependents node
  | None => []
  end.

(** Every dependency of a recorded name is recorded before it. *)
Definition ordered (g : SystemScheduler.Graph) (recorded : list string) : Prop :=
  ∀ before m after, recorded = before ++ m :: after →
    ∀ d, d ∈ dependencies_of g m → d ∈ before.

(** The entries of the dependency list of [m] that are not recorded yet. *)
Definition waiting (g : SystemScheduler.Graph) (recorded : list string) (m : string) : nat :=
  length (filter (λ d, d ∉ recorded) (dependencies_of g m)).

(** At the head of the [while] loop: [recorded] are the names of
    [m_BatchedGraph], batch after batch. *)
Record kahn_inv (g : SystemScheduler.Graph) (inDegree : gmap string Z)
    (currentBatch recorded : list string) : Prop := {
  ki_nodup : NoDup (recorded ++ currentBatch);
  ki_names : ∀ x, x ∈ recorded ++ currentBatch → x ∈ SystemScheduler.names g;
  ki_degree : ∀ m, m ∈ SystemScheduler.names g →
    SystemScheduler.degree inDegree m = Z.of_nat (waiting g recorded m);
  ki_ready : ∀ m, m ∈ currentBatch → ∀ d, d ∈ dependencies_of g m → d ∈ recorded;
  ki_ordered : ordered g recorded
}.

(** The schedulers that the calls of [AddSystem], each with a name that is
    not in the graph yet, and of [RunGraph] lead to. *)
Inductive built : SystemScheduler.t → Prop :=
  | built_empty : built SystemScheduler.empty
  | built_add s name system dependencies :
      built s →
      name ∉ SystemScheduler.names (SystemScheduler.m_Graph s) →
      built (SystemScheduler.AddSystem s name system dependencies)
  | built_run s s' outcome executed :
      built s →
      SystemScheduler.RunGraph s = Some (s', outcome, executed) →
      built s'.

(** The batches are layers: every dependency of a member of a batch is a
    member of an earlier batch. *)
Definition layered (g : SystemScheduler.Graph) (batched : list (list string)) : Prop :=
  ∀ before batch after, batched = before ++ batch :: after →
    ∀ m, m ∈ batch → ∀ d, d ∈ dependencies_of g m → d ∈ concat before.

(** The function of a name. *)
Definition func_of (g : SystemScheduler.Graph) (name : string) : option nat :=
  node ← SystemScheduler.graph_find g name; SystemScheduler.Func node.

(** ** Serialization contexts and prefabs: what the calls amount to *)

Section SerialStates.

Import SerializationContext.

Context {Component Json : Type}.

Implicit Type ctx : SerializationContext.t Component Json.



(** The JSON deserializers are for component ids below 256. *)
Definition json_ids_small ctx : Prop :=
  ∀ key serializer cid deserialize_fn,
    m_SerializersByName ctx !! key = Some serializer →
    deserialize serializer = Some (cid, deserialize_fn) → cid < 256.

(** A binary deserializer reads back what the serializer wrote and leaves
    the rest of the stream. *)
Definition reads_back (serialize_fn : Component → list Byte.byte)
    (deserialize_fn : istream → Component * istream) : Prop :=
  ∀ component rest,
    deserialize_fn (MkIn (serialize_fn component ++ rest) true) = (component, MkIn rest true).

(** A context in which every name was registered for one type: an element
    is kept under its name, a pointer of [m_SerializersByID] leads to an
    element of its own type, and the binary functions of an element are
    for the type of the element, come in pairs and fit together. *)
Record ctx_ok ctx : Prop := {
  co_name : ∀ key serializer,
    m_SerializersByName ctx !! key = Some serializer → name serializer = key;
  co_pointer : ∀ (cid : nat) key,
    m_SerializersByID ctx !! cid = Some (Some key) →
    ∃ serializer, m_SerializersByName ctx !! key = Some serializer
                  ∧ id serializer = N.of_nat cid;
  co_binary : ∀ key serializer c serialize_fn,
    m_SerializersByName ctx !! key = Some serializer →
    binarySerialize serializer = Some (c, serialize_fn) →
    c = id serializer
    ∧ N.of_nat (String.length key) < 2 ^ 32
    ∧ ∃ deserialize_fn, binaryDeserialize serializer = Some (c, deserialize_fn)
                        ∧ reads_back serialize_fn deserialize_fn
}.

(** The name is new, or registered for the type with id [cid]. *)
Definition name_free_for ctx (key : string) (cid : N) : Prop :=
  ∀ serializer, m_SerializersByName ctx !! key = Some serializer → id serializer = cid.

(** The type with id [c] has a binary serializer. *)
Definition has_binary ctx (c : N) : bool :=
  match m_SerializersByID ctx !! N.to_nat c with
  | Some (Some key) =>
      match m_SerializersByName ctx !! key with
      | Some serializer => bool_decide (is_Some (binarySerialize serializer))
      | None => false
      end
  | _ => false
  end.

End SerialStates.

Section BinaryStates.

Import SerializationContext.

Context {Component Json : Type}.

Implicit Type ctx : SerializationContext.t Component Json.

(** The components [SerializeBinary] writes for an entity with the
    signature [mask]: those of the signature that have a binary
    serializer. *)
Definition binary_chosen ctx (mask : ComponentMask.t) (c : N) : bool :=
  ComponentMask.Test mask c && has_binary ctx c.

Definition written ctx (mask : ComponentMask.t) (cids : list nat) : list N :=
  List.filter (binary_chosen ctx mask) (map N.of_nat cids).

End BinaryStates.

Section RestoredStates.

Import World.

Context {Component Json : Type}.

(** The world [w2] while [DeserializeBinary] rebuilds [w] from what
    [SerializeBinary] wrote for it, the first [k] slots being done: no
    observer, no free slot, the generations of [w], and of the components
    of [w] those that have a binary serializer, with their values. *)
Record restored (ctx : SerializationContext.t Component Json) (w w2 : World.t Component)
    (k : nat) : Prop := {
  rs_reach : reachable w2;
  rs_signals : m_ComponentSignals w2 = ∅;
  rs_free : m_FreeEntities w2 = [];
  rs_gens : m_EntityGenerations w2 = take k (m_EntityGenerations w);
  rs_comp : ∀ e c, is_u64 e → IsAlive w e = Some true →
    (N.to_nat (Internal.GetIndex e) < k)%nat →
    HasComponent w2 c e = HasComponent w c e && has_binary ctx c
    ∧ (HasComponent w2 c e = true →
       SparseSet.Get (store_of w2 c) e = SparseSet.Get (store_of w c) e)
}.

End RestoredStates.

(** ** Concrete runs, on components that are numbers *)

(** Create an entity, destroy it, create again (the slot is reused with
    generation 1) and give the new entity component 0. *)
Definition recycle_ops : list (@Op N) :=
  [CallCreateEntity; CallDestroyEntity 0; CallCreateEntity;
   CallAddComponent 0 (MakeEntityID 1 0) 7].

Definition recycled_world : World.t N :=
  default World.empty (run disciplined World.empty recycle_ops).

(** Two entities; the first has components 0 and 3 and observers on both,
    the second has component 3. *)
Definition observed_ops : list (@Op N) :=
  [CallCreateEntity; CallCreateEntity;
   CallOnEvent 3 Removed (World.MkCallback 30 (λ _ x, x));
   CallOnEvent 0 Removed (World.MkCallback 10 (λ _ x, x));
   CallOnEvent 0 Added (World.MkCallback 11 (λ _ x, x + 1));
   CallOnEvent 0 Removed (World.MkCallback 12 (λ _ x, x));
   CallAddComponent 3 0 33; CallAddComponent 0 0 5; CallAddComponent 3 1 44].

Definition observed_world : World.t N :=
  default World.empty (run disciplined World.empty observed_ops).

(** One entity that was given a component whose id is 256. *)
Definition overflow_ops : list (@Op N) :=
  [CallCreateEntity; CallAddComponent 256 0 7].

Definition overflow_world : World.t N :=
  default World.empty (run any_use World.empty overflow_ops).



(** Uses of the interface outside the discipline of [disciplined]. *)










(** tests/SparseSetTests.cpp, GenerationValidation: the observations of
    the test, in its order. *)
Definition GenerationValidation_run : option (bool * bool * bool * N * bool * bool * string) :=
  let e1_g0 := 1%N in
  let e1_g1 := N.lor (N.shiftl 1 32) 1 in
  names ← SparseSet.Insert SparseSet.empty e1_g0 "Original"%string;
  c1 ← SparseSet.Contains names e1_g0;
  c2 ← SparseSet.Contains names e1_g1;
  names ← SparseSet.Remove names e1_g1;
  c3 ← SparseSet.Contains names e1_g0;
  let size := SparseSet.Size names in
  names ← SparseSet.Insert names e1_g1 "New"%string;
  c4 ← SparseSet.Contains names e1_g0;
  c5 ← SparseSet.Contains names e1_g1;
  v ← SparseSet.Get names e1_g1;
  Some (c1, c2, c3, size, c4, c5, v).

(** The set of that test after its first insertion. *)
Definition names_set : SparseSet.t string :=
  default SparseSet.empty (SparseSet.Insert SparseSet.empty 1 "Original"%string).

(** ** Scenarios of serialization and prefabs *)

(** A component that is a flag, written as one byte. *)
Definition write_flag (flag : bool) : list Byte.byte :=
  [if flag then Byte.x01 else Byte.x00].

Definition read_flag (stream : istream) : bool * istream :=
  let '(bytes, stream) := read stream 1 in
  (if bytes is Some [Byte.x00] then false else true, stream).

(** Binary serializers for the types with the ids 0 and 3. *)
Definition flag_ctx1 : SerializationContext.t bool unit :=
  default SerializationContext.empty
    (SerializationContext.RegisterBinary SerializationContext.empty 0 "Flag" write_flag read_flag).

Definition flag_ctx : SerializationContext.t bool unit :=
  default flag_ctx1
    (SerializationContext.RegisterBinary flag_ctx1 3 "Mark" write_flag read_flag).

(** Three entities, the last one destroyed; the first has component 0, the
    second the components 3 and 5. *)
Definition flag_ops : list (@Op bool) :=
  [CallCreateEntity; CallCreateEntity; CallCreateEntity;
   CallAddComponent 0 0 true; CallAddComponent 3 1 false; CallAddComponent 5 1 true;
   CallDestroyEntity 2].

Definition flag_world : World.t bool :=
  default World.empty (run disciplined World.empty flag_ops).




(** * Proofs *)

(** ** Bit-level facts *)

Lemma testbit_above (w n k : N) : w < 2 ^ n → n <= k → N.testbit w k = false.
Proof.
  intros Hw Hk. destruct (N.eq_dec w 0) as [->|Hnz]; [apply N.bits_0|].
  apply N.bits_above_log2. apply N.log2_lt_pow2; [lia|].
  eapply N.lt_le_trans; [exact Hw|]. apply N.pow_le_mono_r; lia.
Qed.

Lemma land_bit_nonzero (w k : N) :
  negb (N.land w (N.shiftl 1 k) =? 0) = N.testbit w k.
Proof.
  destruct (N.testbit w k) eqn:Hb.
  - apply negb_true_iff, N.eqb_neq. intros H0.
    assert (Hk : N.testbit (N.land w (N.shiftl 1 k)) k = true).
    { rewrite N.land_spec, Hb, N.shiftl_1_l, N.pow2_bits_true. reflexivity. }
    rewrite H0, N.bits_0 in Hk. discriminate.
  - apply negb_false_iff, N.eqb_eq, N.bits_inj. intros n.
    rewrite N.land_spec, N.bits_0, N.shiftl_1_l, N.pow2_bits_eqb.
    destruct (N.eqb_spec k n) as [->|Hne]; [rewrite Hb|]; auto using andb_false_r.
Qed.

Lemma GetIndex_lt (e : EntityID) : Internal.GetIndex e < 2 ^ 32.
Proof. unfold Internal.GetIndex, u32. apply N.mod_lt. discriminate. Qed.

Lemma GetGeneration_lt (e : EntityID) : Internal.GetGeneration e < 2 ^ 32.
Proof. unfold Internal.GetGeneration, u32. apply N.mod_lt. discriminate. Qed.

Lemma GetIndex_mod (e : EntityID) : Internal.GetIndex e = e mod 2 ^ 32.
Proof.
  unfold Internal.GetIndex, u32.
  change 0xFFFFFFFF with (N.ones 32). rewrite N.land_ones.
  apply N.mod_small, N.mod_lt. discriminate.
Qed.

Lemma GetGeneration_div (e : EntityID) :
  is_u64 e → Internal.GetGeneration e = e / 2 ^ 32.
Proof.
  unfold is_u64, Internal.GetGeneration, u32. intros He.
  rewrite N.shiftr_div_pow2. apply N.mod_small.
  apply N.Div0.div_lt_upper_bound. exact He.
Qed.

Lemma MakeEntityID_add (g i : N) : i < 2 ^ 32 → MakeEntityID g i = g * 2 ^ 32 + i.
Proof.
  intros Hi. unfold MakeEntityID. rewrite N.shiftl_mul_pow2.
  symmetry. rewrite N.add_nocarry_lxor.
  - rewrite N.lxor_lor; [reflexivity|].
    apply N.bits_inj. intros n. rewrite N.land_spec, N.bits_0.
    destruct (N.ltb_spec n 32).
    + rewrite N.mul_pow2_bits_low by assumption. reflexivity.
    + rewrite (testbit_above i 32 n) by assumption. apply andb_false_r.
  - apply N.bits_inj. intros n. rewrite N.land_spec, N.bits_0.
    destruct (N.ltb_spec n 32).
    + rewrite N.mul_pow2_bits_low by assumption. reflexivity.
    + rewrite (testbit_above i 32 n) by assumption. apply andb_false_r.
Qed.

Lemma GetIndex_Make (g i : N) : i < 2 ^ 32 → Internal.GetIndex (MakeEntityID g i) = i.
Proof.
  intros Hi. rewrite GetIndex_mod, MakeEntityID_add by assumption.
  rewrite N.add_comm, N.Div0.mod_add. apply N.mod_small. assumption.
Qed.

Lemma GetGeneration_Make (g i : N) :
  g < 2 ^ 32 → i < 2 ^ 32 → Internal.GetGeneration (MakeEntityID g i) = g.
Proof.
  intros Hg Hi. rewrite GetGeneration_div.
  - rewrite MakeEntityID_add by assumption.
    rewrite N.add_comm, N.div_add by discriminate.
    rewrite N.div_small by assumption. reflexivity.
  - unfold is_u64. rewrite MakeEntityID_add by assumption.
    change (2 ^ 64) with (2 ^ 32 * 2 ^ 32). nia.
Qed.

Lemma Make_Get (e : EntityID) :
  is_u64 e → MakeEntityID (Internal.GetGeneration e) (Internal.GetIndex e) = e.
Proof.
  intros He. rewrite MakeEntityID_add by apply GetIndex_lt.
  rewrite GetGeneration_div, GetIndex_mod by assumption.
  rewrite N.mul_comm. symmetry. apply N.Div0.div_mod.
Qed.

Lemma Make_is_u64 (g i : N) : g < 2 ^ 32 → i < 2 ^ 32 → is_u64 (MakeEntityID g i).
Proof.
  intros Hg Hi. unfold is_u64. rewrite MakeEntityID_add by assumption.
  change (2 ^ 64) with (2 ^ 32 * 2 ^ 32). nia.
Qed.

(** Two identifiers are equal iff both halves match. *)
Lemma entity_eq_halves (e1 e2 : EntityID) :
  is_u64 e1 → is_u64 e2 →
  Internal.GetIndex e1 = Internal.GetIndex e2 →
  Internal.GetGeneration e1 = Internal.GetGeneration e2 → e1 = e2.
Proof.
  intros H1 H2 Hi Hg.
  rewrite <- (Make_Get e1 H1), <- (Make_Get e2 H2). congruence.
Qed.

(** ** ComponentMask *)

Section MaskFacts.
Import ComponentMask.

Lemma GetWord_SetWord (m : t) (i j w : N) :
  i < 4 → j < 4 → GetWord (SetWord m i w) j = if i =? j then w else GetWord m j.
Proof.
  intros Hi Hj.
  assert (Ei : i = 0 ∨ i = 1 ∨ i = 2 ∨ i = 3) by lia.
  assert (Ej : j = 0 ∨ j = 1 ∨ j = 2 ∨ j = 3) by lia.
  destruct Ei as [->|[->|[->| ->]]]; destruct Ej as [->|[->|[->| ->]]]; reflexivity.
Qed.

Lemma wf_words (m : t) (i : N) : wf m → GetWord m i < 2 ^ 64.
Proof.
  intros (H0 & H1 & H2 & H3).
  destruct i as [|[[[]|[]|]|[[]|[]|]|]]; simpl; assumption.
Qed.

Lemma wf_SetWord (m : t) (i w : N) : wf m → w < 2 ^ 64 → wf (SetWord m i w).
Proof.
  intros (H0 & H1 & H2 & H3) Hw.
  destruct i as [|[[[]|[]|]|[[]|[]|]|]]; simpl; repeat split; assumption.
Qed.

Lemma wf_Make (val : N) : val < 2 ^ 64 → wf (Make val).
Proof. intros H. repeat split; simpl; try assumption; reflexivity. Qed.

Lemma wf_ResetAll (m : t) : wf (ResetAll m).
Proof. repeat split. Qed.

Lemma bits_lt (w n : N) : (∀ k, n <= k → N.testbit w k = false) → w < 2 ^ n.
Proof.
  intros H. destruct (N.eq_dec w 0) as [->|Hnz].
  - apply N.neq_0_lt_0, N.pow_nonzero. discriminate.
  - apply N.log2_lt_pow2; [lia|].
    destruct (N.lt_ge_cases (N.log2 w) n) as [|Hge]; [assumption|].
    specialize (H _ Hge). rewrite N.bit_log2 in H by assumption. discriminate.
Qed.

Lemma wf_SetBit (m : t) (b : N) : wf m → wf (SetBit m b).
Proof.
  intros Hm. unfold SetBit. destruct (N.ltb_spec b 256); [|assumption].
  apply wf_SetWord; [assumption|]. apply bits_lt. intros k Hk.
  rewrite N.lor_spec, (testbit_above _ 64 k (wf_words m _ Hm) Hk).
  rewrite N.shiftl_1_l, N.pow2_bits_eqb. simpl.
  apply N.eqb_neq. lia.
Qed.

Lemma wf_ResetBit (m : t) (b : N) : wf m → wf (ResetBit m b).
Proof.
  intros Hm. unfold ResetBit. destruct (N.ltb_spec b 256); [|assumption].
  apply wf_SetWord; [assumption|]. apply bits_lt. intros k Hk.
  rewrite N.land_spec, (testbit_above _ 64 k (wf_words m _ Hm) Hk).
  reflexivity.
Qed.

(** [Test] reads one bit of one word. *)
Lemma Test_spec (m : t) (b : N) :
  Test m b = (b <? 256) && N.testbit (GetWord m (b / 64)) (b mod 64).
Proof.
  unfold Test. destruct (N.leb_spec 256 b), (N.ltb_spec b 256); try lia.
  all: try reflexivity.
  rewrite andb_true_l. apply land_bit_nonzero.
Qed.

Lemma Test_lt (m : t) (b : N) : Test m b = true → b < 256.
Proof. rewrite Test_spec. intros [H _]%andb_true_iff. apply N.ltb_lt, H. Qed.

Lemma Test_Make0 (b : N) : Test (Make 0) b = false.
Proof.
  rewrite Test_spec.
  replace (GetWord (Make 0) (b / 64)) with 0.
  - rewrite N.bits_0. apply andb_false_r.
  - destruct (b / 64) as [|[[[]|[]|]|[[]|[]|]|]]; reflexivity.
Qed.

Lemma Test_ResetAll (m : t) (b : N) : Test (ResetAll m) b = false.
Proof. apply Test_Make0. Qed.

Lemma Test_SetBit (m : t) (b c : N) :
  Test (SetBit m b) c = Test m c || ((c =? b) && (b <? 256)).
Proof.
  rewrite !Test_spec. unfold SetBit.
  destruct (N.ltb_spec b 256) as [Hb|Hb].
  - destruct (N.ltb_spec c 256) as [Hc|Hc]; simpl.
    + rewrite GetWord_SetWord by lia.
      destruct (N.eqb_spec (b / 64) (c / 64)) as [Hw|Hw].
      * rewrite N.lor_spec, N.shiftl_1_l, N.pow2_bits_eqb, Hw.
        f_equal. rewrite andb_true_r.
        destruct (N.eqb_spec (b mod 64) (c mod 64)), (N.eqb_spec c b); try reflexivity; lia.
      * destruct (N.eqb_spec c b) as [->|]; [congruence|].
        simpl. rewrite orb_false_r. reflexivity.
    + destruct (N.eqb_spec c b); [lia|reflexivity].
  - rewrite andb_false_r, orb_false_r. reflexivity.
Qed.

Lemma Test_ResetBit (m : t) (b c : N) :
  Test (ResetBit m b) c = Test m c && negb (c =? b).
Proof.
  rewrite !Test_spec. unfold ResetBit.
  destruct (N.ltb_spec b 256) as [Hb|Hb].
  - destruct (N.ltb_spec c 256) as [Hc|Hc]; simpl; [|reflexivity].
    rewrite GetWord_SetWord by lia.
    destruct (N.eqb_spec (b / 64) (c / 64)) as [Hw|Hw].
    + rewrite N.land_spec, N.lnot_spec_low by lia.
      rewrite N.shiftl_1_l, N.pow2_bits_eqb, Hw. f_equal.
      destruct (N.eqb_spec (b mod 64) (c mod 64)), (N.eqb_spec c b); try reflexivity; lia.
    + destruct (N.eqb_spec c b) as [->|]; [congruence|].
      simpl. rewrite andb_true_r. reflexivity.
  - destruct (N.ltb_spec c 256) as [Hc|Hc]; simpl; [|reflexivity].
    destruct (N.eqb_spec c b); [lia|]. simpl. rewrite andb_true_r. reflexivity.
Qed.

Lemma land_eq_iff (a b : N) :
  N.land a b = b ↔ ∀ k, N.testbit b k = true → N.testbit a k = true.
Proof.
  split.
  - intros H k Hk. rewrite <- H, N.land_spec in Hk.
    apply andb_true_iff in Hk. apply Hk.
  - intros H. apply N.bits_inj. intros k. rewrite N.land_spec.
    destruct (N.testbit b k) eqn:Hb; [rewrite (H k Hb)|]; auto using andb_false_r.
Qed.

(** [Contains] is bitwise inclusion of the 256 bits. *)
Lemma Mask_Contains_spec (m other : t) :
  wf other →
  Contains m other = true ↔ ∀ c, Test other c = true → Test m c = true.
Proof.
  intros Hwf. unfold Contains. rewrite forallb_forall. split.
  - intros H c Hc. pose proof (Test_lt _ _ Hc) as Hlt.
    rewrite Test_spec in Hc |- *. apply andb_true_iff in Hc as [_ Hc].
    apply andb_true_iff. split; [apply N.ltb_lt; assumption|].
    assert (Hin : In (c / 64) [0; 1; 2; 3]).
    { assert (Hq : c / 64 < 4) by lia. simpl.
      assert (c / 64 = 0 ∨ c / 64 = 1 ∨ c / 64 = 2 ∨ c / 64 = 3) by lia. intuition. }
    specialize (H _ Hin). apply N.eqb_eq in H.
    eapply land_eq_iff; eassumption.
  - intros H i Hi. apply N.eqb_eq, land_eq_iff. intros k Hk.
    assert (Hi4 : i < 4) by (simpl in Hi; lia).
    assert (Hk64 : k < 64).
    { destruct (N.lt_ge_cases k 64) as [|Hge]; [assumption|].
      rewrite (testbit_above _ 64 k (wf_words other i Hwf) Hge) in Hk. discriminate. }
    specialize (H (i * 64 + k)). rewrite !Test_spec in H.
    replace ((i * 64 + k) / 64) with i in H by lia.
    replace ((i * 64 + k) mod 64) with k in H by lia.
    rewrite Hk in H. destruct (N.ltb_spec (i * 64 + k) 256); [|lia].
    simpl in H. apply H. reflexivity.
Qed.

(** *** [ForEachSetBit] visits the set bits in ascending order *)

Lemma ctz_pos_true (p : positive) : N.testbit (Npos p) (ctz_pos p) = true.
Proof.
  induction p as [p _|p IH|]; simpl ctz_pos; try reflexivity.
  change (N.pos p~0) with (N.double (N.pos p)).
  rewrite N.double_bits_succ. exact IH.
Qed.

Lemma ctz_pos_low (p : positive) (k : N) :
  k < ctz_pos p → N.testbit (Npos p) k = false.
Proof.
  revert k. induction p as [p _|p IH|]; simpl ctz_pos; intros k Hk; try lia.
  destruct (N.eq_dec k 0) as [->|Hk0]; [reflexivity|].
  replace k with (N.succ (N.pred k)) by lia.
  change (N.pos p~0) with (N.double (N.pos p)).
  rewrite N.double_bits_succ. apply IH. lia.
Qed.

Lemma ctzll_true (w : N) : w ≠ 0 → N.testbit w (ctzll w) = true.
Proof. destruct w; [congruence|]. intros _. apply ctz_pos_true. Qed.

Lemma ctzll_low (w k : N) : k < ctzll w → N.testbit w k = false.
Proof. destruct w; [intros; apply N.bits_0|]. apply ctz_pos_low. Qed.

Lemma filter_none {A : Type} (p : A → bool) (l : list A) :
  (∀ x, In x l → p x = false) → List.filter p l = [].
Proof.
  induction l as [|a l IH]; intros H; simpl; [reflexivity|].
  rewrite (H a) by (left; reflexivity). apply IH. intros x Hx. apply H. right. exact Hx.
Qed.

Lemma filter_map_swap {A B : Type} (p : B → bool) (g : A → B) (l : list A) :
  List.filter p (map g l) = map g (List.filter (λ x, p (g x)) l).
Proof.
  induction l as [|a l IH]; simpl; [reflexivity|].
  destruct (p (g a)); simpl; rewrite IH; reflexivity.
Qed.

Lemma word_loop_spec {S : Type} (f : N → S → S) (i : N) (fuel : nat) :
  ∀ (w : N) (s : S) (k : nat),
    w < 2 ^ 64 → (∀ j, j < N.of_nat k → N.testbit w j = false) →
    (k <= 64)%nat → (64 - k <= fuel)%nat →
    word_loop fuel i w f s
    = fold_left (λ s b, f (i * 64 + b) s)
        (List.filter (N.testbit w) (map N.of_nat (seq k (64 - k)))) s.
Proof.
  induction fuel as [|fuel IH]; intros w s k Hw Hlow Hk Hfuel.
  - replace (64 - k)%nat with 0%nat by lia. reflexivity.
  - simpl word_loop. destruct (N.eqb_spec w 0) as [->|Hnz].
    + rewrite filter_none; [reflexivity|]. intros; apply N.bits_0.
    + set (bit := ctzll w).
      assert (Hbit : N.testbit w bit = true) by (apply ctzll_true; assumption).
      assert (Hlt : bit < 64).
      { destruct (N.lt_ge_cases bit 64) as [|Hge]; [assumption|].
        rewrite (testbit_above w 64 bit Hw Hge) in Hbit. discriminate. }
      assert (Hge : N.of_nat k <= bit).
      { destruct (N.le_gt_cases (N.of_nat k) bit) as [|Hgt]; [assumption|].
        rewrite (Hlow bit Hgt) in Hbit. discriminate. }
      set (w' := N.land w (N.lnot (N.shiftl 1 bit) 64)).
      assert (Hw'bits : ∀ j, N.testbit w' j = N.testbit w j && negb (j =? bit)).
      { intros j. unfold w'. rewrite N.land_spec.
        destruct (N.lt_ge_cases j 64) as [Hj|Hj].
        - rewrite N.lnot_spec_low by assumption.
          rewrite N.shiftl_1_l, N.pow2_bits_eqb, (N.eqb_sym bit j). reflexivity.
        - rewrite (testbit_above w 64 j Hw Hj). reflexivity. }
      assert (Hw' : w' < 2 ^ 64).
      { apply bits_lt. intros j Hj. rewrite Hw'bits, (testbit_above w 64 j Hw Hj). reflexivity. }
      rewrite (IH w' _ (Datatypes.S (N.to_nat bit))); try assumption; try lia.
      * replace (64 - k)%nat
          with ((N.to_nat bit - k) + Datatypes.S (64 - Datatypes.S (N.to_nat bit)))%nat by lia.
        rewrite List.seq_app, List.map_app, List.filter_app, List.fold_left_app.
        rewrite (filter_none _ (map N.of_nat (seq k (N.to_nat bit - k)))).
        2:{ intros x [y [<- Hy%in_seq]]%in_map_iff. apply ctzll_low. fold bit. lia. }
        simpl fold_left at 2.
        replace (k + (N.to_nat bit - k))%nat with (N.to_nat bit) by lia.
        simpl seq. simpl map. simpl List.filter.
        rewrite N2Nat.id, Hbit. simpl fold_left.
        f_equal. apply List.filter_ext_in.
        intros x [y [<- Hy%in_seq]]%in_map_iff. rewrite Hw'bits.
        destruct (N.eqb_spec (N.of_nat y) bit); [lia|]. apply andb_true_r.
      * intros j Hj. rewrite Hw'bits.
        destruct (N.eqb_spec j bit) as [->|Hne]; [apply andb_false_r|].
        rewrite andb_true_r. apply ctzll_low. fold bit. lia.
Qed.

(** 64 turns are enough for a 64-bit word: the loop has then visited every
    set bit, lowest first. *)
Lemma word_loop_fuel {S : Type} (f : N → S → S) (i w : N) (s : S) :
  w < 2 ^ 64 →
  word_loop 64 i w f s
  = fold_left (λ s b, f (i * 64 + b) s)
      (List.filter (N.testbit w) (map N.of_nat (seq 0 64))) s.
Proof.
  intros Hw. apply (word_loop_spec f i 64 w s 0); try assumption; try lia.
Qed.

Lemma set_bits_word (m : t) (i : nat) :
  (i < 4)%nat →
  List.filter (Test m) (map N.of_nat (seq (i * 64) 64))
  = map (λ b, N.of_nat i * 64 + b)
      (List.filter (N.testbit (GetWord m (N.of_nat i))) (map N.of_nat (seq 0 64))).
Proof.
  intros Hi.
  replace (seq (i * 64) 64) with (map (λ x, i * 64 + x)%nat (seq 0 64)).
  2:{ change (map (λ x : nat, (i * 64 + x)%nat) (seq 0 64)) with (Nat.add (i * 64) <$> seq 0 64).
      rewrite fmap_add_seq. f_equal. lia. }
  rewrite !map_map, !filter_map_swap, map_map.
  erewrite List.filter_ext_in.
  - apply map_ext_in. intros x _. lia.
  - intros x Hx%in_seq. simpl. rewrite Test_spec.
    replace (N.of_nat (i * 64 + x) / 64) with (N.of_nat i) by lia.
    replace (N.of_nat (i * 64 + x) mod 64) with (N.of_nat x) by lia.
    destruct (N.ltb_spec (N.of_nat (i * 64 + x)) 256); [reflexivity|lia].
Qed.

Lemma ForEachSetBit_spec {S : Type} (m : t) (f : N → S → S) (s : S) :
  wf m → ForEachSetBit m f s = fold_left (λ s b, f b s) (set_bits m) s.
Proof.
  intros Hm. unfold ForEachSetBit, set_bits.
  change (seq 0 256) with (seq (0 * 64) 64 ++ seq (1 * 64) 64 ++ seq (2 * 64) 64 ++ seq (3 * 64) 64).
  rewrite !List.map_app, !List.filter_app, !List.fold_left_app.
  rewrite !set_bits_word by lia.
  assert (Hfold : ∀ (g : S → N → S) a b c d s0,
    fold_left g [a; b; c; d] s0 = g (g (g (g s0 a) b) c) d) by reflexivity.
  rewrite Hfold. cbv beta.
  rewrite !word_loop_fuel by (apply wf_words; assumption).
  assert (Hmap : ∀ (i : N) (l : list N) (s0 : S),
    fold_left (λ s b, f b s) (map (λ b, i * 64 + b) l) s0
    = fold_left (λ s b, f (i * 64 + b) s) l s0).
  { intros i l. induction l as [|a l IH]; intros s0; simpl; [reflexivity|apply IH]. }
  rewrite !Hmap. change (N.of_nat 0) with 0. change (N.of_nat 1) with 1.
  change (N.of_nat 2) with 2. change (N.of_nat 3) with 3. reflexivity.
Qed.

Lemma set_bits_In (m : t) (b : N) : In b (set_bits m) ↔ Test m b = true.
Proof.
  unfold set_bits. rewrite filter_In, in_map_iff. split.
  - intros [_ H]. exact H.
  - intros H. split; [|exact H]. exists (N.to_nat b). split; [lia|].
    apply in_seq. pose proof (Test_lt _ _ H). lia.
Qed.

Lemma sorted_filter (p : N → bool) (l : list N) :
  StronglySorted N.lt l → StronglySorted N.lt (List.filter p l).
Proof.
  induction 1 as [|a l Hs IH Hall]; simpl; [constructor|].
  destruct (p a); [|assumption]. constructor; [assumption|].
  rewrite List.Forall_forall in Hall |- *.
  intros x [Hx _]%filter_In. apply Hall, Hx.
Qed.

Lemma sorted_seq (k n : nat) : StronglySorted N.lt (map N.of_nat (seq k n)).
Proof.
  revert k. induction n as [|n IH]; intros k; simpl; constructor; [apply IH|].
  rewrite List.Forall_forall. intros x [y [<- Hy%in_seq]]%in_map_iff. lia.
Qed.

Lemma set_bits_sorted (m : t) : StronglySorted N.lt (set_bits m).
Proof. apply sorted_filter, sorted_seq. Qed.

Lemma sorted_NoDup (l : list N) : StronglySorted N.lt l → NoDup l.
Proof.
  induction 1 as [|a l Hs IH Hall]; constructor; [|assumption].
  intros Hin%list_elem_of_In. rewrite List.Forall_forall in Hall.
  specialize (Hall _ Hin). lia.
Qed.

End MaskFacts.

Section SparseSetTests.
Import SparseSet.
Local Open Scope string_scope.

Example GenerationValidation :
  GenerationValidation_run = Some (true, false, true, 1%N, false, true, "New").
Proof. vm_compute. reflexivity. Qed.

End SparseSetTests.

(** ** SparseSet *)

(** A bind of the option monad whose first argument is known. *)
Lemma bind_Some_simpl {A B : Type} (x : A) (f : A → option B) : Some x ≫= f = f x.
Proof. reflexivity. Qed.

Lemma bind_None_simpl {A B : Type} (f : A → option B) : None ≫= f = None.
Proof. reflexivity. Qed.

Ltac obind := rewrite ?bind_Some_simpl, ?bind_None_simpl; cbv beta iota zeta.
Tactic Notation "obind" "in" hyp(H) :=
  rewrite ?bind_Some_simpl, ?bind_None_simpl in H; cbv beta iota zeta in H.

Section SparseSetFacts.
Import SparseSet.
Context {Component : Type}.
Implicit Types (s : SparseSet.t Component) (pages : Pages) (e : EntityID).

Lemma pageOffset_lt (index : N) : (pageOffset index < N.to_nat Internal.k_PageSize)%nat.
Proof. unfold pageOffset, Internal.GetPageOffset, Internal.k_PageSize. lia. Qed.

Lemma page_index_inj (i j : N) : pageId i = pageId j → pageOffset i = pageOffset j → i = j.
Proof.
  unfold pageId, pageOffset, Internal.GetPageID, Internal.GetPageOffset, Internal.k_PageSize.
  lia.
Qed.

Lemma new_page_length : length new_page = N.to_nat Internal.k_PageSize.
Proof. unfold new_page. apply length_replicate. Qed.

Lemma new_page_lookup (i : nat) : default k_NullIndex (new_page !! i) = k_NullIndex.
Proof.
  unfold new_page. destruct (replicate _ _ !! i) eqn:E; [|reflexivity].
  apply lookup_replicate in E as [-> _]. reflexivity.
Qed.

Lemma slot_get_Some_ok pages index :
  pages_ok pages → (∃ page, pages !! pageId index = Some (Some page)) → is_Some (slot_get pages index).
Proof.
  intros Hok [page Hp]. unfold slot_get. rewrite Hp.
  apply lookup_lt_is_Some. rewrite (Hok _ _ Hp). apply pageOffset_lt.
Qed.

Lemma ensure_page_ok pages index : pages_ok pages → pages_ok (ensure_page pages index).
Proof.
  intros Hok. unfold ensure_page.
  set (pages1 := if (length pages <=? pageId index)%nat then _ else _).
  assert (Hok1 : pages_ok pages1).
  { unfold pages1. destruct (Nat.leb_spec (length pages) (pageId index)); [|assumption].
    intros p page Hp. rewrite resize_ge in Hp by lia.
    destruct (decide (p < length pages)%nat).
    - rewrite lookup_app_l in Hp by assumption. eapply Hok, Hp.
    - rewrite lookup_app_r in Hp by lia. apply lookup_replicate in Hp as [? _]. discriminate. }
  destruct (pages1 !! pageId index) as [[page|]|] eqn:E; try assumption.
  intros p page Hp. destruct (decide (p = pageId index)) as [->|Hne].
  - rewrite list_lookup_insert_eq in Hp by (eapply lookup_lt_Some, E).
    inversion Hp. apply new_page_length.
  - rewrite list_lookup_insert_ne in Hp by congruence. eapply Hok1, Hp.
Qed.

Lemma ensure_page_has pages index :
  ∃ page, ensure_page pages index !! pageId index = Some (Some page).
Proof.
  unfold ensure_page.
  set (pages1 := if (length pages <=? pageId index)%nat then _ else _).
  assert (Hlt : (pageId index < length pages1)%nat).
  { unfold pages1. destruct (Nat.leb_spec (length pages) (pageId index)); [|assumption].
    rewrite length_resize. lia. }
  destruct (pages1 !! pageId index) as [[page|]|] eqn:E.
  - eauto.
  - exists new_page. apply list_lookup_insert_eq. assumption.
  - apply lookup_ge_None in E. lia.
Qed.

Lemma ensure_page_read pages index j : read (ensure_page pages index) j = read pages j.
Proof.
  unfold ensure_page.
  set (pages1 := if (length pages <=? pageId index)%nat then _ else _).
  assert (H1 : ∀ p, (pages1 !! p = pages !! p) ∨ (pages1 !! p = Some None ∧ pages !! p = None)).
  { intros p. unfold pages1. destruct (Nat.leb_spec (length pages) (pageId index)); [|auto].
    rewrite resize_ge by lia.
    destruct (decide (p < length pages)%nat).
    - left. apply lookup_app_l. assumption.
    - rewrite lookup_app_r by lia.
      destruct (replicate _ _ !! _) eqn:E.
      + apply lookup_replicate in E as [-> _]. right. split; [reflexivity|].
        apply lookup_ge_None. lia.
      + left. symmetry. apply lookup_ge_None. lia. }
  assert (Hr1 : read pages1 j = read pages j).
  { unfold read, slot_get. destruct (H1 (pageId j)) as [->|[-> ->]]; reflexivity. }
  rewrite <- Hr1.
  destruct (pages1 !! pageId index) as [[page|]|] eqn:E; try reflexivity.
  unfold read, slot_get.
  destruct (decide (pageId j = pageId index)) as [Hj|Hj].
  - rewrite Hj, list_lookup_insert_eq by (eapply lookup_lt_Some, E).
    rewrite E. apply new_page_lookup.
  - rewrite list_lookup_insert_ne by congruence. reflexivity.
Qed.

Lemma slot_get_read pages index v : slot_get pages index = Some v → read pages index = v.
Proof. unfold read. intros ->. reflexivity. Qed.

Lemma slot_set_ok pages index v :
  pages_ok pages → (∃ page, pages !! pageId index = Some (Some page)) →
  ∃ pages', slot_set pages index v = Some pages' ∧ pages_ok pages' ∧
            length pages' = length pages ∧
            (∀ j, read pages' j = if decide (j = index) then v else read pages j).
Proof.
  intros Hok [page Hp]. unfold slot_set. rewrite Hp. unfold vec_set.
  pose proof (pageOffset_lt index) as Hoff.
  rewrite <- (Hok _ _ Hp) in Hoff.
  destruct (Nat.ltb_spec (pageOffset index) (length page)); [|lia].
  simpl. eexists. split; [reflexivity|]. split; [|split].
  - intros p page' Hp'. destruct (decide (p = pageId index)) as [->|Hne].
    + rewrite list_lookup_insert_eq in Hp' by (eapply lookup_lt_Some, Hp).
      inversion Hp'. rewrite length_insert. eapply Hok, Hp.
    + rewrite list_lookup_insert_ne in Hp' by congruence. eapply Hok, Hp'.
  - apply length_insert.
  - intros j. unfold read, slot_get.
    destruct (decide (pageId j = pageId index)) as [Hj|Hj].
    + rewrite Hj, list_lookup_insert_eq by (eapply lookup_lt_Some, Hp).
      rewrite Hp.
      destruct (decide (pageOffset j = pageOffset index)) as [Ho|Ho].
      * rewrite (page_index_inj j index Hj Ho), decide_True by reflexivity.
        rewrite list_lookup_insert_eq by assumption. reflexivity.
      * rewrite list_lookup_insert_ne by congruence.
        rewrite decide_False by congruence. reflexivity.
    + rewrite list_lookup_insert_ne by congruence.
      rewrite decide_False by congruence. reflexivity.
Qed.

Lemma slot_set_keeps pages index v pages' j :
  slot_set pages index v = Some pages' →
  (∃ page, pages !! pageId j = Some (Some page)) →
  ∃ page, pages' !! pageId j = Some (Some page).
Proof.
  unfold slot_set. destruct (pages !! pageId index) as [[page|]|] eqn:Hp; try discriminate.
  unfold vec_set. destruct (_ <? _)%nat; [|discriminate]. simpl.
  intros [= <-] [page' Hp']. destruct (decide (pageId j = pageId index)) as [Hj|Hj].
  - rewrite Hj, list_lookup_insert_eq by (eapply lookup_lt_Some, Hp). eauto.
  - rewrite list_lookup_insert_ne by congruence. eauto.
Qed.

Lemma read_nonnull_page pages j :
  read pages j ≠ k_NullIndex → ∃ page, pages !! pageId j = Some (Some page).
Proof.
  unfold read, slot_get. destruct (pages !! pageId j) as [[page|]|]; eauto; simpl; congruence.
Qed.

Lemma slot_get_read_ok pages j :
  pages_ok pages → (∃ page, pages !! pageId j = Some (Some page)) →
  slot_get pages j = Some (read pages j).
Proof.
  intros Hok Hp. destruct (slot_get_Some_ok pages j Hok Hp) as [v Hv].
  unfold read. rewrite Hv. reflexivity.
Qed.

Lemma pigeonhole (n : N) : ∀ l : list N,
  NoDup l → (∀ x, x ∈ l → x < n) → N.of_nat (length l) <= n.
Proof.
  induction n as [|n IH] using N.peano_ind; intros l Hnd Hlt.
  - destruct l as [|a l]; [simpl; lia|]. specialize (Hlt a (list_elem_of_here _ _)). lia.
  - destruct (decide (n ∈ l)) as [Hin|Hnin].
    + apply elem_of_Permutation in Hin as [k Hk].
      rewrite Hk in Hnd. rewrite Hk. apply NoDup_cons in Hnd as [Hnk Hndk].
      assert (N.of_nat (length k) <= n).
      { apply IH; [assumption|]. intros x Hx.
        assert (x < N.succ n) by (apply Hlt; rewrite Hk; right; assumption).
        assert (x ≠ n) by (intros ->; contradiction). lia. }
      simpl. lia.
    + assert (N.of_nat (length l) <= n); [|lia].
      apply IH; [assumption|]. intros x Hx.
      assert (x < N.succ n) by (apply Hlt; assumption).
      assert (x ≠ n) by (intros ->; contradiction). lia.
Qed.

Lemma ents_inj s i j x y :
  sset_inv s → m_DenseToEntity s !! i = Some x → m_DenseToEntity s !! j = Some y →
  Internal.GetIndex x = Internal.GetIndex y → i = j.
Proof.
  intros Hinv Hi Hj Heq.
  pose proof (inv_dense s Hinv _ _ Hi) as H1.
  pose proof (inv_dense s Hinv _ _ Hj) as H2.
  rewrite Heq in H1. lia.
Qed.

Lemma dense_lt s i x : sset_inv s → m_DenseToEntity s !! i = Some x → N.of_nat i < 2 ^ 32.
Proof.
  intros Hinv Hi. apply lookup_lt_Some in Hi. pose proof (inv_bound s Hinv). lia.
Qed.

Lemma dense_nonnull s i x :
  sset_inv s → m_DenseToEntity s !! i = Some x →
  sparse_at s (Internal.GetIndex x) ≠ k_NullIndex.
Proof.
  intros Hinv Hi. rewrite (inv_dense s Hinv _ _ Hi).
  pose proof (dense_lt s i x Hinv Hi). unfold k_NullIndex. lia.
Qed.

Lemma ents_NoDup s : sset_inv s → NoDup (m_DenseToEntity s).
Proof.
  intros Hinv. apply NoDup_alt. intros i j x Hi Hj. eapply ents_inj; eauto.
Qed.

Lemma ents_index_NoDup s : sset_inv s → NoDup (Internal.GetIndex <$> m_DenseToEntity s).
Proof.
  intros Hinv. apply NoDup_alt. intros i j x Hi Hj.
  rewrite list_lookup_fmap in Hi, Hj.
  destruct (m_DenseToEntity s !! i) as [a|] eqn:Ha; [|discriminate].
  destruct (m_DenseToEntity s !! j) as [b|] eqn:Hb; [|discriminate].
  simpl in Hi, Hj. eapply ents_inj; eauto. congruence.
Qed.

(** The entry the sparse index names for an identifier of the set. *)
Lemma sparse_at_elem s e :
  sset_inv s → e ∈ m_DenseToEntity s →
  m_DenseToEntity s !! N.to_nat (sparse_at s (Internal.GetIndex e)) = Some e.
Proof.
  intros Hinv [i Hi]%list_elem_of_lookup.
  rewrite (inv_dense s Hinv _ _ Hi), Nat2N.id. exact Hi.
Qed.

Lemma not_elem_null s e :
  sset_inv s → sparse_at s (Internal.GetIndex e) = k_NullIndex → e ∉ m_DenseToEntity s.
Proof.
  intros Hinv Hnull [i Hi]%list_elem_of_lookup.
  exact (dense_nonnull s i e Hinv Hi Hnull).
Qed.

Lemma not_elem_other s e e0 :
  sset_inv s →
  m_DenseToEntity s !! N.to_nat (sparse_at s (Internal.GetIndex e)) = Some e0 →
  e0 ≠ e → e ∉ m_DenseToEntity s.
Proof.
  intros Hinv H0 Hne Hin. rewrite (sparse_at_elem s e Hinv Hin) in H0. congruence.
Qed.

(** [Contains] decides membership in the dense entity sequence. *)
Lemma Contains_spec s e :
  sset_inv s → Contains s e = Some (bool_decide (e ∈ m_DenseToEntity s)).
Proof.
  intros Hinv. unfold Contains.
  destruct (m_SparsePages s !! pageId (Internal.GetIndex e)) as [[page|]|] eqn:Ep.
  - assert (Hg : slot_get (m_SparsePages s) (Internal.GetIndex e)
                 = Some (sparse_at s (Internal.GetIndex e))).
    { apply slot_get_read_ok; [apply Hinv|eauto]. }
    unfold slot_get in Hg. rewrite Ep in Hg. rewrite Hg. obind.
    destruct (N.eqb_spec (sparse_at s (Internal.GetIndex e)) k_NullIndex) as [Hn|Hn].
    + rewrite bool_decide_eq_false_2; [reflexivity|]. apply not_elem_null; assumption.
    + destruct (inv_sparse s Hinv _ (GetIndex_lt e) Hn) as (e0 & He0 & Hidx).
      rewrite He0. obind. f_equal.
      destruct (N.eqb_spec e0 e) as [->|Hne].
      * symmetry. apply bool_decide_eq_true_2. eapply list_elem_of_lookup_2, He0.
      * symmetry. apply bool_decide_eq_false_2. eapply not_elem_other; eauto.
  - rewrite bool_decide_eq_false_2; [reflexivity|]. apply not_elem_null; [assumption|].
    unfold sparse_at, read, slot_get. rewrite Ep. reflexivity.
  - rewrite bool_decide_eq_false_2; [reflexivity|]. apply not_elem_null; [assumption|].
    unfold sparse_at, read, slot_get. rewrite Ep. reflexivity.
Qed.

Lemma sset_inv_empty : sset_inv (@empty Component).
Proof.
  split; simpl.
  - reflexivity.
  - intros p page Hp. rewrite lookup_nil in Hp. discriminate.
  - intros i e Hi. rewrite lookup_nil in Hi. discriminate.
  - intros index _ Hn. exfalso. apply Hn. reflexivity.
  - lia.
Qed.

(** [Get] on an identifier of the set reads the dense slot the sparse index
    names. *)
Lemma Get_spec s e :
  sset_inv s → e ∈ m_DenseToEntity s →
  Get s e = m_DenseData s !! N.to_nat (sparse_at s (Internal.GetIndex e))
  ∧ is_Some (Get s e).
Proof.
  intros Hinv Hin. unfold Get. rewrite (Contains_spec s e Hinv).
  rewrite bool_decide_eq_true_2 by assumption. obind.
  pose proof (sparse_at_elem s e Hinv Hin) as Hk.
  assert (Hnn : sparse_at s (Internal.GetIndex e) ≠ k_NullIndex).
  { pose proof Hin as [i Hi]%list_elem_of_lookup. eapply dense_nonnull; eauto. }
  rewrite (slot_get_read_ok _ _ (inv_pages s Hinv) (read_nonnull_page _ _ Hnn)). obind.
  split; [reflexivity|]. apply lookup_lt_is_Some.
  rewrite (inv_len s Hinv). eapply lookup_lt_Some, Hk.
Qed.

Lemma Assign_spec s e v :
  sset_inv s → e ∈ m_DenseToEntity s →
  ∃ s', Assign s e v = Some s' ∧ sset_inv s' ∧
        m_DenseToEntity s' = m_DenseToEntity s ∧
        m_SparsePages s' = m_SparsePages s ∧
        length (m_DenseData s') = length (m_DenseData s) ∧
        Get s' e = Some v.
Proof.
  intros Hinv Hin. unfold Assign. rewrite (Contains_spec s e Hinv).
  rewrite bool_decide_eq_true_2 by assumption. obind.
  pose proof (sparse_at_elem s e Hinv Hin) as Hk.
  assert (Hnn : sparse_at s (Internal.GetIndex e) ≠ k_NullIndex).
  { pose proof Hin as [i Hi]%list_elem_of_lookup. eapply dense_nonnull; eauto. }
  rewrite (slot_get_read_ok _ _ (inv_pages s Hinv) (read_nonnull_page _ _ Hnn)).
  fold (sparse_at s (Internal.GetIndex e)). obind.
  assert (Hlt : (N.to_nat (sparse_at s (Internal.GetIndex e)) < length (m_DenseData s))%nat).
  { rewrite (inv_len s Hinv). eapply lookup_lt_Some, Hk. }
  unfold vec_set. destruct (Nat.ltb_spec (N.to_nat (sparse_at s (Internal.GetIndex e)))
                                         (length (m_DenseData s))); [|lia].
  obind. eexists. split; [reflexivity|].
  assert (Hinv' : sset_inv (Mk (<[N.to_nat (sparse_at s (Internal.GetIndex e)) := v]> (m_DenseData s))
                               (m_DenseToEntity s) (m_SparsePages s))).
  { destruct Hinv as [H1 H2 H3 H4 H5]. split; simpl; try assumption.
    rewrite length_insert. assumption. }
  split; [assumption|]. simpl. repeat split; try apply length_insert.
  destruct (Get_spec _ e Hinv' Hin) as [-> _]. simpl.
  apply list_lookup_insert_eq. assumption.
Qed.

Lemma Insert_spec s e v :
  sset_inv s →
  ∃ s', Insert s e v = Some s' ∧ sset_inv s' ∧
        (∀ x, x ∈ m_DenseToEntity s' ↔
              x = e ∨ (x ∈ m_DenseToEntity s ∧ Internal.GetIndex x ≠ Internal.GetIndex e)) ∧
        Get s' e = Some v.
Proof.
  intros Hinv. unfold Insert.
  set (idx := Internal.GetIndex e). set (pages1 := ensure_page (m_SparsePages s) idx).
  assert (Hok1 : pages_ok pages1) by (apply ensure_page_ok, Hinv).
  assert (Hhas1 : ∃ page, pages1 !! pageId idx = Some (Some page)) by apply ensure_page_has.
  assert (Hread1 : ∀ j, read pages1 j = sparse_at s j) by (intros; apply ensure_page_read).
  rewrite (slot_get_read_ok pages1 idx Hok1 Hhas1), Hread1. obind.
  assert (Hother : sparse_at s idx = k_NullIndex →
                   ∀ x, x ∈ m_DenseToEntity s → Internal.GetIndex x ≠ idx).
  { intros Hnull x [i Hi]%list_elem_of_lookup Hx.
    apply (dense_nonnull s i x Hinv Hi). rewrite Hx. exact Hnull. }
  destruct (N.eqb_spec (sparse_at s idx) k_NullIndex) as [Hnull|Hnn]; cbn [negb].
  - (* a new dense entry *)
    destruct (slot_set_ok pages1 idx (Size s) Hok1 Hhas1)
      as (pages2 & Hset & Hok2 & Hlen2 & Hread2).
    rewrite Hset. obind. eexists. split; [reflexivity|].
    assert (Hsize : Size s = N.of_nat (length (m_DenseToEntity s))).
    { unfold Size. rewrite (inv_len s Hinv). reflexivity. }
    assert (Hmem : ∀ x, x ∈ m_DenseToEntity s ++ [e] ↔
                        x = e ∨ (x ∈ m_DenseToEntity s ∧ Internal.GetIndex x ≠ idx)).
    { intros x. rewrite elem_of_app, list_elem_of_singleton. split.
      - intros [Hx| ->]; [right|left; reflexivity]. split; [assumption|]. apply Hother; assumption.
      - intros [->|[Hx _]]; auto. }
    assert (Hinv' : sset_inv (Mk (m_DenseData s ++ [v]) (m_DenseToEntity s ++ [e]) pages2)).
    { split; simpl.
      - rewrite !length_app, (inv_len s Hinv). reflexivity.
      - assumption.
      - intros i x Hi. unfold sparse_at. simpl. rewrite Hread2, Hread1.
        apply lookup_app_Some in Hi as [Hi|[Hge Hi]].
        + rewrite decide_False.
          * apply (inv_dense s Hinv), Hi.
          * apply Hother; [assumption|]. eapply list_elem_of_lookup_2, Hi.
        + apply list_lookup_singleton_Some in Hi as [Hi ->].
          fold idx. rewrite decide_True by reflexivity. rewrite Hsize. lia.
      - intros j Hj. unfold sparse_at. simpl. rewrite Hread2, Hread1.
        destruct (decide (j = idx)) as [->|Hne]; intros Hnn.
        + exists e. split; [|reflexivity]. rewrite Hsize, Nat2N.id.
          rewrite lookup_app_r by lia. rewrite Nat.sub_diag. reflexivity.
        + destruct (inv_sparse s Hinv j Hj Hnn) as (e1 & He1 & Hidx1).
          exists e1. split; [|assumption]. apply lookup_app_l_Some. assumption.
      - rewrite length_app. simpl.
        assert (Hp : N.of_nat (length (idx :: (Internal.GetIndex <$> m_DenseToEntity s))) <= 2 ^ 32).
        { apply pigeonhole.
          - apply NoDup_cons. split; [|apply ents_index_NoDup; assumption].
            intros (x & Hx1 & Hx2)%list_elem_of_fmap.
            exact (Hother Hnull x Hx2 (eq_sym Hx1)).
          - intros x [->|(y & -> & _)%list_elem_of_fmap]%elem_of_cons; apply GetIndex_lt. }
        simpl in Hp. rewrite length_fmap in Hp. lia. }
    split; [assumption|]. split; [exact Hmem|].
    assert (Hin : e ∈ m_DenseToEntity s ++ [e]) by (apply Hmem; left; reflexivity).
    destruct (Get_spec _ e Hinv' Hin) as [-> _]. simpl.
    unfold sparse_at. simpl. rewrite Hread2. fold idx. rewrite decide_True by reflexivity.
    unfold Size. rewrite Nat2N.id, lookup_app_r by lia.
    rewrite Nat.sub_diag. reflexivity.
  - (* the entry of this index is overwritten *)
    destruct (inv_sparse s Hinv idx (GetIndex_lt e) Hnn) as (e0 & He0 & Hidx0).
    set (k := N.to_nat (sparse_at s idx)) in *.
    assert (Hk : (k < length (m_DenseToEntity s))%nat) by (eapply lookup_lt_Some, He0).
    unfold vec_set. rewrite (inv_len s Hinv).
    destruct (Nat.ltb_spec k (length (m_DenseToEntity s))); [|lia].
    obind. eexists. split; [reflexivity|].
    assert (Hmem : ∀ x, x ∈ <[k := e]> (m_DenseToEntity s) ↔
                        x = e ∨ (x ∈ m_DenseToEntity s ∧ Internal.GetIndex x ≠ idx)).
    { intros x. split.
      - intros [i Hi]%list_elem_of_lookup. destruct (decide (i = k)) as [->|Hne].
        + rewrite list_lookup_insert_eq in Hi by assumption. left. congruence.
        + rewrite list_lookup_insert_ne in Hi by congruence. right.
          split; [eapply list_elem_of_lookup_2, Hi|].
          intros Hx. apply Hne. eapply (ents_inj s i k x e0); eauto. congruence.
      - intros [->|[[i Hi]%list_elem_of_lookup Hx]].
        + eapply list_elem_of_lookup_2. apply list_lookup_insert_eq. assumption.
        + eapply (list_elem_of_lookup_2 _ i). rewrite list_lookup_insert_ne; [assumption|].
          intros <-. rewrite Hi in He0. congruence. }
    assert (Hinv' : sset_inv (Mk (<[k := v]> (m_DenseData s)) (<[k := e]> (m_DenseToEntity s)) pages1)).
    { split; simpl.
      - rewrite !length_insert. apply Hinv.
      - assumption.
      - intros i x Hi. unfold sparse_at. simpl. rewrite Hread1.
        destruct (decide (i = k)) as [->|Hne].
        + rewrite list_lookup_insert_eq in Hi by assumption. inversion Hi; subst x.
          fold idx. unfold k. lia.
        + rewrite list_lookup_insert_ne in Hi by congruence. apply (inv_dense s Hinv), Hi.
      - intros j Hj. unfold sparse_at. simpl. rewrite Hread1. intros Hnnj.
        destruct (inv_sparse s Hinv j Hj Hnnj) as (e1 & He1 & Hidx1).
        destruct (decide (N.to_nat (sparse_at s j) = k)) as [Heq|Hne].
        + exists e. rewrite Heq, list_lookup_insert_eq by assumption.
          split; [reflexivity|]. rewrite Heq in He1. fold idx. congruence.
        + exists e1. rewrite list_lookup_insert_ne by congruence. auto.
      - rewrite length_insert. apply Hinv. }
    split; [assumption|]. split; [exact Hmem|].
    assert (Hin : e ∈ <[k := e]> (m_DenseToEntity s)) by (apply Hmem; left; reflexivity).
    destruct (Get_spec _ e Hinv' Hin) as [-> _]. simpl.
    unfold sparse_at. simpl. rewrite Hread1. fold idx. fold k.
    apply list_lookup_insert_eq. rewrite (inv_len s Hinv). assumption.
Qed.

Lemma size_pred_of_nat (n : nat) :
  (0 < n)%nat → N.of_nat n <= 2 ^ 32 → size_pred (N.of_nat n) = N.of_nat (n - 1).
Proof.
  intros Hn Hb. unfold size_pred.
  replace (N.of_nat n + (2 ^ 64 - 1)) with (N.of_nat (n - 1) + 1 * 2 ^ 64) by lia.
  rewrite N.Div0.mod_add. apply N.mod_small. lia.
Qed.

Lemma pop_back_Some {A : Type} (l : list A) :
  (0 < length l)%nat → pop_back l = Some (take (length l - 1) l).
Proof. destruct l; simpl; [lia|reflexivity]. Qed.

Lemma Remove_absent s e :
  sset_inv s → e ∉ m_DenseToEntity s → Remove s e = Some s.
Proof.
  intros Hinv Hnin. unfold Remove.
  destruct (m_SparsePages s !! pageId (Internal.GetIndex e)) as [[page|]|] eqn:Ep; try reflexivity.
  assert (Hg : slot_get (m_SparsePages s) (Internal.GetIndex e)
               = Some (sparse_at s (Internal.GetIndex e))).
  { apply slot_get_read_ok; [apply Hinv|eauto]. }
  unfold slot_get in Hg. rewrite Ep in Hg. rewrite Hg. obind.
  destruct (N.eqb_spec (sparse_at s (Internal.GetIndex e)) k_NullIndex) as [Hn|Hn]; [reflexivity|].
  destruct (inv_sparse s Hinv _ (GetIndex_lt e) Hn) as (e0 & He0 & Hidx).
  rewrite He0. obind.
  destruct (N.eqb_spec e0 e) as [->|Hne]; [|reflexivity].
  exfalso. apply Hnin. eapply list_elem_of_lookup_2, He0.
Qed.

Lemma Remove_present s e :
  sset_inv s → e ∈ m_DenseToEntity s →
  ∃ s', Remove s e = Some s' ∧ sset_inv s' ∧
        (∀ x, x ∈ m_DenseToEntity s' ↔ x ∈ m_DenseToEntity s ∧ x ≠ e).
Proof.
  intros Hinv Hin.
  set (idx := Internal.GetIndex e).
  set (d := sparse_at s idx).
  set (n := length (m_DenseToEntity s)).
  pose proof (sparse_at_elem s e Hinv Hin) as Hk. fold idx d in Hk.
  assert (Hnn : d ≠ k_NullIndex).
  { pose proof Hin as [i Hi]%list_elem_of_lookup. eapply dense_nonnull; eauto. }
  assert (Hkn : (N.to_nat d < n)%nat) by (eapply lookup_lt_Some, Hk).
  assert (Hlen : length (m_DenseData s) = n) by apply Hinv.
  assert (Hbound : N.of_nat n <= 2 ^ 32) by apply Hinv.
  assert (Hpage : ∃ page, m_SparsePages s !! pageId idx = Some (Some page))
    by (apply read_nonnull_page; exact Hnn).
  assert (Hinj : ∀ i x, m_DenseToEntity s !! i = Some x → Internal.GetIndex x = idx → i = N.to_nat d).
  { intros i x Hi Hx. eapply (ents_inj s i (N.to_nat d) x e); eauto. }
  unfold Remove. fold idx.
  destruct Hpage as [page Ep]. rewrite Ep.
  assert (Hg : slot_get (m_SparsePages s) idx = Some d).
  { apply slot_get_read_ok; [apply Hinv|eauto]. }
  unfold slot_get in Hg. rewrite Ep in Hg. rewrite Hg. obind.
  destruct (N.eqb_spec d k_NullIndex) as [Hd|_]; [exfalso; exact (Hnn Hd)|].
  rewrite Hk. obind. rewrite N.eqb_refl. cbn [negb].
  unfold Size. rewrite Hlen, size_pred_of_nat by (assumption || lia).
  destruct (N.eqb_spec d (N.of_nat (n - 1))) as [Hlast|Hnlast]; cbn [negb].
  - (* the entry is the last one *)
    obind. rewrite !pop_back_Some by lia. obind.
    destruct (slot_set_ok (m_SparsePages s) idx k_NullIndex (inv_pages s Hinv) (ex_intro _ page Ep))
      as (pages2 & Hset & Hok2 & _ & Hread2).
    rewrite Hset. obind. eexists. split; [reflexivity|].
    fold n. rewrite Hlen.
    assert (Hmem : ∀ x, x ∈ take (n - 1) (m_DenseToEntity s) ↔ x ∈ m_DenseToEntity s ∧ x ≠ e).
    { intros x. split.
      - intros [i Hi]%list_elem_of_lookup. apply lookup_take_Some in Hi as [Hi Hlt].
        split; [eapply list_elem_of_lookup_2, Hi|]. intros ->.
        assert (i = N.to_nat d) by (eapply Hinj; eauto). lia.
      - intros [[i Hi]%list_elem_of_lookup Hne].
        apply (list_elem_of_lookup_2 _ i). apply lookup_take_Some. split; [assumption|].
        pose proof (lookup_lt_Some _ _ _ Hi). fold n in H.
        assert (i ≠ (n - 1)%nat); [|lia]. intros ->.
        replace (n - 1)%nat with (N.to_nat d) in Hi by lia. congruence. }
    split; [|exact Hmem].
    split; simpl.
    + rewrite !length_take. lia.
    + assumption.
    + intros i x Hi. unfold sparse_at. simpl. rewrite Hread2.
      apply lookup_take_Some in Hi as [Hi Hlt].
      rewrite decide_False.
      * apply (inv_dense s Hinv), Hi.
      * intros Hx. assert (i = N.to_nat d) by (eapply Hinj; eauto). lia.
    + intros j Hj. unfold sparse_at. simpl. rewrite Hread2.
      destruct (decide (j = idx)) as [->|Hne]; [congruence|]. intros Hnnj.
      destruct (inv_sparse s Hinv j Hj Hnnj) as (e1 & He1 & Hidx1).
      exists e1. split; [|assumption]. apply lookup_take_Some. split; [assumption|].
      pose proof (lookup_lt_Some _ _ _ He1). fold n in H.
      assert (N.to_nat (sparse_at s j) ≠ (n - 1)%nat); [|unfold sparse_at in *; lia].
      intros Heq. rewrite Heq in He1. replace (n - 1)%nat with (N.to_nat d) in He1 by lia.
      rewrite Hk in He1. inversion He1; subst e1. apply Hne. symmetry. exact Hidx1.
    + rewrite length_take. fold n. lia.
  - (* the last entry moves into the freed slot *)
    rewrite Nat2N.id.
    destruct (lookup_lt_is_Some_2 (m_DenseToEntity s) (n - 1)) as [le Hle]; [fold n; lia|].
    destruct (lookup_lt_is_Some_2 (m_DenseData s) (n - 1)) as [ld Hld]; [lia|].
    rewrite Hle, Hld. obind.
    unfold vec_set at 1 2. rewrite Hlen. fold n.
    destruct (Nat.ltb_spec (N.to_nat d) n); [|lia]. obind.
    assert (Hleidx : Internal.GetIndex le ≠ idx).
    { intros Hx. assert ((n - 1)%nat = N.to_nat d) by (eapply Hinj; eauto). lia. }
    assert (Hlenn : sparse_at s (Internal.GetIndex le) ≠ k_NullIndex)
      by (eapply dense_nonnull; eauto).
    destruct (slot_set_ok (m_SparsePages s) (Internal.GetIndex le) d (inv_pages s Hinv)
                (read_nonnull_page _ _ Hlenn))
      as (pages1 & Hset1 & Hok1 & _ & Hread1).
    rewrite Hset1. obind. cbn [m_DenseData m_DenseToEntity m_SparsePages].
    rewrite !pop_back_Some by (rewrite length_insert; lia). obind.
    rewrite !length_insert, Hlen. fold n.
    destruct (slot_set_ok pages1 idx k_NullIndex Hok1
                (slot_set_keeps _ _ _ _ idx Hset1 (ex_intro _ page Ep)))
      as (pages2 & Hset2 & Hok2 & _ & Hread2).
    rewrite Hset2. obind. eexists. split; [reflexivity|].
    assert (Hmem : ∀ x, x ∈ take (n - 1) (<[N.to_nat d := le]> (m_DenseToEntity s)) ↔
                        x ∈ m_DenseToEntity s ∧ x ≠ e).
    { intros x. split.
      - intros [i Hi]%list_elem_of_lookup. apply lookup_take_Some in Hi as [Hi Hlt].
        destruct (decide (i = N.to_nat d)) as [->|Hne].
        + rewrite list_lookup_insert_eq in Hi by assumption. inversion Hi; subst x.
          split; [eapply list_elem_of_lookup_2, Hle|]. intros ->. apply Hleidx. reflexivity.
        + rewrite list_lookup_insert_ne in Hi by congruence.
          split; [eapply list_elem_of_lookup_2, Hi|]. intros ->.
          apply Hne. eapply Hinj; eauto.
      - intros [[i Hi]%list_elem_of_lookup Hne].
        pose proof (lookup_lt_Some _ _ _ Hi). fold n in H0.
        destruct (decide (i = (n - 1)%nat)) as [->|Hni].
        + apply (list_elem_of_lookup_2 _ (N.to_nat d)). apply lookup_take_Some.
          split; [|lia]. rewrite list_lookup_insert_eq by assumption. congruence.
        + apply (list_elem_of_lookup_2 _ i). apply lookup_take_Some. split; [|lia].
          rewrite list_lookup_insert_ne; [assumption|]. intros <-. congruence. }
    split; [|exact Hmem].
    split; simpl.
    + rewrite !length_take, !length_insert. lia.
    + assumption.
    + intros i x Hi. unfold sparse_at. simpl. rewrite Hread2, Hread1.
      apply lookup_take_Some in Hi as [Hi Hlt].
      destruct (decide (i = N.to_nat d)) as [->|Hne].
      * rewrite list_lookup_insert_eq in Hi by assumption. inversion Hi; subst x.
        rewrite decide_False by assumption. rewrite decide_True by reflexivity. lia.
      * rewrite list_lookup_insert_ne in Hi by congruence.
        rewrite decide_False.
        2:{ intros Hx. apply Hne. eapply Hinj; eauto. }
        rewrite decide_False.
        2:{ intros Hx. assert (i = (n - 1)%nat) by (eapply (ents_inj s i (n - 1) x le); eauto). lia. }
        apply (inv_dense s Hinv), Hi.
    + intros j Hj. unfold sparse_at. simpl. rewrite Hread2, Hread1.
      destruct (decide (j = idx)) as [->|Hne]; [congruence|].
      destruct (decide (j = Internal.GetIndex le)) as [->|Hnle]; intros Hnnj.
      * exists le. split; [|reflexivity]. apply lookup_take_Some. split; [|lia].
        apply list_lookup_insert_eq. assumption.
      * destruct (inv_sparse s Hinv j Hj Hnnj) as (e1 & He1 & Hidx1).
        exists e1. split; [|assumption]. apply lookup_take_Some.
        pose proof (lookup_lt_Some _ _ _ He1). fold n in H0.
        assert (N.to_nat (sparse_at s j) ≠ (n - 1)%nat).
        { intros Heq. rewrite Heq, Hle in He1. congruence. }
        assert (N.to_nat (sparse_at s j) ≠ N.to_nat d).
        { intros Heq. rewrite Heq, Hk in He1. inversion He1; subst e1.
          apply Hne. symmetry. exact Hidx1. }
        unfold sparse_at in *. split; [|lia].
        rewrite list_lookup_insert_ne by congruence. assumption.
    + rewrite length_take, length_insert. fold n. lia.
Qed.

(** [Remove] takes exactly the given identifier out of the set, and nothing
    else; the invariants hold afterwards. *)
Lemma Remove_spec s e :
  sset_inv s →
  ∃ s', Remove s e = Some s' ∧ sset_inv s' ∧
        (∀ x, x ∈ m_DenseToEntity s' ↔ x ∈ m_DenseToEntity s ∧ x ≠ e) ∧
        (e ∉ m_DenseToEntity s → s' = s).
Proof.
  intros Hinv. destruct (decide (e ∈ m_DenseToEntity s)) as [Hin|Hnin].
  - destruct (Remove_present s e Hinv Hin) as (s' & H1 & H2 & H3).
    exists s'. split; [assumption|]. split; [assumption|]. split; [assumption|].
    intros Hn. exfalso. exact (Hn Hin).
  - exists s. split; [apply Remove_absent; assumption|]. split; [assumption|].
    split; [|reflexivity]. intros x. split; [|tauto].
    intros Hx. split; [assumption|]. intros ->. contradiction.
Qed.

End SparseSetFacts.

Section SparseSetTheorems.

Import SparseSet.

Context {Component : Type}.

Implicit Types (s : SparseSet.t Component) (e : EntityID).

(** C5.  A sparse set that holds an entry for the identifier [e] rejects
    every stale identifier [e'] with the index of [e] and another
    generation: [Remove(e')] returns with the set as it was, and
    [Contains(e')] is false. *)
Theorem C5_stale_identifier_rejected s e e' :
  Contains s e = Some true →
  Internal.GetIndex e' = Internal.GetIndex e →
  Internal.GetGeneration e' ≠ Internal.GetGeneration e →
  Remove s e' = Some s ∧ Contains s e' = Some false.
Proof.
  intros Hc Hidx Hgen.
  assert (Hne : e ≠ e') by (intros ->; apply Hgen; reflexivity).
  unfold Contains in Hc. unfold Remove, Contains. rewrite Hidx.
  destruct (m_SparsePages s !! pageId (Internal.GetIndex e)) as [[page|]|]; try discriminate.
  destruct (page !! pageOffset (Internal.GetIndex e)) as [d|]; [|discriminate].
  obind in Hc. obind.
  destruct (d =? k_NullIndex); [discriminate|].
  destruct (m_DenseToEntity s !! N.to_nat d) as [stored|]; [|discriminate].
  obind in Hc. obind. inversion Hc as [Heq]. apply N.eqb_eq in Heq. subst stored.
  destruct (N.eqb_spec e e') as [|_]; [contradiction|].
  split; reflexivity.
Qed.

Lemma last_insert_app (l1 l2 : list (@SetOp Component)) (index : N) :
  last_insert (l1 ++ l2) index
  = match last_insert l2 index with
    | Some e => Some e
    | None => last_insert l1 index
    end.
Proof.
  induction l1 as [|[e v|e] l1 IH]; simpl.
  - destruct (last_insert l2 index); reflexivity.
  - rewrite IH. destruct (last_insert l2 index); reflexivity.
  - exact IH.
Qed.

(** One mutation keeps the invariants, and keeps every stored identifier
    equal to the one of the last [Insert] on its index. *)
Lemma run_op_inv s (hist : list SetOp) (o : SetOp) :
  sset_inv s →
  (∀ x, x ∈ m_DenseToEntity s → last_insert hist (Internal.GetIndex x) = Some x) →
  ∃ s', run_op s o = Some s' ∧ sset_inv s' ∧
        (∀ x, x ∈ m_DenseToEntity s' → last_insert (hist ++ [o]) (Internal.GetIndex x) = Some x).
Proof.
  intros Hinv Hhist. destruct o as [e v|e]; simpl.
  - destruct (Insert_spec s e v Hinv) as (s' & Hs' & Hinv' & Hmem & _).
    exists s'. split; [assumption|]. split; [assumption|].
    intros x Hx. rewrite last_insert_app. simpl.
    apply Hmem in Hx as [->|[Hx Hne]].
    + rewrite N.eqb_refl. reflexivity.
    + destruct (N.eqb_spec (Internal.GetIndex e) (Internal.GetIndex x)); [congruence|].
      apply Hhist, Hx.
  - destruct (Remove_spec s e Hinv) as (s' & Hs' & Hinv' & Hmem & _).
    exists s'. split; [assumption|]. split; [assumption|].
    intros x Hx. rewrite last_insert_app. simpl.
    apply Hmem in Hx as [Hx _]. apply Hhist, Hx.
Qed.

Lemma run_ops_inv (ops : list SetOp) : ∀ s (hist : list SetOp),
  sset_inv s →
  (∀ x, x ∈ m_DenseToEntity s → last_insert hist (Internal.GetIndex x) = Some x) →
  ∃ s', run_ops s ops = Some s' ∧ sset_inv s' ∧
        (∀ x, x ∈ m_DenseToEntity s' → last_insert (hist ++ ops) (Internal.GetIndex x) = Some x).
Proof.
  induction ops as [|o ops IH]; intros s hist Hinv Hhist; simpl.
  - exists s. rewrite app_nil_r. auto.
  - destruct (run_op_inv s hist o Hinv Hhist) as (s1 & Hs1 & Hinv1 & Hhist1).
    rewrite Hs1. obind.
    destruct (IH s1 (hist ++ [o]) Hinv1 Hhist1) as (s' & Hs' & Hinv' & Hhist').
    exists s'. rewrite <- app_assoc in Hhist'. auto.
Qed.

(** C6.  Every sequence of [Insert] and [Remove] from the empty set has a
    result, and in it (a) the dense data and entity sequences have equal
    length, (b) for every dense index [i] the sparse slot of
    [entities[i]]'s index holds [i], and (c) every identifier of the dense
    entity sequence is the identifier passed to the last [Insert] on its
    index. *)
Theorem C6_sparse_set_invariants (ops : list (@SetOp Component)) :
  ∃ s, run_ops empty ops = Some s ∧
       length (m_DenseData s) = length (m_DenseToEntity s) ∧
       (∀ i e, m_DenseToEntity s !! i = Some e →
               slot_get (m_SparsePages s) (Internal.GetIndex e) = Some (N.of_nat i)) ∧
       (∀ i e, m_DenseToEntity s !! i = Some e →
               last_insert ops (Internal.GetIndex e) = Some e).
Proof.
  destruct (run_ops_inv ops empty [] sset_inv_empty) as (s & Hs & Hinv & Hhist).
  { intros x Hx. apply elem_of_nil in Hx. contradiction. }
  exists s. split; [assumption|]. split; [apply Hinv|]. split.
  - intros i e Hi. rewrite <- (inv_dense s Hinv i e Hi).
    apply slot_get_read_ok; [apply Hinv|].
    apply read_nonnull_page. eapply dense_nonnull; eauto.
  - intros i e Hi. apply Hhist. eapply list_elem_of_lookup_2, Hi.
Qed.

End SparseSetTheorems.

Lemma C5_witness :
  SparseSet.Remove names_set (MakeEntityID 1 1) = Some names_set
  ∧ SparseSet.Contains names_set (MakeEntityID 1 1) = Some false.
Proof.
  apply (C5_stale_identifier_rejected names_set 1 (MakeEntityID 1 1)).
  - vm_compute. reflexivity.
  - vm_compute. reflexivity.
  - intros H. vm_compute in H. discriminate H.
Defined.

Section TagFacts.
Import SparseSet.

Implicit Types (ts : Tag.t) (e : EntityID).

Lemma unit_list_eq (l1 l2 : list unit) : length l1 = length l2 → l1 = l2.
Proof.
  revert l2. induction l1 as [|[] l1 IH]; intros [|[] l2] H; simpl in H; try discriminate.
  - reflexivity.
  - f_equal. apply IH. lia.
Qed.

Lemma with_data_eq (data : list unit) (entities : list EntityID) (pages : Pages) :
  length data = length entities →
  Mk data entities pages = with_data (Tag.Mk entities pages).
Proof.
  intros H. unfold with_data. simpl. f_equal. apply unit_list_eq.
  rewrite length_replicate. exact H.
Qed.

Lemma with_data_Contains ts e : Contains (with_data ts) e = Tag.Contains ts e.
Proof. reflexivity. Qed.

Lemma with_data_Insert ts e (v : unit) :
  Insert (with_data ts) e v = with_data <$> Tag.Insert ts e.
Proof.
  destruct ts as [ents pages]. unfold Insert, Tag.Insert, Size, Tag.Size, with_data.
  cbn [m_DenseData m_DenseToEntity m_SparsePages
       Tag.m_DenseToEntity Tag.m_SparsePages].
  rewrite length_replicate.
  destruct (slot_get (ensure_page pages (Internal.GetIndex e)) (Internal.GetIndex e))
    as [denseIndex|]; [|reflexivity].
  obind. destruct (denseIndex =? k_NullIndex); cbn [negb].
  - destruct (slot_set _ _ _) as [pages'|]; [|reflexivity]. obind. simpl. f_equal.
    apply (with_data_eq _ (ents ++ [e]) pages').
    rewrite !length_app, length_replicate. reflexivity.
  - unfold vec_set. rewrite length_replicate.
    destruct (N.to_nat denseIndex <? length ents)%nat; [|reflexivity]. obind. simpl. f_equal.
    apply (with_data_eq _ (<[N.to_nat denseIndex := e]> ents)).
    rewrite !length_insert, length_replicate. reflexivity.
Qed.

Lemma with_data_Remove ts e :
  Remove (with_data ts) e = with_data <$> Tag.Remove ts e.
Proof.
  destruct ts as [ents pages]. unfold Remove, Tag.Remove, Size, Tag.Size, with_data.
  cbn [m_DenseData m_DenseToEntity m_SparsePages
       Tag.m_DenseToEntity Tag.m_SparsePages].
  rewrite length_replicate.
  destruct (pages !! pageId (Internal.GetIndex e)) as [[page|]|]; try reflexivity.
  destruct (page !! pageOffset (Internal.GetIndex e)) as [d|]; [|reflexivity].
  obind. destruct (d =? k_NullIndex); [reflexivity|].
  destruct (ents !! N.to_nat d) as [stored|]; [|reflexivity].
  obind. destruct (stored =? e); cbn [negb]; [|reflexivity].
  set (lastDenseIndex := size_pred (N.of_nat (length ents))).
  assert (Htail : ∀ (data : list unit) (entities : list EntityID) (pages1 : Pages),
            length data = length entities →
            (data' ← pop_back data;
             entities' ← pop_back entities;
             pages' ← slot_set pages1 (Internal.GetIndex e) k_NullIndex;
             Some (Mk data' entities' pages'))
            = with_data <$> (entities' ← pop_back entities;
                             pages' ← slot_set pages1 (Internal.GetIndex e) k_NullIndex;
                             Some (Tag.Mk entities' pages'))).
  { intros data entities pages1 Hlen. unfold pop_back.
    destruct data as [|x data], entities as [|y entities]; try discriminate; [reflexivity|].
    obind. destruct (slot_set _ _ _) as [pages'|]; [|reflexivity]. obind. simpl. f_equal.
    apply with_data_eq. rewrite !length_take. simpl in *. lia. }
  destruct (d =? lastDenseIndex); cbn [negb].
  - obind. cbn [m_DenseData m_DenseToEntity m_SparsePages
                Tag.m_DenseToEntity Tag.m_SparsePages].
    apply Htail. apply length_replicate.
  - destruct (ents !! N.to_nat lastDenseIndex) as [lastEntity|] eqn:Hlast.
    + obind. rewrite (proj2 (lookup_replicate _ _ _ _) (conj eq_refl (lookup_lt_Some _ _ _ Hlast))).
      obind. unfold vec_set. rewrite length_replicate.
      destruct (N.to_nat d <? length ents)%nat; [|reflexivity]. obind.
      destruct (slot_set pages _ d) as [pages1|]; [|reflexivity]. obind.
      cbn [m_DenseData m_DenseToEntity m_SparsePages
           Tag.m_DenseToEntity Tag.m_SparsePages].
      apply Htail. rewrite !length_insert. apply length_replicate.
    + obind. reflexivity.
Qed.

Lemma tag_run_ops_with_data (ops : list (@SetOp unit)) : ∀ ts,
  run_ops (with_data ts) ops = with_data <$> tag_run_ops ts ops.
Proof.
  induction ops as [|[e v|e] ops IH]; intros ts; simpl.
  - reflexivity.
  - rewrite with_data_Insert. destruct (Tag.Insert ts e) as [ts'|]; [|reflexivity].
    simpl. apply IH.
  - rewrite with_data_Remove. destruct (Tag.Remove ts e) as [ts'|]; [|reflexivity].
    simpl. apply IH.
Qed.

(** The set of an empty type rejects a stale identifier in the same way. *)
Lemma Tag_stale_identifier_rejected ts e e' :
  Tag.Contains ts e = Some true →
  Internal.GetIndex e' = Internal.GetIndex e →
  Internal.GetGeneration e' ≠ Internal.GetGeneration e →
  Tag.Remove ts e' = Some ts ∧ Tag.Contains ts e' = Some false.
Proof.
  intros Hc Hidx Hgen.
  assert (Hne : e ≠ e') by (intros ->; apply Hgen; reflexivity).
  unfold Tag.Contains in Hc. unfold Tag.Remove, Tag.Contains. rewrite Hidx.
  destruct (Tag.m_SparsePages ts !! pageId (Internal.GetIndex e)) as [[page|]|]; try discriminate.
  destruct (page !! pageOffset (Internal.GetIndex e)) as [d|]; [|discriminate].
  obind in Hc. obind.
  destruct (d =? k_NullIndex); [discriminate|].
  destruct (Tag.m_DenseToEntity ts !! N.to_nat d) as [stored|]; [|discriminate].
  obind in Hc. obind. inversion Hc as [Heq]. apply N.eqb_eq in Heq. subst stored.
  destruct (N.eqb_spec e e') as [|_]; [contradiction|].
  split; reflexivity.
Qed.

(** The invariants of the set of an empty type, after every sequence of
    [Insert] and [Remove] from the empty set. *)
Lemma Tag_invariants (ops : list (@SetOp unit)) :
  ∃ ts, tag_run_ops Tag.empty ops = Some ts ∧
        (∀ i e, Tag.m_DenseToEntity ts !! i = Some e →
                slot_get (Tag.m_SparsePages ts) (Internal.GetIndex e) = Some (N.of_nat i)) ∧
        (∀ i e, Tag.m_DenseToEntity ts !! i = Some e →
                last_insert ops (Internal.GetIndex e) = Some e).
Proof.
  destruct (run_ops_inv ops (with_data Tag.empty) [] sset_inv_empty) as (s & Hs & Hinv & Hhist).
  { intros x Hx. apply elem_of_nil in Hx. contradiction. }
  rewrite tag_run_ops_with_data in Hs.
  destruct (tag_run_ops Tag.empty ops) as [ts|]; [|discriminate].
  simpl in Hs. inversion Hs; subst s. exists ts. split; [reflexivity|]. split.
  - intros i e Hi. rewrite <- (inv_dense _ Hinv i e Hi).
    apply (slot_get_read_ok (m_SparsePages (with_data ts))); [apply Hinv|].
    apply read_nonnull_page. eapply dense_nonnull; eauto.
  - intros i e Hi. apply Hhist. eapply list_elem_of_lookup_2, Hi.
Qed.

End TagFacts.

(** ** World *)

(** Reduce the projections of a world built by the [with_] functions. *)
Ltac wsimpl :=
  cbn [World.with_StoresByID World.with_ComponentStores World.with_ComponentSignals World.with_OnRemovedTriggers
       World.with_EntitySignatures World.with_EntityGenerations World.with_FreeEntities World.put_store
       World.m_StoresByID World.m_ComponentStores World.m_ComponentSignals World.m_OnRemovedTriggers
       World.m_EntitySignatures World.m_EntityGenerations World.m_FreeEntities].
Tactic Notation "wsimpl" "in" hyp(H) :=
  cbn [World.with_StoresByID World.with_ComponentStores World.with_ComponentSignals World.with_OnRemovedTriggers
       World.with_EntitySignatures World.with_EntityGenerations World.with_FreeEntities World.put_store
       World.m_StoresByID World.m_ComponentStores World.m_ComponentSignals World.m_OnRemovedTriggers
       World.m_EntitySignatures World.m_EntityGenerations World.m_FreeEntities] in H.

Section WorldFacts.

Import World.

Context {Component : Type}.

Implicit Types (w : World.t Component) (e id : EntityID) (c : N).

Lemma same_shape_refl w : same_shape w w.
Proof. split; auto. Qed.

Lemma same_shape_trans w1 w2 w3 : same_shape w1 w2 → same_shape w2 w3 → same_shape w1 w3.
Proof.
  intros [a1 a2 a3 a4 a5 a6 a7 a8 a9] [b1 b2 b3 b4 b5 b6 b7 b8 b9]. split; auto.
  - congruence.
  - congruence.
  - congruence.
  - intros c. rewrite b4. apply a4.
Qed.

Lemma IsAlive_true w e :
  IsAlive w e = Some true ↔
  (N.to_nat (Internal.GetIndex e) < length (m_EntitySignatures w))%nat ∧
  m_EntityGenerations w !! N.to_nat (Internal.GetIndex e) = Some (Internal.GetGeneration e).
Proof.
  unfold IsAlive.
  destruct (Nat.ltb_spec (N.to_nat (Internal.GetIndex e)) (length (m_EntitySignatures w))).
  - destruct (m_EntityGenerations w !! N.to_nat (Internal.GetIndex e)) as [g|]; simpl.
    + destruct (N.eqb_spec g (Internal.GetGeneration e)); split.
      * intros _. split; [assumption|congruence].
      * reflexivity.
      * discriminate.
      * intros [_ [=]]. contradiction.
    + split; [discriminate|]. intros [_ [=]].
  - split; [discriminate|]. intros [? _]. lia.
Qed.

Lemma HasComponent_true w c e :
  HasComponent w c e = true ↔
  ∃ m, m_EntitySignatures w !! N.to_nat (Internal.GetIndex e) = Some m ∧
       ComponentMask.Test m c = true.
Proof.
  unfold HasComponent.
  destruct (m_EntitySignatures w !! N.to_nat (Internal.GetIndex e)) as [m|].
  - split; [eauto|]. intros (m' & [= <-] & H). exact H.
  - split; [discriminate|]. intros (m' & [=] & _).
Qed.

Lemma IsAlive_ext w w' e :
  m_EntitySignatures w' = m_EntitySignatures w →
  m_EntityGenerations w' = m_EntityGenerations w →
  IsAlive w' e = IsAlive w e.
Proof. intros H1 H2. unfold IsAlive. rewrite H1, H2. reflexivity. Qed.

Lemma HasComponent_ext w w' c e :
  m_EntitySignatures w' = m_EntitySignatures w →
  HasComponent w' c e = HasComponent w c e.
Proof. intros H1. unfold HasComponent. rewrite H1. reflexivity. Qed.

(** Two live identifiers of one slot are one identifier. *)
Lemma alive_same_index w e1 e2 :
  is_u64 e1 → is_u64 e2 →
  IsAlive w e1 = Some true → IsAlive w e2 = Some true →
  Internal.GetIndex e1 = Internal.GetIndex e2 → e1 = e2.
Proof.
  intros H1 H2 [_ A1]%IsAlive_true [_ A2]%IsAlive_true Hidx.
  apply entity_eq_halves; try assumption. rewrite Hidx in A1. congruence.
Qed.

Lemma world_inv_shape w w' : world_inv w → same_shape w w' → world_inv w'.
Proof.
  intros [i1 i2 i3 i4 i5 i6 i7 i8 i9] [s1 s2 s3 s4 s5 s6 s7 s8 s9].
  assert (HA : ∀ e, IsAlive w' e = IsAlive w e) by (intros; apply IsAlive_ext; assumption).
  assert (HH : ∀ c e, HasComponent w' c e = HasComponent w c e)
    by (intros; apply HasComponent_ext; assumption).
  split.
  - congruence.
  - rewrite s2. assumption.
  - rewrite s1. assumption.
  - auto.
  - intros c e. rewrite s4, HA, HH. apply i5.
  - intros c e. rewrite s4, HA, HH. apply i6.
  - intros c e. rewrite HH. intros H. destruct (i7 c e H) as (a & b & d). auto.
  - auto.
  - rewrite s3, s1. assumption.
Qed.

(** [GetStore] hands out the store of the component and changes nothing
    but the existence of that store. *)
Lemma GetStore_spec w c :
  ∃ w1, GetStore w c = (store_of w c, w1) ∧
        (∀ c', store_of w1 c' = store_of w c') ∧
        is_Some (m_ComponentStores w1 !! c) ∧
        (∀ c', is_Some (m_ComponentStores w !! c') → is_Some (m_ComponentStores w1 !! c')) ∧
        m_StoresByID w1 = m_StoresByID w ∧
        m_ComponentSignals w1 = m_ComponentSignals w ∧
        m_OnRemovedTriggers w1 = m_OnRemovedTriggers w ∧
        m_EntitySignatures w1 = m_EntitySignatures w ∧
        m_EntityGenerations w1 = m_EntityGenerations w ∧
        m_FreeEntities w1 = m_FreeEntities w.
Proof.
  unfold GetStore, store_of.
  destruct (m_ComponentStores w !! c) as [s|] eqn:E.
  - exists w. rewrite E. simpl. repeat split; auto.
  - eexists. split; [reflexivity|]. simpl. repeat split.
    + intros c'. destruct (decide (c' = c)) as [->|Hne].
      * rewrite lookup_insert_eq, E. reflexivity.
      * rewrite lookup_insert_ne by congruence. reflexivity.
    + rewrite lookup_insert_eq. eauto.
    + intros c' Hc'. destruct (decide (c' = c)) as [->|Hne].
      * rewrite lookup_insert_eq. eauto.
      * rewrite lookup_insert_ne by congruence. assumption.
Qed.

Lemma store_of_put w c s c' :
  store_of (put_store w c s) c' = if decide (c' = c) then s else store_of w c'.
Proof.
  unfold store_of, put_store. simpl. destruct (decide (c' = c)) as [->|Hne].
  - rewrite lookup_insert_eq. reflexivity.
  - rewrite lookup_insert_ne by congruence. reflexivity.
Qed.

(** Writing back a store with the same entities keeps the shape. *)
Lemma put_store_shape w c s :
  SparseSet.m_DenseToEntity s = SparseSet.m_DenseToEntity (store_of w c) →
  sset_inv s →
  same_shape w (put_store w c s).
Proof.
  intros Hents Hinv. split; simpl; auto.
  - intros c'. rewrite store_of_put. destruct (decide (c' = c)) as [->|]; auto.
  - intros c'. rewrite store_of_put. destruct (decide (c' = c)) as [->|]; auto.
  - intros c' Hc'. destruct (decide (c' = c)) as [->|Hne].
    + rewrite lookup_insert_eq. eauto.
    + rewrite lookup_insert_ne by congruence. assumption.
Qed.

Lemma GetStore_shape w c w1 s : GetStore w c = (s, w1) → same_shape w w1.
Proof.
  intros H. destruct (GetStore_spec w c) as (w1' & E & H1 & H2 & H3 & H4 & H5 & H6 & H7 & H8 & H9).
  rewrite E in H. inversion H; subst. split; auto.
  - intros c'. rewrite H1. reflexivity.
  - intros c'. rewrite H1. auto.
  - rewrite H4. auto.
  - rewrite H6. auto.
  - rewrite H6. auto.
Qed.

(** [TriggerEvent] for a component the entity has in its store: the
    invocations are those of [trigger_calls], the callbacks write to the
    component only. *)
Lemma TriggerEvent_spec w c id event :
  sset_inv (store_of w c) → id ∈ SparseSet.m_DenseToEntity (store_of w c) →
  ∃ w', TriggerEvent w c id event = Some (w', trigger_calls w c id event) ∧
        same_shape w w' ∧
        m_ComponentSignals w' = m_ComponentSignals w ∧
        m_StoresByID w' = m_StoresByID w ∧
        m_OnRemovedTriggers w' = m_OnRemovedTriggers w ∧
        (∀ c', c' ≠ c → store_of w' c' = store_of w c') ∧
        SparseSet.Get (store_of w' c) id
        = match m_ComponentSignals w !! c with
          | None => SparseSet.Get (store_of w c) id
          | Some signals =>
              component ← SparseSet.Get (store_of w c) id;
              Some (fst (run_callbacks (callbacks_of signals event) event c id component))
          end.
Proof.
  intros Hinv Hin. unfold TriggerEvent, trigger_calls.
  destruct (m_ComponentSignals w !! c) as [signals|] eqn:Es.
  - destruct (GetStore_spec w c) as (w1 & E & H1 & H2 & H3 & H4 & H5 & H6 & H7 & H8 & H9).
    rewrite E.
    destruct (Get_spec _ id Hinv Hin) as [_ [component Hget]]. rewrite Hget. obind.
    destruct (run_callbacks _ _ _ _ _) as [final calls] eqn:Er.
    destruct (Assign_spec _ id final Hinv Hin) as (s' & Hs' & Hinv' & Hents & Hpages & Hlen & Hget').
    rewrite Hs'. obind. eexists. split; [reflexivity|].
    assert (Hshape : same_shape w (put_store w1 c s')).
    { eapply same_shape_trans; [eapply GetStore_shape, E|].
      apply put_store_shape; [rewrite H1; assumption|assumption]. }
    repeat split; try apply Hshape; simpl; try assumption.
    + intros c' Hne. rewrite store_of_put, decide_False by assumption. apply H1.
    + rewrite store_of_put, decide_True by reflexivity. assumption.
  - exists w. split; [reflexivity|]. split; [apply same_shape_refl|]. repeat split; auto.
Qed.

Lemma with_sigs_same w : with_EntitySignatures w (m_EntitySignatures w) = w.
Proof. destruct w. reflexivity. Qed.

Lemma grow_to_index_lt {A : Type} (v : list A) (index : N) (x : A) :
  (N.to_nat index < length v)%nat → grow_to_index v index x = v.
Proof.
  intros H. unfold grow_to_index.
  destruct (Nat.leb_spec (length v) (N.to_nat index)); [lia|reflexivity].
Qed.

Lemma grow_to_id_length {A : Type} (v : list A) (id : N) (x : A) :
  (N.to_nat id < length (grow_to_id v id x))%nat.
Proof.
  unfold grow_to_id. destruct (Nat.leb_spec (length v) (N.to_nat id)); [|assumption].
  rewrite length_resize. lia.
Qed.

Lemma grow_to_id_old {A : Type} (v : list A) (id : N) (x : A) (i : nat) (y : A) :
  v !! i = Some y → grow_to_id v id x !! i = Some y.
Proof.
  intros H. unfold grow_to_id. destruct (Nat.leb_spec (length v) (N.to_nat id)); [|assumption].
  rewrite resize_ge by lia. apply lookup_app_l_Some. assumption.
Qed.

Lemma grow_to_id_new {A : Type} (v : list A) (id : N) (x : A) (i : nat) (y : A) :
  grow_to_id v id x !! i = Some y → v !! i = Some y ∨ y = x.
Proof.
  unfold grow_to_id. destruct (Nat.leb_spec (length v) (N.to_nat id)); [|auto].
  rewrite resize_ge by lia. intros [Hy|[_ Hy]]%lookup_app_Some; [auto|].
  apply lookup_replicate in Hy as [-> _]. auto.
Qed.

(** [EnsureSignalStorage] installs the trigger of the component and touches
    nothing else. *)
Lemma EnsureSignalStorage_spec w c :
  let w' := EnsureSignalStorage w c in
  m_StoresByID w' = m_StoresByID w ∧
  m_ComponentStores w' = m_ComponentStores w ∧
  m_ComponentSignals w' = m_ComponentSignals w ∧
  m_EntitySignatures w' = m_EntitySignatures w ∧
  m_EntityGenerations w' = m_EntityGenerations w ∧
  m_FreeEntities w' = m_FreeEntities w ∧
  (∀ i k, m_OnRemovedTriggers w !! i = Some (Some k) → m_OnRemovedTriggers w' !! i = Some (Some k)) ∧
  ((∀ i k, m_OnRemovedTriggers w !! i = Some (Some k) → k = N.of_nat i) →
   (∀ i k, m_OnRemovedTriggers w' !! i = Some (Some k) → k = N.of_nat i) ∧
   m_OnRemovedTriggers w' !! N.to_nat c = Some (Some c)).
Proof.
  unfold EnsureSignalStorage.
  pose proof (grow_to_id_length (m_OnRemovedTriggers w) c None) as Hlen.
  destruct (grow_to_id (m_OnRemovedTriggers w) c None !! N.to_nat c) as [[k|]|] eqn:E; wsimpl.
  - repeat split; auto.
    + intros i k'. apply grow_to_id_old.
    + intros i k' Hk'. apply grow_to_id_new in Hk' as [Hk'|?]; [eauto|discriminate].
    + pose proof E as E'. apply grow_to_id_new in E' as [E'|?]; [|discriminate].
      rewrite E, (H _ _ E'), N2Nat.id. reflexivity.
  - repeat split; auto.
    + intros i k' Hk'. destruct (decide (i = N.to_nat c)) as [->|Hne].
      * apply (grow_to_id_old _ c None) in Hk'. congruence.
      * rewrite list_lookup_insert_ne by congruence. apply grow_to_id_old. assumption.
    + intros i k' Hk'. destruct (decide (i = N.to_nat c)) as [->|Hne].
      * rewrite list_lookup_insert_eq in Hk' by assumption. inversion Hk'. lia.
      * rewrite list_lookup_insert_ne in Hk' by congruence.
        apply grow_to_id_new in Hk' as [Hk'|?]; [eauto|discriminate].
    + apply list_lookup_insert_eq. assumption.
  - apply lookup_ge_None in E. lia.
Qed.

Lemma EnsureSignalStorage_shape w c : same_shape w (EnsureSignalStorage w c).
Proof.
  destruct (EnsureSignalStorage_spec w c) as (H1 & H2 & H3 & H4 & H5 & H6 & H7 & H8).
  split; auto.
  - intros c'. unfold store_of. rewrite H2. reflexivity.
  - intros c'. unfold store_of. rewrite H2. auto.
  - rewrite H1. auto.
  - intros Hok. apply H8, Hok.
  - rewrite H2. auto.
Qed.

Lemma Get_Some_elem (s : SparseSet.t Component) e (v : Component) :
  sset_inv s → SparseSet.Get s e = Some v → e ∈ SparseSet.m_DenseToEntity s.
Proof.
  intros Hinv. unfold SparseSet.Get. rewrite (Contains_spec s e Hinv). obind.
  destruct (bool_decide_reflect (e ∈ SparseSet.m_DenseToEntity s)); [auto|discriminate].
Qed.

(** What [AddComponent] does to a slot that exists. *)
Lemma AddComponent_spec w c id (v : Component) :
  sset_inv (store_of w c) →
  (N.to_nat (Internal.GetIndex id) < length (m_EntitySignatures w))%nat →
  (∀ i k, m_OnRemovedTriggers w !! i = Some (Some k) → k = N.of_nat i) →
  ∃ w' sig,
    m_EntitySignatures w !! N.to_nat (Internal.GetIndex id) = Some sig ∧
    AddComponent w c id v
    = Some (w', match m_ComponentSignals w !! c with
                | None => []
                | Some signals => snd (run_callbacks (onAdded signals) Added c id v)
                end) ∧
    m_EntitySignatures w'
    = <[N.to_nat (Internal.GetIndex id) := ComponentMask.SetBit sig c]> (m_EntitySignatures w) ∧
    m_EntityGenerations w' = m_EntityGenerations w ∧
    m_FreeEntities w' = m_FreeEntities w ∧
    m_ComponentSignals w' = m_ComponentSignals w ∧
    sset_inv (store_of w' c) ∧
    (∀ x, x ∈ SparseSet.m_DenseToEntity (store_of w' c) ↔
          x = id ∨ (x ∈ SparseSet.m_DenseToEntity (store_of w c)
                    ∧ Internal.GetIndex x ≠ Internal.GetIndex id)) ∧
    (∀ c', c' ≠ c → store_of w' c' = store_of w c') ∧
    m_StoresByID w' !! N.to_nat c = Some (Some c) ∧
    (∀ i k, i ≠ N.to_nat c → m_StoresByID w !! i = Some (Some k) →
            m_StoresByID w' !! i = Some (Some k)) ∧
    m_OnRemovedTriggers w' !! N.to_nat c = Some (Some c) ∧
    (∀ i k, m_OnRemovedTriggers w !! i = Some (Some k) →
            m_OnRemovedTriggers w' !! i = Some (Some k)) ∧
    (∀ i k, m_OnRemovedTriggers w' !! i = Some (Some k) → k = N.of_nat i) ∧
    (∀ c', is_Some (m_ComponentStores w !! c') → is_Some (m_ComponentStores w' !! c')) ∧
    is_Some (m_ComponentStores w' !! c) ∧
    SparseSet.Get (store_of w' c) id
    = Some (match m_ComponentSignals w !! c with
            | None => v
            | Some signals => fst (run_callbacks (onAdded signals) Added c id v)
            end).
Proof.
  intros Hinv Hlt Htrig.
  destruct (lookup_lt_is_Some_2 _ _ Hlt) as [sig Hsig].
  unfold AddComponent. rewrite grow_to_index_lt by assumption. rewrite with_sigs_same.
  destruct (GetStore_spec w c) as (w1 & E & G1 & G2 & G3 & G4 & G5 & G6 & G7 & G8 & G9).
  rewrite E.
  destruct (Insert_spec (store_of w c) id v Hinv) as (s' & Hins & Hinv' & Hmem & Hget).
  rewrite Hins. obind. wsimpl. rewrite G7, Hsig. obind. wsimpl.
  pose proof (grow_to_id_length (m_StoresByID w1) c None) as Hbylen.
  unfold vec_set.
  destruct (Nat.ltb_spec (N.to_nat c) (length (grow_to_id (m_StoresByID w1) c None))); [|lia].
  obind.
  set (w5 := with_StoresByID _ _).
  destruct (EnsureSignalStorage_spec w5 c) as (F1 & F2 & F3 & F4 & F5 & F6 & F7 & F8).
  set (w6 := EnsureSignalStorage w5 c) in *.
  assert (Hs6 : ∀ c', store_of w6 c' = if decide (c' = c) then s' else store_of w c').
  { intros c'. unfold store_of. rewrite F2. unfold w5. wsimpl.
    destruct (decide (c' = c)) as [->|Hne].
    - rewrite lookup_insert_eq. reflexivity.
    - rewrite lookup_insert_ne by congruence. apply G1. }
  assert (Hs6c : store_of w6 c = s') by (rewrite Hs6, decide_True; reflexivity).
  assert (Hin6 : id ∈ SparseSet.m_DenseToEntity (store_of w6 c)).
  { rewrite Hs6c. apply Hmem. left. reflexivity. }
  assert (Hinv6 : sset_inv (store_of w6 c)) by (rewrite Hs6c; assumption).
  destruct (TriggerEvent_spec w6 c id Added Hinv6 Hin6)
    as (w' & Ht & Hshape & T1 & T2 & T3 & T4 & T5).
  assert (Hsig6 : m_ComponentSignals w6 = m_ComponentSignals w).
  { rewrite F3. unfold w5. wsimpl. assumption. }
  assert (Htrig5 : ∀ i k, m_OnRemovedTriggers w5 !! i = Some (Some k) → k = N.of_nat i).
  { unfold w5. wsimpl. rewrite G6. assumption. }
  destruct (F8 Htrig5) as [F8a F8b].
  exists w', sig. split; [reflexivity|]. split.
  { rewrite Ht. f_equal. f_equal. unfold trigger_calls. rewrite Hsig6, Hs6c, Hget.
    reflexivity. }
  destruct Hshape as [S1 S2 S3 S4 S5 S6 S7 S8 S9].
  split. { rewrite S1, F4. unfold w5. wsimpl. reflexivity. }
  split. { rewrite S2, F5. unfold w5. wsimpl. assumption. }
  split. { rewrite S3, F6. unfold w5. wsimpl. assumption. }
  split. { rewrite T1. assumption. }
  split. { apply S5. assumption. }
  split. { intros x. rewrite S4, Hs6c. apply Hmem. }
  split. { intros c' Hne. rewrite T4 by assumption. rewrite Hs6, decide_False by assumption. reflexivity. }
  split. { rewrite T2, F1. unfold w5. wsimpl. apply list_lookup_insert_eq. assumption. }
  split. { intros i k Hne Hk. rewrite T2, F1. unfold w5. wsimpl.
           rewrite list_lookup_insert_ne by congruence. apply grow_to_id_old. rewrite G4. assumption. }
  split. { rewrite T3. assumption. }
  split. { intros i k Hk. rewrite T3. apply F7. unfold w5. wsimpl. rewrite G6. assumption. }
  split. { rewrite T3. assumption. }
  split. { intros c' Hc'. apply S9. rewrite F2. unfold w5. wsimpl.
           destruct (decide (c' = c)) as [->|Hne].
           - rewrite lookup_insert_eq. eauto.
           - rewrite lookup_insert_ne by congruence. auto. }
  split. { apply S9. rewrite F2. unfold w5. wsimpl. rewrite lookup_insert_eq. eauto. }
  rewrite T5, Hsig6, Hs6c, Hget.
  destruct (m_ComponentSignals w !! c); reflexivity.
Qed.

Lemma IsAlive_ext_len w w' e :
  length (m_EntitySignatures w') = length (m_EntitySignatures w) →
  m_EntityGenerations w' = m_EntityGenerations w →
  IsAlive w' e = IsAlive w e.
Proof. intros H1 H2. unfold IsAlive. rewrite H1, H2. reflexivity. Qed.

Lemma AddComponent_inv w c id (v : Component) w' calls :
  world_inv w → c < 256 → is_u64 id → IsAlive w id = Some true →
  AddComponent w c id v = Some (w', calls) → world_inv w'.
Proof.
  intros Hinv Hc Hid Halive Hadd.
  pose proof Halive as [Hlt Hgen]%IsAlive_true.
  destruct (AddComponent_spec w c id v (wi_stores w Hinv c) Hlt (wi_trig w Hinv))
    as (w'' & sig & Hsig & Hadd' & P1 & P2 & P3 & P4 & P5 & P6 & P7 & P8 & P9 & P10 & P11 & P12 & P13 & P14 & _).
  rewrite Hadd in Hadd'. inversion Hadd'; subst w''. clear Hadd' H1.
  set (idx := Internal.GetIndex id) in *.
  assert (HA : ∀ e, IsAlive w' e = IsAlive w e).
  { intros e. apply IsAlive_ext_len; [rewrite P1; apply length_insert|assumption]. }
  assert (HH : ∀ c' e, HasComponent w' c' e
                       = HasComponent w c' e || ((Internal.GetIndex e =? idx) && (c' =? c))).
  { intros c' e. unfold HasComponent. rewrite P1.
    destruct (N.eqb_spec (Internal.GetIndex e) idx) as [->|Hne].
    - rewrite list_lookup_insert_eq by assumption. rewrite Hsig.
      rewrite Test_SetBit. destruct (N.ltb_spec c 256); [|lia].
      rewrite andb_true_r. reflexivity.
    - rewrite list_lookup_insert_ne by lia. rewrite orb_false_r. reflexivity. }
  destruct Hinv as [i1 i2 i3 i4 i5 i6 i7 i8 i9].
  split.
  - rewrite P1, P2, length_insert. assumption.
  - rewrite P2. assumption.
  - rewrite P1. intros i m Hm. destruct (decide (i = N.to_nat idx)) as [->|Hne].
    + rewrite list_lookup_insert_eq in Hm by assumption. inversion Hm.
      apply wf_SetBit. eapply i3, Hsig.
    + rewrite list_lookup_insert_ne in Hm by congruence. eapply i3, Hm.
  - intros c'. destruct (decide (c' = c)) as [->|Hne]; [assumption|].
    rewrite P7 by assumption. apply i4.
  - intros c' e He. rewrite HA, HH. destruct (decide (c' = c)) as [->|Hne].
    + apply P6 in He as [->|[He Hidx]].
      * split; [assumption|]. split; [assumption|].
        rewrite !N.eqb_refl. apply orb_true_r.
      * destruct (i5 _ _ He) as (a & b & d). rewrite d. auto.
    + rewrite P7 in He by assumption.
      destruct (i5 _ _ He) as (a & b & d). rewrite d. auto.
  - intros c' e He. rewrite HA, HH. intros Ha Hh.
    destruct (decide (c' = c)) as [->|Hne].
    + apply P6. destruct (N.eqb_spec (Internal.GetIndex e) idx) as [Hidx|Hidx].
      * left. eapply alive_same_index; eauto.
      * right. split; [|assumption]. apply i6; try assumption.
        rewrite andb_false_l, orb_false_r in Hh. assumption.
    + rewrite P7 by assumption. apply i6; try assumption.
      destruct (N.eqb_spec c' c); [contradiction|].
      rewrite andb_false_r, orb_false_r in Hh. assumption.
  - intros c' e. rewrite HH. intros Hh.
    destruct (decide (c' = c)) as [->|Hne]; [auto|].
    destruct (N.eqb_spec c' c); [contradiction|].
    rewrite andb_false_r, orb_false_r in Hh.
    destruct (i7 _ _ Hh) as (a & b & d). split; [|split]; auto.
    apply P9; [lia|assumption].
  - assumption.
  - rewrite P3, P1, length_insert. assumption.
Qed.

(** What [RemoveComponent] does for a live entity that has the component. *)
Lemma RemoveComponent_spec w c id :
  world_inv w → is_u64 id → IsAlive w id = Some true → HasComponent w c id = true →
  ∃ w' sig,
    m_EntitySignatures w !! N.to_nat (Internal.GetIndex id) = Some sig ∧
    RemoveComponent w c id = Some (w', trigger_calls w c id Removed) ∧
    m_EntitySignatures w'
    = <[N.to_nat (Internal.GetIndex id) := ComponentMask.ResetBit sig c]> (m_EntitySignatures w) ∧
    m_EntityGenerations w' = m_EntityGenerations w ∧
    m_FreeEntities w' = m_FreeEntities w ∧
    m_ComponentSignals w' = m_ComponentSignals w ∧
    m_StoresByID w' = m_StoresByID w ∧
    m_OnRemovedTriggers w' = m_OnRemovedTriggers w ∧
    sset_inv (store_of w' c) ∧
    (∀ x, x ∈ SparseSet.m_DenseToEntity (store_of w' c) ↔
          x ∈ SparseSet.m_DenseToEntity (store_of w c) ∧ x ≠ id) ∧
    (∀ c', c' ≠ c → store_of w' c' = store_of w c') ∧
    (∀ c', is_Some (m_ComponentStores w !! c') → is_Some (m_ComponentStores w' !! c')).
Proof.
  intros Hinv Hid Halive Hhas.
  pose proof Halive as [Hlt Hgen]%IsAlive_true.
  destruct (lookup_lt_is_Some_2 _ _ Hlt) as [sig Hsig].
  assert (Hin : id ∈ SparseSet.m_DenseToEntity (store_of w c)) by (apply (wi_bits w Hinv); assumption).
  unfold RemoveComponent. rewrite Hhas.
  destruct (Nat.ltb_spec (N.to_nat (Internal.GetIndex id)) (length (m_EntitySignatures w))); [|lia].
  cbn [andb].
  destruct (TriggerEvent_spec w c id Removed (wi_stores w Hinv c) Hin)
    as (w1 & Ht & Hshape & T1 & T2 & T3 & T4 & T5).
  rewrite Ht. obind.
  destruct Hshape as [S1 S2 S3 S4 S5 S6 S7 S8 S9].
  destruct (GetStore_spec w1 c) as (w2 & E & G1 & G2 & G3 & G4 & G5 & G6 & G7 & G8 & G9).
  rewrite E.
  assert (Hinv1 : sset_inv (store_of w1 c)) by (apply S5, (wi_stores w Hinv)).
  destruct (Remove_spec (store_of w1 c) id Hinv1) as (s' & Hrem & Hinv' & Hmem & _).
  rewrite Hrem. obind. wsimpl. rewrite G7, S1, Hsig. obind.
  exists (with_EntitySignatures (put_store w2 c s')
            (<[N.to_nat (Internal.GetIndex id) := ComponentMask.ResetBit sig c]> (m_EntitySignatures w))), sig.
  split; [reflexivity|]. split; [reflexivity|]. wsimpl.
  split; [reflexivity|]. split; [congruence|]. split; [congruence|].
  split; [congruence|]. split; [congruence|]. split; [congruence|].
  assert (Hs : ∀ c', store_of (with_EntitySignatures (put_store w2 c s')
                       (<[N.to_nat (Internal.GetIndex id) := ComponentMask.ResetBit sig c]>
                          (m_EntitySignatures w))) c'
                    = if decide (c' = c) then s' else store_of w1 c').
  { intros c'. unfold store_of. wsimpl. destruct (decide (c' = c)) as [->|Hne].
    - rewrite lookup_insert_eq. reflexivity.
    - rewrite lookup_insert_ne by congruence. apply G1. }
  split. { rewrite Hs, decide_True by reflexivity. assumption. }
  split. { intros x. rewrite Hs, decide_True by reflexivity. rewrite Hmem, S4. reflexivity. }
  split. { intros c' Hne. rewrite Hs, decide_False by assumption. apply T4. assumption. }
  intros c' Hc'. destruct (decide (c' = c)) as [->|Hne].
  - rewrite lookup_insert_eq. eauto.
  - rewrite lookup_insert_ne by congruence. auto.
Qed.

Lemma RemoveComponent_inv w c id w' calls :
  world_inv w → is_u64 id →
  IsAlive w id = Some true ∨ HasComponent w c id = false →
  RemoveComponent w c id = Some (w', calls) → world_inv w'.
Proof.
  intros Hinv Hid Hguard Hrem.
  destruct (HasComponent w c id) eqn:Hhas.
  2:{ unfold RemoveComponent in Hrem. rewrite Hhas, andb_false_r in Hrem.
      inversion Hrem; subst. assumption. }
  destruct Hguard as [Halive|?]; [|discriminate].
  pose proof Halive as [Hlt Hgen]%IsAlive_true.
  destruct (RemoveComponent_spec w c id Hinv Hid Halive Hhas)
    as (w'' & sig & Hsig & Hrem' & P1 & P2 & P3 & P4 & P5 & P6 & P7 & P8 & P9 & P10).
  rewrite Hrem in Hrem'. inversion Hrem'; subst w''. clear Hrem' H1.
  set (idx := Internal.GetIndex id) in *.
  assert (HA : ∀ e, IsAlive w' e = IsAlive w e).
  { intros e. apply IsAlive_ext_len; [rewrite P1; apply length_insert|assumption]. }
  assert (HH : ∀ c' e, HasComponent w' c' e
                       = HasComponent w c' e && negb ((Internal.GetIndex e =? idx) && (c' =? c))).
  { intros c' e. unfold HasComponent. rewrite P1.
    destruct (N.eqb_spec (Internal.GetIndex e) idx) as [->|Hne].
    - rewrite list_lookup_insert_eq by assumption. rewrite Hsig.
      rewrite Test_ResetBit. reflexivity.
    - rewrite list_lookup_insert_ne by lia. rewrite andb_true_r. reflexivity. }
  destruct Hinv as [i1 i2 i3 i4 i5 i6 i7 i8 i9].
  split.
  - rewrite P1, P2, length_insert. assumption.
  - rewrite P2. assumption.
  - rewrite P1. intros i m Hm. destruct (decide (i = N.to_nat idx)) as [->|Hne].
    + rewrite list_lookup_insert_eq in Hm by assumption. inversion Hm.
      apply wf_ResetBit. eapply i3, Hsig.
    + rewrite list_lookup_insert_ne in Hm by congruence. eapply i3, Hm.
  - intros c'. destruct (decide (c' = c)) as [->|Hne]; [assumption|].
    rewrite P9 by assumption. apply i4.
  - intros c' e He. rewrite HA, HH. destruct (decide (c' = c)) as [->|Hne].
    + apply P8 in He as [He Hneid].
      destruct (i5 _ _ He) as (a & b & d). rewrite d. split; [assumption|]. split; [assumption|].
      destruct (N.eqb_spec (Internal.GetIndex e) idx) as [Hidx|]; [|reflexivity].
      exfalso. apply Hneid. eapply alive_same_index; eauto.
    + rewrite P9 in He by assumption.
      destruct (i5 _ _ He) as (a & b & d). rewrite d.
      destruct (N.eqb_spec c' c); [contradiction|]. rewrite andb_false_r. auto.
  - intros c' e He. rewrite HA, HH. intros Ha [Hh Hn]%andb_true_iff.
    destruct (decide (c' = c)) as [->|Hne].
    + apply P8. split; [apply i6; assumption|]. intros ->.
      fold idx in Hn. rewrite !N.eqb_refl in Hn. discriminate.
    + rewrite P9 by assumption. apply i6; assumption.
  - intros c' e. rewrite HH. intros [Hh _]%andb_true_iff.
    destruct (i7 _ _ Hh) as (a & b & d). rewrite P5, P6. auto.
  - rewrite P6. assumption.
  - rewrite P3, P1, length_insert. assumption.
Qed.

Lemma store_of_lookup w c : is_Some (m_ComponentStores w !! c) →
  m_ComponentStores w !! c = Some (store_of w c).
Proof. intros [s Hs]. unfold store_of. rewrite Hs. reflexivity. Qed.

(** One turn of the loop of [DestroyEntity]. *)
Lemma destroy_bit_step w id wc calls done b :
  destroy_pre w id →
  destroy_inv w id wc done → b ∉ done → HasComponent w b id = true →
  ∃ w', destroy_bit id b (Some (wc, calls))
        = Some (w', calls ++ trigger_calls w b id Removed) ∧
        destroy_inv w id w' (done ++ [b]).
Proof.
  intros Hinv [d1 d2 d3 d4 d5 d6 d7 d8 d9 d10] Hnd Hhas.
  destruct (dp_byid w id Hinv b Hhas) as (Hby & Htr & Hsome).
  assert (Hin : id ∈ SparseSet.m_DenseToEntity (store_of wc b)).
  { rewrite d8 by assumption. apply (dp_bits w id Hinv); assumption. }
  unfold destroy_bit. obind. rewrite d6, Htr.
  destruct (TriggerEvent_spec wc b id Removed (d7 b) Hin)
    as (w1 & Ht & Hshape & T1 & T2 & T3 & T4 & T5).
  rewrite Ht. obind. rewrite T2, d5, Hby.
  destruct Hshape as [S1 S2 S3 S4 S5 S6 S7 S8 S9].
  unfold remove_by_id. rewrite (store_of_lookup w1 b) by (apply S9, d10, Hsome). obind.
  destruct (Remove_spec (store_of w1 b) id (S5 b (d7 b))) as (s' & Hrem & Hinv' & Hmem & _).
  rewrite Hrem. obind.
  exists (put_store w1 b s'). split.
  { f_equal. f_equal. f_equal. unfold trigger_calls. rewrite d4, d8 by assumption. reflexivity. }
  split; wsimpl; try congruence.
  - intros c. rewrite store_of_put. destruct (decide (c = b)) as [->|Hne]; [assumption|].
    apply S5, d7.
  - intros c Hc. rewrite store_of_put. rewrite decide_False.
    2:{ intros ->. apply Hc. apply elem_of_app. right. apply list_elem_of_singleton. reflexivity. }
    destruct (decide (c = b)) as [->|Hne].
    + exfalso. apply Hc. apply elem_of_app. right. apply list_elem_of_singleton. reflexivity.
    + rewrite T4 by assumption. apply d8. intros Hd. apply Hc. apply elem_of_app. left. assumption.
  - intros c Hc x. rewrite store_of_put. destruct (decide (c = b)) as [->|Hne].
    + rewrite Hmem, S4, d8 by assumption. reflexivity.
    + rewrite T4 by assumption. apply d9.
      apply elem_of_app in Hc as [Hc|Hc]; [assumption|].
      apply list_elem_of_singleton in Hc. contradiction.
  - intros c Hc. destruct (decide (c = b)) as [->|Hne].
    + rewrite lookup_insert_eq. eauto.
    + rewrite lookup_insert_ne by congruence. apply S9, d10, Hc.
Qed.

(** The loop of [DestroyEntity] over a list of set bits. *)
Lemma destroy_loop w id (l : list N) :
  destroy_pre w id →
  ∀ wc calls done,
    destroy_inv w id wc done → NoDup l →
    (∀ b, b ∈ l → (b ∉ done) ∧ HasComponent w b id = true) →
    ∃ w', fold_left (λ acc b, destroy_bit id b acc) l (Some (wc, calls))
          = Some (w', calls ++ flat_map (λ b, trigger_calls w b id Removed) l) ∧
          destroy_inv w id w' (done ++ l).
Proof.
  intros Hinv. induction l as [|b l IH]; intros wc calls done Hd Hnd Hl.
  - exists wc. simpl. rewrite !app_nil_r. auto.
  - apply NoDup_cons in Hnd as [Hb Hnd].
    destruct (Hl b (list_elem_of_here _ _)) as [Hbd Hbh].
    destruct (destroy_bit_step w id wc calls done b Hinv Hd Hbd Hbh) as (w1 & Hs & Hd1).
    cbn [fold_left]. rewrite Hs.
    destruct (IH w1 (calls ++ trigger_calls w b id Removed) (done ++ [b]) Hd1 Hnd) as (w' & Hf & Hd').
    { intros b' Hb'. destruct (Hl b' (list_elem_of_further _ _ _ Hb')) as [H1 H2].
      split; [|assumption]. intros H3. apply elem_of_app in H3 as [H3|H3]; [contradiction|].
      apply list_elem_of_singleton in H3. subst b'. contradiction. }
    exists w'. split.
    + rewrite Hf. simpl. rewrite app_assoc. reflexivity.
    + rewrite <- app_assoc in Hd'. exact Hd'.
Qed.

(** What [DestroyEntity] does to a live entity whose components are
    recorded consistently. *)
Lemma DestroyEntity_local w id :
  destroy_pre w id → IsAlive w id = Some true →
  ∃ w' sig g,
    m_EntitySignatures w !! N.to_nat (Internal.GetIndex id) = Some sig ∧
    m_EntityGenerations w !! N.to_nat (Internal.GetIndex id) = Some g ∧
    DestroyEntity w id
    = Some (w', flat_map (λ b, trigger_calls w b id Removed) (ComponentMask.set_bits sig)) ∧
    m_EntitySignatures w'
    = <[N.to_nat (Internal.GetIndex id) := ComponentMask.ResetAll sig]> (m_EntitySignatures w) ∧
    m_EntityGenerations w'
    = <[N.to_nat (Internal.GetIndex id) := u32 (g + 1)]> (m_EntityGenerations w) ∧
    m_FreeEntities w'
    = m_FreeEntities w ++ [MakeEntityID (u32 (g + 1)) (Internal.GetIndex id)] ∧
    m_ComponentSignals w' = m_ComponentSignals w ∧
    m_StoresByID w' = m_StoresByID w ∧
    m_OnRemovedTriggers w' = m_OnRemovedTriggers w ∧
    (∀ c, sset_inv (store_of w' c)) ∧
    (∀ c x, x ∈ SparseSet.m_DenseToEntity (store_of w' c) ↔
            x ∈ SparseSet.m_DenseToEntity (store_of w c) ∧ x ≠ id) ∧
    (∀ c, is_Some (m_ComponentStores w !! c) → is_Some (m_ComponentStores w' !! c)).
Proof.
  intros Hinv Halive.
  pose proof Halive as [Hlt Hgen]%IsAlive_true.
  destruct (lookup_lt_is_Some_2 _ _ Hlt) as [sig Hsig].
  set (idx := Internal.GetIndex id) in *.
  set (g := Internal.GetGeneration id) in *.
  unfold DestroyEntity. rewrite Halive. obind. fold idx. rewrite Hsig. obind.
  rewrite ForEachSetBit_spec by (eapply (dp_mask w id Hinv), Hsig).
  assert (Hd0 : destroy_inv w id w []).
  { split; auto.
    - apply (dp_stores w id Hinv).
    - intros c Hc. apply elem_of_nil in Hc. contradiction. }
  destruct (destroy_loop w id (ComponentMask.set_bits sig) Hinv w [] [] Hd0)
    as (w1 & Hloop & Hd1).
  { apply sorted_NoDup, set_bits_sorted. }
  { intros b Hb. split; [apply not_elem_of_nil|].
    apply list_elem_of_In, set_bits_In in Hb. apply HasComponent_true. eauto. }
  rewrite Hloop. obind. simpl app in *.
  destruct Hd1 as [d1 d2 d3 d4 d5 d6 d7 d8 d9 d10].
  rewrite d1, Hsig. obind. wsimpl. rewrite d2, Hgen. obind. wsimpl.
  rewrite list_lookup_insert_eq by (eapply lookup_lt_Some, Hgen). obind.
  eexists _, sig, g. split; [reflexivity|]. split; [reflexivity|]. split; [reflexivity|].
  wsimpl. rewrite d3.
  split; [reflexivity|]. split; [reflexivity|]. split; [reflexivity|].
  split; [assumption|]. split; [assumption|]. split; [assumption|].
  split; [exact d7|]. split; [|exact d10].
  intros c x. change (store_of _ c) with (store_of w1 c) at 1.
  destruct (decide (c ∈ ComponentMask.set_bits sig)) as [Hc|Hc].
  - apply d9, Hc.
  - rewrite d8 by assumption. split; [|tauto].
    intros Hx. split; [assumption|]. intros ->. apply Hc.
    apply list_elem_of_In, set_bits_In.
    pose proof (dp_stored w id Hinv c Hx) as Hh.
    apply HasComponent_true in Hh as (m & Hm & Ht). fold idx in Hm. congruence.
Qed.

Lemma world_inv_destroy_pre w id :
  world_inv w → is_u64 id → IsAlive w id = Some true → destroy_pre w id.
Proof.
  intros Hinv Hid Halive. split.
  - apply (wi_stores w Hinv).
  - intros m Hm. eapply (wi_masks w Hinv), Hm.
  - intros c Hh. apply (wi_byid w Hinv c id Hh).
  - intros c Hh. apply (wi_bits w Hinv); assumption.
  - intros c Hx. apply (wi_stored w Hinv c id Hx).
Qed.

(** What [DestroyEntity] does to a live entity. *)
Lemma DestroyEntity_spec w id :
  world_inv w → is_u64 id → IsAlive w id = Some true →
  ∃ w' sig g,
    m_EntitySignatures w !! N.to_nat (Internal.GetIndex id) = Some sig ∧
    m_EntityGenerations w !! N.to_nat (Internal.GetIndex id) = Some g ∧
    DestroyEntity w id
    = Some (w', flat_map (λ b, trigger_calls w b id Removed) (ComponentMask.set_bits sig)) ∧
    m_EntitySignatures w'
    = <[N.to_nat (Internal.GetIndex id) := ComponentMask.ResetAll sig]> (m_EntitySignatures w) ∧
    m_EntityGenerations w'
    = <[N.to_nat (Internal.GetIndex id) := u32 (g + 1)]> (m_EntityGenerations w) ∧
    m_FreeEntities w'
    = m_FreeEntities w ++ [MakeEntityID (u32 (g + 1)) (Internal.GetIndex id)] ∧
    m_ComponentSignals w' = m_ComponentSignals w ∧
    m_StoresByID w' = m_StoresByID w ∧
    m_OnRemovedTriggers w' = m_OnRemovedTriggers w ∧
    (∀ c, sset_inv (store_of w' c)) ∧
    (∀ c x, x ∈ SparseSet.m_DenseToEntity (store_of w' c) ↔
            x ∈ SparseSet.m_DenseToEntity (store_of w c) ∧ x ≠ id) ∧
    (∀ c, is_Some (m_ComponentStores w !! c) → is_Some (m_ComponentStores w' !! c)).
Proof.
  intros Hinv Hid Halive.
  exact (DestroyEntity_local w id (world_inv_destroy_pre w id Hinv Hid Halive) Halive).
Qed.

Lemma DestroyEntity_inv w id w' calls :
  world_inv w → is_u64 id → DestroyEntity w id = Some (w', calls) → world_inv w'.
Proof.
  intros Hinv Hid Hdes.
  destruct (IsAlive w id) as [[|]|] eqn:Halive.
  2:{ unfold DestroyEntity in Hdes. rewrite Halive in Hdes. inversion Hdes; subst. assumption. }
  2:{ unfold DestroyEntity in Hdes. rewrite Halive in Hdes. discriminate. }
  pose proof Halive as [Hlt Hgen]%IsAlive_true.
  destruct (DestroyEntity_spec w id Hinv Hid Halive)
    as (w'' & sig & g & Hsig & Hg & Hdes' & P1 & P2 & P3 & P4 & P5 & P6 & P7 & P8 & P9).
  rewrite Hdes in Hdes'. inversion Hdes'; subst w''. clear Hdes' H1.
  set (idx := Internal.GetIndex id) in *.
  assert (Hidx : idx < 2 ^ 32) by apply GetIndex_lt.
  assert (HA : ∀ e, Internal.GetIndex e ≠ idx → IsAlive w' e = IsAlive w e).
  { intros e Hne. unfold IsAlive. rewrite P1, P2, length_insert.
    rewrite list_lookup_insert_ne by lia. reflexivity. }
  assert (HH : ∀ c e, HasComponent w' c e
                      = if Internal.GetIndex e =? idx then false else HasComponent w c e).
  { intros c e. unfold HasComponent. rewrite P1.
    destruct (N.eqb_spec (Internal.GetIndex e) idx) as [->|Hne].
    - rewrite list_lookup_insert_eq by assumption. apply Test_ResetAll.
    - rewrite list_lookup_insert_ne by lia. reflexivity. }
  destruct Hinv as [i1 i2 i3 i4 i5 i6 i7 i8 i9].
  split.
  - rewrite P1, P2, !length_insert. assumption.
  - rewrite P2. intros i g' Hg'. destruct (decide (i = N.to_nat idx)) as [->|Hne].
    + rewrite list_lookup_insert_eq in Hg' by (rewrite i1; assumption). inversion Hg'.
      unfold u32. lia.
    + rewrite list_lookup_insert_ne in Hg' by congruence. eapply i2, Hg'.
  - rewrite P1. intros i m Hm. destruct (decide (i = N.to_nat idx)) as [->|Hne].
    + rewrite list_lookup_insert_eq in Hm by assumption. inversion Hm. apply wf_ResetAll.
    + rewrite list_lookup_insert_ne in Hm by congruence. eapply i3, Hm.
  - assumption.
  - intros c e He. apply P8 in He as [He Hne].
    destruct (i5 _ _ He) as (a & b & d).
    assert (Internal.GetIndex e ≠ idx).
    { intros Hx. apply Hne. eapply alive_same_index; eauto. }
    rewrite HA, HH by assumption. destruct (N.eqb_spec (Internal.GetIndex e) idx); [contradiction|].
    auto.
  - intros c e He Ha Hh. rewrite HH in Hh.
    destruct (N.eqb_spec (Internal.GetIndex e) idx) as [|Hne]; [discriminate|].
    rewrite HA in Ha by assumption. apply P8. split; [apply i6; assumption|].
    intros ->. apply Hne. reflexivity.
  - intros c e. rewrite HH. destruct (N.eqb_spec (Internal.GetIndex e) idx); [discriminate|].
    intros Hh. destruct (i7 _ _ Hh) as (a & b & d). rewrite P5, P6. auto.
  - rewrite P6. assumption.
  - rewrite P3, P1, length_insert. intros e [He|He]%elem_of_app; [auto|].
    apply list_elem_of_singleton in He. subst e. rewrite GetIndex_Make by assumption. assumption.
Qed.

Lemma same_shape_fields w w' :
  m_StoresByID w' = m_StoresByID w →
  m_ComponentStores w' = m_ComponentStores w →
  m_OnRemovedTriggers w' = m_OnRemovedTriggers w →
  m_EntitySignatures w' = m_EntitySignatures w →
  m_EntityGenerations w' = m_EntityGenerations w →
  m_FreeEntities w' = m_FreeEntities w →
  same_shape w w'.
Proof.
  intros H1 H2 H3 H4 H5 H6. split; auto; unfold store_of; rewrite ?H1, ?H2, ?H3; auto.
Qed.

Lemma OnEvent_shape w c event (cb : Callback Component) : same_shape w (OnEvent w c event cb).
Proof.
  eapply same_shape_trans; [apply (EnsureSignalStorage_shape w c)|].
  unfold OnEvent. set (w1 := EnsureSignalStorage w c).
  unfold GetSignals. destruct (m_ComponentSignals w1 !! c); apply same_shape_fields; reflexivity.
Qed.

Lemma PatchComponent_shape w c id (func : Component → Component) w' calls :
  sset_inv (store_of w c) → PatchComponent w c id func = Some (w', calls) → same_shape w w'.
Proof.
  intros Hinv. unfold PatchComponent.
  destruct (HasComponent w c id); [|intros [= <- _]; apply same_shape_refl].
  unfold GetComponent.
  destruct (GetStore_spec w c) as (w1 & E & G1 & G2 & G3 & G4 & G5 & G6 & G7 & G8 & G9).
  rewrite E.
  destruct (SparseSet.Get (store_of w c) id) as [component|] eqn:Hget; [|discriminate].
  obind.
  pose proof (Get_Some_elem _ _ _ Hinv Hget) as Hin.
  destruct (GetStore_spec w1 c) as (w2 & E2 & K1 & K2 & K3 & K4 & K5 & K6 & K7 & K8 & K9).
  rewrite E2. rewrite G1.
  destruct (Assign_spec _ id (func component) Hinv Hin)
    as (s' & Hs' & Hinv' & Hents & Hpages & Hlen & Hget').
  rewrite Hs'. obind.
  assert (Hsh : same_shape w (put_store w2 c s')).
  { eapply same_shape_trans; [eapply GetStore_shape, E|].
    eapply same_shape_trans; [eapply GetStore_shape, E2|].
    apply put_store_shape; [rewrite K1, G1; assumption|assumption]. }
  assert (Hs : store_of (put_store w2 c s') c = s').
  { rewrite store_of_put, decide_True; reflexivity. }
  destruct (TriggerEvent_spec (put_store w2 c s') c id Modified)
    as (w3 & Ht & Hshape & _).
  { rewrite Hs. assumption. }
  { rewrite Hs, Hents. assumption. }
  rewrite Ht. intros [= <- _]. eapply same_shape_trans; eassumption.
Qed.

Lemma GetStores_spec (cs : list N) : ∀ w,
  ∃ w1, GetStores w cs = (map (λ c, (c, store_of w c)) cs, w1) ∧ same_shape w w1 ∧
        (∀ c, store_of w1 c = store_of w c) ∧
        m_EntitySignatures w1 = m_EntitySignatures w.
Proof.
  induction cs as [|c cs IH]; intros w; simpl.
  - exists w. split; [reflexivity|]. split; [apply same_shape_refl|]. auto.
  - destruct (GetStore_spec w c) as (w1 & E & G1 & G2 & G3 & G4 & G5 & G6 & G7 & G8 & G9).
    rewrite E. destruct (IH w1) as (w2 & E2 & Hsh & Hst & Hsig). rewrite E2.
    exists w2. split.
    { f_equal. f_equal. apply map_ext. intros c'. rewrite G1. reflexivity. }
    split. { eapply same_shape_trans; [eapply GetStore_shape, E|assumption]. }
    split. { intros c'. rewrite Hst. apply G1. }
    congruence.
Qed.

(** A sparse set that differs in its component values only keeps the
    invariants. *)
Lemma sset_inv_values (s s' : SparseSet.t Component) :
  SparseSet.m_DenseToEntity s' = SparseSet.m_DenseToEntity s →
  SparseSet.m_SparsePages s' = SparseSet.m_SparsePages s →
  length (SparseSet.m_DenseData s') = length (SparseSet.m_DenseData s) →
  sset_inv s → sset_inv s'.
Proof.
  intros He Hp Hl [a b c d e].
  split; unfold SparseSet.sparse_at in *; rewrite ?He, ?Hp, ?Hl; assumption.
Qed.

(** A write through [Get(entity)] that has a result changes a value. *)
Lemma Assign_fields (s : SparseSet.t Component) e (v : Component) s' :
  SparseSet.Assign s e v = Some s' →
  SparseSet.m_DenseToEntity s' = SparseSet.m_DenseToEntity s ∧
  SparseSet.m_SparsePages s' = SparseSet.m_SparsePages s ∧
  length (SparseSet.m_DenseData s') = length (SparseSet.m_DenseData s).
Proof.
  unfold SparseSet.Assign.
  destruct (SparseSet.Contains s e) as [[|]|]; obind; try discriminate.
  destruct (SparseSet.slot_get _ _) as [k|]; obind; [|discriminate].
  unfold vec_set. destruct (_ <? _)%nat; obind; [|discriminate].
  intros [= <-]. cbn [SparseSet.m_DenseToEntity SparseSet.m_SparsePages SparseSet.m_DenseData].
  rewrite length_insert. auto.
Qed.

Lemma put_store_values_shape w c (s : SparseSet.t Component) :
  SparseSet.m_DenseToEntity s = SparseSet.m_DenseToEntity (store_of w c) →
  SparseSet.m_SparsePages s = SparseSet.m_SparsePages (store_of w c) →
  length (SparseSet.m_DenseData s) = length (SparseSet.m_DenseData (store_of w c)) →
  same_shape w (put_store w c s).
Proof.
  intros Hents Hpages Hlen. split; simpl; auto.
  - intros c'. rewrite store_of_put. destruct (decide (c' = c)) as [->|]; auto.
  - intros c'. rewrite store_of_put. destruct (decide (c' = c)) as [->|]; [|auto].
    apply sset_inv_values; assumption.
  - intros c' Hc'. destruct (decide (c' = c)) as [->|Hne].
    + rewrite lookup_insert_eq. eauto.
    + rewrite lookup_insert_ne by congruence. assumption.
Qed.

(** What a write of [func] through one of its references does to the
    world: the store of the component gets a store that differs in a value
    only. *)
Lemma write_arg_fields w c (driving : bool) (i : nat) e (v : Component) w' :
  write_arg w c driving i e v = Some w' →
  ∃ s', w' = put_store w c s' ∧
        m_ComponentStores w !! c = Some (store_of w c) ∧
        (if driving
         then vec_set (SparseSet.m_DenseData (store_of w c)) i v = Some (SparseSet.m_DenseData s')
         else SparseSet.Assign (store_of w c) e v = Some s') ∧
        SparseSet.m_DenseToEntity s' = SparseSet.m_DenseToEntity (store_of w c) ∧
        SparseSet.m_SparsePages s' = SparseSet.m_SparsePages (store_of w c) ∧
        length (SparseSet.m_DenseData s') = length (SparseSet.m_DenseData (store_of w c)).
Proof.
  unfold write_arg.
  destruct (m_ComponentStores w !! c) as [s|] eqn:Es; obind; [|discriminate].
  assert (Hst : store_of w c = s) by (unfold store_of; rewrite Es; reflexivity).
  rewrite Hst. destruct driving.
  - unfold vec_set. destruct (i <? length (SparseSet.m_DenseData s))%nat; obind; [|discriminate].
    intros [= <-]. eexists. split; [reflexivity|].
    cbn [SparseSet.m_DenseToEntity SparseSet.m_SparsePages SparseSet.m_DenseData].
    rewrite length_insert. repeat split; reflexivity.
  - destruct (SparseSet.Assign s e v) as [s'|] eqn:Ha; obind; [|discriminate].
    intros [= <-]. exists s'. destruct (Assign_fields s e v s' Ha) as (H1 & H2 & H3).
    repeat split; auto.
Qed.

Lemma write_arg_shape w c (driving : bool) (i : nat) e (v : Component) w' :
  write_arg w c driving i e v = Some w' → same_shape w w'.
Proof.
  intros (s' & -> & _ & _ & H1 & H2 & H3)%write_arg_fields.
  apply put_store_values_shape; assumption.
Qed.

Lemma write_args_shape (cs : list N) : ∀ w (pos drivingIdx i : nat) e (results : list Component) w',
  write_args w cs pos drivingIdx i e results = Some w' → same_shape w w'.
Proof.
  induction cs as [|c cs IH]; intros w pos drivingIdx i e results w'.
  - intros [= <-]. apply same_shape_refl.
  - destruct results as [|v results]; [intros [= <-]; apply same_shape_refl|].
    cbn [write_args].
    destruct (write_arg w c (pos =? drivingIdx)%nat i e v) as [w1|] eqn:Hw; obind; [|discriminate].
    intros Hrest. eapply same_shape_trans; [eapply write_arg_shape, Hw|eapply IH, Hrest].
Qed.

Lemma each_rows_shape (mask : ComponentMask.t) (cs : list N) (drivingIdx : nat)
    (func : list Component → list Component) (entities : list EntityID) :
  ∀ w (i : nat) calls w',
    each_rows w mask cs drivingIdx i entities func = Some (calls, w') → same_shape w w'.
Proof.
  induction entities as [|e entities IH]; intros w i calls w'.
  - intros [= _ <-]. apply same_shape_refl.
  - cbn [each_rows].
    destruct (m_EntitySignatures w !! N.to_nat (Internal.GetIndex e)) as [sig|]; obind; [|discriminate].
    destruct (ComponentMask.Contains sig mask).
    + destruct (call_args w cs 0 drivingIdx i e) as [args|]; obind; [|discriminate].
      destruct (write_args w cs 0 drivingIdx i e (func args)) as [w1|] eqn:Hw; obind; [|discriminate].
      destruct (each_rows w1 mask cs drivingIdx (S i) entities func) as [[calls1 w2]|] eqn:Hr;
        obind; [|discriminate].
      intros [= _ <-].
      eapply same_shape_trans; [eapply write_args_shape, Hw|eapply IH, Hr].
    + obind.
      destruct (each_rows w mask cs drivingIdx (S i) entities func) as [[calls1 w2]|] eqn:Hr;
        obind; [|discriminate].
      intros [= _ <-]. eapply IH, Hr.
Qed.

Lemma each_from_shape w (cs : list N) (d : N) (func : list Component → list Component) calls w' :
  each_from w cs d func = Some (calls, w') → same_shape w w'.
Proof.
  unfold each_from.
  destruct (GetStores_spec cs w) as (w1 & E & Hsh & _). rewrite E.
  destruct (GetStore w1 d) as [store w2] eqn:E2.
  intros Hr. eapply same_shape_trans; [exact Hsh|].
  eapply same_shape_trans; [eapply GetStore_shape, E2|]. eapply each_rows_shape, Hr.
Qed.

(** [Each] changes component values and brings stores into existence. *)
Lemma Each_shape w (cs : list N) (func : list Component → list Component) calls w' :
  Each w cs func = Some (calls, w') → same_shape w w'.
Proof.
  unfold Each. destruct cs as [|c cs]; [intros [= _ <-]; apply same_shape_refl|].
  destruct (GetStores_spec (c :: cs) w) as (w1 & E & Hsh & _). rewrite E.
  destruct (snd (findSmallest _)); [|intros [= _ <-]; assumption].
  apply each_from_shape.
Qed.

(** New slots, with empty signatures and generation 0, keep the
    invariants. *)
Lemma world_inv_extend w (k : nat) :
  world_inv w →
  world_inv (with_EntityGenerations
               (with_EntitySignatures w (m_EntitySignatures w ++ replicate k (ComponentMask.Make 0)))
               (m_EntityGenerations w ++ replicate k 0)).
Proof.
  intros [i1 i2 i3 i4 i5 i6 i7 i8 i9].
  set (w' := with_EntityGenerations _ _).
  assert (HH : ∀ c e, HasComponent w' c e = HasComponent w c e).
  { intros c e. unfold HasComponent, w'. wsimpl.
    destruct (m_EntitySignatures w !! N.to_nat (Internal.GetIndex e)) as [m|] eqn:E.
    - rewrite (lookup_app_l_Some _ _ _ _ E). reflexivity.
    - destruct ((_ ++ _) !! _) as [m|] eqn:E'; [|reflexivity].
      apply lookup_app_Some in E' as [E'|[_ E']]; [congruence|].
      apply lookup_replicate in E' as [-> _]. apply Test_Make0. }
  assert (HA : ∀ e, IsAlive w e = Some true → IsAlive w' e = Some true).
  { intros e [Hlt Hg]%IsAlive_true. apply IsAlive_true. unfold w'. wsimpl.
    rewrite length_app. split; [lia|]. apply lookup_app_l_Some. assumption. }
  assert (HA' : ∀ e, (N.to_nat (Internal.GetIndex e) < length (m_EntitySignatures w))%nat →
                     IsAlive w' e = Some true → IsAlive w e = Some true).
  { intros e Hlt [_ Hg]%IsAlive_true. apply IsAlive_true. split; [assumption|].
    unfold w' in Hg. wsimpl in Hg. rewrite lookup_app_l in Hg by lia. assumption. }
  split.
  - unfold w'. wsimpl. rewrite !length_app, !length_replicate. lia.
  - unfold w'. wsimpl. intros i g [Hg|[_ Hg]]%lookup_app_Some; [eauto|].
    apply lookup_replicate in Hg as [-> _]. lia.
  - unfold w'. wsimpl. intros i m [Hm|[_ Hm]]%lookup_app_Some; [eauto|].
    apply lookup_replicate in Hm as [-> _]. apply wf_Make. lia.
  - exact i4.
  - intros c e He. change (store_of w' c) with (store_of w c) in He.
    destruct (i5 _ _ He) as (a & b & d). rewrite HH. auto.
  - intros c e He Ha Hh. change (store_of w' c) with (store_of w c).
    rewrite HH in Hh. apply i6; try assumption. apply HA'; [|assumption].
    apply HasComponent_true in Hh as (m & Hm & _). eapply lookup_lt_Some, Hm.
  - intros c e. rewrite HH. apply i7.
  - exact i8.
  - unfold w'. wsimpl. rewrite length_app. intros e He. specialize (i9 e He). lia.
Qed.

Lemma world_inv_free w (free : list EntityID) :
  world_inv w → (∀ e, e ∈ free → e ∈ m_FreeEntities w) →
  world_inv (with_FreeEntities w free).
Proof.
  intros [i1 i2 i3 i4 i5 i6 i7 i8 i9] Hsub. split; auto.
Qed.

Lemma CreateEntity_inv w id w' :
  world_inv w → CreateEntity w = Some (id, w') → world_inv w'.
Proof.
  intros Hinv. unfold CreateEntity.
  destruct (last (m_FreeEntities w)) as [fid|] eqn:El.
  - unfold pop_back. destruct (m_FreeEntities w) as [|a l] eqn:Ef; [discriminate|].
    rewrite <- Ef. obind.
    destruct (m_EntityGenerations w !! N.to_nat (Internal.GetIndex fid)); [|discriminate].
    obind. intros [= _ <-]. apply world_inv_free; [assumption|].
    intros e (i & Hi & _)%elem_of_take. eapply list_elem_of_lookup_2, Hi.
  - intros [= _ <-]. apply (world_inv_extend w 1 Hinv).
Qed.

Lemma CreateEntity_pop_sigs w id w' :
  m_FreeEntities w ≠ [] → CreateEntity w = Some (id, w') →
  m_EntitySignatures w' = m_EntitySignatures w ∧
  m_EntityGenerations w' = m_EntityGenerations w ∧
  (length (m_FreeEntities w') < length (m_FreeEntities w))%nat.
Proof.
  intros Hne. unfold CreateEntity.
  destruct (last (m_FreeEntities w)) as [fid|] eqn:El.
  - unfold pop_back. destruct (m_FreeEntities w) as [|a l] eqn:Ef; [discriminate|].
    obind.
    destruct (m_EntityGenerations w !! N.to_nat (Internal.GetIndex fid)); [|discriminate].
    obind. intros [= _ <-]. wsimpl. rewrite length_take. simpl. split; [reflexivity|].
    split; [reflexivity|lia].
  - apply last_None in El. contradiction.
Qed.

Lemma drain_free_inv (turns : nat) : ∀ (count : N) w (entities : list EntityID) count' w' entities',
  world_inv w → drain_free turns count w entities = Some (count', w', entities') →
  world_inv w' ∧ m_EntitySignatures w' = m_EntitySignatures w ∧
  m_EntityGenerations w' = m_EntityGenerations w.
Proof.
  induction turns as [|turns IH]; intros count w entities count' w' entities' Hinv; simpl.
  - destruct (_ && _); [discriminate|]. intros [= _ <- _]. auto.
  - destruct ((0 <? count) && negb (bool_decide (m_FreeEntities w = []))) eqn:Ec.
    2:{ intros [= _ <- _]. auto. }
    apply andb_true_iff in Ec as [_ Hne]. apply negb_true_iff, bool_decide_eq_false in Hne.
    destruct (CreateEntity w) as [[id w1]|] eqn:Ecr; [|discriminate]. obind.
    intros Hd. destruct (CreateEntity_pop_sigs w id w1 Hne Ecr) as (S1 & S2 & _).
    destruct (IH _ _ _ _ _ _ (CreateEntity_inv w id w1 Hinv Ecr) Hd) as (H1 & H2 & H3).
    split; [assumption|]. split; congruence.
Qed.

Lemma CreateEntitiesBulk_inv w (count : N) (ids : list EntityID) w' :
  world_inv w → N.of_nat (length (m_EntitySignatures w)) < 2 ^ 32 →
  CreateEntitiesBulk w count = Some (ids, w') → world_inv w'.
Proof.
  intros Hinv Hlen. unfold CreateEntitiesBulk.
  destruct (drain_free _ _ _ _) as [[[count1 w1] ents1]|] eqn:Ed; [|discriminate]. obind.
  destruct (drain_free_inv _ _ _ _ _ _ _ Hinv Ed) as (Hinv1 & S1 & S2).
  destruct (N.ltb_spec 0 count1); [|intros [= _ <-]; assumption].
  destruct (N.ltb_spec count1 (2 ^ 32)); [|discriminate].
  intros [= _ <-].
  assert (Hlen1 : N.of_nat (length (m_EntitySignatures w1)) < 2 ^ 32) by (rewrite S1; assumption).
  assert (Hu : u32 (N.of_nat (length (m_EntitySignatures w1))) = N.of_nat (length (m_EntitySignatures w1))).
  { unfold u32. apply N.mod_small. assumption. }
  rewrite Hu.
  assert (Hsz : N.to_nat ((N.of_nat (length (m_EntitySignatures w1)) + count1) mod 2 ^ 64)
                = (length (m_EntitySignatures w1) + N.to_nat count1)%nat).
  { rewrite N.mod_small; lia. }
  rewrite Hsz. rewrite !resize_ge by (rewrite ?(wi_len w1 Hinv1); lia).
  rewrite (wi_len w1 Hinv1).
  replace (length (m_EntitySignatures w1) + N.to_nat count1 - length (m_EntitySignatures w1))%nat
    with (N.to_nat count1) by lia.
  apply (world_inv_extend w1 (N.to_nat count1) Hinv1).
Qed.

Lemma Any_false_Test (m : ComponentMask.t) (c : N) :
  ComponentMask.Any m = false → ComponentMask.Test m c = false.
Proof.
  unfold ComponentMask.Any. simpl. intros H.
  apply orb_false_iff in H as [H0 H]. apply orb_false_iff in H as [H1 H].
  apply orb_false_iff in H as [H2 H]. apply orb_false_iff in H as [H3 _].
  apply negb_false_iff, N.eqb_eq in H0, H1, H2, H3.
  rewrite Test_spec.
  replace (ComponentMask.GetWord m (c / 64)) with 0.
  - rewrite N.bits_0. apply andb_false_r.
  - destruct (c / 64) as [|[[[]|[]|]|[[]|[]|]|]]; simpl; congruence.
Qed.

Lemma HasComponent_index w c e1 e2 :
  Internal.GetIndex e1 = Internal.GetIndex e2 → HasComponent w c e1 = HasComponent w c e2.
Proof. intros H. unfold HasComponent. rewrite H. reflexivity. Qed.

Lemma CreateEntity_id_inv w id r w' :
  world_inv w → is_u64 id → slot_populated w id = false →
  CreateEntity_id w id = Some (r, w') → world_inv w'.
Proof.
  intros Hinv Hid Hslot. unfold CreateEntity_id.
  set (idx := Internal.GetIndex id). set (gen := Internal.GetGeneration id).
  set (w1 := if (length (m_EntitySignatures w) <=? N.to_nat idx)%nat then _ else w).
  destruct (decide (N.to_nat idx < length (m_EntitySignatures w1))%nat) as [Hlt1|Hge1].
  2:{ unfold IsAlive. fold idx.
      destruct (Nat.ltb_spec (N.to_nat idx) (length (m_EntitySignatures w1))); [lia|].
      obind. unfold vec_set. wsimpl.
      assert (Hl : length (m_EntityGenerations w1) = length (m_EntitySignatures w1)).
      { unfold w1. destruct (_ <=? _)%nat; wsimpl; [|apply Hinv]. rewrite !length_resize. reflexivity. }
      destruct (Nat.ltb_spec (N.to_nat idx) (length (m_EntityGenerations w1))); [lia|].
      discriminate. }
  assert (H1 : world_inv w1 ∧ ∀ c, HasComponent w1 c id = false).
  { unfold w1 in *. destruct (Nat.leb_spec (length (m_EntitySignatures w)) (N.to_nat idx)) as [Hle|Hgt].
    - wsimpl in Hlt1. rewrite length_resize in Hlt1.
      assert (Hu : u32 (idx + 1) = idx + 1).
      { unfold u32 in *. pose proof (GetIndex_lt id). fold idx in H.
        destruct (decide (idx + 1 < 2 ^ 32)); [apply N.mod_small; assumption|].
        replace (idx + 1) with (2 ^ 32) in Hlt1 by lia. rewrite N.Div0.mod_same in Hlt1. lia. }
      rewrite Hu. wsimpl.
      rewrite !resize_ge by (rewrite ?(wi_len w Hinv); lia).
      rewrite (wi_len w Hinv). split; [apply world_inv_extend; assumption|].
      intros c. unfold HasComponent. wsimpl. fold idx.
      rewrite lookup_app_r by lia.
      destruct (replicate _ _ !! _) as [m|] eqn:E; [|reflexivity].
      apply lookup_replicate in E as [-> _]. apply Test_Make0.
    - split; [assumption|]. intros c. unfold HasComponent. fold idx.
      unfold slot_populated in Hslot. fold idx in Hslot.
      destruct (m_EntitySignatures w !! N.to_nat idx) as [m|]; [|reflexivity].
      apply Any_false_Test. assumption. }
  destruct H1 as [Hinv1 Hno]. clearbody w1.
  destruct (IsAlive w1 id) as [[|]|] eqn:Halive; obind; try discriminate.
  { intros [= _ <-]. assumption. }
  wsimpl. unfold vec_set.
  destruct (Nat.ltb_spec (N.to_nat idx) (length (m_EntityGenerations w1)));
    [|rewrite (wi_len w1 Hinv1) in *; lia].
  obind. wsimpl.
  destruct (lookup_lt_is_Some_2 _ _ Hlt1) as [sig Hsig]. rewrite Hsig. obind.
  intros [= _ <-].
  set (w' := with_EntitySignatures _ _).
  assert (HA : ∀ e, Internal.GetIndex e ≠ idx → IsAlive w' e = IsAlive w1 e).
  { intros e Hne. unfold IsAlive, w'. wsimpl. rewrite length_insert.
    rewrite list_lookup_insert_ne by lia. reflexivity. }
  assert (HH : ∀ c e, HasComponent w' c e = HasComponent w1 c e).
  { intros c e. unfold HasComponent at 1. unfold w'. wsimpl.
    destruct (N.eqb_spec (Internal.GetIndex e) idx) as [He|Hne].
    - rewrite He, list_lookup_insert_eq by assumption.
      rewrite (HasComponent_index w1 c e id He), Hno. apply Test_ResetAll.
    - rewrite list_lookup_insert_ne by lia. reflexivity. }
  assert (Hidx : ∀ c e, HasComponent w1 c e = true → Internal.GetIndex e ≠ idx).
  { intros c e Hh He. rewrite (HasComponent_index w1 c e id He), Hno in Hh. discriminate. }
  destruct Hinv1 as [i1 i2 i3 i4 i5 i6 i7 i8 i9].
  split.
  - unfold w'. wsimpl. rewrite !length_insert. assumption.
  - unfold w'. wsimpl. intros i g Hg. destruct (decide (i = N.to_nat idx)) as [->|Hne].
    + rewrite list_lookup_insert_eq in Hg by assumption. inversion Hg. apply GetGeneration_lt.
    + rewrite list_lookup_insert_ne in Hg by congruence. eapply i2, Hg.
  - unfold w'. wsimpl. intros i m Hm. destruct (decide (i = N.to_nat idx)) as [->|Hne].
    + rewrite list_lookup_insert_eq in Hm by assumption. inversion Hm. apply wf_ResetAll.
    + rewrite list_lookup_insert_ne in Hm by congruence. eapply i3, Hm.
  - exact i4.
  - intros c e He. change (store_of w' c) with (store_of w1 c) in He.
    destruct (i5 _ _ He) as (a & b & d). rewrite HH, HA by (eapply Hidx; eauto). auto.
  - intros c e He Ha Hh. change (store_of w' c) with (store_of w1 c).
    rewrite HH in Hh. rewrite HA in Ha by (eapply Hidx; eauto). apply i6; assumption.
  - intros c e. rewrite HH. apply i7.
  - exact i8.
  - unfold w'. wsimpl. rewrite length_insert. intros e He%list_elem_of_In.
    apply filter_In in He as [He _]. apply i9, list_elem_of_In, He.
Qed.

(** The invariants of the store hold in every state reached by calls on
    live entities. *)
Theorem reachable_inv w : reachable w → world_inv w.
Proof.
  induction 1 as [|w o w' Hr IH Hg He].
  - split; simpl; try reflexivity.
    + intros i g Hg. rewrite lookup_nil in Hg. discriminate.
    + intros i m Hm. rewrite lookup_nil in Hm. discriminate.
    + intros c. apply sset_inv_empty.
    + intros c e He. unfold store_of in He. simpl in He. rewrite lookup_empty in He.
      simpl in He. apply elem_of_nil in He. contradiction.
    + intros c e _ Ha. unfold IsAlive in Ha. simpl in Ha. discriminate.
    + intros c e Hh. unfold HasComponent in Hh. simpl in Hh. try rewrite lookup_nil in Hh. discriminate.
    + intros i k Hk. rewrite lookup_nil in Hk. discriminate.
    + intros e He. apply elem_of_nil in He. contradiction.
  - destruct o as [|count|id|id|c event cb|c id func|c id v|c id|cs func]; simpl in Hg, He.
    + destruct (CreateEntity w) as [[id w1]|] eqn:E; [|discriminate]. inversion He; subst.
      eapply CreateEntity_inv; eauto.
    + destruct (CreateEntitiesBulk w count) as [[ids w1]|] eqn:E; [|discriminate]. inversion He; subst.
      apply N.ltb_lt in Hg. eapply CreateEntitiesBulk_inv; eauto.
    + destruct (CreateEntity_id w id) as [[r w1]|] eqn:E; [|discriminate]. inversion He; subst.
      apply andb_true_iff in Hg as [Hid Hs]. apply N.ltb_lt in Hid. apply negb_true_iff in Hs.
      eapply CreateEntity_id_inv; eauto.
    + destruct (DestroyEntity w id) as [[w1 calls]|] eqn:E; [|discriminate]. inversion He; subst.
      apply N.ltb_lt in Hg. eapply DestroyEntity_inv; eauto.
    + inversion He; subst. eapply world_inv_shape; [eassumption|apply OnEvent_shape].
    + destruct (PatchComponent w c id func) as [[w1 calls]|] eqn:E; [|discriminate]. inversion He; subst.
      eapply world_inv_shape; [eassumption|].
      eapply PatchComponent_shape; [apply (wi_stores w IH)|eassumption].
    + destruct (AddComponent w c id v) as [[w1 calls]|] eqn:E; [|discriminate]. inversion He; subst.
      apply andb_true_iff in Hg as [Hg Ha]. apply andb_true_iff in Hg as [Hc Hid].
      apply N.ltb_lt in Hc, Hid. unfold is_alive in Ha.
      destruct (IsAlive w id) as [[|]|] eqn:Halive; try discriminate.
      eapply AddComponent_inv; eauto.
    + destruct (RemoveComponent w c id) as [[w1 calls]|] eqn:E; [|discriminate]. inversion He; subst.
      apply andb_true_iff in Hg as [Hid Ha]. apply N.ltb_lt in Hid.
      eapply RemoveComponent_inv; eauto.
      apply orb_true_iff in Ha as [Ha|Ha].
      * left. unfold is_alive in Ha. destruct (IsAlive w id) as [[|]|]; try discriminate. reflexivity.
      * right. apply negb_true_iff in Ha. assumption.
    + destruct (Each w cs func) as [[calls w1]|] eqn:E; [|discriminate]. inversion He; subst.
      eapply world_inv_shape; [eassumption|]. eapply Each_shape; eauto.
Qed.

Lemma reachable_run (ops : list Op) : ∀ w w',
  reachable w → run disciplined w ops = Some w' → reachable w'.
Proof.
  induction ops as [|o ops IH]; intros w w' Hr; simpl.
  - intros [= <-]. assumption.
  - destruct (disciplined w o) eqn:Hg; [|discriminate].
    destruct (exec w o) as [w1|] eqn:He; [|discriminate]. obind.
    apply IH. eapply reach_step; eauto.
Qed.

End WorldFacts.

(** ** Theorems on the world *)

Section WorldTheorems.

Import World.

Context {Component : Type}.

Implicit Types (w : World.t Component) (e id : EntityID) (c : N).

(** C10, as the code has it.  [CreateEntity(id)] with an index [i] at or
    beyond the end of the entity sequences, and not the last index (no wrap
    of [i + 1] on 32 bits), returns [id] and resizes both sequences to
    [i + 1]; the new generations are 0, so every identifier (generation 0,
    index [k]) with [L <= k < i] is alive afterwards; and the call puts
    nothing on the free list. *)
Theorem C10_CreateEntity_id_gap w id (L : nat) (i : N) :
  length (m_EntitySignatures w) = L →
  (length (m_EntityGenerations w) <= L)%nat →
  Internal.GetIndex id = i →
  (L <= N.to_nat i)%nat →
  i + 1 < 2 ^ 32 →
  ∃ w', CreateEntity_id w id = Some (id, w') ∧
        length (m_EntitySignatures w') = N.to_nat (i + 1) ∧
        length (m_EntityGenerations w') = N.to_nat (i + 1) ∧
        (∀ e, e ∈ m_FreeEntities w' → e ∈ m_FreeEntities w) ∧
        ∀ k, N.of_nat L <= k → k < i →
             m_EntityGenerations w' !! N.to_nat k = Some 0 ∧
             IsAlive w' (MakeEntityID 0 k) = Some true.
Proof.
  intros HL Hgl Hi Hli Hwrap. subst L i.
  set (L := length (m_EntitySignatures w)) in *.
  set (i := Internal.GetIndex id) in *.
  unfold CreateEntity_id. fold i.
  destruct (Nat.leb_spec (length (m_EntitySignatures w)) (N.to_nat i)) as [_|]; [|fold L in H; lia].
  assert (Hu : u32 (i + 1) = i + 1) by (unfold u32; apply N.mod_small; assumption).
  rewrite Hu. wsimpl.
  rewrite !resize_ge by (fold L; lia).
  set (sigs1 := m_EntitySignatures w ++ _). set (gens1 := m_EntityGenerations w ++ _).
  assert (Hls : length sigs1 = N.to_nat (i + 1)).
  { unfold sigs1. rewrite length_app, length_replicate. fold L. lia. }
  assert (Hlg : length gens1 = N.to_nat (i + 1)).
  { unfold gens1. rewrite length_app, length_replicate. lia. }
  assert (Hzero : ∀ k : nat, (L <= k)%nat → (k <= N.to_nat i)%nat → gens1 !! k = Some 0).
  { intros k H1 H2. unfold gens1. rewrite lookup_app_r by lia.
    apply lookup_replicate. split; [reflexivity|lia]. }
  assert (Halive : ∀ (sigs : list ComponentMask.t) (gens : list N) (wx : World.t Component) k,
             m_EntitySignatures wx = sigs → m_EntityGenerations wx = gens →
             length sigs = N.to_nat (i + 1) → k < i → gens !! N.to_nat k = Some 0 →
             IsAlive wx (MakeEntityID 0 k) = Some true).
  { intros sigs gens wx k E1 E2 Hl Hk Hg. apply IsAlive_true.
    rewrite GetIndex_Make, GetGeneration_Make by lia. rewrite E1, E2. split; [lia|assumption]. }
  unfold IsAlive at 1. wsimpl. fold i. rewrite Hls.
  destruct (Nat.ltb_spec (N.to_nat i) (N.to_nat (i + 1))); [|lia].
  rewrite (Hzero (N.to_nat i)) by lia. obind.
  destruct (N.eqb_spec 0 (Internal.GetGeneration id)) as [Hg0|Hg0].
  - eexists. split; [reflexivity|]. wsimpl. split; [assumption|]. split; [assumption|].
    split; [auto|].
    intros k Hk1 Hk2. split; [apply Hzero; lia|].
    eapply Halive; try reflexivity; try assumption. apply Hzero; lia.
  - wsimpl. unfold vec_set. rewrite Hlg.
    destruct (Nat.ltb_spec (N.to_nat i) (N.to_nat (i + 1))); [|lia]. obind. wsimpl.
    destruct (lookup_lt_is_Some_2 sigs1 (N.to_nat i)) as [sig Hsig]; [lia|].
    rewrite Hsig. obind. eexists. split; [reflexivity|]. wsimpl.
    rewrite !length_insert. split; [assumption|]. split; [assumption|]. split.
    { intros e He%list_elem_of_In. apply filter_In in He as [He _].
      apply list_elem_of_In. exact He. }
    intros k Hk1 Hk2.
    assert (Hgk : <[N.to_nat i := Internal.GetGeneration id]> gens1 !! N.to_nat k = Some 0).
    { rewrite list_lookup_insert_ne by lia. apply Hzero; lia. }
    split; [assumption|].
    eapply Halive; try reflexivity; try assumption. wsimpl. rewrite length_insert. assumption.
Qed.


Lemma run_callbacks_keys (cbs : list (Callback Component)) event c id (v : Component) :
  map call_key (snd (run_callbacks cbs event c id v))
  = map (λ cb, (c, event, cb_name cb)) cbs.
Proof.
  revert v. induction cbs as [|cb cbs IH]; intros v; simpl; [reflexivity|].
  specialize (IH (cb_run cb id v)).
  destruct (run_callbacks cbs event c id (cb_run cb id v)) as [final calls].
  simpl in *. rewrite IH. reflexivity.
Qed.

Lemma run_callbacks_entity (cbs : list (Callback Component)) event c id (v : Component) :
  Forall (λ call, call_entity call = id) (snd (run_callbacks cbs event c id v)).
Proof.
  revert v. induction cbs as [|cb cbs IH]; intros v; simpl; [constructor|].
  specialize (IH (cb_run cb id v)).
  destruct (run_callbacks cbs event c id (cb_run cb id v)) as [final calls].
  simpl in *. constructor; [reflexivity|assumption].
Qed.

(** The first callback is handed the value the event was raised with. *)
Lemma run_callbacks_first (cbs : list (Callback Component)) event c id (v : Component) :
  call_value <$> head (snd (run_callbacks cbs event c id v)) = (λ _, v) <$> head cbs.
Proof.
  destruct cbs as [|cb cbs]; simpl; [reflexivity|].
  destruct (run_callbacks cbs event c id (cb_run cb id v)) as [final calls]. reflexivity.
Qed.

(** Callbacks that only read leave the component as it was. *)
Lemma run_callbacks_readonly (cbs : list (Callback Component)) event c id (v : Component) :
  (∀ cb x, cb ∈ cbs → cb_run cb id x = x) →
  fst (run_callbacks cbs event c id v) = v.
Proof.
  revert v. induction cbs as [|cb cbs IH]; intros v Hro; simpl; [reflexivity|].
  rewrite (Hro cb v) by apply list_elem_of_here.
  specialize (IH v (λ cb' x H, Hro cb' x (list_elem_of_further _ _ _ H))).
  destruct (run_callbacks cbs event c id v) as [final calls]. exact IH.
Qed.



(** C7.  [AddComponent<T>(e, v)] on an entity that already holds a [T]:
    the call has a result; the row of [e] is overwritten (the store keeps
    its size); every Added observer of [T] is invoked once, in registration
    order, the first one with [v]; no other callback is invoked (no
    Removed event); afterwards the store holds [v] as the Added observers
    left it, which is [v] itself when they only read. *)
Theorem C7_AddComponent_overwrites w c e (v : Component) :
  reachable w →
  HasComponent w c e = true →
  SparseSet.Contains (store_of w c) e = Some true →
  ∃ w' calls,
    AddComponent w c e v = Some (w', calls) ∧
    map call_key calls = map (λ cb, (c, Added, cb_name cb)) (observers w c Added) ∧
    Forall (λ call, call_event call = Added ∧ call_entity call = e) calls ∧
    call_value <$> head calls = (λ _, v) <$> head (observers w c Added) ∧
    SparseSet.Get (store_of w' c) e
    = Some (fst (run_callbacks (observers w c Added) Added c e v)) ∧
    ((∀ cb x, cb ∈ observers w c Added → cb_run cb e x = x) →
     SparseSet.Get (store_of w' c) e = Some v) ∧
    SparseSet.Contains (store_of w' c) e = Some true ∧
    length (SparseSet.m_DenseToEntity (store_of w' c))
    = length (SparseSet.m_DenseToEntity (store_of w c)) ∧
    HasComponent w' c e = true.
Proof.
  intros Hr Hhas Hcont. pose proof (reachable_inv w Hr) as Hinv.
  assert (Hin : e ∈ SparseSet.m_DenseToEntity (store_of w c)).
  { rewrite (Contains_spec _ _ (wi_stores w Hinv c)) in Hcont.
    inversion Hcont as [Hb]. apply bool_decide_eq_true_1 in Hb. assumption. }
  pose proof Hhas as (m & Hm & Htest)%HasComponent_true.
  pose proof (lookup_lt_Some _ _ _ Hm) as Hlt.
  destruct (AddComponent_spec w c e v (wi_stores w Hinv c) Hlt (wi_trig w Hinv))
    as (w' & sig & Hsig & Hadd & P1 & P2 & P3 & P4 & P5 & P6 & P7 & P8 & P9 & P10 & P11 & P12 & P13 & P14 & P15).
  assert (Hcalls : match m_ComponentSignals w !! c with
                   | Some signals => snd (run_callbacks (onAdded signals) Added c e v)
                   | None => []
                   end = snd (run_callbacks (observers w c Added) Added c e v)).
  { unfold observers. destruct (m_ComponentSignals w !! c); reflexivity. }
  assert (Hfinal : match m_ComponentSignals w !! c with
                   | Some signals => fst (run_callbacks (onAdded signals) Added c e v)
                   | None => v
                   end = fst (run_callbacks (observers w c Added) Added c e v)).
  { unfold observers. destruct (m_ComponentSignals w !! c); reflexivity. }
  rewrite Hcalls in Hadd. rewrite Hfinal in P15.
  exists w', (snd (run_callbacks (observers w c Added) Added c e v)).
  split; [assumption|]. split; [apply run_callbacks_keys|]. split.
  { pose proof (run_callbacks_entity (observers w c Added) Added c e v) as He.
    pose proof (run_callbacks_keys (observers w c Added) Added c e v) as Hk.
    rewrite List.Forall_forall in He |- *. intros call Hc. split; [|apply He, Hc].
    assert (Hkey : In (call_key call) (map call_key (snd (run_callbacks (observers w c Added) Added c e v))))
      by (apply in_map, Hc).
    rewrite Hk in Hkey. apply in_map_iff in Hkey as (cb & Hcb & _).
    unfold call_key in Hcb. congruence. }
  split; [apply run_callbacks_first|]. split; [assumption|]. split.
  { intros Hro. rewrite P15, run_callbacks_readonly by assumption. reflexivity. }
  assert (Hmem : ∀ x, x ∈ SparseSet.m_DenseToEntity (store_of w' c)
                      ↔ x ∈ SparseSet.m_DenseToEntity (store_of w c)).
  { intros x. rewrite P6. split.
    - intros [->|[Hx _]]; assumption.
    - intros Hx. destruct (decide (x = e)) as [->|Hne]; [auto|]. right. split; [assumption|].
      intros Hidx. apply Hne.
      destruct (wi_stored w Hinv c x Hx) as (a1 & a2 & _).
      destruct (wi_stored w Hinv c e Hin) as (b1 & b2 & _).
      eapply alive_same_index; eauto. }
  split.
  { rewrite (Contains_spec _ _ P5). f_equal. apply bool_decide_eq_true_2, Hmem, Hin. }
  split.
  { apply Permutation_length, NoDup_Permutation; [apply ents_NoDup, P5|apply ents_NoDup, (wi_stores w Hinv)|exact Hmem]. }
  unfold HasComponent. rewrite P1, list_lookup_insert_eq by assumption.
  rewrite Test_SetBit. rewrite Hsig in Hm. inversion Hm; subst. rewrite Htest. reflexivity.
Qed.

End WorldTheorems.

Lemma recycled_world_run : run disciplined World.empty recycle_ops = Some recycled_world.
Proof. vm_compute. reflexivity. Qed.

Lemma recycled_world_reachable : reachable recycled_world.
Proof. exact (reachable_run recycle_ops _ _ (reach_empty _) recycled_world_run). Qed.

Lemma observed_world_run : run disciplined World.empty observed_ops = Some observed_world.
Proof. vm_compute. reflexivity. Qed.

Lemma observed_world_reachable : reachable observed_world.
Proof. exact (reachable_run observed_ops _ _ (reach_empty _) observed_world_run). Qed.

Lemma api_reachable_run {Component : Type} (ops : list Op) : ∀ w w' : World.t Component,
  api_reachable w → run any_use w ops = Some w' → api_reachable w'.
Proof.
  induction ops as [|o ops IH]; intros w w' Hr; simpl.
  - intros [= <-]. assumption.
  - destruct (exec w o) as [w1|] eqn:He; [|discriminate]. obind.
    apply IH. eapply reach_step; eauto.
Qed.


(** C9.  [HasComponent<T>(id)] depends on the index half of [id] only: two
    identifiers with one index get one answer, whatever their generations.
    In particular there is a reachable state with a stale identifier, not
    alive, of a slot reused by a live entity that holds the component, and
    [HasComponent] is true of the stale identifier. *)
Theorem C9_HasComponent_reads_index_only :
  (∀ (Component : Type) (w : World.t Component) (c : N) (id1 id2 : EntityID),
     Internal.GetIndex id1 = Internal.GetIndex id2 →
     World.HasComponent w c id1 = World.HasComponent w c id2)
  ∧ (∃ (w : World.t N) (c : N) (stale live : EntityID),
       reachable w
       ∧ Internal.GetIndex stale = Internal.GetIndex live
       ∧ Internal.GetGeneration stale ≠ Internal.GetGeneration live
       ∧ World.IsAlive w stale = Some false
       ∧ World.IsAlive w live = Some true
       ∧ SparseSet.Contains (store_of w c) live = Some true
       ∧ World.HasComponent w c stale = true).
Proof.
  split.
  - intros Component w c id1 id2 H. unfold World.HasComponent. rewrite H. reflexivity.
  - exists recycled_world, 0, 0, (MakeEntityID 1 0).
    split; [exact recycled_world_reachable|].
    split; [reflexivity|].
    split; [intros H; vm_compute in H; discriminate H|].
    repeat split; vm_compute; reflexivity.
Qed.

Lemma C9_witness :
  Internal.GetIndex 0 = Internal.GetIndex (MakeEntityID 1 0) ∧
  World.HasComponent recycled_world 0 0 = World.HasComponent recycled_world 0 (MakeEntityID 1 0).
Proof.
  split; [reflexivity|].
  apply (proj1 C9_HasComponent_reads_index_only N recycled_world 0 0 (MakeEntityID 1 0)).
  reflexivity.
Defined.


Lemma C10_witness :
  ∃ w', World.CreateEntity_id recycled_world 5 = Some (5, w') ∧
        length (World.m_EntitySignatures w') = 6%nat ∧
        length (World.m_EntityGenerations w') = 6%nat ∧
        World.IsAlive w' 3 = Some true.
Proof.
  destruct (C10_CreateEntity_id_gap recycled_world 5 1 5) as (w' & H1 & H2 & H3 & _ & H4).
  - reflexivity.
  - vm_compute. lia.
  - reflexivity.
  - vm_compute. lia.
  - reflexivity.
  - exists w'. split; [exact H1|]. split; [exact H2|]. split; [exact H3|].
    destruct (H4 3) as (_ & Ha); [vm_compute; discriminate|reflexivity|exact Ha].
Defined.

Lemma C7_witness :
  ∃ w' calls,
    World.AddComponent observed_world 0 0 9 = Some (w', calls) ∧
    map call_key calls = [(0, Added, 11%nat)] ∧
    SparseSet.Get (store_of w' 0) 0 = Some 10.
Proof.
  destruct (C7_AddComponent_overwrites observed_world 0 0 9 observed_world_reachable)
    as (w' & calls & H1 & H2 & _ & _ & H3 & _).
  - reflexivity.
  - reflexivity.
  - exists w', calls. split; [exact H1|]. split; [exact H2|exact H3].
Defined.

(** ** Views *)

Section ViewFacts.

Import World.

Context {Component : Type}.

Implicit Types (w : World.t Component) (e id : EntityID) (c : N).

Lemma fold_SetBit_Test (cs : list N) : ∀ (m : ComponentMask.t) c,
  ComponentMask.Test (fold_left ComponentMask.SetBit cs m) c
  = ComponentMask.Test m c || existsb (λ b, (c =? b) && (b <? 256)) cs.
Proof.
  induction cs as [|b cs IH]; intros m c; simpl.
  - rewrite orb_false_r. reflexivity.
  - rewrite IH, Test_SetBit, orb_assoc. reflexivity.
Qed.

Lemma fold_SetBit_wf (cs : list N) : ∀ m : ComponentMask.t,
  ComponentMask.wf m → ComponentMask.wf (fold_left ComponentMask.SetBit cs m).
Proof.
  induction cs as [|b cs IH]; intros m Hm; simpl; [assumption|]. apply IH, wf_SetBit, Hm.
Qed.

Lemma View_mask_wf (cs : list N) : ComponentMask.wf (View_mask cs).
Proof. apply fold_SetBit_wf, wf_Make. lia. Qed.

Lemma View_mask_Test (cs : list N) c :
  (∀ b, b ∈ cs → b < 256) →
  ComponentMask.Test (View_mask cs) c = true ↔ c ∈ cs.
Proof.
  intros Hcs. unfold View_mask. rewrite fold_SetBit_Test, Test_Make0, orb_false_l.
  rewrite existsb_exists. split.
  - intros (b & Hb & [Heq _]%andb_true_iff). apply N.eqb_eq in Heq. subst.
    apply list_elem_of_In. assumption.
  - intros Hc. exists c. split; [apply list_elem_of_In; assumption|].
    rewrite N.eqb_refl. apply N.ltb_lt, Hcs, Hc.
Qed.

(** The filter of [Each] lets an entity through iff its slot has every
    component of the pack. *)
Lemma passes_spec w (cs : list N) e :
  (∀ b, b ∈ cs → b < 256) →
  is_Some (m_EntitySignatures w !! N.to_nat (Internal.GetIndex e)) →
  passes w (View_mask cs) e = true ↔ ∀ c, c ∈ cs → HasComponent w c e = true.
Proof.
  intros Hcs [m Hm]. unfold passes, HasComponent. rewrite Hm.
  rewrite (Mask_Contains_spec m (View_mask cs) (View_mask_wf cs)). split.
  - intros H c Hc. apply H, View_mask_Test; assumption.
  - intros H c Hc. apply H, View_mask_Test; assumption.
Qed.

(** The stores of the pack exist once [GetStores] has run. *)
Lemma GetStores_some (cs : list N) : ∀ w,
  ∀ c, c ∈ cs → is_Some (m_ComponentStores (GetStores w cs).2 !! c).
Proof.
  induction cs as [|c0 cs IH]; intros w c Hc; [inversion Hc|].
  cbn [GetStores].
  destruct (GetStore_spec w c0) as (w1 & E & G1 & G2 & G3 & _). rewrite E.
  destruct (GetStores_spec cs w1) as (w2 & E2 & Hsh & _).
  pose proof (IH w1) as IH1. rewrite E2 in IH1 |- *. cbn [snd] in *.
  apply elem_of_cons in Hc as [->|Hc]; [|apply IH1, Hc].
  apply (ss_some w1 w2 Hsh), G2.
Qed.

(** The driving position of the pack is a position of the driving
    component. *)
Lemma driving_index_component (cs : list N) (d c : N) w :
  cs !! driving_index (map (λ c, (c, store_of w c)) cs) d = Some c → c = d.
Proof.
  induction cs as [|c0 cs IH]; cbn [map driving_index]; [intros H; discriminate|].
  destruct (N.eqb_spec c0 d) as [->|Hne].
  - intros [= <-]. reflexivity.
  - exact IH.
Qed.

(** A reference of the call can be read: the store exists and holds the
    entity, and at the driving position the row exists. *)
Lemma read_arg_Some w c (driving : bool) (i : nat) e :
  is_Some (m_ComponentStores w !! c) → sset_inv (store_of w c) →
  e ∈ SparseSet.m_DenseToEntity (store_of w c) →
  (driving = true → (i < length (SparseSet.m_DenseToEntity (store_of w c)))%nat) →
  is_Some (read_arg w c driving i e).
Proof.
  intros Hs Hinv Hin Hrow. unfold read_arg. rewrite (store_of_lookup w c Hs). obind.
  destruct driving.
  - apply lookup_lt_is_Some. unfold SparseSet.GetData. rewrite (inv_len _ Hinv). auto.
  - apply Get_spec; assumption.
Qed.

(** And it can be written; the write changes a value. *)
Lemma write_arg_Some w c (driving : bool) (i : nat) e (v : Component) :
  is_Some (m_ComponentStores w !! c) → sset_inv (store_of w c) →
  e ∈ SparseSet.m_DenseToEntity (store_of w c) →
  (driving = true → (i < length (SparseSet.m_DenseToEntity (store_of w c)))%nat) →
  ∃ w', write_arg w c driving i e v = Some w'.
Proof.
  intros Hs Hinv Hin Hrow. unfold write_arg. rewrite (store_of_lookup w c Hs). obind.
  destruct driving.
  - unfold vec_set.
    destruct (Nat.ltb_spec i (length (SparseSet.m_DenseData (store_of w c)))) as [_|Hge].
    + obind. eauto.
    + rewrite (inv_len _ Hinv) in Hge. specialize (Hrow eq_refl). lia.
  - destruct (Assign_spec (store_of w c) e v Hinv Hin) as (s' & -> & _). obind. eauto.
Qed.

Lemma call_args_Some w (drivingIdx i : nat) e (cs : list N) : ∀ pos : nat,
  (∀ c, c ∈ cs → is_Some (m_ComponentStores w !! c) ∧ sset_inv (store_of w c)
                  ∧ e ∈ SparseSet.m_DenseToEntity (store_of w c)) →
  (∀ k c, cs !! k = Some c → (pos + k)%nat = drivingIdx →
          (i < length (SparseSet.m_DenseToEntity (store_of w c)))%nat) →
  is_Some (call_args w cs pos drivingIdx i e).
Proof.
  induction cs as [|c cs IH]; intros pos Hpack Hrow; cbn [call_args]; [eauto|].
  destruct (Hpack c (list_elem_of_here _ _)) as (Hs & Hinv & Hin).
  destruct (read_arg_Some w c (pos =? drivingIdx)%nat i e Hs Hinv Hin) as [v ->].
  { intros Heq%Nat.eqb_eq. apply (Hrow 0%nat c eq_refl). lia. }
  obind. destruct (IH (S pos)) as [args ->].
  { intros c' Hc'. apply Hpack. right. exact Hc'. }
  { intros k c' Hk Hpos. apply (Hrow (S k) c' Hk). lia. }
  obind. eauto.
Qed.

Lemma write_args_Some (drivingIdx i : nat) e (cs : list N) :
  ∀ w (pos : nat) (results : list Component),
    (∀ c, c ∈ cs → is_Some (m_ComponentStores w !! c) ∧ sset_inv (store_of w c)
                    ∧ e ∈ SparseSet.m_DenseToEntity (store_of w c)) →
    (∀ k c, cs !! k = Some c → (pos + k)%nat = drivingIdx →
            (i < length (SparseSet.m_DenseToEntity (store_of w c)))%nat) →
    ∃ w', write_args w cs pos drivingIdx i e results = Some w'.
Proof.
  induction cs as [|c cs IH]; intros w pos results Hpack Hrow; [destruct results; eexists; reflexivity|].
  destruct results as [|v results]; [eexists; reflexivity|]. cbn [write_args].
  destruct (Hpack c (list_elem_of_here _ _)) as (Hs & Hinv & Hin).
  destruct (write_arg_Some w c (pos =? drivingIdx)%nat i e v Hs Hinv Hin) as [w1 Hw1].
  { intros Heq%Nat.eqb_eq. apply (Hrow 0%nat c eq_refl). lia. }
  rewrite Hw1. obind.
  pose proof (write_arg_shape _ _ _ _ _ _ _ Hw1) as Hsh.
  apply (IH w1 (S pos) results).
  - intros c' Hc'. destruct (Hpack c' (list_elem_of_further _ _ _ Hc')) as (Hs' & Hinv' & Hin').
    split; [apply (ss_some _ _ Hsh), Hs'|]. split; [apply (ss_inv _ _ Hsh), Hinv'|].
    rewrite (ss_ents _ _ Hsh). exact Hin'.
  - intros k c' Hk Hpos. rewrite (ss_ents _ _ Hsh). apply (Hrow (S k) c' Hk). lia.
Qed.

Lemma passes_ext w w' (mask : ComponentMask.t) e :
  m_EntitySignatures w' = m_EntitySignatures w → passes w' mask e = passes w mask e.
Proof. intros H. unfold passes. rewrite H. reflexivity. Qed.

(** The loop over the rows of the driving store calls [func] for the
    entities the filter lets through, in the order of the rows. *)
Lemma each_rows_spec (mask : ComponentMask.t) (cs : list N) (drivingIdx : nat)
    (func : list Component → list Component) :
  ∀ (entities : list EntityID) w (i : nat),
    (∀ e, e ∈ entities → is_Some (m_EntitySignatures w !! N.to_nat (Internal.GetIndex e))) →
    (∀ e, e ∈ entities → passes w mask e = true →
          ∀ c, c ∈ cs → is_Some (m_ComponentStores w !! c) ∧ sset_inv (store_of w c)
                          ∧ e ∈ SparseSet.m_DenseToEntity (store_of w c)) →
    (∀ c, cs !! drivingIdx = Some c →
          (i + length entities <= length (SparseSet.m_DenseToEntity (store_of w c)))%nat) →
    ∃ calls w', each_rows w mask cs drivingIdx i entities func = Some (calls, w') ∧
                map fst calls = List.filter (passes w mask) entities.
Proof.
  induction entities as [|e entities IH]; intros w i Hsig Hpack Hlen; cbn [each_rows].
  - exists [], w. auto.
  - destruct (Hsig e (list_elem_of_here _ _)) as [m Hm]. rewrite Hm. obind.
    assert (Hnext : ∀ w1, same_shape w w1 →
              ∃ calls w', each_rows w1 mask cs drivingIdx (S i) entities func = Some (calls, w') ∧
                          map fst calls = List.filter (passes w mask) entities).
    { intros w1 Hsh. destruct (IH w1 (S i)) as (calls & w' & Hcalls & Hmap).
      - intros x Hx. rewrite (ss_sigs _ _ Hsh). apply Hsig. right. exact Hx.
      - intros x Hx Hp c Hc. rewrite (passes_ext w w1) in Hp by apply (ss_sigs _ _ Hsh).
        destruct (Hpack x (list_elem_of_further _ _ _ Hx) Hp c Hc) as (Hs & Hinv & Hin).
        split; [apply (ss_some _ _ Hsh), Hs|]. split; [apply (ss_inv _ _ Hsh), Hinv|].
        rewrite (ss_ents _ _ Hsh). exact Hin.
      - intros c Hc. rewrite (ss_ents _ _ Hsh). specialize (Hlen c Hc). cbn [length] in Hlen. lia.
      - exists calls, w'. split; [exact Hcalls|]. rewrite Hmap. apply List.filter_ext.
        intros x. apply passes_ext, (ss_sigs _ _ Hsh). }
    assert (Hpe : passes w mask e = ComponentMask.Contains m mask)
      by (unfold passes; rewrite Hm; reflexivity).
    cbn [List.filter]. rewrite Hpe.
    destruct (ComponentMask.Contains m mask) eqn:Ec.
    + rename Hpe into Hp.
      assert (Hrow : ∀ k c, cs !! k = Some c → (0 + k)%nat = drivingIdx →
                (i < length (SparseSet.m_DenseToEntity (store_of w c)))%nat).
      { intros k c Hk Hpos. cbn [Nat.add] in Hpos. subst k. specialize (Hlen c Hk).
        cbn [length] in Hlen. lia. }
      destruct (call_args_Some w drivingIdx i e cs 0 (Hpack e (list_elem_of_here _ _) Hp) Hrow)
        as [args Hargs].
      rewrite Hargs. obind.
      destruct (write_args_Some drivingIdx i e cs w 0 (func args)
                  (Hpack e (list_elem_of_here _ _) Hp) Hrow) as [w1 Hw1].
      rewrite Hw1. obind.
      destruct (Hnext w1 (write_args_shape _ _ _ _ _ _ _ _ Hw1)) as (calls & w' & Hcalls & Hmap).
      rewrite Hcalls. obind. eexists _, w'. split; [reflexivity|].
      cbn [app map fst]. rewrite Hmap. reflexivity.
    + obind. destruct (Hnext w (same_shape_refl w)) as (calls & w' & Hcalls & Hmap).
      rewrite Hcalls. obind. eexists _, w'. split; [reflexivity|]. exact Hmap.
Qed.

(** [each_from] with any driving store: the calls are made for the
    entities of that store that pass the filter, when the driving store
    holds live entities and the stores of the pack hold the live entities
    that have their components. *)
Lemma each_from_local w (cs : list N) (d : N) (func : list Component → list Component) :
  (∀ c, sset_inv (store_of w c)) → (∀ b, b ∈ cs → b < 256) →
  (∀ e, e ∈ SparseSet.m_DenseToEntity (store_of w d) → IsAlive w e = Some true) →
  (∀ c e, c ∈ cs → e ∈ SparseSet.m_DenseToEntity (store_of w d) →
          HasComponent w c e = true → e ∈ SparseSet.m_DenseToEntity (store_of w c)) →
  ∃ calls w', each_from w cs d func = Some (calls, w') ∧
              map fst calls
              = List.filter (passes w (View_mask cs)) (SparseSet.m_DenseToEntity (store_of w d)).
Proof.
  intros Hinv Hcs Hlive Hrows. unfold each_from.
  pose proof (GetStores_some cs w) as Hsome.
  destruct (GetStores_spec cs w) as (w1 & E & Hsh & Hst & Hsig). rewrite E in Hsome |- *.
  cbn [snd] in Hsome.
  destruct (GetStore_spec w1 d) as (w2 & E2 & G1 & G2 & G3 & G4 & G5 & G6 & G7 & G8 & G9).
  rewrite E2. unfold SparseSet.GetEntities. rewrite Hst.
  assert (Hst2 : ∀ c, store_of w2 c = store_of w c) by (intros c; rewrite G1; apply Hst).
  assert (Hsig2 : m_EntitySignatures w2 = m_EntitySignatures w) by congruence.
  destruct (each_rows_spec (View_mask cs) cs
              (driving_index (map (λ c, (c, store_of w c)) cs) d) func
              (SparseSet.m_DenseToEntity (store_of w d)) w2 0) as (calls & w' & Hcalls & Hmap).
  - intros e He. rewrite Hsig2.
    pose proof (Hlive e He) as [Hlt _]%IsAlive_true.
    apply lookup_lt_is_Some. assumption.
  - intros e He Hp c Hc. rewrite (passes_ext w w2) in Hp by assumption.
    pose proof (Hlive e He) as [Hlt _]%IsAlive_true.
    pose proof (proj1 (passes_spec w cs e Hcs (proj2 (lookup_lt_is_Some _ _) Hlt)) Hp) as Hh.
    split; [apply G3, Hsome, Hc|]. rewrite Hst2. split; [apply Hinv|].
    apply Hrows; auto.
  - intros c Hc. apply driving_index_component in Hc. subst c. rewrite Hst2. cbn [Nat.add]. lia.
  - exists calls, w'. split; [assumption|]. rewrite Hmap. apply List.filter_ext.
    intros e. apply passes_ext. assumption.
Qed.

Lemma each_from_spec w (cs : list N) (d : N) (func : list Component → list Component) :
  world_inv w → (∀ b, b ∈ cs → b < 256) →
  ∃ calls w', each_from w cs d func = Some (calls, w') ∧
              map fst calls
              = List.filter (passes w (View_mask cs)) (SparseSet.m_DenseToEntity (store_of w d)).
Proof.
  intros Hinv Hcs. apply each_from_local; [apply (wi_stores w Hinv)|exact Hcs| |].
  - intros e He. apply (wi_stored w Hinv d e He).
  - intros c e Hc He Hh. destruct (wi_stored w Hinv d e He) as (Hu & Ha & _).
    apply (wi_bits w Hinv); assumption.
Qed.






End ViewFacts.

(** tests/WorldTests.cpp, SystemQuery_FiltersEntities: of the two entities
    only the first has both components, and [func] is called for it alone;
    what [func] writes through its references is in the stores afterwards
    (SystemUpdate_ModifiesComponents). *)
Example Each_observed_world :
  ∃ w', World.Each observed_world [3; 0] (map N.succ) = Some ([(0, [33; 6])], w')
        ∧ SparseSet.Get (store_of w' 3) 0 = Some 34
        ∧ SparseSet.Get (store_of w' 0) 0 = Some 7
        ∧ SparseSet.Get (store_of w' 0) 1 = SparseSet.Get (store_of observed_world 0) 1.
Proof. vm_compute. eexists. repeat split; reflexivity. Qed.

Section SchedulerFacts.
Import SystemScheduler.

Implicit Types (g : Graph) (name m n d : string) (node : SystemNode).

Lemma graph_find_elem g name node :
  graph_find g name = Some node → (name, node) ∈ g.
Proof.
  induction g as [|[k nd] g IH]; simpl; [discriminate|].
  case_bool_decide as Hk.
  - intros [= ->]. subst k. left.
  - intros H. right. exact (IH H).
Qed.

Lemma graph_find_names g name : is_Some (graph_find g name) ↔ name ∈ names g.
Proof.
  unfold names. induction g as [|[k nd] g IH]; simpl.
  - split; [intros [? [=]] | intros H; inversion H].
  - case_bool_decide as Hk.
    + subst k. split; [intros _; left | intros _; eexists; reflexivity].
    + rewrite IH. split; [intros H; right; exact H|].
      intros H. apply elem_of_cons in H as [H|H]; [congruence | exact H].
Qed.

Lemma elem_graph_find g name node :
  NoDup (names g) → (name, node) ∈ g → graph_find g name = Some node.
Proof.
  unfold names. induction g as [|[k nd] g IH]; simpl; intros Hnd Hin.
  - inversion Hin.
  - apply NoDup_cons in Hnd as [Hk Hnd].
    apply elem_of_cons in Hin as [Heq|Hin].
    + inversion Heq; subst. rewrite bool_decide_true by reflexivity. reflexivity.
    + case_bool_decide as Hkn.
      * subst k. exfalso. apply Hk.
        apply list_elem_of_In. change name with (fst (name, node)).
        apply in_map, list_elem_of_In, Hin.
      * apply IH; assumption.
Qed.

Lemma graph_index_names g name :
  name ∈ names g →
  ∃ node, graph_find g name = Some node ∧ graph_index g name = (node, g).
Proof.
  intros [node Hf]%graph_find_names. exists node. split; [exact Hf|].
  unfold graph_index. rewrite Hf. reflexivity.
Qed.

Lemma count_app x (l1 l2 : list string) : count x (l1 ++ l2) = (count x l1 + count x l2)%nat.
Proof. induction l1 as [|y l1 IH]; simpl; [reflexivity | rewrite IH; lia]. Qed.

Lemma count_elem x (l : list string) : (0 < count x l)%nat ↔ x ∈ l.
Proof.
  induction l as [|y l IH]; simpl.
  - split; [lia | intros H; inversion H].
  - rewrite elem_of_cons. case_bool_decide as Hy.
    + subst y. split; [intros _; left; reflexivity | lia].
    + rewrite <- IH. split; [intros H; right; lia|]. intros [->|H]; [congruence | lia].
Qed.

Lemma count_NoDup (l : list string) : (∀ x, (count x l ≤ 1)%nat) → NoDup l.
Proof.
  induction l as [|y l IH]; intros H; constructor.
  - intros Hy%count_elem. specialize (H y). simpl in H.
    rewrite bool_decide_true in H by reflexivity. lia.
  - apply IH. intros x. specialize (H x). simpl in H. lia.
Qed.

Lemma waiting_list_step (P L : list string) n :
  n ∉ P →
  length (filter (λ d, d ∉ P) L)
  = (count n L + length (filter (λ d, d ∉ P ++ [n]) L))%nat.
Proof.
  intros Hn. induction L as [|x L IH]; [reflexivity|].
  rewrite !filter_cons. simpl count.
  case_bool_decide as Hx.
  - subst x. rewrite decide_True by exact Hn.
    rewrite decide_False by (intros H; apply H, elem_of_app; right; left).
    simpl. rewrite IH. lia.
  - destruct (decide (x ∉ P)) as [HP|HP].
    + rewrite decide_True. { simpl. rewrite IH. lia. }
      intros [H|H]%elem_of_app; [exact (HP H)|].
      apply list_elem_of_singleton in H. congruence.
    + rewrite decide_False. { simpl. rewrite IH. lia. }
      intros H. apply HP. intros H'. apply H, elem_of_app. left. exact H'.
Qed.

Lemma degree_insert (inDegree : gmap string Z) name v m :
  degree (<[name := v]> inDegree) m = if bool_decide (name = m) then v else degree inDegree m.
Proof.
  unfold degree. case_bool_decide as H.
  - subst. rewrite lookup_insert_eq. reflexivity.
  - rewrite lookup_insert_ne by exact H. reflexivity.
Qed.

Ltac zcases :=
  repeat match goal with
    | |- context [(?a <? ?b)%Z] => destruct (Z.ltb_spec a b)
    | |- context [(?a <=? ?b)%Z] => destruct (Z.leb_spec a b)
    end;
  simpl; try reflexivity; try lia.

Lemma release_eq (inDegree : gmap string Z) (nextBatch : list string) d :
  release (inDegree, nextBatch) d
  = if (degree inDegree d - 1 =? 0)%Z
    then (<[d := (degree inDegree d - 1)%Z]> inDegree, nextBatch ++ [d])
    else (<[d := (degree inDegree d - 1)%Z]> inDegree, nextBatch).
Proof. reflexivity. Qed.

Lemma release_fold (D : list string) :
  ∀ inDegree nextBatch, ∃ inDegree' new,
    fold_left release D (inDegree, nextBatch) = (inDegree', nextBatch ++ new)
    ∧ (∀ m, degree inDegree' m = (degree inDegree m - Z.of_nat (count m D))%Z)
    ∧ (∀ m, count m new
            = if ((0 <? degree inDegree m) && (degree inDegree m <=? Z.of_nat (count m D)))%Z
              then 1%nat else 0%nat).
Proof.
  induction D as [|d D IH]; intros inDegree nextBatch.
  - exists inDegree, []. rewrite app_nil_r. split; [reflexivity|]. split.
    + intros m. simpl. lia.
    + intros m. simpl count. zcases.
  - cbn [fold_left]. rewrite release_eq.
    set (v := (degree inDegree d - 1)%Z).
    set (inDegree1 := <[d := v]> inDegree).
    assert (Hd1 : ∀ m, degree inDegree1 m = if bool_decide (d = m) then v else degree inDegree m)
      by (intros m; apply degree_insert).
    destruct (Z.eqb_spec v 0) as [Ev|Ev].
    + destruct (IH inDegree1 (nextBatch ++ [d])) as (ind' & new & Hf & Hdeg & Hcnt).
      exists ind', (d :: new). rewrite Hf, <- app_assoc. split; [reflexivity|]. split.
      * intros m. rewrite Hdeg, Hd1. simpl count. case_bool_decide; subst; lia.
      * intros m. simpl count. rewrite Hcnt, Hd1.
        case_bool_decide as Hm; [subst m|]; zcases.
    + destruct (IH inDegree1 nextBatch) as (ind' & new & Hf & Hdeg & Hcnt).
      exists ind', new. rewrite Hf. split; [reflexivity|]. split.
      * intros m. rewrite Hdeg, Hd1. simpl count. case_bool_decide; subst; lia.
      * intros m. rewrite Hcnt, Hd1. simpl count.
        case_bool_decide as Hm; [subst m|]; zcases.
Qed.

Lemma names_elem g name : name ∈ names g ↔ ∃ node, (name, node) ∈ g.
Proof.
  unfold names. rewrite list_elem_of_In, in_map_iff. split.
  - intros ([k node] & <- & Hin). exists node. apply list_elem_of_In, Hin.
  - intros [node Hin]. exists (name, node). split; [reflexivity | apply list_elem_of_In, Hin].
Qed.

Lemma init_fold (l : Graph) : ∀ inDegree currentBatch,
  NoDup (names l) →
  ∃ inDegree' first,
    fold_left init_step l (inDegree, currentBatch) = (inDegree', currentBatch ++ first)
    ∧ (∀ m node, (m, node) ∈ l → degree inDegree' m = Z.of_nat (length (Dependencies node)))
    ∧ (∀ m, m ∉ names l → degree inDegree' m = degree inDegree m)
    ∧ sublist first (names l)
    ∧ (∀ m, m ∈ first → ∃ node, (m, node) ∈ l ∧ Dependencies node = []).
Proof.
  induction l as [|[k nd] l IH]; intros inDegree currentBatch Hnd.
  - exists inDegree, []. rewrite app_nil_r. simpl. repeat split; auto.
    + intros m node H. inversion H.
    + intros m H. inversion H.
  - unfold names in Hnd. simpl in Hnd. apply NoDup_cons in Hnd as [Hk Hnd].
    cbn [fold_left]. unfold init_step at 2.
    rewrite degree_insert, bool_decide_true by reflexivity.
    set (inDegree1 := <[k := Z.of_nat (length (Dependencies nd))]> inDegree).
    assert (Hstep : ∀ inDegree',
      (∀ m node, (m, node) ∈ l → degree inDegree' m = Z.of_nat (length (Dependencies node))) →
      (∀ m, m ∉ names l → degree inDegree' m = degree inDegree1 m) →
      (∀ m node, (m, node) ∈ (k, nd) :: l →
         degree inDegree' m = Z.of_nat (length (Dependencies node)))
      ∧ (∀ m, m ∉ names ((k, nd) :: l) → degree inDegree' m = degree inDegree m)).
    { intros ind' H1 H2. split.
      - intros m node [Heq|Hin]%elem_of_cons.
        + inversion Heq; subst. rewrite (H2 _ Hk). unfold inDegree1.
          rewrite degree_insert, bool_decide_true by reflexivity. reflexivity.
        + exact (H1 _ _ Hin).
      - intros m Hm. unfold names in Hm. simpl in Hm.
        apply not_elem_of_cons in Hm as [Hmk Hm]. rewrite (H2 _ Hm). unfold inDegree1.
        rewrite degree_insert, bool_decide_false by congruence. reflexivity. }
    destruct (Z.eqb_spec (Z.of_nat (length (Dependencies nd))) 0) as [Hz|Hz].
    + destruct (IH inDegree1 (currentBatch ++ [k]) Hnd) as (ind' & first & Hf & H1 & H2 & H3 & H4).
      exists ind', (k :: first). rewrite Hf, <- app_assoc.
      destruct (Hstep ind' H1 H2) as [H5 H6].
      repeat split; auto.
      * unfold names. simpl. apply sublist_skip. exact H3.
      * intros m [->|Hm]%elem_of_cons.
        -- exists nd. split; [left|]. destruct (Dependencies nd); [reflexivity | simpl in Hz; lia].
        -- destruct (H4 _ Hm) as (node & Hin & Hnil). exists node. split; [right; exact Hin | exact Hnil].
    + destruct (IH inDegree1 currentBatch Hnd) as (ind' & first & Hf & H1 & H2 & H3 & H4).
      exists ind', first. rewrite Hf.
      destruct (Hstep ind' H1 H2) as [H5 H6].
      repeat split; auto.
      * unfold names. simpl. apply sublist_cons. exact H3.
      * intros m Hm.
        destruct (H4 _ Hm) as (node & Hin & Hnil). exists node. split; [right; exact Hin | exact Hnil].
Qed.

Lemma totalNodes_concat (batched : list (list string)) :
  totalNodes batched = length (concat batched).
Proof.
  unfold totalNodes.
  enough (H : ∀ acc, fold_left (λ total batch, (total + length batch)%nat) batched acc
                     = (acc + length (concat batched))%nat) by (rewrite H; reflexivity).
  induction batched as [|b batched IH]; intros acc; simpl; [lia|].
  rewrite IH, length_app. lia.
Qed.

Section OkGraph.

Variable g : Graph.
Hypothesis Hok : graph_ok g = true.

Lemma graph_ok_NoDup : NoDup (names g).
Proof.
  unfold graph_ok in Hok. apply andb_true_iff in Hok as [H _].
  apply bool_decide_eq_true in H. exact H.
Qed.

Lemma graph_ok_dependents n m :
  m ∈ dependents_of g n → m ∈ names g.
Proof.
  unfold dependents_of. destruct (graph_find g n) as [node|] eqn:Hf; [|intros H; inversion H].
  intros Hm. apply graph_find_elem in Hf.
  unfold graph_ok in Hok. apply andb_true_iff in Hok as [_ H].
  rewrite forallb_forall in H. specialize (H _ (proj1 (list_elem_of_In _ _) Hf)).
  simpl in H. apply andb_true_iff in H as [H _].
  rewrite forallb_forall in H. specialize (H _ (proj1 (list_elem_of_In _ _) Hm)).
  apply bool_decide_eq_true in H. exact H.
Qed.

Lemma graph_ok_count n m :
  n ∈ names g → m ∈ names g →
  count m (dependents_of g n) = count n (dependencies_of g m).
Proof.
  intros [node_n Hn]%names_elem [node_m Hm]%names_elem.
  unfold dependents_of, dependencies_of.
  rewrite (elem_graph_find _ _ _ graph_ok_NoDup Hn), (elem_graph_find _ _ _ graph_ok_NoDup Hm).
  unfold graph_ok in Hok. apply andb_true_iff in Hok as [_ H].
  rewrite forallb_forall in H. specialize (H _ (proj1 (list_elem_of_In _ _) Hn)).
  simpl in H. apply andb_true_iff in H as [_ H].
  rewrite forallb_forall in H. specialize (H _ (proj1 (list_elem_of_In _ _) Hm)).
  simpl in H. apply Nat.eqb_eq in H. exact H.
Qed.

Lemma visit_fold (currentBatch : list string) :
  (∀ x, x ∈ currentBatch → x ∈ names g) →
  ∀ st, fold_left visit currentBatch (g, st)
        = (g, fold_left release (flat_map (dependents_of g) currentBatch) st).
Proof.
  induction currentBatch as [|c cs IH]; intros Hin st; [reflexivity|].
  cbn [fold_left flat_map]. rewrite List.fold_left_app.
  destruct (graph_index_names g c) as (node & Hf & Hi); [apply Hin; left|].
  assert (Hd : dependents_of g c = Dependents node)
    by (unfold dependents_of; rewrite Hf; reflexivity).
  rewrite Hd. unfold visit at 2. rewrite Hi.
  apply IH. intros x Hx. apply Hin. right. exact Hx.
Qed.

Lemma count_flat_map m (f : string → list string) (l : list string) :
  count m (flat_map f l) = fold_right (λ n acc, (count m (f n) + acc)%nat) 0%nat l.
Proof.
  induction l as [|x l IH]; simpl; [reflexivity|]. rewrite count_app, IH. reflexivity.
Qed.

Lemma waiting_batch (C : list string) : ∀ (P : list string) m,
  NoDup (P ++ C) → (∀ x, x ∈ C → x ∈ names g) → m ∈ names g →
  waiting g P m = (count m (flat_map (dependents_of g) C) + waiting g (P ++ C) m)%nat.
Proof.
  induction C as [|n C IH]; intros P m Hnd Hin Hm.
  - rewrite app_nil_r. reflexivity.
  - cbn [flat_map]. rewrite count_app.
    assert (Hn : n ∉ P).
    { apply NoDup_app in Hnd as (_ & Hd & _). intros HP. apply (Hd _ HP). left. }
    rewrite graph_ok_count by (try exact Hm; apply Hin; left).
    unfold waiting at 1. rewrite (waiting_list_step P _ n Hn).
    fold (waiting g (P ++ [n]) m).
    rewrite (IH (P ++ [n]) m).
    + rewrite <- app_assoc. simpl. lia.
    + rewrite <- app_assoc. exact Hnd.
    + intros x Hx. apply Hin. right. exact Hx.
    + exact Hm.
Qed.

Lemma waiting_zero (P : list string) m :
  waiting g P m = 0%nat → ∀ d, d ∈ dependencies_of g m → d ∈ P.
Proof.
  unfold waiting. intros H d Hd.
  destruct (decide (d ∈ P)) as [|Hn]; [assumption|]. exfalso.
  assert (Hf : d ∈ filter (λ d, d ∉ P) (dependencies_of g m))
    by (apply list_elem_of_filter; split; assumption).
  destruct (filter (λ d, d ∉ P) (dependencies_of g m)); [inversion Hf | discriminate].
Qed.

Lemma waiting_all (P : list string) m :
  (∀ d, d ∈ dependencies_of g m → d ∈ P) → waiting g P m = 0%nat.
Proof.
  unfold waiting. intros H.
  induction (dependencies_of g m) as [|d l IH]; [reflexivity|].
  rewrite filter_cons, decide_False.
  - apply IH. intros x Hx. apply H. right. exact Hx.
  - intros Hn. apply Hn, H. left.
Qed.

Lemma recorded_ready (P : list string) m :
  ordered g P → m ∈ P → ∀ d, d ∈ dependencies_of g m → d ∈ P.
Proof.
  intros Ho (P1 & P2 & ->)%list_elem_of_split d Hd.
  apply elem_of_app. left. exact (Ho P1 m P2 eq_refl d Hd).
Qed.

Lemma kahn_step inDegree (currentBatch recorded : list string) :
  kahn_inv g inDegree currentBatch recorded →
  ∃ inDegree' nextBatch,
    fold_left visit currentBatch (g, (inDegree, [])) = (g, (inDegree', nextBatch))
    ∧ kahn_inv g inDegree' nextBatch (recorded ++ currentBatch).
Proof.
  intros [Hnd Hnames Hdeg Hready Hord].
  assert (HC : ∀ x, x ∈ currentBatch → x ∈ names g)
    by (intros x Hx; apply Hnames, elem_of_app; right; exact Hx).
  rewrite (visit_fold _ HC).
  set (D := flat_map (dependents_of g) currentBatch).
  destruct (release_fold D inDegree []) as (ind' & new & Hf & Hd' & Hcnt).
  exists ind', new. split; [rewrite Hf; reflexivity|].
  assert (HD : ∀ x, x ∈ D → x ∈ names g).
  { intros x Hx. apply list_elem_of_In, in_flat_map in Hx as (n & _ & Hx).
    apply list_elem_of_In in Hx. exact (graph_ok_dependents _ _ Hx). }
  assert (Hnew : ∀ x, x ∈ new →
            x ∈ D ∧ (0 < degree inDegree x)%Z ∧ (degree inDegree x ≤ Z.of_nat (count x D))%Z).
  { intros x Hx%count_elem. rewrite Hcnt in Hx.
    destruct (Z.ltb_spec 0 (degree inDegree x)); [|simpl in Hx; lia].
    destruct (Z.leb_spec (degree inDegree x) (Z.of_nat (count x D))); [|simpl in Hx; lia].
    split; [|split; assumption]. apply count_elem. lia. }
  assert (Hsettled : ∀ x, x ∈ recorded ++ currentBatch → degree inDegree x = 0%Z).
  { intros x Hx. rewrite Hdeg by (apply Hnames, Hx).
    rewrite waiting_all; [reflexivity|].
    apply elem_of_app in Hx as [Hx|Hx]; [apply recorded_ready | apply Hready]; assumption. }
  constructor.
  - apply NoDup_app. split; [exact Hnd|]. split.
    + intros x Hx Hn. apply Hnew in Hn as (_ & Hpos & _).
      rewrite (Hsettled x Hx) in Hpos. lia.
    + apply count_NoDup. intros x. rewrite Hcnt.
      destruct (_ && _); lia.
  - intros x [Hx|Hx]%elem_of_app; [apply Hnames, Hx|].
    apply HD. apply Hnew in Hx as [Hx _]. exact Hx.
  - intros m Hm. rewrite Hd', Hdeg by exact Hm.
    rewrite (waiting_batch currentBatch recorded m Hnd HC Hm). fold D. lia.
  - intros m Hm. apply Hnew in Hm as (HmD & _ & Hle).
    apply waiting_zero.
    pose proof (waiting_batch currentBatch recorded m Hnd HC (HD _ HmD)) as Hw.
    fold D in Hw. rewrite Hdeg in Hle by (apply HD, HmD). lia.
  - intros before m after Heq d Hd.
    apply app_eq_app in Heq as [l [[H1 H2]|[H1 H2]]].
    + destruct l as [|x l].
      * rewrite app_nil_r in H1. subst before. simpl in H2.
        apply (Hready m); [rewrite <- H2; left | exact Hd].
      * simpl in H2. inversion H2; subst x.
        exact (Hord before m l H1 d Hd).
    + subst before. apply elem_of_app. left.
      apply (Hready m); [rewrite H2; apply elem_of_app; right; left | exact Hd].
Qed.

Lemma recorded_bound (P : list string) :
  NoDup P → (∀ x, x ∈ P → x ∈ names g) → (length P ≤ length g)%nat.
Proof.
  intros Hnd Hin. rewrite <- (List.length_map fst g).
  apply submseteq_length, NoDup_submseteq; assumption.
Qed.

Lemma batches_loop_spec (turns : nat) : ∀ inDegree currentBatch batched,
  kahn_inv g inDegree currentBatch (concat batched) →
  (length g < length (concat batched) + turns)%nat →
  ∃ batched',
    batches_loop turns g inDegree currentBatch batched = Some (g, batched')
    ∧ NoDup (concat batched')
    ∧ (∀ x, x ∈ concat batched' → x ∈ names g)
    ∧ ordered g (concat batched').
Proof.
  induction turns as [|turns IH]; intros inDegree currentBatch batched Hinv Hlen.
  - destruct currentBatch as [|c cs].
    + exists batched. destruct Hinv as [Hnd Hnames _ _ Hord]. rewrite app_nil_r in Hnd, Hnames.
      simpl. auto.
    + exfalso. destruct Hinv as [Hnd Hnames _ _ _].
      pose proof (recorded_bound _ Hnd Hnames) as Hb. rewrite length_app in Hb. simpl in Hb. lia.
  - destruct currentBatch as [|c cs].
    + exists batched. destruct Hinv as [Hnd Hnames _ _ Hord]. rewrite app_nil_r in Hnd, Hnames.
      simpl. auto.
    + destruct (kahn_step _ _ _ Hinv) as (ind' & next & Hf & Hinv').
      cbn [batches_loop]. rewrite Hf.
      apply IH.
      * rewrite concat_app. simpl. rewrite app_nil_r. exact Hinv'.
      * rewrite concat_app, length_app. simpl. lia.
Qed.

Lemma init_degrees_inv :
  ∃ inDegree currentBatch,
    init_degrees g = (inDegree, currentBatch) ∧ kahn_inv g inDegree currentBatch [].
Proof.
  destruct (init_fold g ∅ [] graph_ok_NoDup) as (ind & first & Hf & H1 & _ & H3 & H4).
  exists ind, first. split; [exact Hf|]. constructor.
  - simpl. eapply sublist_NoDup; [exact graph_ok_NoDup | exact H3].
  - simpl. intros x Hx. apply sublist_submseteq in H3.
    eapply elem_of_submseteq; eassumption.
  - intros m [node Hm]%names_elem. rewrite (H1 _ _ Hm).
    unfold waiting, dependencies_of. rewrite (elem_graph_find _ _ _ graph_ok_NoDup Hm).
    f_equal. f_equal. symmetry. induction (Dependencies node) as [|d l IH]; [reflexivity|].
    rewrite filter_cons, decide_True by (intros H; inversion H). f_equal. exact IH.
  - intros m Hm d Hd. destruct (H4 _ Hm) as (node & Hin & Hnil).
    unfold dependencies_of in Hd. rewrite (elem_graph_find _ _ _ graph_ok_NoDup Hin), Hnil in Hd.
    inversion Hd.
  - intros before m after Heq. destruct before; discriminate.
Qed.

Lemma batches_spec :
  ∃ batched,
    (let '(inDegree, currentBatch) := init_degrees g in
     batches_loop (S (length g)) g inDegree currentBatch []) = Some (g, batched)
    ∧ NoDup (concat batched)
    ∧ (∀ x, x ∈ concat batched → x ∈ names g)
    ∧ ordered g (concat batched).
Proof.
  destruct init_degrees_inv as (ind & cur & -> & Hinv).
  apply (batches_loop_spec (S (length g)) ind cur []); [exact Hinv | simpl; lia].
Qed.

Lemma ordered_tc (P : list string) a b :
  ordered g P → tc (depends_on g) a b →
  ∀ before after, P = before ++ a :: after → b ∈ before.
Proof.
  intros Hord Htc. induction Htc as [a b Hab|a c b Hac _ IH]; intros before after ->.
  - destruct Hab as (node & Hf & Hb).
    apply (Hord before a after eq_refl). unfold dependencies_of. rewrite Hf. exact Hb.
  - destruct Hac as (node & Hf & Hc).
    assert (Hin : c ∈ before)
      by (apply (Hord before a after eq_refl); unfold dependencies_of; rewrite Hf; exact Hc).
    apply list_elem_of_split in Hin as (l1 & l2 & ->).
    apply elem_of_app. left.
    apply (IH l1 (l2 ++ a :: after)). rewrite <- app_assoc. reflexivity.
Qed.

Lemma cycle_not_recorded (P : list string) :
  NoDup P → ordered g P → (∀ x, x ∈ P → x ∈ names g) →
  has_cycle g ∨ has_missing_dependency g →
  ∃ a, a ∈ names g ∧ a ∉ P.
Proof.
  intros Hnd Hord Hin [[a Htc]|(a & b & (node & Hf & Hb) & Hnone)].
  - exists a. split.
    + apply graph_find_names. inversion Htc as [? ? (node & Hf & _)|? ? ? (node & Hf & _) _];
        subst; eauto.
    + intros (l1 & l2 & ->)%list_elem_of_split.
      pose proof (ordered_tc _ _ _ Hord Htc l1 l2 eq_refl) as Ha.
      apply NoDup_app in Hnd as (_ & Hd & _). apply (Hd _ Ha). left.
  - exists a. split; [apply graph_find_names; eauto|].
    intros Ha. assert (Hb' : b ∈ P).
    { apply (recorded_ready P a Hord Ha). unfold dependencies_of. rewrite Hf. exact Hb. }
    apply Hin, graph_find_names in Hb' as [? Hb']. congruence.
Qed.

Lemma short_of_nodes (P : list string) a :
  NoDup P → (∀ x, x ∈ P → x ∈ names g) → a ∈ names g → a ∉ P →
  (length P < length g)%nat.
Proof.
  intros Hnd Hin Ha Hn.
  assert (H : (length (a :: P) ≤ length g)%nat).
  { apply recorded_bound; [constructor; assumption|].
    intros x [->|Hx]%elem_of_cons; auto. }
  simpl in H. lia.
Qed.

Lemma batch_funcs_graph (batch : list string) :
  (∀ x, x ∈ batch → x ∈ names g) →
  ∀ fs g', batch_funcs g batch = Some (fs, g') → g' = g.
Proof.
  induction batch as [|c cs IH]; intros Hin fs g' H; simpl in H.
  - congruence.
  - destruct (graph_index_names g c) as (node & _ & Hi); [apply Hin; left|].
    rewrite Hi in H. destruct (Func node); [|discriminate]. simpl in H.
    destruct (batch_funcs g cs) as [[fs' g'']|] eqn:E; [|discriminate]. simpl in H.
    inversion H; subst. eapply IH; [|reflexivity]. intros x Hx. apply Hin. right. exact Hx.
Qed.

Lemma run_batches_graph (batched : list (list string)) :
  (∀ x, x ∈ concat batched → x ∈ names g) →
  ∀ executed g', run_batches g batched = Some (executed, g') → g' = g.
Proof.
  induction batched as [|b bs IH]; intros Hin executed g' H; simpl in H.
  - congruence.
  - destruct (batch_funcs g b) as [[fs g1]|] eqn:E; [|discriminate]. simpl in H.
    apply batch_funcs_graph in E; [subst g1|intros x Hx; apply Hin; simpl; apply elem_of_app; auto].
    destruct (run_batches g bs) as [[ex g2]|] eqn:E2; [|discriminate]. simpl in H.
    inversion H; subst. eapply IH; [|reflexivity].
    intros x Hx. apply Hin. simpl. apply elem_of_app. auto.
Qed.

End OkGraph.

End SchedulerFacts.

Section RebuildFacts.
Import SystemScheduler.

Lemma RebuildGraph_spec s :
  graph_ok (m_Graph s) = true →
  ∃ batched,
    RebuildGraph s
    = Some (if (totalNodes batched <? length (m_Graph s))%nat
            then (Mk (m_Graph s) batched (m_GraphDirty s), CycleError)
            else (Mk (m_Graph s) batched false, Done))
    ∧ NoDup (concat batched)
    ∧ (∀ x, x ∈ concat batched → x ∈ names (m_Graph s))
    ∧ ordered (m_Graph s) (concat batched).
Proof.
  intros Hok. destruct (batches_spec _ Hok) as (batched & Hb & H).
  exists batched. split; [|exact H].
  unfold RebuildGraph. destruct (init_degrees (m_Graph s)) as [ind cur]. rewrite Hb. simpl.
  destruct (_ <? _)%nat; reflexivity.
Qed.

End RebuildFacts.

Section AddSystemFacts.
Import SystemScheduler.

Implicit Types (g : Graph) (name m n d k : string) (node : SystemNode).

Lemma bool_decide_swap (a b : string) : bool_decide (a = b) = bool_decide (b = a).
Proof. apply bool_decide_ext. split; congruence. Qed.

Lemma graph_find_set g k node k' :
  graph_find (graph_set g k node) k'
  = if bool_decide (k = k') then Some node else graph_find g k'.
Proof.
  induction g as [|[k0 nd] g IH]; simpl.
  - reflexivity.
  - destruct (bool_decide_reflect (k0 = k)) as [->|Hk0]; simpl.
    + destruct (bool_decide (k = k')); reflexivity.
    + rewrite IH. destruct (bool_decide_reflect (k0 = k')) as [->|];
        [rewrite bool_decide_false by congruence|]; reflexivity.
Qed.

Lemma names_set_old g k node : k ∈ names g → names (graph_set g k node) = names g.
Proof.
  unfold names. induction g as [|[k0 nd] g IH]; simpl; intros Hk.
  - inversion Hk.
  - destruct (bool_decide_reflect (k0 = k)) as [->|Hk0]; simpl; [reflexivity|].
    f_equal. apply IH. apply elem_of_cons in Hk as [->|Hk]; [congruence | exact Hk].
Qed.

Lemma names_set_new g k node : k ∉ names g → names (graph_set g k node) = names g ++ [k].
Proof.
  unfold names. induction g as [|[k0 nd] g IH]; simpl; intros Hk.
  - reflexivity.
  - apply not_elem_of_cons in Hk as [Hk0 Hk].
    rewrite bool_decide_false by congruence. simpl. f_equal. apply IH, Hk.
Qed.

Lemma dependencies_of_find g g' :
  (∀ k, Dependencies <$> graph_find g' k = Dependencies <$> graph_find g k) →
  ∀ k, dependencies_of g' k = dependencies_of g k.
Proof.
  intros H k. specialize (H k). unfold dependencies_of.
  destruct (graph_find g' k), (graph_find g k); simpl in H; congruence.
Qed.

(** [m_Graph[dep].Dependents.push_back(x)] on a node of the graph. *)
Lemma push_dependent_spec g dep x :
  dep ∈ names g →
  names (push_dependent g dep x) = names g
  ∧ (∀ k, dependencies_of (push_dependent g dep x) k = dependencies_of g k)
  ∧ (∀ k, dependents_of (push_dependent g dep x) k
          = dependents_of g k ++ (if bool_decide (dep = k) then [x] else [])).
Proof.
  intros Hdep. unfold push_dependent.
  destruct (graph_index_names g dep Hdep) as (node & Hf & ->).
  split; [apply names_set_old, Hdep|]. split.
  - intros k. unfold dependencies_of. rewrite graph_find_set.
    case_bool_decide; [subst; rewrite Hf|]; reflexivity.
  - intros k. unfold dependents_of. rewrite graph_find_set.
    case_bool_decide; [subst; rewrite Hf; reflexivity|].
    rewrite app_nil_r. reflexivity.
Qed.

Variable name : string.

(** The first loop of [AddSystem]. *)
Lemma first_loop_spec (L : list string) : ∀ g,
  let g' := fold_left
              (λ g dep, if graph_find g dep is Some _ then push_dependent g dep name else g)
              L g in
  names g' = names g
  ∧ (∀ k, dependencies_of g' k = dependencies_of g k)
  ∧ (∀ k m, count m (dependents_of g' k)
            = (count m (dependents_of g k)
               + if bool_decide (m = name) && bool_decide (k ∈ names g)
                 then count k L else 0)%nat).
Proof.
  induction L as [|dep L IH]; intros g; cbn [fold_left].
  - split; [reflexivity|]. split; [reflexivity|]. intros k m. simpl.
    destruct (_ && _); lia.
  - destruct (graph_find g dep) as [node|] eqn:Hf.
    + assert (Hdep : dep ∈ names g) by (apply graph_find_names; eauto).
      destruct (push_dependent_spec g dep name Hdep) as (Hn1 & Hd1 & Hp1).
      destruct (IH (push_dependent g dep name)) as (Hn & Hd & Hp).
      split; [congruence|]. split; [intros k; rewrite Hd; apply Hd1|].
      intros k m. rewrite Hp, Hp1, Hn1, count_app. simpl count.
      destruct (bool_decide_reflect (dep = k)) as [->|Hk]; simpl.
      * rewrite (bool_decide_true (k ∈ names g)) by exact Hdep.
        rewrite (bool_decide_swap name m) at 1.
        destruct (bool_decide (m = name)); simpl; lia.
      * destruct (_ && _); lia.
    + assert (Hdep : dep ∉ names g).
      { intros H%graph_find_names. rewrite Hf in H. destruct H; discriminate. }
      destruct (IH g) as (Hn & Hd & Hp).
      split; [exact Hn|]. split; [exact Hd|].
      intros k m. rewrite Hp. simpl count.
      destruct (bool_decide_reflect (m = name)); simpl; [|reflexivity].
      destruct (bool_decide_reflect (k ∈ names g)) as [Hk|]; simpl; [|reflexivity].
      rewrite bool_decide_false by (intros ->; contradiction). reflexivity.
Qed.

(** The inner loop of the second loop of [AddSystem]. *)
Lemma inner_loop_spec (other : string) (L : list string) : ∀ g,
  name ∈ names g →
  let g' := fold_left
              (λ g dep, if bool_decide (dep = name) then push_dependent g name other else g)
              L g in
  names g' = names g
  ∧ (∀ k, dependencies_of g' k = dependencies_of g k)
  ∧ (∀ k m, count m (dependents_of g' k)
            = (count m (dependents_of g k)
               + if bool_decide (k = name) && bool_decide (m = other)
                 then count name L else 0)%nat).
Proof.
  induction L as [|dep L IH]; intros g Hname; cbn [fold_left].
  - split; [reflexivity|]. split; [reflexivity|]. intros k m. simpl.
    destruct (_ && _); lia.
  - destruct (bool_decide_reflect (dep = name)) as [->|Hdep].
    + destruct (push_dependent_spec g name other Hname) as (Hn1 & Hd1 & Hp1).
      destruct (IH (push_dependent g name other)) as (Hn & Hd & Hp); [rewrite Hn1; exact Hname|].
      split; [congruence|]. split; [intros k; rewrite Hd; apply Hd1|].
      intros k m. rewrite Hp, Hp1, count_app. simpl count.
      rewrite (bool_decide_true (name = name)) by reflexivity.
      rewrite (bool_decide_swap name k).
      destruct (bool_decide (k = name)); simpl; [|lia].
      rewrite (bool_decide_swap other m).
      destruct (bool_decide (m = other)); simpl; lia.
    + destruct (IH g Hname) as (Hn & Hd & Hp).
      split; [exact Hn|]. split; [exact Hd|].
      intros k m. rewrite Hp. simpl count.
      rewrite (bool_decide_false (dep = name)) by exact Hdep. reflexivity.
Qed.

(** The second loop of [AddSystem], over the entries [l]. *)
Lemma second_loop_spec (l : Graph) : ∀ g,
  name ∈ names g → NoDup (names l) →
  let g' := fold_left
              (λ g '(otherName, otherNode),
                 if bool_decide (otherName = name) then g
                 else
                   fold_left
                     (λ g dep, if bool_decide (dep = name)
                               then push_dependent g name otherName else g)
                     (Dependencies otherNode) g)
              l g in
  names g' = names g
  ∧ (∀ k, dependencies_of g' k = dependencies_of g k)
  ∧ (∀ k m, count m (dependents_of g' k)
            = (count m (dependents_of g k)
               + if bool_decide (k = name) && negb (bool_decide (m = name))
                 then count name (dependencies_of l m) else 0)%nat).
Proof.
  induction l as [|[o nd] l IH]; intros g Hname Hnd; cbn [fold_left].
  - split; [reflexivity|]. split; [reflexivity|]. intros k m. simpl.
    destruct (_ && _); simpl; lia.
  - unfold names in Hnd. simpl in Hnd. apply NoDup_cons in Hnd as [Ho Hnd].
    assert (Hdl : ∀ m, dependencies_of ((o, nd) :: l) m
                       = if bool_decide (o = m) then Dependencies nd else dependencies_of l m).
    { intros m. unfold dependencies_of. simpl. destruct (bool_decide (o = m)); reflexivity. }
    destruct (bool_decide_reflect (o = name)) as [->|Hon].
    + destruct (IH g Hname Hnd) as (Hn & Hd & Hp).
      split; [exact Hn|]. split; [exact Hd|].
      intros k m. rewrite Hp, Hdl.
      destruct (bool_decide (k = name)); simpl; [|reflexivity].
      rewrite (bool_decide_swap name m).
      destruct (bool_decide (m = name)); reflexivity.
    + destruct (inner_loop_spec o (Dependencies nd) g Hname) as (Hn1 & Hd1 & Hp1).
      match goal with |- context [fold_left _ l ?g1] => set (g1' := g1) in * end.
      destruct (IH g1') as (Hn & Hd & Hp); [rewrite Hn1; exact Hname | exact Hnd |].
      split; [congruence|]. split; [intros k; rewrite Hd; apply Hd1|].
      intros k m. rewrite Hp, Hp1, Hdl.
      destruct (bool_decide (k = name)); simpl; [|lia].
      rewrite (bool_decide_swap o m).
      destruct (bool_decide_reflect (m = o)) as [->|Hmo]; simpl.
      * rewrite (bool_decide_false (o = name)) by exact Hon. simpl.
        assert (Hnone : dependencies_of l o = []).
        { unfold dependencies_of. destruct (graph_find l o) eqn:Hf; [|reflexivity].
          exfalso. apply Ho. apply (proj1 (graph_find_names l o)). eauto. }
        rewrite Hnone. simpl. lia.
      * lia.
Qed.

End AddSystemFacts.

Section BuiltFacts.
Import SystemScheduler.

Implicit Types (g : Graph) (name m n d k : string) (node : SystemNode).

Lemma graph_ok_intro g :
  NoDup (names g) →
  (∀ n m, n ∈ names g → m ∈ dependents_of g n → m ∈ names g) →
  (∀ n m, n ∈ names g → m ∈ names g →
     count m (dependents_of g n) = count n (dependencies_of g m)) →
  graph_ok g = true.
Proof.
  intros Hnd Hkeys Hcount. unfold graph_ok.
  apply andb_true_iff. split; [apply bool_decide_eq_true, Hnd|].
  apply forallb_forall. intros [n node_n] Hn%list_elem_of_In.
  assert (Hn' : n ∈ names g) by (apply names_elem; eauto).
  assert (Hdn : dependents_of g n = Dependents node_n)
    by (unfold dependents_of; rewrite (elem_graph_find _ _ _ Hnd Hn); reflexivity).
  apply andb_true_iff. split.
  - apply forallb_forall. intros m Hm%list_elem_of_In.
    apply bool_decide_eq_true, (Hkeys n m Hn'). rewrite Hdn. exact Hm.
  - apply forallb_forall. intros [m node_m] Hm%list_elem_of_In.
    assert (Hm' : m ∈ names g) by (apply names_elem; eauto).
    apply Nat.eqb_eq. rewrite <- Hdn, (Hcount n m Hn' Hm').
    unfold dependencies_of. rewrite (elem_graph_find _ _ _ Hnd Hm). reflexivity.
Qed.

Lemma AddSystem_graph_ok s name system dependencies :
  graph_ok (m_Graph s) = true →
  name ∉ names (m_Graph s) →
  graph_ok (m_Graph (AddSystem s name system dependencies)) = true.
Proof.
  intros Hok Hfresh. unfold AddSystem.
  set (g0 := m_Graph s) in *.
  set (node := MkNode name system dependencies []).
  set (g1 := graph_set g0 name node).
  assert (Hn1 : names g1 = names g0 ++ [name]) by (apply names_set_new, Hfresh).
  assert (Hname1 : name ∈ names g1) by (rewrite Hn1; apply elem_of_app; right; left).
  assert (Hf1 : ∀ k, graph_find g1 k = if bool_decide (name = k) then Some node else graph_find g0 k)
    by (intros k; apply graph_find_set).
  destruct (graph_index_names g1 name Hname1) as (added & Hadded & ->).
  rewrite Hf1, bool_decide_true in Hadded by reflexivity. inversion Hadded; subst added.
  cbn [Dependencies node].
  destruct (first_loop_spec name dependencies g1) as (Hn2 & Hd2 & Hp2).
  match goal with |- context [fold_left _ dependencies g1] =>
    set (g2 := fold_left _ dependencies g1) in * end.
  assert (Hnd2 : NoDup (names g2)).
  { rewrite Hn2, Hn1. apply NoDup_app. split; [exact (graph_ok_NoDup _ Hok)|].
    split; [|apply NoDup_singleton].
    intros x Hx ->%list_elem_of_singleton. exact (Hfresh Hx). }
  destruct (second_loop_spec name g2 g2) as (Hn3 & Hd3 & Hp3);
    [rewrite Hn2; exact Hname1 | exact Hnd2 |].
  match goal with |- context [fold_left _ g2 g2] =>
    set (g3 := fold_left _ g2 g2) in * end.
  cbn [m_Graph].
  assert (Hdeps : ∀ k, dependencies_of g3 k
                       = if bool_decide (name = k) then dependencies else dependencies_of g0 k).
  { intros k. rewrite Hd3, Hd2. unfold dependencies_of. rewrite Hf1.
    destruct (bool_decide (name = k)); reflexivity. }
  assert (Hdnts1 : ∀ k, dependents_of g1 k
                        = if bool_decide (name = k) then [] else dependents_of g0 k).
  { intros k. unfold dependents_of. rewrite Hf1.
    destruct (bool_decide (name = k)); reflexivity. }
  assert (Hnames : ∀ k, k ∈ names g3 ↔ k = name ∨ k ∈ names g0).
  { intros k. rewrite Hn3, Hn2, Hn1, elem_of_app, list_elem_of_singleton. tauto. }
  assert (Hold : ∀ k, k ∈ names g0 → k ≠ name) by (intros k Hk ->; exact (Hfresh Hk)).
  assert (Hcnt : ∀ k m, count m (dependents_of g3 k)
     = (count m (dependents_of g1 k)
        + (if bool_decide (m = name) && bool_decide (k ∈ names g1) then count k dependencies else 0)
        + (if bool_decide (k = name) && negb (bool_decide (m = name))
           then count name (dependencies_of g2 m) else 0))%nat).
  { intros k m. rewrite Hp3, Hp2. reflexivity. }
  assert (Hnone : ∀ n, n ∈ names g0 → count name (dependents_of g0 n) = 0%nat).
  { intros n Hn. destruct (count name (dependents_of g0 n)) eqn:E; [reflexivity|].
    exfalso. apply Hfresh, (graph_ok_dependents _ Hok n). apply count_elem. lia. }
  apply graph_ok_intro.
  - rewrite Hn3. exact Hnd2.
  - intros n m Hn Hm%count_elem. rewrite Hcnt, Hdnts1 in Hm. apply Hnames.
    destruct (bool_decide_reflect (m = name)) as [->|Hmn]; [left; reflexivity|]. right.
    simpl in Hm. rewrite Nat.add_0_r in Hm.
    destruct (bool_decide_reflect (name = n)) as [<-|Hnn].
    + simpl count in Hm. rewrite bool_decide_true in Hm by reflexivity. simpl in Hm.
      rewrite Hd2 in Hm. unfold dependencies_of in Hm. rewrite Hf1 in Hm.
      rewrite bool_decide_false in Hm by congruence.
      apply graph_find_names. destruct (graph_find g0 m); [eauto | simpl in Hm; lia].
    + rewrite bool_decide_false in Hm by congruence. simpl in Hm.
      rewrite Nat.add_0_r in Hm. apply count_elem in Hm.
      exact (graph_ok_dependents _ Hok n m Hm).
  - intros n m Hn Hm. rewrite Hcnt, Hdnts1, Hdeps, Hd2.
    apply Hnames in Hn, Hm.
    assert (Hd1 : dependencies_of g1 m
                  = if bool_decide (name = m) then dependencies else dependencies_of g0 m).
    { unfold dependencies_of. rewrite Hf1. destruct (bool_decide (name = m)); reflexivity. }
    rewrite Hd1.
    assert (Hn1' : n ∈ names g1) by (rewrite Hn1, elem_of_app, list_elem_of_singleton; tauto).
    rewrite (bool_decide_true (n ∈ names g1)) by exact Hn1'.
    rewrite (bool_decide_swap name m), (bool_decide_swap name n).
    destruct (bool_decide_reflect (n = name)) as [->|Hnn],
             (bool_decide_reflect (m = name)) as [->|Hmn]; simpl.
    + lia.
    + lia.
    + destruct Hn as [|Hn]; [contradiction|]. rewrite (Hnone n Hn). lia.
    + destruct Hn as [|Hn]; [contradiction|]. destruct Hm as [|Hm]; [contradiction|].
      rewrite (graph_ok_count _ Hok n m Hn Hm). lia.
Qed.

Lemma AddSystem_ok s name system dependencies :
  sched_ok s = true →
  name ∉ names (m_Graph s) →
  sched_ok (AddSystem s name system dependencies) = true.
Proof.
  intros [Hok _]%andb_true_iff Hfresh. unfold sched_ok.
  rewrite (AddSystem_graph_ok s name system dependencies Hok Hfresh).
  unfold AddSystem. repeat match goal with |- context [let '(_, _) := ?x in _] => destruct x end.
  reflexivity.
Qed.

Lemma RunGraph_ok s s' outcome executed :
  sched_ok s = true →
  RunGraph s = Some (s', outcome, executed) →
  sched_ok s' = true.
Proof.
  intros Hs Hrun. pose proof Hs as [Hok Hb]%andb_true_iff.
  destruct (RebuildGraph_spec s Hok) as (batched & Hr & _ & Hin & _).
  unfold RunGraph in Hrun.
  destruct (m_Graph s) as [|entry rest] eqn:Hg; [inversion Hrun; subst; exact Hs|].
  rewrite <- Hg in *. clear Hg entry rest.
  assert (Hkeep : ∀ b, (∀ x, x ∈ concat b → x ∈ names (m_Graph s)) →
            ∀ ex g', run_batches (m_Graph s) b = Some (ex, g') → g' = m_Graph s)
    by (intros b Hb'; apply run_batches_graph, Hb').
  assert (Hsame : ∀ b (dirty : bool), RebuildGraph (Mk (m_Graph s) b dirty)
                         = (λ '(s1, o), (Mk (m_Graph s1) (m_BatchedGraph s1)
                                           (match o with Done => false | CycleError => dirty end), o))
                           <$> RebuildGraph s).
  { intros b dirty. unfold RebuildGraph. cbn [m_Graph m_GraphDirty].
    destruct (init_degrees (m_Graph s)) as [ind cur].
    destruct (batches_loop _ _ _ _ _) as [[g' b']|]; [|reflexivity]. simpl.
    destruct (totalNodes b' <? length g')%nat; reflexivity. }
  destruct (m_GraphDirty s) eqn:Hdirty.
  - rewrite Hr in Hrun.
    destruct (Nat.ltb_spec (totalNodes batched) (length (m_Graph s))) as [Hlt|Hge];
      simpl in Hrun.
    + inversion Hrun; subst. unfold sched_ok. cbn [m_Graph m_GraphDirty]. rewrite Hok. reflexivity.
    + destruct (run_batches (m_Graph s) batched) as [[ex g']|] eqn:Hrb; [|discriminate].
      simpl in Hrun. inversion Hrun; subst.
      apply (Hkeep _ Hin) in Hrb. subst g'.
      unfold sched_ok. cbn [m_Graph m_GraphDirty m_BatchedGraph]. rewrite Hok, Hsame, Hr.
      destruct (Nat.ltb_spec (totalNodes batched) (length (m_Graph s))); [lia|].
      simpl. apply bool_decide_eq_true. reflexivity.
  - simpl in Hb, Hrun. rewrite Hr in Hb.
    destruct (Nat.ltb_spec (totalNodes batched) (length (m_Graph s))) as [Hlt|Hge];
      [discriminate|].
    apply bool_decide_eq_true in Hb. simpl in Hb. subst batched.
    destruct (run_batches (m_Graph s) (m_BatchedGraph s)) as [[ex g']|] eqn:Hrb; [|discriminate].
    simpl in Hrun. inversion Hrun; subst.
    apply (Hkeep _ Hin) in Hrb. subst g'.
    unfold sched_ok. cbn [m_Graph m_GraphDirty m_BatchedGraph]. rewrite Hok, Hsame, Hr.
    destruct (Nat.ltb_spec (totalNodes (m_BatchedGraph s)) (length (m_Graph s))); [lia|].
    simpl. rewrite Hdirty. apply bool_decide_eq_true. reflexivity.
Qed.

(** X22.  Every scheduler that [AddSystem], with names that are new, and
    [RunGraph] lead to from the empty one is well formed: the names of the
    graph are distinct, every listed dependent is a node, a node lists
    another as a dependent as often as that one lists it as a dependency,
    and the batches are those of the graph unless the graph is marked
    dirty. *)
Theorem built_ok s : built s → sched_ok s = true.
Proof.
  induction 1 as [|s name system dependencies _ IH Hfresh|s s' outcome executed _ IH Hrun].
  - reflexivity.
  - exact (AddSystem_ok s name system dependencies IH Hfresh).
  - exact (RunGraph_ok s s' outcome executed IH Hrun).
Qed.

End BuiltFacts.

Section SchedulerTheorems.
Import SystemScheduler.

(** C8, as the code has it.  For a scheduler that satisfies [sched_ok]
    (the node names are distinct, every listed dependent is a node and the
    dependents lists mirror the dependency lists, which is how [AddSystem]
    keeps the graph while every name is added once; and the stored batches
    are those of the graph unless the graph is marked dirty): [RunGraph]
    ends with the cycle error exactly when the batch sizes sum up to less
    than the number of nodes; and when the graph has a dependency cycle, or
    a node lists a dependency that has no node, [RunGraph] ends with that
    error, has executed no function and leaves the graph as it was. *)
Theorem C8_RunGraph_cycle_error s :
  sched_ok s = true →
  (∀ s' outcome executed, RunGraph s = Some (s', outcome, executed) →
     (outcome = CycleError
      ↔ (totalNodes (m_BatchedGraph s') < length (m_Graph s'))%nat))
  ∧ (has_cycle (m_Graph s) ∨ has_missing_dependency (m_Graph s) →
     ∃ s', RunGraph s = Some (s', CycleError, [])
           ∧ m_Graph s' = m_Graph s
           ∧ (totalNodes (m_BatchedGraph s') < length (m_Graph s'))%nat).
Proof.
  intros Hs. unfold sched_ok in Hs. apply andb_true_iff in Hs as [Hok Hs].
  destruct (RebuildGraph_spec s Hok) as (batched & Hr & Hnd & Hin & Hord).
  split.
  - intros s' outcome executed Hrun. unfold RunGraph in Hrun.
    destruct (m_Graph s) as [|entry rest] eqn:Hg.
    { inversion Hrun; subst. rewrite Hg. simpl. split; [discriminate | lia]. }
    rewrite <- Hg in *. clear Hg entry rest.
    destruct (m_GraphDirty s) eqn:Hdirty.
    + rewrite Hr in Hrun.
      destruct (Nat.ltb_spec (totalNodes batched) (length (m_Graph s))) as [Hlt|Hge];
        simpl in Hrun.
      * inversion Hrun; subst. simpl. split; [intros _; exact Hlt | reflexivity].
      * destruct (run_batches (m_Graph s) batched) as [[ex g']|] eqn:Hb; [|discriminate].
        simpl in Hrun. inversion Hrun; subst. simpl.
        apply (run_batches_graph _ _ Hin) in Hb. subst g'.
        split; [discriminate | lia].
    + simpl in Hs, Hrun. rewrite Hr in Hs.
      destruct (Nat.ltb_spec (totalNodes batched) (length (m_Graph s))) as [Hlt|Hge];
        [discriminate|].
      apply bool_decide_eq_true in Hs. simpl in Hs. subst batched.
      destruct (run_batches (m_Graph s) (m_BatchedGraph s)) as [[ex g']|] eqn:Hb; [|discriminate].
      simpl in Hrun. inversion Hrun; subst. simpl.
      apply (run_batches_graph _ _ Hin) in Hb. subst g'.
      split; [discriminate | lia].
  - intros Hbad.
    destruct (cycle_not_recorded _ _ Hnd Hord Hin Hbad) as (a & Ha & Hna).
    pose proof (short_of_nodes _ _ a Hnd Hin Ha Hna) as Hlt.
    rewrite <- totalNodes_concat in Hlt.
    apply Nat.ltb_lt in Hlt. rewrite Hlt in Hr.
    destruct (m_GraphDirty s) eqn:Hdirty.
    + exists (Mk (m_Graph s) batched true). unfold RunGraph.
      destruct (m_Graph s) as [|entry rest] eqn:Hg.
      { apply names_elem in Ha as [? Ha]. inversion Ha. }
      rewrite <- Hg in *. rewrite Hdirty, Hr. simpl.
      split; [reflexivity|]. split; [reflexivity|]. apply Nat.ltb_lt, Hlt.
    + simpl in Hs. rewrite Hr in Hs. discriminate.
Qed.

End SchedulerTheorems.

Lemma sched_cycle_has_cycle : SystemScheduler.has_cycle (SystemScheduler.m_Graph sched_cycle).
Proof.
  exists "A"%string. apply tc_l with "B"%string; [|apply tc_once].
  - eexists. split; [vm_compute; reflexivity|]. simpl. left.
  - eexists. split; [vm_compute; reflexivity|]. simpl. left.
Qed.

Lemma C8_witness :
  ∃ s', SystemScheduler.RunGraph sched_cycle = Some (s', SystemScheduler.CycleError, [])
        ∧ SystemScheduler.m_Graph s' = SystemScheduler.m_Graph sched_cycle
        ∧ (SystemScheduler.totalNodes (SystemScheduler.m_BatchedGraph s')
           < length (SystemScheduler.m_Graph s'))%nat.
Proof.
  apply (C8_RunGraph_cycle_error sched_cycle).
  - vm_compute. reflexivity.
  - left. exact sched_cycle_has_cycle.
Defined.

(** A node with a dependency that has no node: the first batch is recorded,
    the error is raised, nothing is executed. *)
Example RunGraph_missing_dependency :
  ∃ s', SystemScheduler.RunGraph sched_missing = Some (s', SystemScheduler.CycleError, [])
        ∧ SystemScheduler.m_BatchedGraph s' = [["A"%string]].
Proof. eexists. split; vm_compute; reflexivity. Qed.

(** tests/SystemSchedulerTests.cpp, RunGraph_SequentialDependencies and
    RunGraph_ParallelBranches. *)
Example RunGraph_SequentialDependencies :
  snd <$> SystemScheduler.RunGraph sched_chain = Some [[1]; [2]; [3]]%nat.
Proof. vm_compute. reflexivity. Qed.

Example RunGraph_ParallelBranches :
  snd <$> SystemScheduler.RunGraph sched_branches = Some [[1; 2]; [3]]%nat.
Proof. vm_compute. reflexivity. Qed.

(** The name "B" added a second time: its node is replaced, the entries
    that the first addition made in the dependents of other nodes stay, and
    [graph_ok] fails.  The graph has the cycle B, C and [RunGraph]
    executes all three functions. *)
Example RunGraph_name_added_twice :
  SystemScheduler.graph_ok (SystemScheduler.m_Graph sched_readded) = false
  ∧ snd <$> SystemScheduler.RunGraph sched_readded = Some [[1]; [2]; [3]]%nat.
Proof. split; vm_compute; reflexivity. Qed.

(** C8 as it is written, for every graph, fails when a name is added
    twice: in [sched_readded] the nodes B and C depend on each other, and
    [RunGraph] reports no error and executes all three functions. *)
Lemma C8_counterexample :
  SystemScheduler.has_cycle (SystemScheduler.m_Graph sched_readded)
  ∧ SystemScheduler.sched_ok sched_readded = false
  ∧ ∃ s', SystemScheduler.RunGraph sched_readded
          = Some (s', SystemScheduler.Done, [[1]; [2]; [3]]%nat).
Proof.
  split.
  { exists "B"%string. apply tc_l with "C"%string; [|apply tc_once].
    - eexists. split; [vm_compute; reflexivity|]. simpl. right. left.
    - eexists. split; [vm_compute; reflexivity|]. simpl. left. }
  split; [vm_compute; reflexivity|].
  eexists. vm_compute. reflexivity.
Qed.

(** ** More of ComponentMask.hpp *)

Section MaskTheorems.
Import ComponentMask.

Implicit Types (m other : ComponentMask.t) (b c : N).

Lemma GetWord_op_and m other (i : N) :
  i < 4 → GetWord (op_and m other) i = N.land (GetWord m i) (GetWord other i).
Proof.
  intros Hi. assert (i = 0 ∨ i = 1 ∨ i = 2 ∨ i = 3) as [->|[->|[->| ->]]] by lia; reflexivity.
Qed.

Lemma GetWord_op_or m other (i : N) :
  i < 4 → GetWord (op_or m other) i = N.lor (GetWord m i) (GetWord other i).
Proof.
  intros Hi. assert (i = 0 ∨ i = 1 ∨ i = 2 ∨ i = 3) as [->|[->|[->| ->]]] by lia; reflexivity.
Qed.

(** Two masks of 64-bit words with the same answers of [Test] are one mask. *)
Lemma mask_ext m other :
  wf m → wf other → (∀ b, Test m b = Test other b) → m = other.
Proof.
  intros Hm Ho H.
  assert (Hw : ∀ i, i < 4 → GetWord m i = GetWord other i).
  { intros i Hi. apply N.bits_inj. intros k.
    destruct (N.lt_ge_cases k 64) as [Hk|Hk].
    - specialize (H (i * 64 + k)). rewrite !Test_spec in H.
      replace ((i * 64 + k) / 64) with i in H by lia.
      replace ((i * 64 + k) mod 64) with k in H by lia.
      destruct (N.ltb_spec (i * 64 + k) 256); [|lia]. exact H.
    - rewrite !(testbit_above _ 64 k) by (try apply wf_words; assumption). reflexivity. }
  destruct m as [a0 a1 a2 a3], other as [b0 b1 b2 b3].
  pose proof (Hw 0 ltac:(lia)) as H0. pose proof (Hw 1 ltac:(lia)) as H1.
  pose proof (Hw 2 ltac:(lia)) as H2. pose proof (Hw 3 ltac:(lia)) as H3.
  simpl in H0, H1, H2, H3. congruence.
Qed.

(** X1.  [Set(bit)] sets the bit and [Reset(bit)] clears it, each leaving
    every other bit as it was; from bit 256 on both do nothing; [Reset(bit)]
    after [Set(bit)] leaves the bit clear; after [Reset()] no bit is set. *)
Theorem X1_Set_Reset_change_one_bit m b c :
  Test (SetBit m b) c = Test m c || ((c =? b) && (b <? 256))
  ∧ Test (ResetBit m b) c = Test m c && negb (c =? b)
  ∧ Test (ResetBit (SetBit m b) b) c = Test m c && negb (c =? b)
  ∧ Test (ResetAll m) c = false
  ∧ Any (ResetAll m) = false.
Proof.
  split; [apply Test_SetBit|]. split; [apply Test_ResetBit|]. split.
  - rewrite Test_ResetBit, Test_SetBit.
    destruct (N.eqb_spec c b); simpl.
    + rewrite !andb_false_r. reflexivity.
    + rewrite orb_false_r. reflexivity.
  - split; [apply Test_ResetAll | reflexivity].
Qed.

(** X2.  [ForEachSetBit(f)] on a mask of 64-bit words calls [f] on the bits
    that [Test] finds set, once on each and in ascending order. *)
Theorem X2_ForEachSetBit_ascending {S : Type} m (f : N → S → S) (s : S) :
  wf m →
  ForEachSetBit m f s = fold_left (λ s b, f b s) (set_bits m) s
  ∧ StronglySorted N.lt (set_bits m)
  ∧ NoDup (set_bits m)
  ∧ ∀ b, b ∈ set_bits m ↔ Test m b = true.
Proof.
  intros Hm. split; [apply ForEachSetBit_spec, Hm|].
  split; [apply set_bits_sorted|]. split; [apply sorted_NoDup, set_bits_sorted|].
  intros b. rewrite list_elem_of_In. apply set_bits_In.
Qed.

(** X3.  [Contains(other)] is [(this & other) == other], as its comment
    says, and for a mask [other] of 64-bit words it holds exactly when every
    bit set in [other] is set in [this]. *)
Theorem X3_Contains_is_and_eq m other :
  wf other →
  Contains m other = op_eq (op_and m other) other
  ∧ (Contains m other = true ↔ ∀ c, Test other c = true → Test m c = true).
Proof.
  intros Ho. split; [|apply Mask_Contains_spec, Ho].
  destruct m as [a0 a1 a2 a3], other as [b0 b1 b2 b3]. reflexivity.
Qed.

(** X4.  [operator&] and [operator|] act bit by bit: a bit of [a & b] is set
    when it is set in both, a bit of [a | b] when it is set in one of
    them. *)
Theorem X4_and_or_bitwise m other c :
  Test (op_and m other) c = Test m c && Test other c
  ∧ Test (op_or m other) c = Test m c || Test other c.
Proof.
  rewrite !Test_spec.
  destruct (N.ltb_spec c 256) as [Hc|Hc]; simpl; [|split; reflexivity].
  rewrite GetWord_op_and, GetWord_op_or by lia.
  rewrite N.land_spec, N.lor_spec. split; reflexivity.
Qed.

Lemma op_eq_true m other : op_eq m other = true ↔ m = other.
Proof.
  destruct m as [a0 a1 a2 a3], other as [b0 b1 b2 b3]. unfold op_eq. simpl.
  rewrite !andb_true_iff, !N.eqb_eq. split.
  - intros (-> & -> & -> & -> & _). reflexivity.
  - intros [= -> -> -> ->]. auto.
Qed.

Lemma Any_true m : wf m → Any m = true ↔ ∃ b, Test m b = true.
Proof.
  intros Hm. split.
  - intros H. unfold Any in H. apply existsb_exists in H as (w & Hin & Hw).
    assert (Hi : ∃ i, i < 4 ∧ w = GetWord m i).
    { simpl in Hin. destruct Hin as [<-|[<-|[<-|[<-|[]]]]];
        [exists 0|exists 1|exists 2|exists 3]; split; (lia || reflexivity). }
    destruct Hi as (i & Hi & ->).
    apply negb_true_iff, N.eqb_neq in Hw.
    pose proof (ctzll_true _ Hw) as Hk.
    set (k := ctzll (GetWord m i)) in *.
    assert (Hk64 : k < 64).
    { destruct (N.lt_ge_cases k 64) as [|Hge]; [assumption|].
      rewrite (testbit_above _ 64 k (wf_words m i Hm) Hge) in Hk. discriminate. }
    exists (i * 64 + k). rewrite Test_spec.
    replace ((i * 64 + k) / 64) with i by lia.
    replace ((i * 64 + k) mod 64) with k by lia.
    rewrite Hk. destruct (N.ltb_spec (i * 64 + k) 256); [reflexivity|lia].
  - intros [b Hb]. pose proof (Test_lt _ _ Hb) as Hlt.
    rewrite Test_spec in Hb. apply andb_true_iff in Hb as [_ Hb].
    unfold Any. apply existsb_exists. exists (GetWord m (b / 64)). split.
    + assert (b / 64 = 0 ∨ b / 64 = 1 ∨ b / 64 = 2 ∨ b / 64 = 3) as [->|[->|[->| ->]]] by lia;
        simpl; auto.
    + apply negb_true_iff, N.eqb_neq. intros Hz. rewrite Hz, N.bits_0 in Hb. discriminate.
Qed.

(** X5.  On masks of 64-bit words [operator==] holds exactly when [Test]
    answers alike on every bit, [Any()] when some bit is set and [None()]
    when no bit is set. *)
Theorem X5_eq_Any_None m other :
  wf m → wf other →
  (op_eq m other = true ↔ ∀ b, Test m b = Test other b)
  ∧ op_ne m other = negb (op_eq m other)
  ∧ (Any m = true ↔ ∃ b, Test m b = true)
  ∧ (NoneSet m = true ↔ ∀ b, Test m b = false).
Proof.
  intros Hm Ho. split.
  { rewrite op_eq_true. split; [intros ->; reflexivity | apply mask_ext; assumption]. }
  split; [reflexivity|]. split; [apply Any_true, Hm|].
  unfold NoneSet. rewrite negb_true_iff. split.
  - intros Hn b. destruct (Test m b) eqn:Hb; [|reflexivity].
    rewrite (proj2 (Any_true m Hm) (ex_intro _ b Hb)) in Hn. discriminate.
  - intros H. destruct (Any m) eqn:Ha; [|reflexivity].
    apply (Any_true m Hm) in Ha as [b Hb]. rewrite H in Hb. discriminate.
Qed.

End MaskTheorems.

Lemma X2_witness :
  ComponentMask.ForEachSetBit (ComponentMask.Make 5) cons [] = [2; 0].
Proof.
  destruct (X2_ForEachSetBit_ascending (ComponentMask.Make 5) cons []) as [H _].
  - vm_compute. repeat split; reflexivity.
  - rewrite H. vm_compute. reflexivity.
Defined.

Lemma X3_witness :
  ComponentMask.Contains (ComponentMask.Make 7) (ComponentMask.Make 5)
  = ComponentMask.op_eq (ComponentMask.op_and (ComponentMask.Make 7) (ComponentMask.Make 5))
                        (ComponentMask.Make 5).
Proof.
  refine (proj1 (X3_Contains_is_and_eq (ComponentMask.Make 7) (ComponentMask.Make 5) _)).
  vm_compute. repeat split; reflexivity.
Defined.

Lemma X5_witness :
  ComponentMask.Any (ComponentMask.Make 4) = true ↔ ∃ b, ComponentMask.Test (ComponentMask.Make 4) b = true.
Proof.
  refine (proj1 (proj2 (proj2 (X5_eq_Any_None (ComponentMask.Make 4) (ComponentMask.Make 4) _ _)))).
  - vm_compute. repeat split; reflexivity.
  - vm_compute. repeat split; reflexivity.
Defined.

(** ** More of SparseSet.hpp: what [Insert] and [Remove] do to the rows *)

Section SparseRows.
Import SparseSet.

Context {Component : Type}.

Implicit Types (s : SparseSet.t Component) (e x : EntityID) (v d : Component).

(** [Get] reads the datum that stands at the position of the identifier. *)
Lemma Get_row s e d :
  sset_inv s →
  Get s e = Some d ↔ ∃ i, m_DenseToEntity s !! i = Some e ∧ m_DenseData s !! i = Some d.
Proof.
  intros Hinv. split.
  - intros Hg. assert (Hin : e ∈ m_DenseToEntity s).
    { unfold Get in Hg. rewrite (Contains_spec s e Hinv) in Hg. obind in Hg.
      destruct (bool_decide_reflect (e ∈ m_DenseToEntity s)); [assumption|discriminate]. }
    destruct (Get_spec s e Hinv Hin) as [Heq _]. rewrite Heq in Hg.
    eexists. split; [apply sparse_at_elem; assumption | exact Hg].
  - intros (i & Hi & Hd). assert (Hin : e ∈ m_DenseToEntity s) by (eapply list_elem_of_lookup_2, Hi).
    destruct (Get_spec s e Hinv Hin) as [-> _].
    rewrite (inv_dense s Hinv i e Hi), Nat2N.id. exact Hd.
Qed.

Lemma Get_ext s s' x :
  sset_inv s → sset_inv s' →
  (∀ d, (∃ i, m_DenseToEntity s' !! i = Some x ∧ m_DenseData s' !! i = Some d)
        ↔ (∃ i, m_DenseToEntity s !! i = Some x ∧ m_DenseData s !! i = Some d)) →
  Get s' x = Get s x.
Proof.
  intros Hinv Hinv' H. apply option_eq. intros d.
  rewrite (Get_row s' x d Hinv'), (Get_row s x d Hinv). apply H.
Qed.

(** The two shapes of the result of [Insert]. *)
Lemma Insert_form s e v :
  sset_inv s →
  (∃ pages',
     (∀ x, x ∈ m_DenseToEntity s → Internal.GetIndex x ≠ Internal.GetIndex e)
     ∧ Insert s e v = Some (Mk (m_DenseData s ++ [v]) (m_DenseToEntity s ++ [e]) pages'))
  ∨ (∃ pages' k e0,
       m_DenseToEntity s !! k = Some e0
       ∧ Internal.GetIndex e0 = Internal.GetIndex e
       ∧ Insert s e v = Some (Mk (<[k := v]> (m_DenseData s)) (<[k := e]> (m_DenseToEntity s)) pages')).
Proof.
  intros Hinv. unfold Insert.
  set (idx := Internal.GetIndex e). set (pages1 := ensure_page (m_SparsePages s) idx).
  assert (Hok1 : pages_ok pages1) by (apply ensure_page_ok, Hinv).
  assert (Hhas1 : ∃ page, pages1 !! pageId idx = Some (Some page)) by apply ensure_page_has.
  assert (Hread1 : ∀ j, read pages1 j = sparse_at s j) by (intros; apply ensure_page_read).
  rewrite (slot_get_read_ok pages1 idx Hok1 Hhas1), Hread1. obind.
  destruct (N.eqb_spec (sparse_at s idx) k_NullIndex) as [Hnull|Hnn]; cbn [negb].
  - left. destruct (slot_set_ok pages1 idx (Size s) Hok1 Hhas1) as (pages2 & Hset & _).
    rewrite Hset. obind. exists pages2. split; [|reflexivity].
    intros x [i Hi]%list_elem_of_lookup Hx.
    apply (dense_nonnull s i x Hinv Hi). rewrite Hx. exact Hnull.
  - right. destruct (inv_sparse s Hinv idx (GetIndex_lt e) Hnn) as (e0 & He0 & Hidx0).
    set (k := N.to_nat (sparse_at s idx)) in *.
    assert (Hk : (k < length (m_DenseToEntity s))%nat) by (eapply lookup_lt_Some, He0).
    unfold vec_set. rewrite (inv_len s Hinv).
    destruct (Nat.ltb_spec k (length (m_DenseToEntity s))); [|lia].
    obind. exists pages1, k, e0. auto.
Qed.

(** The shape of the result of [Remove] of a stored identifier: the last
    row takes the place of the removed one. *)
Lemma Remove_form s e :
  sset_inv s → e ∈ m_DenseToEntity s →
  ∃ pages' k le ld,
    m_DenseToEntity s !! k = Some e
    ∧ m_DenseToEntity s !! (length (m_DenseToEntity s) - 1)%nat = Some le
    ∧ m_DenseData s !! (length (m_DenseToEntity s) - 1)%nat = Some ld
    ∧ Remove s e
      = Some (Mk (take (length (m_DenseToEntity s) - 1) (<[k := ld]> (m_DenseData s)))
                 (take (length (m_DenseToEntity s) - 1) (<[k := le]> (m_DenseToEntity s)))
                 pages').
Proof.
  intros Hinv Hin.
  set (idx := Internal.GetIndex e).
  set (d := sparse_at s idx).
  set (n := length (m_DenseToEntity s)).
  pose proof (sparse_at_elem s e Hinv Hin) as Hk. fold idx d in Hk.
  assert (Hnn : d ≠ k_NullIndex).
  { pose proof Hin as [i Hi]%list_elem_of_lookup. eapply dense_nonnull; eauto. }
  assert (Hkn : (N.to_nat d < n)%nat) by (eapply lookup_lt_Some, Hk).
  assert (Hlen : length (m_DenseData s) = n) by apply Hinv.
  assert (Hbound : N.of_nat n <= 2 ^ 32) by apply Hinv.
  assert (Hpage : ∃ page, m_SparsePages s !! pageId idx = Some (Some page))
    by (apply read_nonnull_page; exact Hnn).
  destruct (lookup_lt_is_Some_2 (m_DenseToEntity s) (n - 1)) as [le Hle]; [fold n; lia|].
  destruct (lookup_lt_is_Some_2 (m_DenseData s) (n - 1)) as [ld Hld]; [lia|].
  unfold Remove. fold idx.
  destruct Hpage as [page Ep]. rewrite Ep.
  assert (Hg : slot_get (m_SparsePages s) idx = Some d).
  { apply slot_get_read_ok; [apply Hinv|eauto]. }
  unfold slot_get in Hg. rewrite Ep in Hg. rewrite Hg. obind.
  destruct (N.eqb_spec d k_NullIndex) as [Hd|_]; [exfalso; exact (Hnn Hd)|].
  rewrite Hk. obind. rewrite N.eqb_refl. cbn [negb].
  unfold Size. rewrite Hlen, size_pred_of_nat by (assumption || lia).
  destruct (N.eqb_spec d (N.of_nat (n - 1))) as [Hlast|Hnlast]; cbn [negb].
  - obind. rewrite !pop_back_Some by lia. obind.
    destruct (slot_set_ok (m_SparsePages s) idx k_NullIndex (inv_pages s Hinv) (ex_intro _ page Ep))
      as (pages2 & Hset & _).
    rewrite Hset. obind. exists pages2, (N.to_nat d), le, ld.
    split; [exact Hk|]. split; [exact Hle|]. split; [exact Hld|].
    fold n. rewrite Hlen. rewrite !take_insert_ge by lia. reflexivity.
  - rewrite Nat2N.id. rewrite Hle, Hld. obind.
    unfold vec_set at 1 2. rewrite Hlen. fold n.
    destruct (Nat.ltb_spec (N.to_nat d) n); [|lia]. obind.
    assert (Hlenn : sparse_at s (Internal.GetIndex le) ≠ k_NullIndex)
      by (eapply dense_nonnull; eauto).
    destruct (slot_set_ok (m_SparsePages s) (Internal.GetIndex le) d (inv_pages s Hinv)
                (read_nonnull_page _ _ Hlenn))
      as (pages1 & Hset1 & Hok1 & _ & Hread1).
    rewrite Hset1. obind. cbn [m_DenseData m_DenseToEntity m_SparsePages].
    rewrite !pop_back_Some by (rewrite length_insert; lia). obind.
    rewrite !length_insert, Hlen. fold n.
    destruct (slot_set_ok pages1 idx k_NullIndex Hok1
                (slot_set_keeps _ _ _ _ idx Hset1 (ex_intro _ page Ep)))
      as (pages2 & Hset2 & _).
    rewrite Hset2. obind. exists pages2, (N.to_nat d), le, ld. auto.
Qed.

(** [Insert(e, v)] leaves the datum of every identifier of another index. *)
Lemma Insert_others s e v s' x :
  sset_inv s → Insert s e v = Some s' →
  Internal.GetIndex x ≠ Internal.GetIndex e → Get s' x = Get s x.
Proof.
  intros Hinv Hins Hx.
  destruct (Insert_spec s e v Hinv) as (s1 & Hins1 & Hinv' & _).
  rewrite Hins in Hins1. inversion Hins1; subst s1.
  apply Get_ext; [assumption..|]. intros d.
  destruct (Insert_form s e v Hinv) as [(pages' & Hfree & Hf)|(pages' & k & e0 & Hk & He0 & Hf)];
    rewrite Hf in Hins; inversion Hins; subst s'; simpl.
  - split.
    + intros (i & Hi & Hd). exists i.
      apply lookup_app_Some in Hi as [Hi|[_ Hi]].
      * split; [exact Hi|]. pose proof (lookup_lt_Some _ _ _ Hi) as Hlt.
        rewrite lookup_app_l in Hd by (rewrite (inv_len s Hinv); exact Hlt). exact Hd.
      * apply list_lookup_singleton_Some in Hi as [_ ->]. contradiction.
    + intros (i & Hi & Hd). exists i. split; apply lookup_app_l_Some; assumption.
  - split.
    + intros (i & Hi & Hd). exists i. destruct (decide (i = k)) as [->|Hne].
      * rewrite list_lookup_insert_eq in Hi by (eapply lookup_lt_Some, Hk).
        inversion Hi; subst x. contradiction.
      * rewrite list_lookup_insert_ne in Hi by congruence.
        rewrite list_lookup_insert_ne in Hd by congruence. auto.
    + intros (i & Hi & Hd). exists i.
      assert (i ≠ k) by (intros ->; rewrite Hk in Hi; inversion Hi; subst; congruence).
      rewrite !list_lookup_insert_ne by congruence. auto.
Qed.

(** [Remove(e)] leaves the datum of every other identifier. *)
Lemma Remove_others s e s' x :
  sset_inv s → Remove s e = Some s' → x ≠ e → Get s' x = Get s x.
Proof.
  intros Hinv Hrem Hx.
  destruct (Remove_spec s e Hinv) as (s1 & Hrem1 & Hinv' & _ & Hsame).
  rewrite Hrem in Hrem1. inversion Hrem1; subst s1.
  destruct (decide (e ∈ m_DenseToEntity s)) as [Hin|Hnin]; [|rewrite (Hsame Hnin); reflexivity].
  destruct (Remove_form s e Hinv Hin) as (pages' & k & le & ld & Hk & Hle & Hld & Hf).
  set (n := length (m_DenseToEntity s)) in *.
  assert (Hkn : (k < n)%nat) by (eapply lookup_lt_Some, Hk).
  assert (Hlen : length (m_DenseData s) = n) by apply Hinv.
  apply Get_ext; [assumption..|]. intros d.
  rewrite Hf in Hrem. inversion Hrem; subst s'; simpl. split.
  - intros (i & Hi & Hd).
    apply lookup_take_Some in Hi as [Hi Hlt]. apply lookup_take_Some in Hd as [Hd _].
    destruct (decide (i = k)) as [->|Hne].
    + rewrite list_lookup_insert_eq in Hi by assumption.
      rewrite list_lookup_insert_eq in Hd by lia.
      exists (n - 1)%nat. split; congruence.
    + rewrite list_lookup_insert_ne in Hi by congruence.
      rewrite list_lookup_insert_ne in Hd by congruence. eauto.
  - intros (i & Hi & Hd).
    assert (Hik : i ≠ k) by (intros ->; rewrite Hk in Hi; congruence).
    pose proof (lookup_lt_Some _ _ _ Hi) as Hlt. fold n in Hlt.
    destruct (decide (i = (n - 1)%nat)) as [->|Hni].
    + exists k. rewrite !lookup_take_Some.
      rewrite list_lookup_insert_eq by assumption.
      rewrite list_lookup_insert_eq by lia.
      repeat split; try lia; congruence.
    + exists i. rewrite !lookup_take_Some.
      rewrite !list_lookup_insert_ne by congruence.
      repeat split; try lia; assumption.
Qed.

(** A write through the reference [Get(e)] leaves every other datum. *)
Lemma Assign_others s e v s' x :
  sset_inv s → Assign s e v = Some s' → x ≠ e → Get s' x = Get s x.
Proof.
  intros Hinv Has Hx.
  assert (Hin : e ∈ m_DenseToEntity s).
  { unfold Assign in Has. rewrite (Contains_spec s e Hinv) in Has. obind in Has.
    destruct (bool_decide_reflect (e ∈ m_DenseToEntity s)); [assumption|discriminate]. }
  destruct (Assign_spec s e v Hinv Hin) as (s1 & Has1 & Hinv' & Hents & _).
  rewrite Has in Has1. inversion Has1; subst s1.
  apply Get_ext; [assumption..|]. intros d. rewrite Hents.
  unfold Assign in Has. rewrite (Contains_spec s e Hinv) in Has. obind in Has.
  rewrite bool_decide_eq_true_2 in Has by assumption.
  destruct (slot_get (m_SparsePages s) (Internal.GetIndex e)) as [k|] eqn:Hk; [|discriminate].
  obind in Has. unfold vec_set in Has.
  destruct (_ <? _)%nat; [|discriminate]. obind in Has. inversion Has; subst s'. simpl.
  assert (Hke : m_DenseToEntity s !! N.to_nat k = Some e).
  { pose proof (sparse_at_elem s e Hinv Hin) as H. unfold sparse_at, read in H.
    rewrite Hk in H. exact H. }
  split; intros (i & Hi & Hd); exists i; (split; [exact Hi|]);
    assert (i ≠ N.to_nat k) by (intros ->; rewrite Hke in Hi; congruence).
  - rewrite list_lookup_insert_ne in Hd by congruence. exact Hd.
  - rewrite list_lookup_insert_ne by congruence. exact Hd.
Qed.

Lemma Contains_mem s s' x :
  sset_inv s → sset_inv s' →
  (x ∈ m_DenseToEntity s' ↔ x ∈ m_DenseToEntity s) →
  Contains s' x = Contains s x.
Proof.
  intros Hinv Hinv' H. rewrite (Contains_spec s x Hinv), (Contains_spec s' x Hinv').
  f_equal. apply bool_decide_ext, H.
Qed.

(** X6.  [Insert(e, v)] into a set built by any sequence of [Insert] and
    [Remove]: the call has a result in which [Get(e)] is [v]; every
    identifier of another index keeps its datum and its membership; an
    identifier of the same index other than [e] is not contained any more;
    the size grows by one when the index was free and stays when it was
    taken. *)
Theorem X6_Insert_round_trip (ops : list (@SetOp Component)) e v :
  ∃ s s',
    run_ops empty ops = Some s ∧ Insert s e v = Some s'
    ∧ Get s' e = Some v
    ∧ Contains s' e = Some true
    ∧ (∀ x, Internal.GetIndex x ≠ Internal.GetIndex e →
            Get s' x = Get s x ∧ Contains s' x = Contains s x)
    ∧ (∀ x, Internal.GetIndex x = Internal.GetIndex e → x ≠ e → Contains s' x = Some false)
    ∧ ((∀ x, x ∈ GetEntities s → Internal.GetIndex x ≠ Internal.GetIndex e) →
       Size s' = Size s + 1)
    ∧ ((∃ x, x ∈ GetEntities s ∧ Internal.GetIndex x = Internal.GetIndex e) →
       Size s' = Size s).
Proof.
  destruct (run_ops_inv ops empty [] sset_inv_empty) as (s & Hs & Hinv & _).
  { intros x Hx. apply elem_of_nil in Hx. contradiction. }
  destruct (Insert_spec s e v Hinv) as (s' & Hins & Hinv' & Hmem & Hget).
  exists s, s'. split; [exact Hs|]. split; [exact Hins|]. split; [exact Hget|].
  split.
  { rewrite (Contains_spec s' e Hinv'). f_equal. apply bool_decide_eq_true_2, Hmem. auto. }
  split.
  { intros x Hx. split.
    - exact (Insert_others s e v s' x Hinv Hins Hx).
    - apply (Contains_mem s s'); [assumption..|]. rewrite Hmem. split.
      + intros [->|[H _]]; [contradiction | exact H].
      + intros H. right. auto. }
  split.
  { intros x Hx Hne. rewrite (Contains_spec s' x Hinv'). f_equal.
    apply bool_decide_eq_false_2. rewrite Hmem. intros [->|[_ H]]; congruence. }
  unfold Size, GetEntities.
  destruct (Insert_form s e v Hinv) as [(pages' & Hfree & Hf)|(pages' & k & e0 & Hk & He0 & Hf)];
    rewrite Hf in Hins; inversion Hins; subst s'; simpl.
  - split.
    + intros _. rewrite length_app. simpl. lia.
    + intros (x & Hx & Hidx). exfalso. exact (Hfree x Hx Hidx).
  - split.
    + intros Hfree. exfalso. apply (Hfree e0); [eapply list_elem_of_lookup_2, Hk | exact He0].
    + intros _. rewrite length_insert. reflexivity.
Qed.

(** X7.  [Remove(e)] from a set built by any sequence of [Insert] and
    [Remove]: the call has a result that does not contain [e]; every other
    identifier keeps its datum and its membership (the row moved into the
    gap is found again); the size drops by one when [e] was contained, and
    the set is unchanged when it was not. *)
Theorem X7_Remove_keeps_others (ops : list (@SetOp Component)) e :
  ∃ s s',
    run_ops empty ops = Some s ∧ Remove s e = Some s'
    ∧ Contains s' e = Some false
    ∧ (∀ x, x ≠ e → Get s' x = Get s x ∧ Contains s' x = Contains s x)
    ∧ (Contains s e = Some true → Size s' + 1 = Size s)
    ∧ (Contains s e = Some false → s' = s).
Proof.
  destruct (run_ops_inv ops empty [] sset_inv_empty) as (s & Hs & Hinv & _).
  { intros x Hx. apply elem_of_nil in Hx. contradiction. }
  destruct (Remove_spec s e Hinv) as (s' & Hrem & Hinv' & Hmem & Hsame).
  exists s, s'. split; [exact Hs|]. split; [exact Hrem|].
  split.
  { rewrite (Contains_spec s' e Hinv'). f_equal. apply bool_decide_eq_false_2.
    rewrite Hmem. intros [_ H]. congruence. }
  rewrite (Contains_spec s e Hinv).
  destruct (decide (e ∈ m_DenseToEntity s)) as [Hin|Hnin].
  2:{ rewrite (Hsame Hnin). split; [auto|]. split; [|reflexivity].
      rewrite bool_decide_eq_false_2 by assumption. discriminate. }
  destruct (Remove_form s e Hinv Hin) as (pages' & k & le & ld & Hk & Hle & Hld & Hf).
  set (n := length (m_DenseToEntity s)) in *.
  assert (Hkn : (k < n)%nat) by (eapply lookup_lt_Some, Hk).
  assert (Hlen : length (m_DenseData s) = n) by apply Hinv.
  split.
  { intros x Hx. split.
    - exact (Remove_others s e s' x Hinv Hrem Hx).
    - apply (Contains_mem s s'); [assumption..|]. rewrite Hmem. tauto. }
  split; [|rewrite bool_decide_eq_true_2 by assumption; discriminate].
  intros _. rewrite Hf in Hrem. inversion Hrem; subst s'. unfold Size. simpl.
  rewrite length_take, length_insert, Hlen. lia.
Qed.

(** X8.  In a set built by any sequence of [Insert] and [Remove], no two
    stored identifiers have one index, [Contains] answers membership in the
    entity sequence, and [Size()] is the length of the entity sequence, at
    most [2^32]. *)
Theorem X8_one_entry_per_index (ops : list (@SetOp Component)) :
  ∃ s, run_ops empty ops = Some s
       ∧ NoDup (Internal.GetIndex <$> GetEntities s)
       ∧ (∀ e, Contains s e = Some (bool_decide (e ∈ GetEntities s)))
       ∧ (∀ e, is_Some (Get s e) ↔ e ∈ GetEntities s)
       ∧ Size s = N.of_nat (length (GetEntities s))
       ∧ Size s <= 2 ^ 32.
Proof.
  destruct (run_ops_inv ops empty [] sset_inv_empty) as (s & Hs & Hinv & _).
  { intros x Hx. apply elem_of_nil in Hx. contradiction. }
  exists s. split; [exact Hs|]. split; [apply ents_index_NoDup, Hinv|].
  split; [intros e; apply Contains_spec, Hinv|]. unfold GetEntities, Size. split.
  - intros e. split.
    + intros [d Hd]. apply (Get_row s e d Hinv) in Hd as (i & Hi & _).
      eapply list_elem_of_lookup_2, Hi.
    + intros Hin. apply (Get_spec s e Hinv Hin).
  - rewrite (inv_len s Hinv). split; [reflexivity | apply Hinv].
Qed.

End SparseRows.

(** X9.  The set of an empty component type follows the primary template:
    after any sequence of [Insert] and [Remove] both have the same entity
    sequence, the same sparse pages, the same size and the same answers
    of [Contains]. *)
Theorem X9_Tag_follows_primary (ops : list (@SetOp unit)) :
  ∃ ts s,
    tag_run_ops SparseSet.Tag.empty ops = Some ts
    ∧ run_ops SparseSet.empty ops = Some s
    ∧ SparseSet.Tag.GetEntities ts = SparseSet.GetEntities s
    ∧ SparseSet.Tag.m_SparsePages ts = SparseSet.m_SparsePages s
    ∧ SparseSet.Tag.Size ts = SparseSet.Size s
    ∧ ∀ e, SparseSet.Tag.Contains ts e = SparseSet.Contains s e.
Proof.
  destruct (run_ops_inv ops (with_data SparseSet.Tag.empty) [] sset_inv_empty) as (s & Hs & _).
  { intros x Hx. apply elem_of_nil in Hx. contradiction. }
  pose proof Hs as Hs'. rewrite tag_run_ops_with_data in Hs'.
  destruct (tag_run_ops SparseSet.Tag.empty ops) as [ts|]; [|discriminate].
  simpl in Hs'. inversion Hs'; subst s. exists ts, (with_data ts).
  split; [reflexivity|]. split; [exact Hs|]. split; [reflexivity|]. split; [reflexivity|].
  split; [|intros e; reflexivity].
  unfold SparseSet.Tag.Size, SparseSet.Size, with_data. simpl.
  rewrite length_replicate. reflexivity.
Qed.

(** ** More of World.hpp and World.cpp *)

Section WorldMore.
Import World.

Context {Component : Type}.

Implicit Types (w : World.t Component) (e id : EntityID) (c : N).

Lemma IsAlive_false w e :
  world_inv w →
  IsAlive w e = Some false ↔
  ¬ ((N.to_nat (Internal.GetIndex e) < length (m_EntitySignatures w))%nat ∧
     m_EntityGenerations w !! N.to_nat (Internal.GetIndex e) = Some (Internal.GetGeneration e)).
Proof.
  intros Hinv. unfold IsAlive.
  destruct (Nat.ltb_spec (N.to_nat (Internal.GetIndex e)) (length (m_EntitySignatures w))) as [Hlt|Hge].
  - destruct (lookup_lt_is_Some_2 (m_EntityGenerations w) (N.to_nat (Internal.GetIndex e)))
      as [g Hg]; [rewrite (wi_len w Hinv); exact Hlt|].
    rewrite Hg. simpl. destruct (N.eqb_spec g (Internal.GetGeneration e)) as [->|Hne].
    + split; [discriminate|]. intros H. exfalso. apply H. auto.
    + split; [|reflexivity]. intros _ [_ H]. congruence.
  - split; [|reflexivity]. intros _ [H _]. lia.
Qed.

Lemma IsAlive_total w e : world_inv w → ∃ b, IsAlive w e = Some b.
Proof.
  intros Hinv. unfold IsAlive. destruct (Nat.ltb_spec (N.to_nat (Internal.GetIndex e))
    (length (m_EntitySignatures w))) as [Hlt|Hge]; [|eauto].
  destruct (lookup_lt_is_Some_2 (m_EntityGenerations w) (N.to_nat (Internal.GetIndex e)))
    as [g Hg]; [rewrite (wi_len w Hinv); exact Hlt|].
  rewrite Hg. simpl. eauto.
Qed.

(** An event leaves the component of every other entity. *)
Lemma TriggerEvent_others w c id event w' calls x :
  sset_inv (store_of w c) → id ∈ SparseSet.m_DenseToEntity (store_of w c) →
  TriggerEvent w c id event = Some (w', calls) → x ≠ id →
  SparseSet.Get (store_of w' c) x = SparseSet.Get (store_of w c) x.
Proof.
  intros Hinv Hin Ht Hx. unfold TriggerEvent in Ht.
  destruct (m_ComponentSignals w !! c) as [signals|]; [|inversion Ht; subst; reflexivity].
  destruct (GetStore_spec w c) as (w1 & E & _). rewrite E in Ht.
  destruct (SparseSet.Get (store_of w c) id) as [component|]; [|discriminate]. obind in Ht.
  destruct (run_callbacks _ _ _ _ _) as [final cs].
  destruct (SparseSet.Assign (store_of w c) id final) as [s'|] eqn:Has; [|discriminate].
  obind in Ht. inversion Ht; subst w' calls.
  rewrite store_of_put, decide_True by reflexivity.
  exact (Assign_others _ _ _ _ x Hinv Has Hx).
Qed.

Lemma AddComponent_others w c id (v : Component) w' calls x :
  sset_inv (store_of w c) →
  (N.to_nat (Internal.GetIndex id) < length (m_EntitySignatures w))%nat →
  AddComponent w c id v = Some (w', calls) →
  Internal.GetIndex x ≠ Internal.GetIndex id →
  SparseSet.Get (store_of w' c) x = SparseSet.Get (store_of w c) x.
Proof.
  intros Hinv Hlt Hadd Hx.
  destruct (lookup_lt_is_Some_2 _ _ Hlt) as [sig Hsig].
  unfold AddComponent in Hadd. rewrite grow_to_index_lt in Hadd by assumption.
  rewrite with_sigs_same in Hadd.
  destruct (GetStore_spec w c) as (w1 & E & G1 & G2 & G3 & G4 & G5 & G6 & G7 & G8 & G9).
  rewrite E in Hadd.
  destruct (Insert_spec (store_of w c) id v Hinv) as (s' & Hins & Hinv' & Hmem & Hget).
  rewrite Hins in Hadd. obind in Hadd. wsimpl in Hadd. rewrite G7, Hsig in Hadd.
  obind in Hadd. wsimpl in Hadd.
  pose proof (grow_to_id_length (m_StoresByID w1) c None) as Hbylen.
  unfold vec_set in Hadd.
  destruct (Nat.ltb_spec (N.to_nat c) (length (grow_to_id (m_StoresByID w1) c None))); [|lia].
  obind in Hadd.
  match type of Hadd with TriggerEvent (EnsureSignalStorage ?w5 _) _ _ _ = _ =>
    set (w6 := EnsureSignalStorage w5 c) in *;
    destruct (EnsureSignalStorage_spec w5 c) as (F1 & F2 & F3 & F4 & F5 & F6 & F7 & F8);
    fold w6 in F1, F2, F3, F4, F5, F6, F7, F8;
    assert (Hs6c : store_of w6 c = s')
      by (unfold store_of; rewrite F2; wsimpl; rewrite lookup_insert_eq; reflexivity)
  end.
  assert (Hne : x ≠ id) by (intros ->; apply Hx; reflexivity).
  rewrite (TriggerEvent_others w6 c id Added w' calls x); try assumption.
  - rewrite Hs6c. exact (Insert_others _ _ _ _ x Hinv Hins Hx).
  - rewrite Hs6c. exact Hinv'.
  - rewrite Hs6c. apply Hmem. left. reflexivity.
Qed.


(** What [CreateEntity()] does to a reachable world. *)
Lemma CreateEntity_full w :
  reachable w → GetEntityCount w < 2 ^ 32 →
  ∃ id w',
    CreateEntity w = Some (id, w')
    ∧ is_u64 id
    ∧ IsAlive w' id = Some true
    ∧ m_ComponentStores w' = m_ComponentStores w
    ∧ (∀ e, IsAlive w e = Some true →
            IsAlive w' e = Some true ∧ ∀ c, HasComponent w' c e = HasComponent w c e)
    ∧ (m_FreeEntities w = [] →
       id = GetEntityCount w ∧ GetEntityCount w' = GetEntityCount w + 1
       ∧ IsAlive w id = Some false ∧ ∀ c, HasComponent w' c id = false)
    ∧ (∀ free last, m_FreeEntities w = free ++ [last] →
       ∃ generation,
         m_EntityGenerations w !! N.to_nat (Internal.GetIndex last) = Some generation
         ∧ id = MakeEntityID generation (Internal.GetIndex last)
         ∧ m_FreeEntities w' = free
         ∧ m_EntitySignatures w' = m_EntitySignatures w
         ∧ m_EntityGenerations w' = m_EntityGenerations w).
Proof.
  intros Hr Hcount. pose proof (reachable_inv w Hr) as Hinv.
  unfold GetEntityCount in *. unfold CreateEntity.
  destruct (m_FreeEntities w) as [|f0 fs] eqn:Hfree using rev_ind.
  - (* a new slot *)
    simpl. set (n := length (m_EntitySignatures w)) in *.
    assert (Hu : u32 (N.of_nat n) = N.of_nat n) by (unfold u32; apply N.mod_small; exact Hcount).
    rewrite Hu. eexists _, _. split; [reflexivity|]. wsimpl.
    assert (Hidx : Internal.GetIndex (N.of_nat n) = N.of_nat n)
      by (rewrite GetIndex_mod; apply N.mod_small; exact Hcount).
    assert (Hgen : Internal.GetGeneration (N.of_nat n) = 0)
      by (rewrite GetGeneration_div by (unfold is_u64; lia); apply N.div_small; exact Hcount).
    split; [unfold is_u64; lia|]. split.
    { apply IsAlive_true. wsimpl. rewrite Hidx, Hgen, Nat2N.id, length_app. simpl.
      split; [fold n; lia|]. rewrite lookup_app_r by (rewrite (wi_len w Hinv); fold n; lia).
      rewrite (wi_len w Hinv). fold n. rewrite Nat.sub_diag. reflexivity. }
    split; [reflexivity|]. split.
    { intros e [Hlt Hg]%IsAlive_true. split.
      - apply IsAlive_true. wsimpl. rewrite length_app. split; [lia|].
        apply lookup_app_l_Some, Hg.
      - intros c. unfold HasComponent. wsimpl. rewrite lookup_app_l by exact Hlt. reflexivity. }
    split.
    { intros _. split; [reflexivity|]. split; [rewrite length_app; simpl; lia|]. split.
      - apply (IsAlive_false w _ Hinv). rewrite Hidx, Nat2N.id. fold n. lia.
      - intros c. unfold HasComponent. wsimpl. rewrite Hidx, Nat2N.id.
        rewrite lookup_app_r by (fold n; lia). fold n. rewrite Nat.sub_diag. simpl.
        apply Test_Make0. }
    intros free last H. destruct free; discriminate.
  - (* the last entry of the free list *)
    clear IHfs. rewrite last_snoc.
    rewrite pop_back_Some by (rewrite length_app; simpl; lia).
    rewrite length_app. cbn [length]. rewrite Nat.add_sub, take_app_length. obind.
    assert (Hf0 : (N.to_nat (Internal.GetIndex f0) < length (m_EntitySignatures w))%nat).
    { apply (wi_free w Hinv). rewrite Hfree. apply elem_of_app. right. left. }
    destruct (lookup_lt_is_Some_2 (m_EntityGenerations w) (N.to_nat (Internal.GetIndex f0)))
      as [g Hg]; [rewrite (wi_len w Hinv); exact Hf0|].
    rewrite Hg. obind. eexists _, _. split; [reflexivity|]. wsimpl.
    pose proof (wi_gens w Hinv _ _ Hg) as Hg32.
    pose proof (GetIndex_lt f0) as Hi32.
    split; [apply Make_is_u64; assumption|]. split.
    { apply IsAlive_true. wsimpl. rewrite GetIndex_Make, GetGeneration_Make by assumption. auto. }
    split; [reflexivity|]. split.
    { intros e He. split; [|intros c; reflexivity].
      rewrite <- He. apply IsAlive_ext; reflexivity. }
    split; [intros H; destruct fs; discriminate|].
    intros free last H. apply app_inj_tail in H as [<- <-]. exists g. auto.
Qed.

(** X10.  [CreateEntity()] in a reachable world (reached from the empty
    world by calls that satisfy [disciplined]) with fewer than [2^32]
    slots returns an identifier that is alive afterwards; the entities that
    were alive stay alive with their components, and no store changes.  With
    an empty free list the identifier is the number of slots (generation 0),
    it was not alive before, it has no component and the number of slots
    grows by one; otherwise the last entry of the free list is taken off,
    the identifier has its index and the current generation of that slot,
    and the number of slots stays. *)
Theorem X10_CreateEntity w :
  reachable w → GetEntityCount w < 2 ^ 32 →
  ∃ id w',
    CreateEntity w = Some (id, w')
    ∧ is_u64 id
    ∧ IsAlive w' id = Some true
    ∧ m_ComponentStores w' = m_ComponentStores w
    ∧ (∀ e, IsAlive w e = Some true →
            IsAlive w' e = Some true ∧ ∀ c, HasComponent w' c e = HasComponent w c e)
    ∧ (m_FreeEntities w = [] →
       id = GetEntityCount w ∧ GetEntityCount w' = GetEntityCount w + 1
       ∧ IsAlive w id = Some false ∧ ∀ c, HasComponent w' c id = false)
    ∧ (∀ free last, m_FreeEntities w = free ++ [last] →
       ∃ generation,
         m_EntityGenerations w !! N.to_nat (Internal.GetIndex last) = Some generation
         ∧ id = MakeEntityID generation (Internal.GetIndex last)
         ∧ m_FreeEntities w' = free
         ∧ m_EntitySignatures w' = m_EntitySignatures w
         ∧ m_EntityGenerations w' = m_EntityGenerations w).
Proof. exact (CreateEntity_full w). Qed.


(** The identifier [GetEntityAt] gives for a slot of a reachable world. *)
Lemma GetEntityAt_full w (index : N) :
  reachable w → index < GetEntityCount w → index < 2 ^ 32 →
  ∃ id mask,
    GetEntityAt w index = Some id
    ∧ Internal.GetIndex id = index
    ∧ is_u64 id
    ∧ IsAlive w id = Some true
    ∧ (∀ e, is_u64 e → Internal.GetIndex e = index → IsAlive w e = Some true → e = id)
    ∧ GetEntityMask w id = Some mask
    ∧ ∀ c, HasComponent w c id = ComponentMask.Test mask c.
Proof.
  intros Hr Hidx H32. pose proof (reachable_inv w Hr) as Hinv.
  unfold GetEntityCount in Hidx.
  assert (Hlt : (N.to_nat index < length (m_EntitySignatures w))%nat) by lia.
  destruct (lookup_lt_is_Some_2 (m_EntityGenerations w) (N.to_nat index))
    as [g Hg]; [rewrite (wi_len w Hinv); exact Hlt|].
  destruct (lookup_lt_is_Some_2 (m_EntitySignatures w) (N.to_nat index) Hlt) as [mask Hm].
  pose proof (wi_gens w Hinv _ _ Hg) as Hg32.
  exists (MakeEntityID g index), mask.
  assert (Halive : IsAlive w (MakeEntityID g index) = Some true).
  { apply IsAlive_true. rewrite GetIndex_Make, GetGeneration_Make by assumption. auto. }
  assert (Hu : is_u64 (MakeEntityID g index)) by (apply Make_is_u64; assumption).
  split; [unfold GetEntityAt; rewrite Hg; reflexivity|].
  split; [apply GetIndex_Make, H32|]. split; [exact Hu|]. split; [exact Halive|].
  split.
  { intros e He Hei Hea. apply (alive_same_index w e _ He Hu Hea Halive).
    rewrite GetIndex_Make by assumption. exact Hei. }
  assert (Hcast : u32 (MakeEntityID g index) = index).
  { rewrite <- (GetIndex_Make g index H32) at 2. rewrite GetIndex_mod. reflexivity. }
  split; [unfold GetEntityMask; rewrite Hcast; exact Hm|].
  intros c. unfold HasComponent. rewrite GetIndex_Make by assumption. rewrite Hm. reflexivity.
Qed.

(** X12.  [GetEntityAt(index)], for an index below the number of slots of a
    reachable world, is the one identifier of that index that is alive:
    every slot has one, also a slot whose entity was destroyed and not
    created again.  [GetEntityMask] of the identifier is the signature that
    [HasComponent] tests. *)
Theorem X12_GetEntityAt_is_alive w (index : N) :
  reachable w → index < GetEntityCount w → index < 2 ^ 32 →
  ∃ id mask,
    GetEntityAt w index = Some id
    ∧ Internal.GetIndex id = index
    ∧ is_u64 id
    ∧ IsAlive w id = Some true
    ∧ (∀ e, is_u64 e → Internal.GetIndex e = index → IsAlive w e = Some true → e = id)
    ∧ GetEntityMask w id = Some mask
    ∧ ∀ c, HasComponent w c id = ComponentMask.Test mask c.
Proof. exact (GetEntityAt_full w index). Qed.

Lemma HasComponent_insert w w' (i : nat) (sig sig' : ComponentMask.t) c x :
  m_EntitySignatures w !! i = Some sig →
  m_EntitySignatures w' = <[i := sig']> (m_EntitySignatures w) →
  HasComponent w' c x
  = if decide (N.to_nat (Internal.GetIndex x) = i) then ComponentMask.Test sig' c
    else HasComponent w c x.
Proof.
  intros Hsig Hs. unfold HasComponent. rewrite Hs.
  destruct (decide (N.to_nat (Internal.GetIndex x) = i)) as [->|Hne].
  - rewrite list_lookup_insert_eq by (eapply lookup_lt_Some, Hsig). reflexivity.
  - rewrite list_lookup_insert_ne by congruence. reflexivity.
Qed.





(** X16.  [OnEvent<T>(event, callback)] appends the callback to the
    observers of that event of [T] and to no other list; entities,
    generations, free list and stores are untouched. *)
Theorem X16_OnEvent_appends w c event (cb : Callback Component) :
  observers (OnEvent w c event cb) c event = observers w c event ++ [cb]
  ∧ (∀ c' event', (c', event') ≠ (c, event) →
       observers (OnEvent w c event cb) c' event' = observers w c' event')
  ∧ m_EntitySignatures (OnEvent w c event cb) = m_EntitySignatures w
  ∧ m_EntityGenerations (OnEvent w c event cb) = m_EntityGenerations w
  ∧ m_FreeEntities (OnEvent w c event cb) = m_FreeEntities w
  ∧ m_ComponentStores (OnEvent w c event cb) = m_ComponentStores w.
Proof.
  destruct (EnsureSignalStorage_spec w c) as (F1 & F2 & F3 & F4 & F5 & F6 & _).
  unfold OnEvent, GetSignals, observers.
  set (w1 := EnsureSignalStorage w c) in *. rewrite F3.
  destruct (m_ComponentSignals w !! c) as [signals|] eqn:Es; wsimpl; rewrite ?F3.
  - split.
    { rewrite lookup_insert_eq. destruct event; reflexivity. }
    split.
    { intros c' event' Hne. destruct (decide (c' = c)) as [->|Hc].
      - rewrite lookup_insert_eq, Es.
        destruct event, event'; try reflexivity; exfalso; apply Hne; reflexivity.
      - rewrite lookup_insert_ne by congruence. reflexivity. }
    auto.
  - split.
    { rewrite lookup_insert_eq. destruct event; reflexivity. }
    split.
    { intros c' event' Hne. destruct (decide (c' = c)) as [->|Hc].
      - rewrite lookup_insert_eq, Es.
        destruct event, event'; try reflexivity; exfalso; apply Hne; reflexivity.
      - rewrite !lookup_insert_ne by congruence. reflexivity. }
    auto.
Qed.

(** X17.  [CreateEntity(id)] for an index below the number of slots of a
    reachable world (reached from the empty world by calls that satisfy
    [disciplined]) returns [id]: when [id] is alive the world is unchanged;
    otherwise the slot takes the generation of [id], its signature is
    cleared and the free list loses the entries of that index, so that [id]
    is alive without component and every other identifier of the index is
    not alive.  The other slots are as before, and the stores are not
    touched in either case. *)
Theorem X17_CreateEntity_id_in_range w id :
  reachable w → is_u64 id → Internal.GetIndex id < GetEntityCount w →
  ∃ w',
    CreateEntity_id w id = Some (id, w')
    ∧ IsAlive w' id = Some true
    ∧ m_ComponentStores w' = m_ComponentStores w
    ∧ GetEntityCount w' = GetEntityCount w
    ∧ (IsAlive w id = Some true → w' = w)
    ∧ (IsAlive w id = Some false →
       (∀ c, HasComponent w' c id = false)
       ∧ m_FreeEntities w'
         = List.filter (λ eid, negb (Internal.GetIndex eid =? Internal.GetIndex id))
                       (m_FreeEntities w))
    ∧ (∀ x, is_u64 x → Internal.GetIndex x = Internal.GetIndex id → x ≠ id →
            IsAlive w' x = Some false)
    ∧ (∀ x, Internal.GetIndex x ≠ Internal.GetIndex id →
            IsAlive w' x = IsAlive w x ∧ ∀ c, HasComponent w' c x = HasComponent w c x).
Proof.
  intros Hr Hid Hidx. pose proof (reachable_inv w Hr) as Hinv.
  unfold GetEntityCount in *.
  set (idx := Internal.GetIndex id) in *. set (gen := Internal.GetGeneration id).
  assert (Hlt : (N.to_nat idx < length (m_EntitySignatures w))%nat) by lia.
  assert (Hother : ∀ w', IsAlive w' id = Some true → ∀ x,
            is_u64 x → Internal.GetIndex x = idx → x ≠ id → IsAlive w' x = Some false).
  { intros w' Ha x Hx Hxi Hne.
    apply IsAlive_true in Ha as [Ha1 Ha2]. fold idx in Ha1, Ha2.
    unfold IsAlive. rewrite Hxi.
    destruct (Nat.ltb_spec (N.to_nat idx) (length (m_EntitySignatures w'))); [|lia].
    rewrite Ha2. obind. f_equal. apply N.eqb_neq. intros Hg. apply Hne.
    apply entity_eq_halves; try assumption. symmetry. exact Hg. }
  unfold CreateEntity_id. fold idx gen.
  destruct (Nat.leb_spec (length (m_EntitySignatures w)) (N.to_nat idx)); [lia|].
  destruct (IsAlive_total w id Hinv) as [[|] Halive]; rewrite Halive; obind.
  - exists w. split; [reflexivity|]. split; [exact Halive|].
    split; [reflexivity|]. split; [reflexivity|]. split; [reflexivity|].
    split; [discriminate|]. split; [apply Hother, Halive|]. auto.
  - wsimpl. unfold vec_set.
    destruct (Nat.ltb_spec (N.to_nat idx) (length (m_EntityGenerations w)));
      [|rewrite (wi_len w Hinv) in *; lia].
    obind. wsimpl.
    destruct (lookup_lt_is_Some_2 _ _ Hlt) as [sig Hsig]. rewrite Hsig. obind.
    eexists. split; [reflexivity|].
    assert (Ha' : IsAlive (with_EntitySignatures
                    (with_EntityGenerations
                       (with_FreeEntities w
                          (List.filter (λ eid, negb (Internal.GetIndex eid =? idx)) (m_FreeEntities w)))
                       (<[N.to_nat idx := gen]> (m_EntityGenerations w)))
                    (<[N.to_nat idx := ComponentMask.ResetAll sig]> (m_EntitySignatures w))) id
                  = Some true).
    { apply IsAlive_true. wsimpl. fold idx gen. rewrite length_insert.
      split; [exact Hlt|]. apply list_lookup_insert_eq. assumption. }
    split; [exact Ha'|]. wsimpl. split; [reflexivity|].
    split; [rewrite length_insert; reflexivity|]. split; [discriminate|].
    split.
    { intros _. split; [|reflexivity]. intros c. unfold HasComponent. wsimpl. fold idx.
      rewrite list_lookup_insert_eq by exact Hlt. apply Test_ResetAll. }
    split; [apply Hother, Ha'|].
    intros x Hx. split.
    + unfold IsAlive. wsimpl. rewrite length_insert.
      rewrite list_lookup_insert_ne by lia. reflexivity.
    + intros c. unfold HasComponent. wsimpl.
      rewrite list_lookup_insert_ne by lia. reflexivity.
Qed.

End WorldMore.

Lemma X10_witness :
  ∃ id w', World.CreateEntity observed_world = Some (id, w') ∧ World.IsAlive w' id = Some true.
Proof.
  destruct (X10_CreateEntity observed_world observed_world_reachable)
    as (id & w' & H1 & _ & H2 & _).
  - vm_compute. reflexivity.
  - exists id, w'. split; assumption.
Defined.


Lemma X12_witness :
  ∃ id, World.GetEntityAt observed_world 0 = Some id ∧ World.IsAlive observed_world id = Some true.
Proof.
  destruct (X12_GetEntityAt_is_alive observed_world 0 observed_world_reachable)
    as (id & mask & H1 & _ & _ & H2 & _).
  - vm_compute. reflexivity.
  - vm_compute. reflexivity.
  - exists id. split; assumption.
Defined.




Lemma X17_witness :
  ∃ w', World.CreateEntity_id observed_world (MakeEntityID 2 1) = Some (MakeEntityID 2 1, w')
        ∧ World.IsAlive w' (MakeEntityID 2 1) = Some true
        ∧ World.IsAlive w' 1 = Some false.
Proof.
  destruct (X17_CreateEntity_id_in_range observed_world (MakeEntityID 2 1) observed_world_reachable)
    as (w' & H1 & H2 & _ & _ & _ & _ & H3 & _).
  - reflexivity.
  - vm_compute. reflexivity.
  - exists w'. split; [exact H1|]. split; [exact H2|].
    apply H3; [reflexivity | reflexivity | discriminate].
Defined.

Section WorldBulk.
Import World.

Context {Component : Type}.

Implicit Types (w : World.t Component) (e id : EntityID) (c : N).






End WorldBulk.


(** ** World.cpp: a slot destroyed twice *)

Section DestroyTwice.

Import World.

Context {Component : Type}.

Implicit Types (w : World.t Component) (e : EntityID).


End DestroyTwice.


(** ** World.hpp: the arguments of the calls of [View::Each], and what the
    calls write *)

Section ViewArguments.

Import World.

Context {Component : Type}.

Implicit Types (w : World.t Component) (e : EntityID).

(** A reference of the call reads the component of the entity: at the
    driving position the row that is read is the row of the entity. *)
Lemma read_arg_Get w (c : N) (driving : bool) (i : nat) e (v : Component) :
  sset_inv (store_of w c) →
  (driving = true → SparseSet.m_DenseToEntity (store_of w c) !! i = Some e) →
  read_arg w c driving i e = Some v →
  SparseSet.Get (store_of w c) e = Some v.
Proof.
  intros Hinv Hrow. unfold read_arg.
  destruct (m_ComponentStores w !! c) as [s|] eqn:Es; obind; [|discriminate].
  assert (Hst : store_of w c = s) by (unfold store_of; rewrite Es; reflexivity).
  rewrite Hst in *. destruct driving; [|auto].
  intros Hv. apply (Get_row s e v Hinv). exists i. split; [apply Hrow; reflexivity|exact Hv].
Qed.

(** A write through a reference of the call sets the component of the
    entity, in the store of that component, and nothing else. *)
Lemma write_arg_values w (c : N) (driving : bool) (i : nat) e (v : Component) w' :
  sset_inv (store_of w c) →
  (driving = true → SparseSet.m_DenseToEntity (store_of w c) !! i = Some e) →
  write_arg w c driving i e v = Some w' →
  SparseSet.Get (store_of w' c) e = Some v
  ∧ (∀ x, x ≠ e → SparseSet.Get (store_of w' c) x = SparseSet.Get (store_of w c) x)
  ∧ (∀ c', c' ≠ c → store_of w' c' = store_of w c').
Proof.
  intros Hinv Hrow (s' & -> & _ & Hcase & H1 & H2 & H3)%write_arg_fields.
  assert (Hs : store_of (put_store w c s') c = s') by (rewrite store_of_put, decide_True; reflexivity).
  assert (Hinv' : sset_inv s') by (apply (sset_inv_values (store_of w c)); assumption).
  rewrite Hs. split; [|split].
  - destruct driving.
    + specialize (Hrow eq_refl). unfold vec_set in Hcase.
      destruct (Nat.ltb_spec i (length (SparseSet.m_DenseData (store_of w c)))) as [Hlt|];
        [|discriminate].
      inversion Hcase as [Hd]. apply (Get_row s' e v Hinv'). exists i.
      rewrite H1, <- Hd. split; [exact Hrow|]. apply list_lookup_insert_eq. exact Hlt.
    + assert (Hin : e ∈ SparseSet.m_DenseToEntity (store_of w c)).
      { unfold SparseSet.Assign in Hcase. rewrite (Contains_spec _ e Hinv) in Hcase.
        obind in Hcase.
        destruct (bool_decide_reflect (e ∈ SparseSet.m_DenseToEntity (store_of w c)));
          [assumption|discriminate]. }
      destruct (Assign_spec _ e v Hinv Hin) as (s1 & Has & _ & _ & _ & _ & Hget).
      rewrite Hcase in Has. inversion Has; subst s1. exact Hget.
  - intros x Hx. destruct driving.
    + specialize (Hrow eq_refl). unfold vec_set in Hcase.
      destruct (Nat.ltb_spec i (length (SparseSet.m_DenseData (store_of w c)))) as [Hlt|];
        [|discriminate].
      inversion Hcase as [Hd]. apply Get_ext; [assumption..|]. intros d. rewrite H1, <- Hd.
      split; intros (j & Hj & Hdj); exists j; (split; [exact Hj|]);
        assert (i ≠ j) by (intros ->; rewrite Hrow in Hj; congruence).
      * rewrite list_lookup_insert_ne in Hdj by assumption. exact Hdj.
      * rewrite list_lookup_insert_ne by assumption. exact Hdj.
    + exact (Assign_others _ _ _ _ x Hinv Hcase Hx).
  - intros c' Hne. rewrite store_of_put, decide_False by exact Hne. reflexivity.
Qed.

Lemma call_args_values w (drivingIdx i : nat) e (cs : list N) : ∀ (pos : nat) args,
  (∀ c, sset_inv (store_of w c)) →
  (∀ k c, cs !! k = Some c → (pos + k)%nat = drivingIdx →
          SparseSet.m_DenseToEntity (store_of w c) !! i = Some e) →
  call_args w cs pos drivingIdx i e = Some args →
  Forall2 (λ c v, SparseSet.Get (store_of w c) e = Some v) cs args.
Proof.
  induction cs as [|c cs IH]; intros pos args Hinv Hrow; cbn [call_args].
  - intros [= <-]. constructor.
  - destruct (read_arg w c (pos =? drivingIdx)%nat i e) as [v|] eqn:Hv; obind; [|discriminate].
    destruct (call_args w cs (S pos) drivingIdx i e) as [rest|] eqn:Hrest; obind; [|discriminate].
    intros [= <-]. constructor.
    + apply (read_arg_Get w c (pos =? drivingIdx)%nat i e v (Hinv c)); [|exact Hv].
      intros Heq%Nat.eqb_eq. apply (Hrow 0%nat c eq_refl). lia.
    + apply (IH (S pos) rest Hinv); [|exact Hrest].
      intros k c' Hk Hpos. apply (Hrow (S k) c' Hk). lia.
Qed.

Lemma write_args_values (drivingIdx i : nat) e (cs : list N) :
  ∀ w (pos : nat) (results : list Component) w',
    (∀ c, sset_inv (store_of w c)) →
    (∀ k c, cs !! k = Some c → (pos + k)%nat = drivingIdx →
            SparseSet.m_DenseToEntity (store_of w c) !! i = Some e) →
    write_args w cs pos drivingIdx i e results = Some w' →
    (∀ c x, x ≠ e → SparseSet.Get (store_of w' c) x = SparseSet.Get (store_of w c) x)
    ∧ (∀ c, c ∉ cs → store_of w' c = store_of w c)
    ∧ (NoDup cs → length results = length cs →
       Forall2 (λ c v, SparseSet.Get (store_of w' c) e = Some v) cs results).
Proof.
  induction cs as [|c cs IH]; intros w pos results w' Hinv Hrow.
  { intros Hw. assert (w' = w) by (destruct results; inversion Hw; reflexivity). subst w'.
    split; [auto|]. split; [auto|]. intros _ Hlen. destruct results; [constructor|discriminate]. }
  destruct results as [|v results].
  { intros [= <-]. split; [auto|]. split; [auto|]. intros _ Hlen. discriminate. }
  cbn [write_args].
  destruct (write_arg w c (pos =? drivingIdx)%nat i e v) as [w1|] eqn:Hw1; obind; [|discriminate].
  intros Hrest.
  destruct (write_arg_values w c (pos =? drivingIdx)%nat i e v w1 (Hinv c)) as (V1 & V2 & V3);
    [|exact Hw1|].
  { intros Heq%Nat.eqb_eq. apply (Hrow 0%nat c eq_refl). lia. }
  pose proof (write_arg_shape _ _ _ _ _ _ _ Hw1) as Hsh.
  destruct (IH w1 (S pos) results w') as (R1 & R2 & R3); [| |exact Hrest|].
  { intros c'. apply (ss_inv _ _ Hsh), Hinv. }
  { intros k c' Hk Hpos. rewrite (ss_ents _ _ Hsh). apply (Hrow (S k) c' Hk). lia. }
  split; [|split].
  - intros c' x Hx. rewrite (R1 c' x Hx). destruct (decide (c' = c)) as [->|Hne].
    + apply V2, Hx.
    + rewrite (V3 c' Hne). reflexivity.
  - intros c' Hc'. rewrite R2 by (intros H; apply Hc'; right; exact H).
    apply V3. intros ->. apply Hc'. left.
  - intros [Hc Hnd]%NoDup_cons Hlen. cbn [length] in Hlen. constructor.
    + rewrite (R2 c Hc). exact V1.
    + apply R3; [exact Hnd|lia].
Qed.

(** The loop over the rows: each call reads the values of its entity as
    they were before the loop, and leaves what [func] wrote; the values of
    the entities [func] is not called for stay. *)
Lemma each_rows_values (mask : ComponentMask.t) (cs : list N) (drivingIdx : nat)
    (func : list Component → list Component) :
  ∀ (entities : list EntityID) w (i : nat) calls w',
    (∀ c, sset_inv (store_of w c)) →
    (∀ k x c, entities !! k = Some x → cs !! drivingIdx = Some c →
              SparseSet.m_DenseToEntity (store_of w c) !! (i + k)%nat = Some x) →
    NoDup entities →
    each_rows w mask cs drivingIdx i entities func = Some (calls, w') →
    (∀ c, c ∉ cs → store_of w' c = store_of w c)
    ∧ (∀ c x, x ∉ map fst calls →
              SparseSet.Get (store_of w' c) x = SparseSet.Get (store_of w c) x)
    ∧ (∀ x, x ∈ map fst calls → x ∈ entities)
    ∧ (∀ e args, (e, args) ∈ calls →
         Forall2 (λ c v, SparseSet.Get (store_of w c) e = Some v) cs args
         ∧ (NoDup cs → length (func args) = length cs →
            Forall2 (λ c v, SparseSet.Get (store_of w' c) e = Some v) cs (func args))).
Proof.
  induction entities as [|e0 entities IH]; intros w i calls w' Hinv Hrows Hnd; cbn [each_rows].
  { intros [= <- <-]. split; [auto|]. split; [auto|].
    split; [intros x H; inversion H|intros e args H; inversion H]. }
  apply NoDup_cons in Hnd as [He0 Hnd].
  destruct (m_EntitySignatures w !! _) as [sig|]; obind; [|discriminate].
  assert (Hrow0 : ∀ k c, cs !! k = Some c → (0 + k)%nat = drivingIdx →
            SparseSet.m_DenseToEntity (store_of w c) !! i = Some e0).
  { intros k c Hk Hpos. cbn [Nat.add] in Hpos. subst k.
    rewrite <- (Hrows 0%nat e0 c eq_refl Hk). f_equal. lia. }
  assert (Hrows1 : ∀ w1, same_shape w w1 →
            ∀ k x c, entities !! k = Some x → cs !! drivingIdx = Some c →
                     SparseSet.m_DenseToEntity (store_of w1 c) !! (S i + k)%nat = Some x).
  { intros w1 Hsh k x c Hk Hc. rewrite (ss_ents _ _ Hsh).
    rewrite <- (Hrows (S k) x c Hk Hc). f_equal. lia. }
  destruct (ComponentMask.Contains sig mask).
  - destruct (call_args w cs 0 drivingIdx i e0) as [args0|] eqn:Hargs; obind; [|discriminate].
    destruct (write_args w cs 0 drivingIdx i e0 (func args0)) as [w1|] eqn:Hw1; obind; [|discriminate].
    destruct (each_rows w1 mask cs drivingIdx (S i) entities func) as [[calls1 w2]|] eqn:Hr;
      obind; [|discriminate].
    intros [= <- <-].
    pose proof (write_args_shape _ _ _ _ _ _ _ _ Hw1) as Hsh.
    pose proof (call_args_values w drivingIdx i e0 cs 0 args0 Hinv Hrow0 Hargs) as Hread.
    destruct (write_args_values drivingIdx i e0 cs w 0 (func args0) w1 Hinv Hrow0 Hw1)
      as (W1 & W2 & W3).
    destruct (IH w1 (S i) calls1 w2) as (R1 & R2 & R3 & R4); [| |exact Hnd|exact Hr|].
    { intros c. apply (ss_inv _ _ Hsh), Hinv. }
    { apply Hrows1, Hsh. }
    assert (Hfresh : e0 ∉ map fst calls1) by (intros H; apply He0, R3, H).
    cbn [app map fst]. split; [|split; [|split]].
    + intros c Hc. rewrite (R1 c Hc). apply W2, Hc.
    + intros c x Hx. apply not_elem_of_cons in Hx as [Hx0 Hx].
      rewrite (R2 c x Hx). apply W1, Hx0.
    + intros x [->|Hx]%elem_of_cons; [left|right; apply R3, Hx].
    + intros e args [Heq|Hin]%elem_of_cons.
      * inversion Heq; subst e args. split; [exact Hread|].
        intros Hndcs Hlen. specialize (W3 Hndcs Hlen).
        eapply Forall2_impl; [exact W3|]. intros c v Hv. cbn beta in Hv |- *.
        rewrite (R2 c e0 Hfresh). exact Hv.
      * destruct (R4 e args Hin) as [A1 A2]. split; [|exact A2].
        assert (Hne : e ≠ e0).
        { intros ->. apply Hfresh. apply list_elem_of_In, in_map_iff.
          exists (e0, args). split; [reflexivity|]. apply list_elem_of_In, Hin. }
        eapply Forall2_impl; [exact A1|]. intros c v Hv. cbn beta in Hv |- *.
        rewrite <- (W1 c e Hne). exact Hv.
  - obind.
    destruct (each_rows w mask cs drivingIdx (S i) entities func) as [[calls1 w2]|] eqn:Hr;
      obind; [|discriminate].
    intros [= <- <-]. cbn [app].
    destruct (IH w (S i) calls1 w2 Hinv (Hrows1 w (same_shape_refl w)) Hnd Hr)
      as (R1 & R2 & R3 & R4).
    split; [exact R1|]. split; [exact R2|]. split; [|exact R4].
    intros x Hx. right. apply R3, Hx.
Qed.

Lemma each_from_values w (cs : list N) (d : N) (func : list Component → list Component)
    calls w' :
  (∀ c, sset_inv (store_of w c)) → each_from w cs d func = Some (calls, w') →
  (∀ c, c ∉ cs → store_of w' c = store_of w c)
  ∧ (∀ c x, x ∉ map fst calls →
            SparseSet.Get (store_of w' c) x = SparseSet.Get (store_of w c) x)
  ∧ (∀ e args, (e, args) ∈ calls →
       Forall2 (λ c v, SparseSet.Get (store_of w c) e = Some v) cs args
       ∧ (NoDup cs → length (func args) = length cs →
          Forall2 (λ c v, SparseSet.Get (store_of w' c) e = Some v) cs (func args))).
Proof.
  intros Hinv Hfrom. unfold each_from in Hfrom.
  destruct (GetStores_spec cs w) as (w1 & E & _ & Hst & _). rewrite E in Hfrom.
  destruct (GetStore_spec w1 d) as (w2 & E2 & G1 & _). rewrite E2 in Hfrom.
  unfold SparseSet.GetEntities in Hfrom. rewrite Hst in Hfrom.
  assert (Hst2 : ∀ c, store_of w2 c = store_of w c) by (intros c; rewrite G1; apply Hst).
  destruct (each_rows_values (View_mask cs) cs
              (driving_index (map (λ c, (c, store_of w c)) cs) d) func
              (SparseSet.m_DenseToEntity (store_of w d)) w2 0%nat calls w')
    as (R1 & R2 & _ & R4); [| | |exact Hfrom|].
  - intros c. rewrite Hst2. apply Hinv.
  - intros k x c Hk Hc. apply driving_index_component in Hc. subst c.
    rewrite Hst2. exact Hk.
  - apply ents_NoDup, Hinv.
  - split; [intros c Hc; rewrite <- Hst2; apply R1, Hc|].
    split; [intros c x Hx; rewrite <- Hst2; apply R2, Hx|].
    intros e args Hin. destruct (R4 e args Hin) as [A1 A2]. split; [|exact A2].
    eapply Forall2_impl; [exact A1|]. intros c v Hv. cbn beta in Hv |- *.
    rewrite <- Hst2. exact Hv.
Qed.

(** X29.  [View<C1..Cn>::Each(f)] on a reachable world (reached from the
    empty world by calls that satisfy [disciplined]), for a pack that is
    not empty and whose component ids are below 256: every call of [f]
    gets, in the order of the pack, the values the stores held for the
    entity of the call when [Each] was called (the row of the driving store
    that is read in place of [Get] is the row of that entity); when the
    pack names no type twice and [f] leaves a value in each of its
    references, the stores afterwards hold these values for that entity;
    the components of the entities [f] was not called for and the stores
    of the types outside the pack are as they were; the signatures, the
    generations and the free list are untouched. *)
Theorem X29_Each_arguments w (cs : list N) (func : list Component → list Component) :
  reachable w → cs ≠ [] → (∀ c, c ∈ cs → c < 256) →
  ∃ calls w',
    Each w cs func = Some (calls, w')
    ∧ (∀ e args, (e, args) ∈ calls →
         Forall2 (λ c v, SparseSet.Get (store_of w c) e = Some v) cs args
         ∧ (NoDup cs → length (func args) = length cs →
            Forall2 (λ c v, SparseSet.Get (store_of w' c) e = Some v) cs (func args)))
    ∧ (∀ c x, x ∉ map fst calls →
              SparseSet.Get (store_of w' c) x = SparseSet.Get (store_of w c) x)
    ∧ (∀ c, c ∉ cs → store_of w' c = store_of w c)
    ∧ m_EntitySignatures w' = m_EntitySignatures w
    ∧ m_EntityGenerations w' = m_EntityGenerations w
    ∧ m_FreeEntities w' = m_FreeEntities w.
Proof.
  intros Hr Hne Hcs. pose proof (reachable_inv w Hr) as Hinv.
  unfold Each. destruct cs as [|c0 cs']; [congruence|]. set (cs := c0 :: cs') in *.
  destruct (GetStores_spec cs w) as (w1 & E & Hsh & Hst & Hsig). rewrite E.
  destruct (snd (findSmallest (map (λ c, (c, store_of w c)) cs))) as [d|].
  - destruct (each_from_spec w cs d func Hinv Hcs) as (calls & w' & Hcalls & _).
    rewrite Hcalls. exists calls, w'. split; [reflexivity|].
    destruct (each_from_values w cs d func calls w' (wi_stores w Hinv) Hcalls) as (R1 & R2 & R4).
    pose proof (each_from_shape w cs d func calls w' Hcalls) as Hsh'.
    split; [exact R4|]. split; [exact R2|]. split; [exact R1|].
    split; [apply (ss_sigs _ _ Hsh')|]. split; [apply (ss_gens _ _ Hsh')|apply (ss_free _ _ Hsh')].
  - exists [], w1. split; [reflexivity|]. split; [intros e args H; inversion H|].
    split; [intros c x _; rewrite Hst; reflexivity|]. split; [intros c _; apply Hst|].
    split; [exact Hsig|]. split; [apply (ss_gens w w1 Hsh) | apply (ss_free w w1 Hsh)].
Qed.

End ViewArguments.

Lemma X29_witness :
  ∃ calls w',
    World.Each observed_world [3; 0] (map N.succ) = Some (calls, w')
    ∧ (∀ e args, (e, args) ∈ calls →
         Forall2 (λ c v, SparseSet.Get (store_of observed_world c) e = Some v) [3; 0] args
         ∧ (NoDup [3; 0] → length (map N.succ args) = length [3; 0] →
            Forall2 (λ c v, SparseSet.Get (store_of w' c) e = Some v) [3; 0] (map N.succ args)))
    ∧ (∀ c x, x ∉ map fst calls →
              SparseSet.Get (store_of w' c) x = SparseSet.Get (store_of observed_world c) x)
    ∧ (∀ c, c ∉ [3; 0] → store_of w' c = store_of observed_world c)
    ∧ World.m_EntitySignatures w' = World.m_EntitySignatures observed_world
    ∧ World.m_EntityGenerations w' = World.m_EntityGenerations observed_world
    ∧ World.m_FreeEntities w' = World.m_FreeEntities observed_world.
Proof.
  apply (X29_Each_arguments observed_world [3; 0] (map N.succ)).
  - exact observed_world_reachable.
  - discriminate.
  - intros c Hc. repeat (apply elem_of_cons in Hc as [->|Hc]; [lia|]). inversion Hc.
Defined.

(** ** World.cpp: what [DestroyEntity] leaves alone *)

Section DestroyOthers.

Import World.

Context {Component : Type}.

Implicit Types (w : World.t Component) (e : EntityID).



Lemma destroy_fold_None id (l : list N) :
  fold_left (λ acc b, destroy_bit (Component := Component) id b acc) l None = None.
Proof. induction l as [|b l IH]; [reflexivity|]. cbn [fold_left]. exact IH. Qed.



End DestroyOthers.


(** ** World: what holds however the interface is used *)

Section ApiFacts.

Import World.

Context {Component : Type}.

Implicit Types (w : World.t Component) (e id : EntityID) (c : N).

(** The inner loop of [ForEachSetBit] runs its function over some list of
    bits, whatever the word. *)
Lemma word_loop_fold (fuel : nat) : ∀ i wd : N,
  ∃ l : list N, ∀ (S : Type) (f : N → S → S) (s : S),
    ComponentMask.word_loop fuel i wd f s = fold_left (λ s b, f b s) l s.
Proof.
  induction fuel as [|fuel IH]; intros i wd.
  - exists []. reflexivity.
  - cbn [ComponentMask.word_loop]. destruct (wd =? 0).
    + exists []. reflexivity.
    + destruct (IH i (N.land wd (N.lnot (N.shiftl 1 (ComponentMask.ctzll wd)) 64))) as [l Hl].
      exists ((i * 64 + ComponentMask.ctzll wd) :: l). intros S f s.
      cbn [fold_left]. apply Hl.
Qed.

Lemma ForEachSetBit_fold (m : ComponentMask.t) :
  ∃ l : list N, ∀ (S : Type) (f : N → S → S) (s : S),
    ComponentMask.ForEachSetBit m f s = fold_left (λ s b, f b s) l s.
Proof.
  destruct (word_loop_fold 64 0 (ComponentMask.GetWord m 0)) as [l0 H0].
  destruct (word_loop_fold 64 1 (ComponentMask.GetWord m 1)) as [l1 H1].
  destruct (word_loop_fold 64 2 (ComponentMask.GetWord m 2)) as [l2 H2].
  destruct (word_loop_fold 64 3 (ComponentMask.GetWord m 3)) as [l3 H3].
  exists (l0 ++ l1 ++ l2 ++ l3). intros S f s.
  unfold ComponentMask.ForEachSetBit. cbn [fold_left].
  rewrite H0, H1, H2, H3, !fold_left_app. reflexivity.
Qed.

Lemma api_inv_empty : api_inv (World.empty (Component := Component)).
Proof.
  split.
  - apply Forall_nil_2.
  - intros c. unfold store_of. cbn. rewrite lookup_empty. apply sset_inv_empty.
  - intros i k Hk. cbn in Hk. rewrite lookup_nil in Hk. discriminate.
  - intros c Hne. exfalso. apply Hne. unfold store_of. cbn. rewrite lookup_empty. reflexivity.
Qed.

Lemma api_inv_shape w w' : api_inv w → same_shape w w' → api_inv w'.
Proof.
  intros [a0 a1 a2 a3] Hsh. split.
  - rewrite (ss_sigs _ _ Hsh). exact a0.
  - intros c. apply (ss_inv _ _ Hsh), a1.
  - apply (ss_trig_ok _ _ Hsh), a2.
  - intros c Hne. rewrite (ss_ents _ _ Hsh) in Hne. destruct (a3 c Hne) as [H1 H2]. split.
    + apply (ss_byid _ _ Hsh), H1.
    + apply (ss_trig _ _ Hsh), H2.
Qed.

(** Calls that touch neither the stores nor the tables of the components. *)
Lemma api_inv_tables w w' :
  api_inv w →
  Forall ComponentMask.wf (m_EntitySignatures w') →
  m_ComponentStores w' = m_ComponentStores w
  ∧ m_StoresByID w' = m_StoresByID w
  ∧ m_OnRemovedTriggers w' = m_OnRemovedTriggers w →
  api_inv w'.
Proof.
  intros [a0 a1 a2 a3] Hm (Hs & Hb & Ht). split.
  - exact Hm.
  - intros c. unfold store_of. rewrite Hs. apply a1.
  - rewrite Ht. exact a2.
  - intros c. unfold store_of. rewrite Hs, Hb, Ht. apply a3.
Qed.

Lemma wf_zero : ComponentMask.wf (ComponentMask.Make 0).
Proof. apply wf_Make. lia. Qed.

Lemma CreateEntity_tables w id w' :
  CreateEntity w = Some (id, w') →
  (Forall ComponentMask.wf (m_EntitySignatures w) → Forall ComponentMask.wf (m_EntitySignatures w'))
  ∧ m_ComponentStores w' = m_ComponentStores w
  ∧ m_StoresByID w' = m_StoresByID w
  ∧ m_OnRemovedTriggers w' = m_OnRemovedTriggers w.
Proof.
  unfold CreateEntity. destruct (last (m_FreeEntities w)) as [x|].
  - destruct (pop_back (m_FreeEntities w)) as [free|]; obind; [|discriminate].
    destruct (m_EntityGenerations w !! _) as [g|]; obind; [|discriminate].
    intros [= _ <-]. auto.
  - intros [= _ <-]. wsimpl. split; [|auto].
    intros H. apply Forall_app. split; [exact H|]. apply Forall_singleton, wf_zero.
Qed.

Lemma drain_free_tables (turns : nat) : ∀ (count : N) w (entities : list EntityID) count' w' entities',
  drain_free turns count w entities = Some (count', w', entities') →
  (Forall ComponentMask.wf (m_EntitySignatures w) → Forall ComponentMask.wf (m_EntitySignatures w'))
  ∧ m_ComponentStores w' = m_ComponentStores w
  ∧ m_StoresByID w' = m_StoresByID w
  ∧ m_OnRemovedTriggers w' = m_OnRemovedTriggers w.
Proof.
  induction turns as [|turns IH]; intros count w entities count' w' entities'; cbn [drain_free].
  - destruct ((0 <? count) && negb (bool_decide (m_FreeEntities w = []))); [discriminate|].
    intros [= _ <- _]. auto.
  - destruct ((0 <? count) && negb (bool_decide (m_FreeEntities w = []))).
    + destruct (CreateEntity w) as [[x w1]|] eqn:Hc; obind; [|discriminate].
      intros Hd. destruct (CreateEntity_tables _ _ _ Hc) as (H0 & H1 & H2 & H3).
      destruct (IH _ _ _ _ _ _ Hd) as (H4 & H5 & H6 & H7).
      split; [auto|]. split; [congruence|]. split; congruence.
    + intros [= _ <- _]. auto.
Qed.

Lemma CreateEntitiesBulk_tables w (count : N) ids w' :
  CreateEntitiesBulk w count = Some (ids, w') →
  (Forall ComponentMask.wf (m_EntitySignatures w) → Forall ComponentMask.wf (m_EntitySignatures w'))
  ∧ m_ComponentStores w' = m_ComponentStores w
  ∧ m_StoresByID w' = m_StoresByID w
  ∧ m_OnRemovedTriggers w' = m_OnRemovedTriggers w.
Proof.
  unfold CreateEntitiesBulk.
  destruct (drain_free _ count w []) as [[[count1 w1] entities]|] eqn:Hd; obind; [|discriminate].
  destruct (drain_free_tables _ _ _ _ _ _ _ Hd) as (H0 & H1 & H2 & H3).
  destruct (0 <? count1).
  - destruct (count1 <? 2 ^ 32); [|discriminate]. intros [= _ <-]. wsimpl.
    split; [|auto]. intros H. apply Forall_resize; [apply wf_zero|auto].
  - intros [= _ <-]. auto.
Qed.

Lemma CreateEntity_id_tables w id r w' :
  CreateEntity_id w id = Some (r, w') →
  (Forall ComponentMask.wf (m_EntitySignatures w) → Forall ComponentMask.wf (m_EntitySignatures w'))
  ∧ m_ComponentStores w' = m_ComponentStores w
  ∧ m_StoresByID w' = m_StoresByID w
  ∧ m_OnRemovedTriggers w' = m_OnRemovedTriggers w.
Proof.
  unfold CreateEntity_id.
  set (w0 := if (_ <=? _)%nat then _ else w).
  assert (H0 : (Forall ComponentMask.wf (m_EntitySignatures w)
                → Forall ComponentMask.wf (m_EntitySignatures w0))
               ∧ m_ComponentStores w0 = m_ComponentStores w
               ∧ m_StoresByID w0 = m_StoresByID w
               ∧ m_OnRemovedTriggers w0 = m_OnRemovedTriggers w).
  { unfold w0. destruct (_ <=? _)%nat; [|auto]. wsimpl. split; [|auto].
    intros H. apply Forall_resize; [apply wf_zero|exact H]. }
  clearbody w0. destruct H0 as (Hm & H1 & H2 & H3).
  destruct (IsAlive w0 id) as [[|]|]; obind; [| |discriminate].
  - intros [= _ <-]. auto.
  - wsimpl. destruct (vec_set _ _ _) as [gens|]; obind; [|discriminate]. wsimpl.
    destruct (m_EntitySignatures w0 !! _) as [sig|]; obind; [|discriminate].
    intros [= _ <-]. wsimpl. split; [|auto].
    intros H. apply Forall_insert; [auto|apply wf_ResetAll].
Qed.

(** An event that has a result. *)
Lemma TriggerEvent_api w c id event w' calls :
  api_inv w → TriggerEvent w c id event = Some (w', calls) → api_inv w'.
Proof.
  intros Hinv Ht.
  destruct (decide (id ∈ SparseSet.m_DenseToEntity (store_of w c))) as [Hin|Hnin].
  - destruct (TriggerEvent_spec w c id event (ai_stores w Hinv c) Hin) as (w1 & Ht1 & Hshape & _).
    rewrite Ht in Ht1. inversion Ht1; subst w1.
    exact (api_inv_shape w w' Hinv Hshape).
  - unfold TriggerEvent in Ht.
    destruct (m_ComponentSignals w !! c) as [signals|].
    + exfalso. destruct (GetStore_spec w c) as (w1 & E & _). rewrite E in Ht.
      destruct (SparseSet.Get (store_of w c) id) as [v|] eqn:Hget; [|discriminate].
      apply Hnin, (Get_Some_elem _ _ v (ai_stores w Hinv c) Hget).
    + inversion Ht; subst w'. exact Hinv.
Qed.

(** Taking an entity out of a store. *)
Lemma remove_api w (k : N) id store' :
  api_inv w → SparseSet.Remove (store_of w k) id = Some store' →
  api_inv (put_store w k store').
Proof.
  intros [a0 a1 a2 a3] Hrem.
  destruct (Remove_spec (store_of w k) id (a1 k)) as (s1 & Hrem1 & Hinv' & Hmem & _).
  rewrite Hrem in Hrem1. inversion Hrem1; subst s1. split.
  - exact a0.
  - intros c. rewrite store_of_put. destruct (decide (c = k)); [exact Hinv'|apply a1].
  - exact a2.
  - intros c. rewrite store_of_put. destruct (decide (c = k)) as [->|Hne]; [|apply a3].
    intros Hne. apply (a3 k). intros Hnil. apply Hne.
    destruct (SparseSet.m_DenseToEntity store') as [|x l]; [reflexivity|].
    exfalso. assert (Hx : x ∈ x :: l) by apply list_elem_of_here.
    apply Hmem in Hx as [Hx _]. rewrite Hnil in Hx. inversion Hx.
Qed.

Lemma remove_by_id_api w (k : N) id w' :
  api_inv w → remove_by_id w k id = Some w' → api_inv w'.
Proof.
  intros Hinv Hstep. unfold remove_by_id in Hstep.
  destruct (m_ComponentStores w !! k) as [store|] eqn:Hs; [|discriminate]. obind in Hstep.
  assert (Hst : store_of w k = store) by (unfold store_of; rewrite Hs; reflexivity).
  destruct (SparseSet.Remove store id) as [store'|] eqn:Hrem; [|discriminate].
  obind in Hstep. inversion Hstep; subst w'.
  apply (remove_api w k id store' Hinv). rewrite Hst. exact Hrem.
Qed.

(** One turn of the loop of [DestroyEntity], when it has a result. *)
Lemma destroy_bit_api id (b : N) w calls w' calls' :
  api_inv w →
  destroy_bit id b (Some (w, calls)) = Some (w', calls') →
  api_inv w'.
Proof.
  intros Hinv Hstep. unfold destroy_bit in Hstep. obind in Hstep.
  assert (Hfirst : ∃ w1 fired,
            match m_OnRemovedTriggers w !! N.to_nat b with
            | Some (Some k) => TriggerEvent w k id Removed
            | _ => Some (w, [])
            end = Some (w1, fired)
            ∧ api_inv w1).
  { destruct (m_OnRemovedTriggers w !! N.to_nat b) as [[k|]|].
    - destruct (TriggerEvent w k id Removed) as [[w1 fired]|] eqn:Ht; [|discriminate].
      exists w1, fired. split; [reflexivity|].
      exact (TriggerEvent_api w k id Removed w1 fired Hinv Ht).
    - exists w, []. auto.
    - exists w, []. auto. }
  destruct Hfirst as (w1 & fired & Hf & Hinv1). rewrite Hf in Hstep. obind in Hstep.
  destruct (m_StoresByID w1 !! N.to_nat b) as [[k|]|].
  - destruct (remove_by_id w1 k id) as [w2|] eqn:Hrem; [|discriminate].
    obind in Hstep. inversion Hstep; subst w'.
    exact (remove_by_id_api w1 k id w2 Hinv1 Hrem).
  - obind in Hstep. inversion Hstep; subst. exact Hinv1.
  - obind in Hstep. inversion Hstep; subst. exact Hinv1.
Qed.

Lemma destroy_fold_api id (l : list N) : ∀ w calls w' calls',
  api_inv w →
  fold_left (λ acc b, destroy_bit id b acc) l (Some (w, calls)) = Some (w', calls') →
  api_inv w'.
Proof.
  induction l as [|b l IH]; intros w calls w' calls' Hinv Hfold.
  - cbn [fold_left] in Hfold. inversion Hfold; subst. exact Hinv.
  - cbn [fold_left] in Hfold.
    destruct (destroy_bit id b (Some (w, calls))) as [[w1 calls1]|] eqn:Hstep;
      [|rewrite destroy_fold_None in Hfold; discriminate].
    exact (IH w1 calls1 w' calls' (destroy_bit_api id b w calls w1 calls1 Hinv Hstep) Hfold).
Qed.

Lemma DestroyEntity_api w id w' calls :
  api_inv w → DestroyEntity w id = Some (w', calls) → api_inv w'.
Proof.
  intros Hinv. unfold DestroyEntity.
  destruct (IsAlive w id) as [[|]|]; obind; [| |discriminate].
  2:{ intros [= <- _]. exact Hinv. }
  destruct (m_EntitySignatures w !! _) as [sig|]; obind; [|discriminate].
  destruct (ForEachSetBit_fold sig) as [l Hl]. rewrite Hl.
  destruct (fold_left _ l (Some (w, []))) as [[w1 calls1]|] eqn:Hfold; obind; [|discriminate].
  pose proof (destroy_fold_api id l w [] w1 calls1 Hinv Hfold) as Hinv1.
  destruct (m_EntitySignatures w1 !! _) as [sig1|]; obind; [|discriminate]. wsimpl.
  destruct (m_EntityGenerations w1 !! _) as [g|]; obind; [|discriminate]. wsimpl.
  destruct (_ !! _) as [g'|]; obind; [|discriminate].
  intros [= <- _]. eapply api_inv_tables; [exact Hinv1| |auto].
  wsimpl. apply Forall_insert; [apply (ai_masks w1 Hinv1)|apply wf_ResetAll].
Qed.

(** [AddComponent] that has a result found the slot, or made it. *)
Lemma AddComponent_api w c id (v : Component) w' calls :
  api_inv w → AddComponent w c id v = Some (w', calls) → api_inv w'.
Proof.
  intros [Hmask Hinv Htrig Hrows] Hadd.
  set (w0 := with_EntitySignatures w
               (grow_to_index (m_EntitySignatures w) (Internal.GetIndex id) (ComponentMask.Make 0))).
  assert (Hst0 : ∀ c', store_of w0 c' = store_of w c') by reflexivity.
  assert (Hlt : (N.to_nat (Internal.GetIndex id) < length (m_EntitySignatures w0))%nat).
  { unfold AddComponent in Hadd. fold w0 in Hadd.
    destruct (GetStore_spec w0 c) as (w1 & E & G1 & G2 & G3 & G4 & G5 & G6 & G7 & G8 & G9).
    rewrite E in Hadd.
    destruct (SparseSet.Insert (store_of w0 c) id v) as [s'|]; obind in Hadd; [|discriminate].
    wsimpl in Hadd. rewrite G7 in Hadd.
    destruct (m_EntitySignatures w0 !! N.to_nat (Internal.GetIndex id)) as [sig|] eqn:Hsig;
      [|discriminate].
    eapply lookup_lt_Some, Hsig. }
  assert (Heq : AddComponent w0 c id v = AddComponent w c id v).
  { unfold AddComponent at 1. rewrite grow_to_index_lt by exact Hlt.
    rewrite with_sigs_same. reflexivity. }
  assert (Hmask0 : Forall ComponentMask.wf (m_EntitySignatures w0)).
  { unfold w0. wsimpl. unfold grow_to_index. destruct (_ <=? _)%nat; [|exact Hmask].
    apply Forall_resize; [apply wf_zero|exact Hmask]. }
  destruct (AddComponent_spec w0 c id v (Hinv c) Hlt Htrig)
    as (w'' & sig & Hsig & Hadd' & P1 & P2 & P3 & P4 & P5 & P6 & P7 & P8 & P9 & P10 & P11 & P12 & _).
  rewrite Heq, Hadd in Hadd'. inversion Hadd'; subst w''.
  split.
  - rewrite P1. apply Forall_insert; [exact Hmask0|].
    apply wf_SetBit. exact (proj1 (Forall_lookup _ _) Hmask0 _ _ Hsig).
  - intros c'. destruct (decide (c' = c)) as [->|Hne]; [exact P5|].
    rewrite (P7 c' Hne). apply Hinv.
  - exact P12.
  - intros c'. destruct (decide (c' = c)) as [->|Hne]; [auto|].
    rewrite (P7 c' Hne). intros Hne'. destruct (Hrows c' Hne') as [R1 R2]. split.
    + apply P9; [lia|exact R1].
    + apply P11. exact R2.
Qed.

Lemma RemoveComponent_api w c id w' calls :
  api_inv w → RemoveComponent w c id = Some (w', calls) → api_inv w'.
Proof.
  intros Hinv. unfold RemoveComponent.
  destruct ((_ <? _)%nat && HasComponent w c id).
  2:{ intros [= <- _]. exact Hinv. }
  destruct (TriggerEvent w c id Removed) as [[w1 calls1]|] eqn:Ht; obind; [|discriminate].
  pose proof (TriggerEvent_api w c id Removed w1 calls1 Hinv Ht) as Hinv1.
  destruct (GetStore_spec w1 c) as (w2 & E & G1 & G2 & G3 & G4 & G5 & G6 & G7 & G8 & G9).
  rewrite E.
  assert (Hinv2 : api_inv w2).
  { destruct Hinv1 as [a0 a1 a2 a3]. split.
    - rewrite G7. exact a0.
    - intros c'. rewrite G1. apply a1.
    - rewrite G6. exact a2.
    - intros c'. rewrite G1, G4, G6. apply a3. }
  destruct (SparseSet.Remove (store_of w1 c) id) as [s'|] eqn:Hrem; obind; [|discriminate].
  rewrite <- (G1 c) in Hrem.
  pose proof (remove_api w2 c id s' Hinv2 Hrem) as Hinv3.
  destruct (m_EntitySignatures (put_store w2 c s') !! _) as [sig|] eqn:Hsig; obind; [|discriminate].
  intros [= <- _]. eapply api_inv_tables; [exact Hinv3| |auto].
  wsimpl. apply Forall_insert; [apply (ai_masks _ Hinv3)|].
  apply wf_ResetBit.
  exact (proj1 (Forall_lookup _ _) (ai_masks _ Hinv3) _ _ Hsig).
Qed.

(** Every state reached through the interface, used in any way, keeps the
    invariants of its stores and of its tables. *)
Lemma api_reachable_inv w : api_reachable w → api_inv w.
Proof.
  induction 1 as [|w o w' Hr IH Hg He]; [apply api_inv_empty|].
  destruct o as [|count|id|id|c event cb|c id func|c id v|c id|cs func]; simpl in He.
  - destruct (CreateEntity w) as [[id w1]|] eqn:E; [|discriminate]. inversion He; subst.
    destruct (CreateEntity_tables _ _ _ E) as [Hm Ht].
    eapply api_inv_tables; [exact IH|apply Hm, (ai_masks w IH)|exact Ht].
  - destruct (CreateEntitiesBulk w count) as [[ids w1]|] eqn:E; [|discriminate].
    inversion He; subst. destruct (CreateEntitiesBulk_tables _ _ _ _ E) as [Hm Ht].
    eapply api_inv_tables; [exact IH|apply Hm, (ai_masks w IH)|exact Ht].
  - destruct (CreateEntity_id w id) as [[r w1]|] eqn:E; [|discriminate]. inversion He; subst.
    destruct (CreateEntity_id_tables _ _ _ _ E) as [Hm Ht].
    eapply api_inv_tables; [exact IH|apply Hm, (ai_masks w IH)|exact Ht].
  - destruct (DestroyEntity w id) as [[w1 calls]|] eqn:E; [|discriminate]. inversion He; subst.
    eapply DestroyEntity_api; eauto.
  - inversion He; subst. eapply api_inv_shape; [eassumption|apply OnEvent_shape].
  - destruct (PatchComponent w c id func) as [[w1 calls]|] eqn:E; [|discriminate].
    inversion He; subst. eapply api_inv_shape; [eassumption|].
    eapply PatchComponent_shape; [apply (ai_stores w IH)|eassumption].
  - destruct (AddComponent w c id v) as [[w1 calls]|] eqn:E; [|discriminate]. inversion He; subst.
    eapply AddComponent_api; eauto.
  - destruct (RemoveComponent w c id) as [[w1 calls]|] eqn:E; [|discriminate].
    inversion He; subst. eapply RemoveComponent_api; eauto.
  - destruct (Each w cs func) as [[calls w1]|] eqn:E; [|discriminate]. inversion He; subst.
    eapply api_inv_shape; [eassumption|]. eapply Each_shape; eauto.
Qed.


End ApiFacts.

(** ** More of SystemScheduler.cpp: graphs without a cycle *)

Section SchedulerAcyclic.
Import SystemScheduler.

Implicit Types (g : Graph) (name m n d : string) (node : SystemNode).

(** The first batch has every node without dependencies. *)
Lemma init_fold_complete (l : Graph) : ∀ (st st' : gmap string Z * list string),
  fold_left init_step l st = st' →
  (∀ x, x ∈ st.2 → x ∈ st'.2)
  ∧ (∀ m node, (m, node) ∈ l → Dependencies node = [] → m ∈ st'.2).
Proof.
  induction l as [|[k nd] l IH]; intros [ind cur] st' Hf; cbn [fold_left] in Hf.
  - subst st'. split; [auto|]. intros m node H. inversion H.
  - destruct (IH _ _ Hf) as [Hmono Hall].
    assert (Hstep : ∀ x, x ∈ cur → x ∈ (init_step (ind, cur) (k, nd)).2).
    { intros x Hx. unfold init_step. destruct (_ =? _)%Z; cbn [snd]; [|exact Hx].
      apply elem_of_app. left. exact Hx. }
    split; [intros x Hx; apply Hmono, Hstep, Hx|].
    intros m node [Heq|Hin]%elem_of_cons Hnil; [|exact (Hall m node Hin Hnil)].
    inversion Heq; subst k nd. apply Hmono. unfold init_step.
    rewrite degree_insert, bool_decide_true by reflexivity. rewrite Hnil. cbn [length].
    cbn [Z.of_nat Z.eqb snd]. apply elem_of_app. right. left.
Qed.

Section OkGraph.

Variable g : Graph.
Hypothesis Hok : graph_ok g = true.

(** One more turn of the loop keeps: a node none of whose dependencies
    waits is recorded or in the current batch. *)
Lemma kahn_step_complete inDegree (currentBatch recorded : list string) inDegree' nextBatch :
  kahn_inv g inDegree currentBatch recorded →
  (∀ m, m ∈ names g → waiting g recorded m = 0%nat → m ∈ recorded ++ currentBatch) →
  fold_left visit currentBatch (g, (inDegree, [])) = (g, (inDegree', nextBatch)) →
  ∀ m, m ∈ names g → waiting g (recorded ++ currentBatch) m = 0%nat →
       m ∈ (recorded ++ currentBatch) ++ nextBatch.
Proof.
  intros [Hnd Hnames Hdeg Hready Hord] Hcomp Hfold m Hm Hw.
  assert (HC : ∀ x, x ∈ currentBatch → x ∈ names g)
    by (intros x Hx; apply Hnames, elem_of_app; right; exact Hx).
  rewrite (visit_fold _ _ HC) in Hfold.
  set (D := flat_map (dependents_of g) currentBatch) in *.
  destruct (release_fold D inDegree []) as (ind' & new & Hf & _ & Hcnt).
  rewrite Hf in Hfold. inversion Hfold; subst ind' nextBatch. clear Hfold.
  destruct (decide (m ∈ recorded ++ currentBatch)) as [Hin|Hnin];
    [apply elem_of_app; left; exact Hin|].
  apply elem_of_app. right. apply count_elem. rewrite Hcnt.
  pose proof (waiting_batch g Hok currentBatch recorded m Hnd HC Hm) as Hwb. fold D in Hwb.
  assert (Hpos : waiting g recorded m ≠ 0%nat) by (intros H0; apply Hnin, Hcomp; assumption).
  rewrite (Hdeg m Hm).
  destruct (Z.ltb_spec 0 (Z.of_nat (waiting g recorded m))); [|lia].
  destruct (Z.leb_spec (Z.of_nat (waiting g recorded m)) (Z.of_nat (count m D))); [|lia].
  cbn [andb]. lia.
Qed.

Lemma layered_snoc (batched : list (list string)) (currentBatch : list string) :
  layered g batched →
  (∀ m, m ∈ currentBatch → ∀ d, d ∈ dependencies_of g m → d ∈ concat batched) →
  layered g (batched ++ [currentBatch]).
Proof.
  intros Hl Hready before batch after Heq m Hm d Hd.
  destruct after as [|a after _] using rev_ind.
  - apply app_inj_tail in Heq as [<- <-]. exact (Hready m Hm d Hd).
  - rewrite app_comm_cons, app_assoc in Heq. apply app_inj_tail in Heq as [Heq _].
    exact (Hl before batch after Heq m Hm d Hd).
Qed.

Lemma batches_loop_complete (turns : nat) : ∀ inDegree currentBatch batched batched',
  kahn_inv g inDegree currentBatch (concat batched) →
  (∀ m, m ∈ names g → waiting g (concat batched) m = 0%nat →
        m ∈ concat batched ++ currentBatch) →
  layered g batched →
  batches_loop turns g inDegree currentBatch batched = Some (g, batched') →
  (∀ m, m ∈ names g → waiting g (concat batched') m = 0%nat → m ∈ concat batched')
  ∧ layered g batched'.
Proof.
  induction turns as [|turns IH]; intros inDegree currentBatch batched batched' Hinv Hcomp Hlay Hloop.
  - destruct currentBatch as [|c cs]; [|discriminate].
    cbn [batches_loop] in Hloop. inversion Hloop; subst batched'.
    split; [|exact Hlay]. intros m Hm Hw. specialize (Hcomp m Hm Hw).
    rewrite app_nil_r in Hcomp. exact Hcomp.
  - destruct currentBatch as [|c cs].
    + cbn [batches_loop] in Hloop. inversion Hloop; subst batched'.
      split; [|exact Hlay]. intros m Hm Hw. specialize (Hcomp m Hm Hw).
      rewrite app_nil_r in Hcomp. exact Hcomp.
    + destruct (kahn_step g Hok _ _ _ Hinv) as (ind' & next & Hf & Hinv').
      cbn [batches_loop] in Hloop. rewrite Hf in Hloop.
      assert (Hc : concat (batched ++ [c :: cs]) = concat batched ++ c :: cs).
      { rewrite concat_app. cbn [concat]. rewrite app_nil_r. reflexivity. }
      apply (IH ind' next (batched ++ [c :: cs]) batched').
      * rewrite Hc. exact Hinv'.
      * rewrite Hc. exact (kahn_step_complete _ _ _ _ _ Hinv Hcomp Hf).
      * apply layered_snoc; [exact Hlay|]. apply (ki_ready _ _ _ _ Hinv).
      * exact Hloop.
Qed.

(** A set of nodes each of which has a dependency that has no node or is
    in the set: the graph has a cycle or a missing dependency. *)
Lemma find_cycle (U : string → Prop) (fuel : nat) : ∀ (h : string) (rest : list string),
  (∀ x, U x → x ∈ names g ∧ ∃ d, depends_on g x d ∧ (graph_find g d = None ∨ U d)) →
  NoDup (h :: rest) → (∀ x, x ∈ h :: rest → U x) →
  (∀ x, x ∈ rest → tc (depends_on g) x h) →
  (length g ≤ length rest + fuel)%nat →
  has_cycle g ∨ has_missing_dependency g.
Proof.
  induction fuel as [|fuel IH]; intros h rest HU Hnd Hin Hreach Hfuel.
  - exfalso.
    assert (Hb : (length (h :: rest) ≤ length g)%nat).
    { apply recorded_bound; [exact Hnd|]. intros x Hx. apply HU, Hin, Hx. }
    cbn [length] in Hb. lia.
  - destruct (HU h (Hin h (list_elem_of_here _ _))) as [_ (d & Hd & [Hnone|HUd])].
    { right. exists h, d. auto. }
    destruct (decide (d = h)) as [->|Hdh]; [left; exists h; apply tc_once, Hd|].
    destruct (decide (d ∈ rest)) as [Hdr|Hdr].
    + left. exists d. eapply tc_r; [apply Hreach, Hdr | exact Hd].
    + apply (IH d (h :: rest) HU).
      * constructor; [|exact Hnd]. intros [->|H]%elem_of_cons; [apply Hdh; reflexivity | exact (Hdr H)].
      * intros x [->|Hx]%elem_of_cons; [exact HUd | exact (Hin x Hx)].
      * intros x [->|Hx]%elem_of_cons; [apply tc_once, Hd|].
        eapply tc_r; [apply Hreach, Hx | exact Hd].
      * cbn [length]. lia.
Qed.

Lemma waiting_pos (P : list string) m :
  waiting g P m ≠ 0%nat → ∃ d, d ∈ dependencies_of g m ∧ d ∉ P.
Proof.
  unfold waiting. intros H.
  destruct (filter (λ d, d ∉ P) (dependencies_of g m)) as [|d l] eqn:E; [contradiction|].
  assert (Hd : d ∈ filter (λ d, d ∉ P) (dependencies_of g m)) by (rewrite E; left).
  apply list_elem_of_filter in Hd as [H1 H2]. eauto.
Qed.

(** A node that the loop has not recorded is there for a cycle or a
    missing dependency. *)
Lemma unrecorded_cause (P : list string) m :
  (∀ m, m ∈ names g → waiting g P m = 0%nat → m ∈ P) →
  m ∈ names g → m ∉ P →
  has_cycle g ∨ has_missing_dependency g.
Proof.
  intros Hcomp Hm Hn.
  apply (find_cycle (λ x, x ∈ names g ∧ x ∉ P) (length g) m []).
  - intros x [Hx Hxp]. split; [exact Hx|].
    assert (Hw : waiting g P x ≠ 0%nat) by (intros H0; apply Hxp, Hcomp; assumption).
    destruct (waiting_pos P x Hw) as (d & Hd & Hdp).
    assert (Hdep : depends_on g x d).
    { unfold dependencies_of in Hd. destruct (graph_find g x) as [node|] eqn:Hf;
        [|inversion Hd]. exists node. auto. }
    exists d. split; [exact Hdep|].
    destruct (graph_find g d) as [nd|] eqn:Hfd; [right|left; reflexivity].
    split; [|exact Hdp]. apply graph_find_names. eauto.
  - apply NoDup_singleton.
  - intros x ->%list_elem_of_singleton. auto.
  - intros x Hx. inversion Hx.
  - cbn [length]. lia.
Qed.

(** The batches of a graph: distinct names of the graph, in layers, and
    every node that waits for nothing is among them. *)
Lemma batches_full :
  ∃ batched,
    (let '(inDegree, currentBatch) := init_degrees g in
     batches_loop (S (length g)) g inDegree currentBatch []) = Some (g, batched)
    ∧ NoDup (concat batched)
    ∧ (∀ x, x ∈ concat batched → x ∈ names g)
    ∧ layered g batched
    ∧ (∀ m, m ∈ names g → waiting g (concat batched) m = 0%nat → m ∈ concat batched).
Proof.
  destruct (init_degrees_inv g Hok) as (ind & cur & Hinit & Hinv). rewrite Hinit.
  destruct (batches_loop_spec g Hok (S (length g)) ind cur [] Hinv) as (batched & Hloop & Hnd & Hin & _);
    [cbn [concat length]; lia|].
  exists batched. split; [exact Hloop|]. split; [exact Hnd|]. split; [exact Hin|].
  apply and_comm.
  apply (batches_loop_complete (S (length g)) ind cur [] batched Hinv); [| |exact Hloop].
  - intros m [node Hm]%names_elem Hw. cbn [concat app].
    unfold init_degrees in Hinit.
    destruct (init_fold_complete g _ _ Hinit) as [_ Hall]. apply (Hall m node Hm).
    unfold waiting, dependencies_of in Hw.
    rewrite (elem_graph_find _ _ _ (graph_ok_NoDup g Hok) Hm) in Hw.
    destruct (Dependencies node) as [|d l]; [reflexivity|].
    rewrite filter_cons, decide_True in Hw by (intros H; inversion H). discriminate.
  - intros before batch after Heq. destruct before; discriminate.
Qed.

(** The names of the graph that are not recorded, when fewer names are
    recorded than the graph has. *)
Lemma some_unrecorded (P : list string) :
  (length P < length g)%nat → ∃ m, m ∈ names g ∧ m ∉ P.
Proof.
  intros Hlt.
  destruct (decide (Forall (λ m, m ∈ P) (names g))) as [Hall|Hex].
  - exfalso. rewrite Forall_forall in Hall.
    assert (Hsub : names g ⊆+ P).
    { apply NoDup_submseteq; [exact (graph_ok_NoDup g Hok)|]. intros x Hx. apply Hall, Hx. }
    apply submseteq_length in Hsub. unfold names in Hsub. rewrite length_map in Hsub. lia.
  - apply not_Forall_Exists in Hex; [|intros x; apply _].
    apply Exists_exists in Hex as (m & Hm & Hn). exists m. auto.
Qed.

Lemma batch_funcs_Some (batch : list string) :
  (∀ x, x ∈ batch → x ∈ names g) →
  (∀ x, x ∈ batch → is_Some (func_of g x)) →
  ∃ fs, batch_funcs g batch = Some (fs, g)
        ∧ Forall2 (λ name f, func_of g name = Some f) batch fs.
Proof.
  induction batch as [|c cs IH]; intros Hin Hf.
  - exists []. split; [reflexivity | constructor].
  - destruct (graph_index_names g c) as (node & Hfind & Hi); [apply Hin; left|].
    destruct (Hf c) as [f Hfc]; [left|].
    destruct IH as (fs & Hb & Hall).
    { intros x Hx. apply Hin. right. exact Hx. }
    { intros x Hx. apply Hf. right. exact Hx. }
    exists (f :: fs). cbn [batch_funcs]. rewrite Hi.
    unfold func_of in Hfc. rewrite Hfind in Hfc. cbn in Hfc. rewrite Hfc. cbn.
    rewrite Hb. cbn. split; [reflexivity|]. constructor; [|exact Hall].
    unfold func_of. rewrite Hfind. exact Hfc.
Qed.

Lemma run_batches_Some (batched : list (list string)) :
  (∀ x, x ∈ concat batched → x ∈ names g) →
  (∀ x, x ∈ concat batched → is_Some (func_of g x)) →
  ∃ executed, run_batches g batched = Some (executed, g)
              ∧ Forall2 (Forall2 (λ name f, func_of g name = Some f)) batched executed.
Proof.
  induction batched as [|b bs IH]; intros Hin Hf.
  - exists []. split; [reflexivity | constructor].
  - destruct (batch_funcs_Some b) as (fs & Hb & Hall).
    { intros x Hx. apply Hin. cbn [concat]. apply elem_of_app. auto. }
    { intros x Hx. apply Hf. cbn [concat]. apply elem_of_app. auto. }
    destruct IH as (ex & Hr & Hall2).
    { intros x Hx. apply Hin. cbn [concat]. apply elem_of_app. auto. }
    { intros x Hx. apply Hf. cbn [concat]. apply elem_of_app. auto. }
    exists (fs :: ex). cbn [run_batches]. rewrite Hb. cbn. rewrite Hr. cbn.
    split; [reflexivity|]. constructor; assumption.
Qed.

End OkGraph.

End SchedulerAcyclic.

Section SchedulerMore.
Import SystemScheduler.

Lemma RebuildGraph_full s :
  graph_ok (m_Graph s) = true →
  ∃ batched,
    RebuildGraph s
    = Some (if (totalNodes batched <? length (m_Graph s))%nat
            then (Mk (m_Graph s) batched (m_GraphDirty s), CycleError)
            else (Mk (m_Graph s) batched false, Done))
    ∧ NoDup (concat batched)
    ∧ (∀ x, x ∈ concat batched → x ∈ names (m_Graph s))
    ∧ layered (m_Graph s) batched
    ∧ (∀ m, m ∈ names (m_Graph s) → waiting (m_Graph s) (concat batched) m = 0%nat →
            m ∈ concat batched).
Proof.
  intros Hok. destruct (batches_full _ Hok) as (batched & Hb & H).
  exists batched. split; [|exact H].
  unfold RebuildGraph. destruct (init_degrees (m_Graph s)) as [ind cur]. rewrite Hb. simpl.
  destruct (_ <? _)%nat; reflexivity.
Qed.

(** A rebuild that ends well shows that the graph has no cycle and no
    missing dependency. *)
Lemma acyclic_by_rebuild s s' :
  graph_ok (m_Graph s) = true →
  RebuildGraph s = Some (s', Done) →
  ¬ has_cycle (m_Graph s) ∧ ¬ has_missing_dependency (m_Graph s).
Proof.
  intros Hok Hdone.
  destruct (RebuildGraph_spec s Hok) as (batched & Hr & Hnd & Hin & Hord).
  assert (Hno : ¬ (has_cycle (m_Graph s) ∨ has_missing_dependency (m_Graph s))).
  { intros Hbad.
    destruct (cycle_not_recorded _ _ Hnd Hord Hin Hbad) as (a & Ha & Hna).
    pose proof (short_of_nodes _ _ a Hnd Hin Ha Hna) as Hlt.
    rewrite <- totalNodes_concat in Hlt. apply Nat.ltb_lt in Hlt.
    rewrite Hlt, Hdone in Hr. discriminate. }
  split; intros H; apply Hno; auto.
Qed.

(** X19.  When [RunGraph] ends with the cycle error, on a scheduler whose
    graph is as [AddSystem] keeps it while every name is added once, the
    graph does have a dependency cycle or a node that lists a dependency
    for which there is no node: the error is never raised for another
    reason. *)
Theorem X19_cycle_error_has_cause s s' executed :
  sched_ok s = true →
  RunGraph s = Some (s', CycleError, executed) →
  has_cycle (m_Graph s) ∨ has_missing_dependency (m_Graph s).
Proof.
  intros Hs Hrun. pose proof Hs as [Hok Hb]%andb_true_iff.
  destruct (RebuildGraph_full s Hok) as (batched & Hr & Hnd & Hin & _ & Hcomp).
  unfold RunGraph in Hrun.
  destruct (m_Graph s) as [|entry rest] eqn:Hg; [discriminate|].
  rewrite <- Hg in *. clear Hg entry rest.
  destruct (m_GraphDirty s) eqn:Hdirty.
  - rewrite Hr in Hrun.
    destruct (Nat.ltb_spec (totalNodes batched) (length (m_Graph s))) as [Hlt|Hge];
      cbn in Hrun.
    + rewrite totalNodes_concat in Hlt.
      destruct (some_unrecorded _ Hok _ Hlt) as (m & Hm & Hn).
      exact (unrecorded_cause _ _ m Hcomp Hm Hn).
    + destruct (run_batches (m_Graph s) batched) as [[ex g']|]; discriminate.
  - cbn in Hrun.
    destruct (run_batches (m_Graph s) (m_BatchedGraph s)) as [[ex g']|]; discriminate.
Qed.

(** X20.  On a scheduler whose graph is not empty and is as [AddSystem]
    keeps it while every name is added once, without a dependency cycle,
    without a missing dependency and with a function in every node,
    [RunGraph] ends without error and leaves the graph as it was and not
    dirty; the batches hold every name of the graph exactly once, every
    dependency of a member of a batch is in an earlier batch, and the
    functions executed are, batch by batch, those of the names. *)
Theorem X20_RunGraph_runs_all_in_layers s :
  sched_ok s = true →
  m_Graph s ≠ [] →
  ¬ has_cycle (m_Graph s) →
  ¬ has_missing_dependency (m_Graph s) →
  (∀ name node, (name, node) ∈ m_Graph s → is_Some (Func node)) →
  ∃ s' executed,
    RunGraph s = Some (s', Done, executed)
    ∧ m_Graph s' = m_Graph s
    ∧ m_GraphDirty s' = false
    ∧ NoDup (concat (m_BatchedGraph s'))
    ∧ (∀ x, x ∈ concat (m_BatchedGraph s') ↔ x ∈ names (m_Graph s))
    ∧ layered (m_Graph s) (m_BatchedGraph s')
    ∧ Forall2 (Forall2 (λ name f, func_of (m_Graph s) name = Some f))
              (m_BatchedGraph s') executed.
Proof.
  intros Hs Hne Hnc Hnm Hfun. pose proof Hs as [Hok Hb]%andb_true_iff.
  destruct (RebuildGraph_full s Hok) as (batched & Hr & Hnd & Hin & Hlay & Hcomp).
  assert (Hall : ∀ m, m ∈ names (m_Graph s) → m ∈ concat batched).
  { intros m Hm. destruct (decide (m ∈ concat batched)) as [|Hn]; [assumption|].
    destruct (unrecorded_cause _ _ m Hcomp Hm Hn); contradiction. }
  assert (Hge : (totalNodes batched <? length (m_Graph s))%nat = false).
  { apply Nat.ltb_ge. rewrite totalNodes_concat.
    assert (Hsub : names (m_Graph s) ⊆+ concat batched)
      by (apply NoDup_submseteq; [exact (graph_ok_NoDup _ Hok) | exact Hall]).
    apply submseteq_length in Hsub. unfold names in Hsub. rewrite length_map in Hsub. exact Hsub. }
  rewrite Hge in Hr.
  assert (Hf : ∀ x, x ∈ concat batched → is_Some (func_of (m_Graph s) x)).
  { intros x Hx. destruct (graph_index_names (m_Graph s) x (Hin x Hx)) as (node & Hfind & _).
    unfold func_of. rewrite Hfind. cbn. apply (Hfun x node).
    apply graph_find_elem. exact Hfind. }
  destruct (run_batches_Some (m_Graph s) batched Hin Hf) as (executed & Hrb & Hex).
  assert (Hrun : ∀ dirty, (dirty = true ∨ m_BatchedGraph s = batched) →
            m_GraphDirty s = dirty →
            ∃ s', RunGraph s = Some (s', Done, executed)
                  ∧ m_Graph s' = m_Graph s ∧ m_GraphDirty s' = false
                  ∧ m_BatchedGraph s' = batched).
  { intros dirty Hcase Hdirty. unfold RunGraph.
    destruct (m_Graph s) as [|entry rest] eqn:Hg; [contradiction|].
    rewrite <- Hg in *. rewrite Hdirty. destruct dirty.
    - rewrite Hr. cbn. rewrite Hrb. cbn. eexists. repeat split.
    - destruct Hcase as [|Hsame]; [discriminate|]. cbn. rewrite Hsame, Hrb. cbn.
      rewrite Hdirty. eexists. repeat split. }
  destruct (Hrun (m_GraphDirty s)) as (s' & Hgo & Hg' & Hd' & Hb'); [|reflexivity|].
  { destruct (m_GraphDirty s); [left; reflexivity|right].
    cbn in Hb. rewrite Hr in Hb. apply bool_decide_eq_true in Hb. cbn in Hb. auto. }
  exists s', executed. rewrite Hb'. repeat split; auto.
Qed.

Lemma RunGraph_clean (g : Graph) (batched : list (list string)) :
  g ≠ [] →
  RunGraph (Mk g batched false)
  = '(executed, g') ← run_batches g batched; Some (Mk g' batched false, Done, executed).
Proof. intros Hne. destruct g; [contradiction | reflexivity]. Qed.

(** X21.  After a [RunGraph] that ended without error, a second [RunGraph]
    does not rebuild: it executes the same functions in the same batches
    and leaves the scheduler as it is. *)
Theorem X21_RunGraph_again s s' executed :
  sched_ok s = true →
  RunGraph s = Some (s', Done, executed) →
  RunGraph s' = Some (s', Done, executed).
Proof.
  intros Hs Hrun. pose proof Hs as [Hok Hb]%andb_true_iff.
  destruct (RebuildGraph_spec s Hok) as (batched & Hr & _ & Hin & _).
  unfold RunGraph in Hrun.
  destruct (m_Graph s) as [|entry rest] eqn:Hg.
  { inversion Hrun; subst s' executed. unfold RunGraph. rewrite Hg. reflexivity. }
  assert (Hne : m_Graph s ≠ []) by (rewrite Hg; discriminate).
  rewrite <- Hg in *.
  assert (Hagain : ∀ b ex g', (∀ x, x ∈ concat b → x ∈ names (m_Graph s)) →
            run_batches (m_Graph s) b = Some (ex, g') →
            RunGraph (Mk g' b false) = Some (Mk g' b false, Done, ex)).
  { intros b ex g' Hb' Hrb. pose proof (run_batches_graph _ _ Hb' _ _ Hrb) as ->.
    rewrite (RunGraph_clean _ _ Hne), Hrb. reflexivity. }
  destruct (m_GraphDirty s) eqn:Hdirty.
  - rewrite Hr in Hrun.
    destruct (Nat.ltb_spec (totalNodes batched) (length (m_Graph s))) as [Hlt|Hge];
      cbn in Hrun; [discriminate|].
    destruct (run_batches (m_Graph s) batched) as [[ex g']|] eqn:Hrb; [|discriminate].
    cbn in Hrun. inversion Hrun; subst s' executed. exact (Hagain _ _ _ Hin Hrb).
  - cbn in Hb, Hrun. rewrite Hr in Hb.
    destruct (Nat.ltb_spec (totalNodes batched) (length (m_Graph s))) as [Hlt|Hge];
      [discriminate|].
    apply bool_decide_eq_true in Hb. cbn in Hb. subst batched.
    destruct (run_batches (m_Graph s) (m_BatchedGraph s)) as [[ex g']|] eqn:Hrb; [|discriminate].
    cbn in Hrun. inversion Hrun; subst s' executed. rewrite Hdirty.
    exact (Hagain _ _ _ Hin Hrb).
Qed.

End SchedulerMore.

Lemma X19_witness :
  SystemScheduler.has_cycle (SystemScheduler.m_Graph sched_missing)
  ∨ SystemScheduler.has_missing_dependency (SystemScheduler.m_Graph sched_missing).
Proof.
  eapply (X19_cycle_error_has_cause sched_missing).
  - vm_compute. reflexivity.
  - vm_compute. reflexivity.
Defined.

Lemma sched_branches_acyclic :
  ¬ SystemScheduler.has_cycle (SystemScheduler.m_Graph sched_branches)
  ∧ ¬ SystemScheduler.has_missing_dependency (SystemScheduler.m_Graph sched_branches).
Proof.
  eapply (acyclic_by_rebuild sched_branches); vm_compute; reflexivity.
Qed.

Lemma sched_branches_funcs : ∀ name node,
  (name, node) ∈ SystemScheduler.m_Graph sched_branches → is_Some (SystemScheduler.Func node).
Proof.
  intros name node H. apply list_elem_of_In in H. vm_compute in H.
  repeat (destruct H as [H|H]; [inversion H; eexists; reflexivity|]). contradiction.
Qed.

Lemma X20_witness :
  ∃ s' executed,
    SystemScheduler.RunGraph sched_branches = Some (s', SystemScheduler.Done, executed)
    ∧ SystemScheduler.m_Graph s' = SystemScheduler.m_Graph sched_branches
    ∧ SystemScheduler.m_GraphDirty s' = false
    ∧ NoDup (concat (SystemScheduler.m_BatchedGraph s'))
    ∧ (∀ x, x ∈ concat (SystemScheduler.m_BatchedGraph s')
            ↔ x ∈ SystemScheduler.names (SystemScheduler.m_Graph sched_branches))
    ∧ layered (SystemScheduler.m_Graph sched_branches) (SystemScheduler.m_BatchedGraph s')
    ∧ Forall2 (Forall2 (λ name f,
                 func_of (SystemScheduler.m_Graph sched_branches) name = Some f))
              (SystemScheduler.m_BatchedGraph s') executed.
Proof.
  apply (X20_RunGraph_runs_all_in_layers sched_branches).
  - vm_compute. reflexivity.
  - vm_compute. discriminate.
  - exact (proj1 sched_branches_acyclic).
  - exact (proj2 sched_branches_acyclic).
  - exact sched_branches_funcs.
Defined.

Lemma X21_witness :
  ∃ s' executed,
    SystemScheduler.RunGraph sched_chain = Some (s', SystemScheduler.Done, executed)
    ∧ SystemScheduler.RunGraph s' = Some (s', SystemScheduler.Done, executed).
Proof.
  eexists _, _. split.
  - vm_compute. reflexivity.
  - apply (X21_RunGraph_again sched_chain); vm_compute; reflexivity.
Defined.

Lemma sched_chain_built : built sched_chain.
Proof.
  unfold sched_chain.
  repeat (apply built_add; [|rewrite list_elem_of_In; vm_compute; intuition discriminate]).
  apply built_empty.
Qed.

Lemma X22_witness : SystemScheduler.sched_ok sched_chain = true.
Proof. apply (built_ok sched_chain). exact sched_chain_built. Defined.

(** ** SystemScheduler.cpp: what [AddSystem] stores *)

Section AddSystemFacts.

Import SystemScheduler.

Implicit Types (g : Graph) (name k : string).

(** The function and the dependencies of every node are the same in both
    graphs. *)
Lemma same_data_names g g' :
  (∀ k, (λ node, (Func node, Dependencies node)) <$> graph_find g' k
        = (λ node, (Func node, Dependencies node)) <$> graph_find g k) →
  ∀ k, k ∈ names g' ↔ k ∈ names g.
Proof.
  intros H k. rewrite <- !graph_find_names. specialize (H k).
  destruct (graph_find g' k), (graph_find g k); try discriminate; split; eauto;
    intros [? [=]].
Qed.

Lemma push_dependent_data g dep x :
  dep ∈ names g →
  ∀ k, (λ node, (Func node, Dependencies node)) <$> graph_find (push_dependent g dep x) k
       = (λ node, (Func node, Dependencies node)) <$> graph_find g k.
Proof.
  intros Hdep k. unfold push_dependent.
  destruct (graph_index_names g dep Hdep) as (node & Hf & ->).
  rewrite graph_find_set. case_bool_decide as Hk; [subst k; rewrite Hf|]; reflexivity.
Qed.

Lemma first_loop_data name (L : list string) : ∀ g k,
  (λ node, (Func node, Dependencies node))
    <$> graph_find (fold_left
                      (λ g dep, if graph_find g dep is Some _
                                then push_dependent g dep name else g) L g) k
  = (λ node, (Func node, Dependencies node)) <$> graph_find g k.
Proof.
  induction L as [|dep L IH]; intros g k; cbn [fold_left]; [reflexivity|].
  rewrite IH. destruct (graph_find g dep) as [node|] eqn:Hf; [|reflexivity].
  apply push_dependent_data, graph_find_names. eauto.
Qed.

Lemma inner_loop_data name (other : string) (L : list string) : ∀ g k,
  name ∈ names g →
  (λ node, (Func node, Dependencies node))
    <$> graph_find (fold_left
                      (λ g dep, if bool_decide (dep = name)
                                then push_dependent g name other else g) L g) k
  = (λ node, (Func node, Dependencies node)) <$> graph_find g k.
Proof.
  induction L as [|dep L IH]; intros g k Hname; cbn [fold_left]; [reflexivity|].
  case_bool_decide; [|apply IH, Hname].
  rewrite IH.
  - apply push_dependent_data, Hname.
  - apply (same_data_names g); [apply push_dependent_data, Hname | exact Hname].
Qed.

Lemma second_loop_data name (l : Graph) : ∀ g k,
  name ∈ names g →
  (λ node, (Func node, Dependencies node))
    <$> graph_find (fold_left
                      (λ g '(otherName, otherNode),
                         if bool_decide (otherName = name) then g
                         else
                           fold_left
                             (λ g dep, if bool_decide (dep = name)
                                       then push_dependent g name otherName else g)
                             (Dependencies otherNode) g) l g) k
  = (λ node, (Func node, Dependencies node)) <$> graph_find g k.
Proof.
  induction l as [|[otherName otherNode] l IH]; intros g k Hname; cbn [fold_left]; [reflexivity|].
  case_bool_decide; [apply IH, Hname|].
  rewrite IH.
  - apply inner_loop_data, Hname.
  - apply (same_data_names g); [intros k'; apply inner_loop_data, Hname | exact Hname].
Qed.

(** X27.  [AddSystem(name, system, dependencies)], on any scheduler: the
    node of [name] has the function and the dependencies given, whether the
    name is new or was there; every other node keeps its function and its
    dependencies; the names of the graph are those it had and [name]; the
    graph is marked dirty, so that the next [RunGraph] rebuilds the batches,
    which are left as they are until then. *)
Theorem X27_AddSystem_stores (s : SystemScheduler.t) name (system : option nat)
    (dependencies : list string) :
  func_of (m_Graph (AddSystem s name system dependencies)) name = system
  ∧ dependencies_of (m_Graph (AddSystem s name system dependencies)) name = dependencies
  ∧ (∀ k, k ≠ name →
       func_of (m_Graph (AddSystem s name system dependencies)) k = func_of (m_Graph s) k
       ∧ dependencies_of (m_Graph (AddSystem s name system dependencies)) k
         = dependencies_of (m_Graph s) k)
  ∧ (∀ k, k ∈ names (m_Graph (AddSystem s name system dependencies))
          ↔ k = name ∨ k ∈ names (m_Graph s))
  ∧ m_GraphDirty (AddSystem s name system dependencies) = true
  ∧ m_BatchedGraph (AddSystem s name system dependencies) = m_BatchedGraph s.
Proof.
  unfold AddSystem.
  set (node := MkNode name system dependencies []).
  set (g1 := graph_set (m_Graph s) name node).
  assert (Hf1 : ∀ k, graph_find g1 k
                     = if bool_decide (name = k) then Some node else graph_find (m_Graph s) k)
    by (intros k; apply graph_find_set).
  assert (Hname1 : name ∈ names g1).
  { apply graph_find_names. rewrite Hf1, bool_decide_true by reflexivity. eauto. }
  destruct (graph_index_names g1 name Hname1) as (added & Hfa & ->).
  rewrite Hf1, bool_decide_true in Hfa by reflexivity. inversion Hfa; subst added. clear Hfa.
  cbn [Dependencies node m_Graph m_GraphDirty m_BatchedGraph].
  match goal with |- context [func_of ?g name] => set (g3 := g) end.
  assert (Hdata : ∀ k, (λ node, (Func node, Dependencies node)) <$> graph_find g3 k
                       = (λ node, (Func node, Dependencies node)) <$> graph_find g1 k).
  { intros k. unfold g3. rewrite second_loop_data.
    - apply first_loop_data.
    - apply (same_data_names g1); [intros k'; apply first_loop_data | exact Hname1]. }
  assert (Hfunc : ∀ k, func_of g3 k = func_of g1 k).
  { intros k. specialize (Hdata k). unfold func_of.
    destruct (graph_find g3 k), (graph_find g1 k); cbn in *; congruence. }
  assert (Hdeps : ∀ k, dependencies_of g3 k = dependencies_of g1 k).
  { intros k. specialize (Hdata k). unfold dependencies_of.
    destruct (graph_find g3 k), (graph_find g1 k); cbn in *; congruence. }
  split; [rewrite Hfunc; unfold func_of; rewrite Hf1, bool_decide_true by reflexivity; reflexivity|].
  split; [rewrite Hdeps; unfold dependencies_of; rewrite Hf1, bool_decide_true by reflexivity;
          reflexivity|].
  split.
  { intros k Hk. rewrite Hfunc, Hdeps. unfold func_of, dependencies_of.
    rewrite Hf1, bool_decide_false by congruence. auto. }
  split; [|split; reflexivity].
  intros k. rewrite (same_data_names g1 g3 Hdata k), <- !graph_find_names, Hf1.
  case_bool_decide as Hk.
  - subst k. split; [auto | eauto].
  - split; [auto|]. intros [->|H]; [contradiction | exact H].
Qed.

End AddSystemFacts.

(** ** Prefab.cpp, Serialization.cpp: components from JSON fields *)

Section PrefabFacts.

Import World SerializationContext PrefabManager.

Context {Component Json : Type}.

Implicit Types (w : World.t Component) (ctx : SerializationContext.t Component Json).







End PrefabFacts.

(** ** Serialization.hpp: registration *)

Section RegistrationFacts.

Import SerializationContext.

Context {Component Json : Type}.

Implicit Types (ctx : SerializationContext.t Component Json)
  (serializer : ComponentSerializer Component Json).

Lemma store_serializer_spec ctx cid key serializer :
  ∃ ctx',
    store_serializer ctx cid key serializer = Some ctx'
    ∧ m_SerializersByName ctx' = <[key := serializer]> (m_SerializersByName ctx)
    ∧ m_SerializersByID ctx' !! N.to_nat cid = Some (Some key)
    ∧ (∀ i other, i ≠ N.to_nat cid →
         (m_SerializersByID ctx' !! i = Some (Some other)
          ↔ m_SerializersByID ctx !! i = Some (Some other)))
    ∧ m_ComponentTypeToName ctx' = <[cid := key]> (m_ComponentTypeToName ctx)
    ∧ m_Reporter ctx' = m_Reporter ctx.
Proof.
  unfold store_serializer, vec_set.
  pose proof (grow_to_id_length (m_SerializersByID ctx) cid Datatypes.None) as Hlen.
  destruct (Nat.ltb_spec (N.to_nat cid) (length (World.grow_to_id (m_SerializersByID ctx) cid Datatypes.None)));
    [|lia].
  cbn. eexists. split; [reflexivity|]. cbn.
  split; [reflexivity|]. split; [apply list_lookup_insert_eq; exact Hlen|].
  split; [|split; reflexivity].
  intros i other Hi. rewrite list_lookup_insert_ne by auto. split.
  - intros [Hold|Hnew]%grow_to_id_new; [exact Hold | discriminate].
  - apply grow_to_id_old.
Qed.

Lemma ctx_ok_empty : ctx_ok (SerializationContext.empty : SerializationContext.t Component Json).
Proof.
  constructor; cbn.
  - intros key serializer H. rewrite lookup_empty in H. discriminate.
  - intros cid key H. destruct cid; discriminate.
  - intros key serializer c fn H. rewrite lookup_empty in H. discriminate.
Qed.


(** What keeps [ctx_ok]: an element stored under its name, for the type
    with id [cid], whose binary functions are those that were there, or a
    pair that fits together. *)
Lemma store_serializer_ok ctx cid key serializer ctx' :
  ctx_ok ctx → name_free_for ctx key cid →
  name serializer = key → id serializer = cid →
  (∀ c serialize_fn, binarySerialize serializer = Some (c, serialize_fn) →
     c = cid ∧ N.of_nat (String.length key) < 2 ^ 32
     ∧ ∃ deserialize_fn, binaryDeserialize serializer = Some (c, deserialize_fn)
                         ∧ reads_back serialize_fn deserialize_fn) →
  store_serializer ctx cid key serializer = Some ctx' →
  ctx_ok ctx'.
Proof.
  intros [Hname Hptr Hbin] Hfree Hn Hi Hb Hstore.
  destruct (store_serializer_spec ctx cid key serializer)
    as (ctx'' & Hs & HbyName & Hat & Hother & _ & _).
  rewrite Hstore in Hs. inversion Hs; subst ctx''. clear Hs.
  constructor.
  - intros k s. rewrite HbyName. intros [[<- <-]|[_ Hold]]%lookup_insert_Some; [exact Hn|].
    exact (Hname _ _ Hold).
  - intros i k Hk. rewrite HbyName. destruct (decide (i = N.to_nat cid)) as [->|Hne].
    + rewrite Hat in Hk. inversion Hk; subst k. exists serializer.
      rewrite lookup_insert_eq, N2Nat.id. auto.
    + apply Hother in Hk; [|exact Hne]. destruct (Hptr i k Hk) as (s & Hsk & Hid).
      destruct (decide (k = key)) as [->|Hkey].
      * exfalso. apply Hne. rewrite <- (Hfree s Hsk), Hid, Nat2N.id. reflexivity.
      * exists s. rewrite lookup_insert_ne by auto. auto.
  - intros k s c fn. rewrite HbyName.
    intros [[<- <-]|[_ Hold]]%lookup_insert_Some Hfn.
    + destruct (Hb c fn Hfn) as (-> & Hlen & Hde). rewrite Hi. auto.
    + exact (Hbin _ _ _ _ Hold Hfn).
Qed.

Lemma RegisterBinary_ok ctx (cid : N) (key : string) serialize_fn deserialize_fn ctx' :
  ctx_ok ctx → name_free_for ctx key cid →
  N.of_nat (String.length key) < 2 ^ 32 → reads_back serialize_fn deserialize_fn →
  RegisterBinary ctx cid key serialize_fn deserialize_fn = Some ctx' →
  ctx_ok ctx'.
Proof.
  intros Hok Hfree Hlen Hback Hreg. unfold RegisterBinary in Hreg.
  apply (store_serializer_ok ctx cid key _ ctx' Hok Hfree) in Hreg; try reflexivity; [exact Hreg|].
  intros c fn Hfn. cbn in Hfn. inversion Hfn; subst c fn.
  split; [reflexivity|]. split; [exact Hlen|]. exists deserialize_fn. auto.
Qed.

Lemma Register_ok ctx (cid : N) (key : string) serialize_fn deserialize_fn ctx' :
  ctx_ok ctx → name_free_for ctx key cid →
  Register ctx cid key serialize_fn deserialize_fn = Some ctx' →
  ctx_ok ctx'.
Proof.
  intros Hok Hfree Hreg. unfold Register in Hreg.
  apply (store_serializer_ok ctx cid key _ ctx' Hok Hfree) in Hreg; try reflexivity; [exact Hreg|].
  intros c fn Hfn. cbn in Hfn. unfold serializer_at in *.
  destruct (m_SerializersByName ctx !! key) as [old|] eqn:Hold; [|discriminate].
  cbn in Hfn. destruct (co_binary ctx Hok key old c fn Hold Hfn) as (Hc & Hlen & Hde).
  split; [rewrite Hc; exact (Hfree old Hold)|]. split; [exact Hlen|]. exact Hde.
Qed.

(** X24.  Registration keeps a context in which every name stands for one
    type: on such a context, for a name that is new or was registered for
    the same type, [RegisterBinary<T>] (with a name shorter than [2^32] and
    a deserializer that reads back what the serializer writes) and
    [Register<T>] give such a context again; the pointer and the name of the
    type lead to the element of the name, which holds the functions just
    given and keeps the functions of the other format; the elements of the
    other names are as they were. *)
Theorem X24_registration ctx (cid : N) (key : string) :
  ctx_ok ctx → name_free_for ctx key cid →
  (∀ serialize_fn deserialize_fn,
     N.of_nat (String.length key) < 2 ^ 32 → reads_back serialize_fn deserialize_fn →
     ∃ ctx' serializer,
       RegisterBinary ctx cid key serialize_fn deserialize_fn = Some ctx'
       ∧ ctx_ok ctx'
       ∧ m_SerializersByID ctx' !! N.to_nat cid = Some (Some key)
       ∧ m_ComponentTypeToName ctx' !! cid = Some key
       ∧ m_SerializersByName ctx' !! key = Some serializer
       ∧ binarySerialize serializer = Some (cid, serialize_fn)
       ∧ binaryDeserialize serializer = Some (cid, deserialize_fn)
       ∧ serialize serializer = serialize (serializer_at ctx key)
       ∧ deserialize serializer = deserialize (serializer_at ctx key)
       ∧ has_binary ctx' cid = true
       ∧ ∀ other, other ≠ key →
           m_SerializersByName ctx' !! other = m_SerializersByName ctx !! other)
  ∧ (∀ serialize_fn deserialize_fn,
     ∃ ctx' serializer,
       Register ctx cid key serialize_fn deserialize_fn = Some ctx'
       ∧ ctx_ok ctx'
       ∧ m_SerializersByID ctx' !! N.to_nat cid = Some (Some key)
       ∧ m_ComponentTypeToName ctx' !! cid = Some key
       ∧ m_SerializersByName ctx' !! key = Some serializer
       ∧ serialize serializer = Some (cid, serialize_fn)
       ∧ deserialize serializer = Some (cid, deserialize_fn)
       ∧ binarySerialize serializer = binarySerialize (serializer_at ctx key)
       ∧ binaryDeserialize serializer = binaryDeserialize (serializer_at ctx key)
       ∧ ∀ other, other ≠ key →
           m_SerializersByName ctx' !! other = m_SerializersByName ctx !! other).
Proof.
  intros Hok Hfree. split.
  - intros ser de Hlen Hback.
    pose proof (RegisterBinary_ok ctx cid key ser de) as Hkeep. unfold RegisterBinary in *.
    set (s := MkSerializer _ _ _ _ _ _) in *.
    destruct (store_serializer_spec ctx cid key s) as (ctx' & Hs & HbyName & Hat & _ & Htype & _).
    exists ctx', s. split; [exact Hs|]. split; [exact (Hkeep ctx' Hok Hfree Hlen Hback Hs)|].
    split; [exact Hat|]. split; [rewrite Htype; apply lookup_insert_eq|].
    split; [rewrite HbyName; apply lookup_insert_eq|].
    split; [reflexivity|]. split; [reflexivity|]. split; [reflexivity|]. split; [reflexivity|].
    split.
    { unfold has_binary. rewrite Hat, HbyName, lookup_insert_eq. reflexivity. }
    intros other Hne. rewrite HbyName. apply lookup_insert_ne. auto.
  - intros ser de.
    pose proof (Register_ok ctx cid key ser de) as Hkeep. unfold Register in *.
    set (s := MkSerializer _ _ _ _ _ _) in *.
    destruct (store_serializer_spec ctx cid key s) as (ctx' & Hs & HbyName & Hat & _ & Htype & _).
    exists ctx', s. split; [exact Hs|]. split; [exact (Hkeep ctx' Hok Hfree Hs)|].
    split; [exact Hat|]. split; [rewrite Htype; apply lookup_insert_eq|].
    split; [rewrite HbyName; apply lookup_insert_eq|].
    split; [reflexivity|]. split; [reflexivity|]. split; [reflexivity|]. split; [reflexivity|].
    intros other Hne. rewrite HbyName. apply lookup_insert_ne. auto.
Qed.


Lemma RegisterBinary_ids_small ctx (cid : N) (key : string) serialize_fn deserialize_fn ctx' :
  json_ids_small ctx →
  RegisterBinary ctx cid key serialize_fn deserialize_fn = Some ctx' → json_ids_small ctx'.
Proof.
  intros Hsmall Hreg. unfold RegisterBinary in Hreg.
  match type of Hreg with store_serializer _ _ _ ?s = _ =>
    destruct (store_serializer_spec ctx cid key s) as (ctx'' & Hs & HbyName & _) end.
  rewrite Hreg in Hs. inversion Hs; subst ctx''.
  intros k s c fn. rewrite HbyName.
  intros [[<- <-]|[_ Hold]]%lookup_insert_Some Hfn.
  - cbn in Hfn. unfold serializer_at in Hfn.
    destruct (m_SerializersByName ctx !! key) as [old|] eqn:Hold; [|discriminate].
    exact (Hsmall _ _ _ _ Hold Hfn).
  - exact (Hsmall _ _ _ _ Hold Hfn).
Qed.

End RegistrationFacts.
(** ** Serialization.cpp: the binary format *)

Lemma le_bytes_length (n : nat) : ∀ x, length (le_bytes n x) = n.
Proof. induction n as [|n IH]; intros x; cbn [le_bytes length]; [|rewrite IH]; reflexivity. Qed.

Lemma byte_of_to_N (x : N) : x < 256 → Byte.to_N (default Byte.x00 (Byte.of_N x)) = x.
Proof.
  intros Hx. destruct (Byte.of_N x) as [b|] eqn:E.
  - exact (Byte.to_of_N x E).
  - apply Byte.of_N_None_iff in E. lia.
Qed.

Lemma le_value_le_bytes (n : nat) : ∀ x, le_value (le_bytes n x) = x mod 256 ^ N.of_nat n.
Proof.
  induction n as [|n IH]; intros x.
  - cbn [le_bytes le_value]. change (256 ^ N.of_nat 0) with 1. rewrite N.mod_1_r. reflexivity.
  - cbn [le_bytes le_value]. rewrite IH, byte_of_to_N by (apply N.mod_lt; discriminate).
    rewrite Nat2N.inj_succ, N.pow_succ_r'. symmetry. apply N.Div0.mod_mul_r.
Qed.

Lemma le_value_4 (x : N) : x < 2 ^ 32 → le_value (le_bytes 4 x) = x.
Proof.
  intros Hx. rewrite le_value_le_bytes. change (256 ^ N.of_nat 4) with (2 ^ 32).
  apply N.mod_small, Hx.
Qed.

Lemma le_value_8 (x : N) : x < 2 ^ 64 → le_value (le_bytes 8 x) = x.
Proof.
  intros Hx. rewrite le_value_le_bytes. change (256 ^ N.of_nat 8) with (2 ^ 64).
  apply N.mod_small, Hx.
Qed.

Lemma read_app (bytes rest : list Byte.byte) :
  read (MkIn (bytes ++ rest) true) (length bytes) = (Some bytes, MkIn rest true).
Proof.
  unfold read. cbn [in_good in_bytes]. rewrite length_app.
  destruct (Nat.leb_spec (length bytes) (length bytes + length rest)); [|lia].
  rewrite take_app_length, drop_app_length. reflexivity.
Qed.

Lemma read_le (n : nat) (x : N) (rest : list Byte.byte) :
  read (MkIn (le_bytes n x ++ rest) true) n = (Some (le_bytes n x), MkIn rest true).
Proof. rewrite <- (le_bytes_length n x) at 2. apply read_app. Qed.

Lemma list_byte_of_string_length (s : string) :
  length (String.list_byte_of_string s) = String.length s.
Proof.
  unfold String.list_byte_of_string. rewrite length_map.
  induction s as [|a s IH]; cbn [String.list_ascii_of_string String.length length];
    [|rewrite IH]; reflexivity.
Qed.

Section BinaryEquations.

Import World SerializationContext.

Context {Component Json : Type}.

Implicit Types (w : World.t Component) (ctx : SerializationContext.t Component Json).

Lemma read_components_S ctx newId (turns : nat) w stream calls :
  read_components ctx newId (S turns) w stream calls
  = (let '(nameLen, stream) := read stream 4 in
     match nameLen with
     | Datatypes.None => Some (Continue, w, stream, calls, [])
     | Some nameLen =>
         let '(key, stream) := read stream (N.to_nat (le_value nameLen)) in
         match key with
         | Datatypes.None => Some (Continue, w, stream, calls, [])
         | Some key =>
             let key := String.string_of_list_byte key in
             match binaryDeserialize <$> m_SerializersByName ctx !! key with
             | Some (Some (c, deserialize_fn)) =>
                 let '(component, stream) := deserialize_fn stream in
                 '(w, fired) ← World.AddComponent w c newId component;
                 read_components ctx newId turns w stream (calls ++ fired)
             | _ =>
                 let res := Result.Error ErrorCode.ComponentNotRegistered
                              ("Component not registered or lacks binary deserializer: "
                               +:+ key) in
                 Some (Return res, w, stream, calls, report (SerializationContext.m_Reporter ctx) res)
             end
         end
     end).
Proof. reflexivity. Qed.

Lemma read_entities_S ctx (turns : nat) w stream calls :
  read_entities ctx (S turns) w stream calls
  = (let '(entity, stream) := read stream 8 in
     match entity with
     | Datatypes.None => Some (Result.Ok, w, stream, calls, [])
     | Some entity =>
         '(newId, w) ← World.CreateEntity_id w (le_value entity);
         let '(componentCount, stream) := read stream 4 in
         match componentCount with
         | Datatypes.None => Some (Result.Ok, w, stream, calls, [])
         | Some componentCount =>
             '(flow, w, stream, calls, reported) ←
               read_components ctx newId (N.to_nat (le_value componentCount)) w stream calls;
             match flow with
             | Return res => Some (res, w, stream, calls, reported)
             | Continue => read_entities ctx turns w stream calls
             end
         end
     end).
Proof. reflexivity. Qed.

Lemma write_components_cons ctx entity mask (cid : nat) (rest : list nat) w os :
  write_components ctx entity mask (cid :: rest) w os
  = (found ← binary_at ctx mask (N.of_nat cid);
     match found with
     | Some (key, (c, serialize_fn)) =>
         let nameLen := u32 (N.of_nat (String.length key)) in
         let os := os ++ le_bytes 4 nameLen in
         let os := os ++ take (N.to_nat nameLen) (String.list_byte_of_string key) in
         '(component, w) ← World.GetComponent w c entity;
         write_components ctx entity mask rest w (os ++ serialize_fn component)
     | Datatypes.None => write_components ctx entity mask rest w os
     end).
Proof. reflexivity. Qed.

Lemma write_entities_cons ctx (i : nat) (rest : list nat) w os :
  write_entities ctx (i :: rest) w os
  = (entity ← World.GetEntityAt w (N.of_nat i);
     alive ← World.IsAlive w entity;
     if alive : bool then
       let os := os ++ le_bytes 8 entity in
       mask ← World.GetEntityMask w entity;
       let cids := seq 0 (length (m_SerializersByID ctx)) in
       componentCount ← count_components ctx mask cids 0;
       let os := os ++ le_bytes 4 componentCount in
       '(os, w) ← write_components ctx entity mask cids w os;
       write_entities ctx rest w os
     else write_entities ctx rest w os).
Proof. reflexivity. Qed.

(** [CreateEntity(id)] for the index just past the last slot. *)
Lemma CreateEntity_id_append w id :
  world_inv w → is_u64 id → m_FreeEntities w = [] →
  N.to_nat (Internal.GetIndex id) = length (m_EntitySignatures w) →
  Internal.GetIndex id + 1 < 2 ^ 32 →
  ∃ w',
    CreateEntity_id w id = Some (id, w')
    ∧ m_EntitySignatures w' = m_EntitySignatures w ++ [ComponentMask.Make 0]
    ∧ m_EntityGenerations w' = m_EntityGenerations w ++ [Internal.GetGeneration id]
    ∧ m_FreeEntities w' = []
    ∧ m_ComponentSignals w' = m_ComponentSignals w
    ∧ m_ComponentStores w' = m_ComponentStores w.
Proof.
  intros Hinv Hu Hfree Hidx Hsmall. unfold CreateEntity_id.
  set (index := Internal.GetIndex id) in *. set (n := length (m_EntitySignatures w)) in *.
  destruct (Nat.leb_spec n (N.to_nat index)) as [_|]; [|lia].
  assert (H32 : N.to_nat (u32 (index + 1)) = S n).
  { unfold u32. rewrite N.mod_small by exact Hsmall. lia. }
  rewrite H32.
  assert (Hs : resize (S n) (ComponentMask.Make 0) (m_EntitySignatures w)
               = m_EntitySignatures w ++ [ComponentMask.Make 0]).
  { rewrite resize_ge by (fold n; lia). fold n. replace (S n - n)%nat with 1%nat by lia. reflexivity. }
  assert (Hg : resize (S n) 0 (m_EntityGenerations w) = m_EntityGenerations w ++ [0]).
  { rewrite resize_ge by (rewrite (wi_len w Hinv); fold n; lia).
    rewrite (wi_len w Hinv). fold n. replace (S n - n)%nat with 1%nat by lia. reflexivity. }
  wsimpl. rewrite Hs, Hg. unfold IsAlive. wsimpl. fold index. rewrite length_app. cbn [length].
  fold n. rewrite Hidx.
  destruct (Nat.ltb_spec n (n + 1)) as [_|]; [|lia].
  assert (Hgn : (m_EntityGenerations w ++ [0]) !! n = Some 0).
  { rewrite lookup_app_r by (rewrite (wi_len w Hinv); fold n; lia).
    rewrite (wi_len w Hinv). fold n. rewrite Nat.sub_diag. reflexivity. }
  assert (Hsn : (m_EntitySignatures w ++ [ComponentMask.Make 0]) !! n = Some (ComponentMask.Make 0)).
  { rewrite lookup_app_r by (fold n; lia). fold n. rewrite Nat.sub_diag. reflexivity. }
  rewrite Hgn. obind.
  destruct (N.eqb_spec 0 (Internal.GetGeneration id)) as [Hz|Hnz].
  - eexists. split; [reflexivity|]. wsimpl. rewrite <- Hz. auto.
  - wsimpl. rewrite Hfree. cbn [List.filter]. unfold vec_set. rewrite length_app. cbn [length].
    rewrite (wi_len w Hinv). fold n.
    destruct (Nat.ltb_spec n (n + 1)) as [_|]; [|lia]. obind. wsimpl. rewrite Hsn. obind.
    eexists. split; [reflexivity|]. wsimpl.
    split.
    { rewrite insert_app_r_alt by (fold n; lia). fold n. rewrite Nat.sub_diag. reflexivity. }
    split.
    { rewrite insert_app_r_alt by (rewrite (wi_len w Hinv); fold n; lia).
      rewrite (wi_len w Hinv). fold n. rewrite Nat.sub_diag. reflexivity. }
    auto.
Qed.

End BinaryEquations.

Section BinaryComponents.

Import World SerializationContext.

Context {Component Json : Type}.

Implicit Types (w : World.t Component).

Variable ctx : SerializationContext.t Component Json.
Hypothesis Hok : ctx_ok ctx.

Lemma has_binary_lt (c : N) :
  has_binary ctx c = true → (N.to_nat c < length (m_SerializersByID ctx))%nat.
Proof.
  unfold has_binary. destruct (m_SerializersByID ctx !! N.to_nat c) eqn:E; [|discriminate].
  intros _. eapply lookup_lt_Some, E.
Qed.

Lemma binary_at_chosen (mask : ComponentMask.t) (cid : nat) :
  (cid < length (m_SerializersByID ctx))%nat →
  if binary_chosen ctx mask (N.of_nat cid) then
    ∃ key serializer serialize_fn deserialize_fn,
      binary_at ctx mask (N.of_nat cid) = Some (Some (key, (N.of_nat cid, serialize_fn)))
      ∧ m_SerializersByName ctx !! key = Some serializer
      ∧ binaryDeserialize serializer = Some (N.of_nat cid, deserialize_fn)
      ∧ reads_back serialize_fn deserialize_fn
      ∧ N.of_nat (String.length key) < 2 ^ 32
      ∧ N.of_nat cid < 256
  else binary_at ctx mask (N.of_nat cid) = Some Datatypes.None.
Proof.
  intros Hlt. unfold binary_chosen, binary_at, has_binary, ComponentMask.Size.
  rewrite Nat2N.id.
  destruct (ComponentMask.Test mask (N.of_nat cid)) eqn:Ht;
    [|rewrite andb_false_r; reflexivity].
  pose proof (Test_lt _ _ Ht) as Hc.
  destruct (N.ltb_spec (N.of_nat cid) 256) as [_|]; [|lia]. cbn [andb].
  destruct (lookup_lt_is_Some_2 _ _ Hlt) as [pointer Hp]. rewrite Hp. obind.
  destruct pointer as [key|]; [|reflexivity].
  destruct (co_pointer ctx Hok cid key Hp) as (s & Hs & Hid). rewrite Hs. obind.
  destruct (binarySerialize s) as [[c fn]|] eqn:Hb; [|reflexivity].
  destruct (co_binary ctx Hok key s c fn Hs Hb) as (Hcid & Hlen & de & Hde & Hback).
  rewrite Hid in Hcid. subst c. cbn [bool_decide decide_rel].
  rewrite bool_decide_true by eauto.
  exists key, s, fn, de. rewrite (co_name ctx Hok key s Hs). auto 10.
Qed.

Lemma written_cons (mask : ComponentMask.t) (cid : nat) (cids : list nat) :
  written ctx mask (cid :: cids)
  = if binary_chosen ctx mask (N.of_nat cid)
    then N.of_nat cid :: written ctx mask cids
    else written ctx mask cids.
Proof. reflexivity. Qed.

Lemma written_elem (mask : ComponentMask.t) (cids : list nat) (c : N) :
  c ∈ written ctx mask cids ↔ N.to_nat c ∈ cids ∧ binary_chosen ctx mask c = true.
Proof.
  unfold written. rewrite list_elem_of_In, filter_In, <- list_elem_of_In, list_elem_of_fmap.
  split.
  - intros [(n & -> & Hn) Hc]. rewrite Nat2N.id. auto.
  - intros [Hn Hc]. split; [|exact Hc]. exists (N.to_nat c). rewrite N2Nat.id. auto.
Qed.

Lemma written_bound (mask : ComponentMask.t) (k : nat) : ∀ a,
  (length (written ctx mask (seq a k)) + Nat.min a 256 ≤ 256)%nat.
Proof.
  induction k as [|k IH]; intros a; [cbn; lia|].
  cbn [seq]. rewrite written_cons. specialize (IH (S a)).
  destruct (binary_chosen ctx mask (N.of_nat a)) eqn:Hc; [|lia].
  apply andb_true_iff in Hc as [Ht _]. apply Test_lt in Ht.
  cbn [length]. lia.
Qed.

Lemma count_components_spec (mask : ComponentMask.t) (k : nat) : ∀ a acc,
  (a + k ≤ length (m_SerializersByID ctx))%nat →
  acc + N.of_nat (length (written ctx mask (seq a k))) < 2 ^ 32 →
  count_components ctx mask (seq a k) acc
  = Some (acc + N.of_nat (length (written ctx mask (seq a k)))).
Proof.
  induction k as [|k IH]; intros a acc Hle Hacc.
  - cbn [seq written map List.filter length count_components]. rewrite N.add_0_r. reflexivity.
  - cbn [seq count_components] in *. rewrite written_cons in *.
    pose proof (binary_at_chosen mask a ltac:(lia)) as Hb.
    destruct (binary_chosen ctx mask (N.of_nat a)).
    + destruct Hb as (key & s & fn & de & -> & _). obind.
      cbn [length] in *. unfold u32. rewrite N.mod_small by lia.
      rewrite IH by lia. f_equal. lia.
    + rewrite Hb. obind. apply IH; [lia | exact Hacc].
Qed.

(** One [AddComponent] while a world without observers is restored. *)
Lemma restore_component w2 id (c : N) (v : Component) :
  reachable w2 → is_u64 id → IsAlive w2 id = Some true → m_ComponentSignals w2 = ∅ → c < 256 →
  ∃ w2',
    AddComponent w2 c id v = Some (w2', [])
    ∧ reachable w2'
    ∧ IsAlive w2' id = Some true
    ∧ m_ComponentSignals w2' = ∅
    ∧ m_EntityGenerations w2' = m_EntityGenerations w2
    ∧ m_FreeEntities w2' = m_FreeEntities w2
    ∧ length (m_EntitySignatures w2') = length (m_EntitySignatures w2)
    ∧ (∀ c', HasComponent w2' c' id = HasComponent w2 c' id || (c' =? c))
    ∧ SparseSet.Get (store_of w2' c) id = Some v
    ∧ (∀ c', c' ≠ c → store_of w2' c' = store_of w2 c')
    ∧ (∀ x c', Internal.GetIndex x ≠ Internal.GetIndex id →
         HasComponent w2' c' x = HasComponent w2 c' x
         ∧ SparseSet.Get (store_of w2' c') x = SparseSet.Get (store_of w2 c') x).
Proof.
  intros Hr Hu Halive Hsig Hc. pose proof (reachable_inv w2 Hr) as Hinv.
  pose proof Halive as [Hlt Hgen]%IsAlive_true.
  destruct (AddComponent_spec w2 c id v (wi_stores w2 Hinv c) Hlt (wi_trig w2 Hinv))
    as (w2' & sig & Hs & Hadd & P1 & P2 & P3 & P4 & P5 & P6 & P7 & P8 & P9 & P10 & P11
        & P12 & P13 & P14 & P15).
  rewrite Hsig, lookup_empty in Hadd, P15.
  exists w2'. split; [exact Hadd|].
  assert (Hlen : length (m_EntitySignatures w2') = length (m_EntitySignatures w2))
    by (rewrite P1; apply length_insert).
  assert (Halive' : IsAlive w2' id = Some true)
    by (rewrite (IsAlive_ext_len w2 w2' id Hlen P2); exact Halive).
  split.
  { apply (reach_step _ w2 (CallAddComponent c id v) w2' Hr).
    - cbn. unfold is_alive. rewrite Halive.
      apply andb_true_iff. split; [|reflexivity].
      apply andb_true_iff. split; apply N.ltb_lt; assumption.
    - cbn. rewrite Hadd. reflexivity. }
  split; [exact Halive'|]. split; [rewrite P4; exact Hsig|]. split; [exact P2|].
  split; [exact P3|]. split; [exact Hlen|]. split.
  { intros c'. rewrite (HasComponent_insert w2 w2' _ sig _ c' id Hs P1).
    rewrite decide_True by reflexivity. rewrite Test_SetBit.
    unfold HasComponent. rewrite Hs.
    destruct (N.ltb_spec c 256); [|lia]. rewrite andb_true_r. reflexivity. }
  split; [exact P15|]. split; [exact P7|].
  intros x c' Hx. split.
  - rewrite (HasComponent_insert w2 w2' _ sig _ c' x Hs P1).
    rewrite decide_False; [reflexivity|]. intros H. apply Hx. lia.
  - destruct (decide (c' = c)) as [->|Hne]; [|rewrite (P7 c' Hne); reflexivity].
    exact (AddComponent_others w2 c id v w2' [] x (wi_stores w2 Hinv c) Hlt Hadd Hx).
Qed.

End BinaryComponents.

Section BinaryRoundTrip.

Import World SerializationContext.

Context {Component Json : Type}.

Variable ctx : SerializationContext.t Component Json.
Hypothesis Hok : ctx_ok ctx.
Variable w : World.t Component.
Hypothesis Hr : reachable w.

(** A component of a live entity is read without a change of the world. *)
Lemma GetComponent_live (c : N) id :
  is_u64 id → IsAlive w id = Some true → HasComponent w c id = true →
  ∃ v, GetComponent w c id = Some (v, w) ∧ SparseSet.Get (store_of w c) id = Some v.
Proof.
  intros Hu Halive Hhas. pose proof (reachable_inv w Hr) as Hinv.
  pose proof (wi_bits w Hinv c id Hu Halive Hhas) as Hin.
  destruct (Get_spec (store_of w c) id (wi_stores w Hinv c) Hin) as [_ [v Hv]].
  destruct (wi_byid w Hinv c id Hhas) as (_ & _ & [s Hs]).
  exists v. split; [|exact Hv].
  assert (Hst : store_of w c = s) by (unfold store_of; rewrite Hs; reflexivity).
  unfold GetComponent, GetStore. rewrite Hs. rewrite Hst in Hv. rewrite Hv. reflexivity.
Qed.

Section OneEntity.

Variable id : EntityID.
Variable mask : ComponentMask.t.
Hypothesis Hu : is_u64 id.
Hypothesis Halive : IsAlive w id = Some true.
Hypothesis Hmask : ∀ c, HasComponent w c id = ComponentMask.Test mask c.

(** The components of one entity: what the writing loop appends, and what
    the reading loop does with it in a world without observers. *)
Lemma components_round (k : nat) : ∀ a,
  (a + k ≤ length (m_SerializersByID ctx))%nat →
  ∃ bytes,
    (∀ os, write_components ctx id mask (seq a k) w os = Some (os ++ bytes, w))
    ∧ ∀ w2 rest (turns : nat) calls,
        reachable w2 → IsAlive w2 id = Some true → m_ComponentSignals w2 = ∅ →
        ∃ w2',
          read_components ctx id (length (written ctx mask (seq a k)) + turns) w2
            (MkIn (bytes ++ rest) true) calls
          = read_components ctx id turns w2' (MkIn rest true) calls
          ∧ reachable w2'
          ∧ IsAlive w2' id = Some true
          ∧ m_ComponentSignals w2' = ∅
          ∧ m_EntityGenerations w2' = m_EntityGenerations w2
          ∧ m_FreeEntities w2' = m_FreeEntities w2
          ∧ length (m_EntitySignatures w2') = length (m_EntitySignatures w2)
          ∧ (∀ c, HasComponent w2' c id
                  = HasComponent w2 c id || bool_decide (c ∈ written ctx mask (seq a k)))
          ∧ (∀ c, c ∈ written ctx mask (seq a k) →
                  SparseSet.Get (store_of w2' c) id = SparseSet.Get (store_of w c) id)
          ∧ (∀ c, c ∉ written ctx mask (seq a k) → store_of w2' c = store_of w2 c)
          ∧ (∀ x c, Internal.GetIndex x ≠ Internal.GetIndex id →
                    HasComponent w2' c x = HasComponent w2 c x
                    ∧ SparseSet.Get (store_of w2' c) x = SparseSet.Get (store_of w2 c) x).
Proof.
  induction k as [|k IH]; intros a Hle.
  - exists []. split; [intros os; cbn [seq write_components]; rewrite app_nil_r; reflexivity|].
    intros w2 rest turns calls Hr2 Ha2 Hs2. exists w2.
    cbn [seq written map List.filter length Nat.add app].
    split; [reflexivity|]. split; [exact Hr2|]. split; [exact Ha2|]. split; [exact Hs2|].
    split; [reflexivity|]. split; [reflexivity|]. split; [reflexivity|].
    split; [intros c; rewrite bool_decide_false by (intros H; inversion H);
            rewrite orb_false_r; reflexivity|].
    split; [intros c H; inversion H|]. split; [reflexivity|]. intros x c _. split; reflexivity.
  - destruct (IH (S a) ltac:(lia)) as (bytes' & Hwrite' & Hread').
    cbn [seq]. rewrite written_cons.
    pose proof (binary_at_chosen ctx Hok mask a ltac:(lia)) as Hb.
    destruct (binary_chosen ctx mask (N.of_nat a)) eqn:Hchosen.
    + destruct Hb as (key & s & fn & de & Hat & Hs & Hde & Hback & Hlen & Hc).
      pose proof Hchosen as [Ht _]%andb_true_iff.
      destruct (GetComponent_live (N.of_nat a) id Hu Halive) as (v & Hget & Hv);
        [rewrite Hmask; exact Ht|].
      set (nameBytes := String.list_byte_of_string key).
      exists (le_bytes 4 (N.of_nat (String.length key)) ++ nameBytes ++ fn v ++ bytes').
      split.
      { intros os. rewrite write_components_cons, Hat. obind.
        unfold u32. rewrite N.mod_small by exact Hlen. rewrite Nat2N.id.
        rewrite take_ge by (rewrite list_byte_of_string_length; lia).
        rewrite Hget. obind. rewrite Hwrite'. fold nameBytes.
        rewrite <- !app_assoc. reflexivity. }
      intros w2 rest turns calls Hr2 Ha2 Hs2.
      destruct (restore_component w2 id (N.of_nat a) v Hr2 Hu Ha2 Hs2 Hc)
        as (w2a & Hadd & Q1 & Q2 & Q3 & Q4 & Q5 & Q6 & Q7 & Q8 & Q9 & Q10).
      destruct (Hread' w2a rest turns calls Q1 Q2 Q3)
        as (w2' & Hgo & R1 & R2 & R3 & R4 & R5 & R6 & R7 & R8 & R9 & R10).
      exists w2'. split.
      { cbn [length]. change (S ?n + turns)%nat with (S (n + turns)).
        rewrite read_components_S. rewrite <- !app_assoc. rewrite read_le.
        cbv beta iota zeta. rewrite le_value_4 by exact Hlen. rewrite Nat2N.id.
        unfold nameBytes at 1. rewrite <- (list_byte_of_string_length key).
        rewrite read_app. cbv beta iota zeta.
        rewrite String.string_of_list_byte_of_string, Hs.
        cbn [fmap option_fmap option_map]. rewrite Hde. cbv beta iota zeta.
        rewrite Hback. cbv beta iota zeta. rewrite Hadd. obind.
        rewrite app_nil_r. exact Hgo. }
      split; [exact R1|]. split; [exact R2|]. split; [exact R3|].
      split; [rewrite R4; exact Q4|]. split; [rewrite R5; exact Q5|].
      split; [rewrite R6; exact Q6|]. split.
      { intros c. rewrite R7, Q7, <- orb_assoc. f_equal.
        destruct (N.eqb_spec c (N.of_nat a)) as [->|Hne].
        - rewrite (bool_decide_true (N.of_nat a ∈ N.of_nat a :: _)) by left. reflexivity.
        - cbn [orb]. apply bool_decide_ext. rewrite elem_of_cons. intuition. }
      split.
      { intros c [->|Hin]%elem_of_cons.
        - destruct (decide (N.of_nat a ∈ written ctx mask (seq (S a) k))) as [Hin|Hnin].
          + apply R8, Hin.
          + rewrite (R9 _ Hnin), Q8, Hv. reflexivity.
        - apply R8, Hin. }
      split.
      { intros c Hnin. rewrite not_elem_of_cons in Hnin. destruct Hnin as [Hne Hnin].
        rewrite (R9 c Hnin). apply Q9, Hne. }
      intros x c Hx. destruct (R10 x c Hx) as [-> ->]. apply Q10, Hx.
    + exists bytes'. split.
      { intros os. rewrite write_components_cons, Hb. obind. apply Hwrite'. }
      exact Hread'.
Qed.

End OneEntity.

Hypothesis Hcount : GetEntityCount w < 2 ^ 32.

Lemma count_alive_spec (k : nat) : ∀ a acc,
  (a + k ≤ length (m_EntitySignatures w))%nat → acc + N.of_nat k < 2 ^ 32 →
  count_alive w (seq a k) acc = Some (acc + N.of_nat k).
Proof.
  unfold GetEntityCount in Hcount.
  induction k as [|k IH]; intros a acc Hle Hacc.
  - cbn [seq count_alive]. rewrite N.add_0_r. reflexivity.
  - cbn [seq count_alive].
    destruct (GetEntityAt_full w (N.of_nat a) Hr) as (id & mask & Hat & _ & _ & Halive & _);
      [unfold GetEntityCount; lia | lia|].
    rewrite Hat. obind. rewrite Halive. obind.
    unfold u32. rewrite N.mod_small by lia. rewrite IH by lia. f_equal. lia.
Qed.

Lemma restored_length w2 (k : nat) :
  restored ctx w w2 k → (k ≤ length (m_EntitySignatures w))%nat →
  length (m_EntitySignatures w2) = k.
Proof.
  intros [Hr2 _ _ Hg _] Hk.
  rewrite <- (wi_len w2 (reachable_inv w2 Hr2)), Hg, length_take.
  rewrite (wi_len w (reachable_inv w Hr)). lia.
Qed.

(** The entities: what the second loop of [SerializeBinary] appends, and
    what the loop of [DeserializeBinary] does with it. *)
Lemma entities_round (k : nat) : ∀ a,
  (a + k ≤ length (m_EntitySignatures w))%nat →
  ∃ bytes,
    (∀ os, write_entities ctx (seq a k) w os = Some (os ++ bytes, w))
    ∧ ∀ w2 rest (turns : nat),
        restored ctx w w2 a →
        ∃ w2',
          read_entities ctx (k + turns) w2 (MkIn (bytes ++ rest) true) []
          = read_entities ctx turns w2' (MkIn rest true) []
          ∧ restored ctx w w2' (a + k).
Proof.
  pose proof Hcount as Hn. unfold GetEntityCount in Hn.
  induction k as [|k IH]; intros a Hle.
  - exists []. split; [intros os; cbn [seq write_entities]; rewrite app_nil_r; reflexivity|].
    intros w2 rest turns Hres. exists w2. rewrite Nat.add_0_r. split; [reflexivity | exact Hres].
  - destruct (IH (S a) ltac:(lia)) as (bytes' & Hwrite' & Hread').
    destruct (GetEntityAt_full w (N.of_nat a) Hr)
      as (id & mask & Hat & Hidx & Hu & Halive & Huniq & Hgetmask & Hmask);
      [unfold GetEntityCount; lia | lia|].
    set (L := length (m_SerializersByID ctx)).
    destruct (components_round id mask Hu Halive Hmask L 0 ltac:(unfold L; lia))
      as (bytesC & HwriteC & HreadC).
    set (chosen := written ctx mask (seq 0 L)) in *.
    pose proof (written_bound ctx mask L 0) as Hbound. fold chosen in Hbound.
    exists (le_bytes 8 id ++ le_bytes 4 (N.of_nat (length chosen)) ++ bytesC ++ bytes').
    split.
    { intros os. cbn [seq]. rewrite write_entities_cons, Hat. obind. rewrite Halive. obind.
      rewrite Hgetmask. obind. fold L.
      rewrite (count_components_spec ctx Hok mask L 0 0) by (fold chosen; unfold L; lia).
      obind. fold chosen. rewrite N.add_0_l, HwriteC. obind. rewrite Hwrite'.
      rewrite <- !app_assoc. reflexivity. }
    intros w2 rest turns Hres.
    pose proof (restored_length w2 a Hres ltac:(lia)) as Hlen2.
    destruct Hres as [Hr2 Hsig2 Hfree2 Hgens2 Hcomp2].
    pose proof (reachable_inv w2 Hr2) as Hinv2.
    destruct (CreateEntity_id_append w2 id Hinv2 Hu Hfree2) as
      (w2a & Hcreate & C1 & C2 & C3 & C4 & C5); [rewrite Hidx, Hlen2; lia | rewrite Hidx; lia|].
    assert (Hr2a : reachable w2a).
    { apply (reach_step _ w2 (CallCreateEntity_id id) w2a Hr2).
      - cbn. unfold slot_populated. rewrite Hidx, Nat2N.id.
        rewrite (lookup_ge_None_2 (m_EntitySignatures w2) a) by lia.
        apply andb_true_iff. split; [apply N.ltb_lt, Hu | reflexivity].
      - cbn. rewrite Hcreate. reflexivity. }
    assert (Ha2a : IsAlive w2a id = Some true).
    { apply IsAlive_true. rewrite C1, C2, length_app, Hidx, Nat2N.id. cbn [length].
      split; [lia|]. rewrite lookup_app_r by (rewrite (wi_len w2 Hinv2); lia).
      rewrite (wi_len w2 Hinv2), Hlen2, Nat.sub_diag. reflexivity. }
    destruct (HreadC w2a (bytes' ++ rest) 0%nat [] Hr2a Ha2a ltac:(rewrite C4; exact Hsig2))
      as (w2b & Hgo & R1 & R2 & R3 & R4 & R5 & R6 & R7 & R8 & R9 & R10).
    fold chosen in Hgo, R7, R8, R9.
    assert (Hres' : restored ctx w w2b (S a)).
    { pose proof Halive as [_ Hgen]%IsAlive_true. rewrite Hidx, Nat2N.id in Hgen.
      constructor.
      - exact R1.
      - exact R3.
      - rewrite R5. exact C3.
      - rewrite R4, C2, Hgens2. symmetry. apply take_S_r, Hgen.
      - intros e c He Hea Hei.
        destruct (decide (N.to_nat (Internal.GetIndex e) = a)) as [Heq|Hne].
        + assert (e = id) as -> by (apply Huniq; [exact He | lia | exact Hea]).
          assert (Hnew : HasComponent w2a c id = false).
          { unfold HasComponent. rewrite C1, Hidx, Nat2N.id.
            rewrite lookup_app_r by lia. rewrite Hlen2, Nat.sub_diag. apply Test_Make0. }
          assert (Hin : c ∈ chosen ↔ ComponentMask.Test mask c && has_binary ctx c = true).
          { unfold chosen. rewrite written_elem. unfold binary_chosen. split; [tauto|].
            intros H. split; [|exact H]. apply andb_true_iff in H as [_ H].
            apply has_binary_lt in H. apply elem_of_seq. fold L. lia. }
          rewrite R7, Hnew, Hmask. cbn [orb]. split.
          * destruct (ComponentMask.Test mask c && has_binary ctx c) eqn:E.
            -- apply bool_decide_eq_true, Hin. reflexivity.
            -- apply bool_decide_eq_false. rewrite Hin. discriminate.
          * intros Hc%bool_decide_eq_true. apply R8, Hc.
        + assert (Hx : Internal.GetIndex e ≠ Internal.GetIndex id) by (rewrite Hidx; lia).
          destruct (R10 e c Hx) as [-> ->].
          destruct (Hcomp2 e c He Hea ltac:(lia)) as [H1 H2].
          assert (Hh : HasComponent w2a c e = HasComponent w2 c e).
          { unfold HasComponent. rewrite C1, lookup_app_l by lia. reflexivity. }
          assert (Hs : store_of w2a c = store_of w2 c) by (unfold store_of; rewrite C5; reflexivity).
          rewrite Hh, Hs. auto. }
    destruct (Hread' w2b rest turns Hres') as (w2' & Hgo' & Hres'').
    exists w2'. split; [|replace (a + S k)%nat with (S a + k)%nat by lia; exact Hres''].
    change (S k + turns)%nat with (S (k + turns)).
    rewrite read_entities_S. rewrite <- !app_assoc. rewrite read_le. cbv beta iota zeta.
    rewrite le_value_8 by exact Hu. rewrite Hcreate. obind.
    rewrite read_le. cbv beta iota zeta.
    rewrite le_value_4 by lia. rewrite Nat2N.id.
    rewrite <- (Nat.add_0_r (length chosen)). rewrite Hgo.
    cbn [read_components]. obind. exact Hgo'.
Qed.

End BinaryRoundTrip.

Section BinaryTheorem.

Import World SerializationContext.

Context {Component Json : Type}.

(** X25.  [DeserializeBinary] into an empty world reads back what
    [SerializeBinary] wrote.  For a context in which every name stands for
    one type and every binary deserializer reads back what its serializer
    writes, and a reachable world [w] with fewer than [2^32] slots:
    [SerializeBinary] has a result and leaves [w] as it is;
    [DeserializeBinary] of these bytes into the empty world ends with
    [Result::Ok()], the stream read to its end, nothing reported; the new
    world has the slots and the generations of [w], so that the same
    identifiers are alive, and an empty free list; a live entity has in it
    the components it has in [w] whose type has a binary serializer, with
    the same values, and no other component. *)
Theorem X25_binary_round_trip (ctx : SerializationContext.t Component Json)
    (w : World.t Component) :
  ctx_ok ctx → reachable w → GetEntityCount w < 2 ^ 32 →
  ∃ bytes w2,
    SerializeBinary ctx w = Some (Result.Ok, bytes, w)
    ∧ DeserializeBinary ctx World.empty (MkIn bytes true)
      = Some (Result.Ok, w2, MkIn [] true, [], [])
    ∧ reachable w2
    ∧ GetEntityCount w2 = GetEntityCount w
    ∧ m_EntityGenerations w2 = m_EntityGenerations w
    ∧ m_FreeEntities w2 = []
    ∧ (∀ e, IsAlive w2 e = IsAlive w e)
    ∧ (∀ e c, is_u64 e → IsAlive w e = Some true →
         HasComponent w2 c e = HasComponent w c e && has_binary ctx c
         ∧ (HasComponent w2 c e = true →
            SparseSet.Get (store_of w2 c) e = SparseSet.Get (store_of w c) e)).
Proof.
  intros Hok Hr Hcount. pose proof Hcount as Hn. unfold GetEntityCount in Hn.
  set (n := length (m_EntitySignatures w)) in *.
  destruct (entities_round ctx Hok w Hr Hcount n 0 ltac:(fold n; lia)) as (bytes & Hwrite & Hread).
  assert (Hempty : restored ctx w (World.empty : World.t Component) 0).
  { constructor; try reflexivity; [apply reach_empty|]. intros e c _ _ H. lia. }
  destruct (Hread World.empty [] 0%nat Hempty) as (w2 & Hgo & Hres).
  rewrite app_nil_r, Nat.add_0_r in Hgo. cbn [Nat.add] in Hres.
  pose proof (restored_length ctx w Hr Hcount w2 n Hres ltac:(fold n; lia)) as Hlen.
  destruct Hres as [R1 R2 R3 R4 R5].
  assert (Hgens : m_EntityGenerations w2 = m_EntityGenerations w).
  { rewrite R4. apply take_ge. rewrite (wi_len w (reachable_inv w Hr)). fold n. lia. }
  exists (le_bytes 4 (N.of_nat n) ++ bytes), w2. split.
  { unfold SerializeBinary, GetEntityCount. fold n. unfold u32.
    rewrite N.mod_small by exact Hn. rewrite Nat2N.id.
    rewrite (count_alive_spec w Hr Hcount n 0 0) by (fold n; lia). obind.
    rewrite N.add_0_l, Hwrite. reflexivity. }
  split.
  { unfold DeserializeBinary. rewrite read_le. cbv beta iota zeta.
    rewrite le_value_4 by exact Hn. rewrite Nat2N.id. exact Hgo. }
  split; [exact R1|]. split; [unfold GetEntityCount; rewrite Hlen; reflexivity|].
  split; [exact Hgens|]. split; [exact R3|]. split.
  { intros e. apply IsAlive_ext_len; [exact Hlen | exact Hgens]. }
  intros e c He Hea. apply R5; [exact He | exact Hea|].
  apply IsAlive_true in Hea as [Hlt _]. fold n in Hlt. exact Hlt.
Qed.

End BinaryTheorem.

Section BinaryErrors.

Import World SerializationContext.

Context {Component Json : Type}.

Variable ctx : SerializationContext.t Component Json.

Lemma read_components_flow newId (turns : nat) : ∀ (w : World.t Component) stream calls
    flow w' stream' calls' reported,
  read_components ctx newId turns w stream calls = Some (flow, w', stream', calls', reported) →
  (flow = Continue ∧ reported = [])
  ∨ (∃ res, flow = Return res
            ∧ Result.code res = ErrorCode.ComponentNotRegistered
            ∧ reported = report (SerializationContext.m_Reporter ctx) res).
Proof.
  induction turns as [|turns IH]; intros w stream calls flow w' stream' calls' reported Hgo.
  - cbn [read_components] in Hgo. inversion Hgo; subst. left. auto.
  - rewrite read_components_S in Hgo.
    destruct (read stream 4) as [[nameLen|] stream1]; [|inversion Hgo; subst; left; auto].
    cbv beta iota zeta in Hgo.
    destruct (read stream1 _) as [[key|] stream2]; [|inversion Hgo; subst; left; auto].
    cbv beta iota zeta in Hgo.
    destruct (binaryDeserialize <$> m_SerializersByName ctx !! _) as [[[c fn]|]|].
    + destruct (fn stream2) as [v stream3].
      destruct (AddComponent w c newId v) as [[w1 fired]|]; [|discriminate].
      obind in Hgo. exact (IH _ _ _ _ _ _ _ _ Hgo).
    + inversion Hgo; subst. right. eexists. split; [reflexivity|]. split; reflexivity.
    + inversion Hgo; subst. right. eexists. split; [reflexivity|]. split; reflexivity.
Qed.

Lemma read_entities_result (turns : nat) : ∀ (w : World.t Component) stream calls
    res w' stream' calls' reported,
  read_entities ctx turns w stream calls = Some (res, w', stream', calls', reported) →
  (res = Result.Ok ∧ reported = [])
  ∨ (Result.code res = ErrorCode.ComponentNotRegistered
     ∧ reported = report (SerializationContext.m_Reporter ctx) res).
Proof.
  induction turns as [|turns IH]; intros w stream calls res w' stream' calls' reported Hgo.
  - cbn [read_entities] in Hgo. inversion Hgo; subst. left. auto.
  - rewrite read_entities_S in Hgo.
    destruct (read stream 8) as [[entity|] stream1]; [|inversion Hgo; subst; left; auto].
    cbv beta iota zeta in Hgo.
    destruct (CreateEntity_id w (le_value entity)) as [[newId w1]|]; [|discriminate].
    obind in Hgo.
    destruct (read stream1 4) as [[componentCount|] stream2]; [|inversion Hgo; subst; left; auto].
    cbv beta iota zeta in Hgo.
    destruct (read_components ctx newId _ w1 stream2 calls)
      as [[[[[flow w2] stream3] calls2] reported2]|] eqn:Hc; [|discriminate].
    obind in Hgo.
    destruct (read_components_flow _ _ _ _ _ _ _ _ _ _ Hc) as [[-> ->]|(r & -> & Hr & ->)].
    + exact (IH _ _ _ _ _ _ _ _ Hgo).
    + inversion Hgo; subst. right. auto.
Qed.

(** X26.  A stream that ends early is not an error to [DeserializeBinary]:
    on a stream that is not good or has fewer than four bytes it returns
    [Result::Ok()] and leaves the world untouched, and whatever the stream
    holds, a call that returns gives [Result::Ok()] with nothing reported,
    or the error [ComponentNotRegistered], reported once. *)
Theorem X26_DeserializeBinary_results (w : World.t Component) (stream : istream) :
  (in_good stream = false ∨ (length (in_bytes stream) < 4)%nat →
   ∃ stream', DeserializeBinary ctx w stream = Some (Result.Ok, w, stream', [], []))
  ∧ (∀ res w' stream' calls reported,
       DeserializeBinary ctx w stream = Some (res, w', stream', calls, reported) →
       (res = Result.Ok ∧ reported = [])
       ∨ (Result.code res = ErrorCode.ComponentNotRegistered
          ∧ reported = report (SerializationContext.m_Reporter ctx) res)).
Proof.
  split.
  - intros Hshort. unfold DeserializeBinary, read.
    destruct (in_good stream); [|eexists; reflexivity].
    destruct Hshort as [|Hshort]; [discriminate|].
    destruct (Nat.leb_spec 4 (length (in_bytes stream))); [lia|]. eexists. reflexivity.
  - intros res w' stream' calls reported Hgo. unfold DeserializeBinary in Hgo.
    destruct (read stream 4) as [[entityCount|] stream1]; [|inversion Hgo; subst; left; auto].
    exact (read_entities_result _ _ _ _ _ _ _ _ _ Hgo).
Qed.

End BinaryErrors.

Lemma flag_world_run : run disciplined World.empty flag_ops = Some flag_world.
Proof. vm_compute. reflexivity. Qed.

Lemma flag_world_reachable : reachable flag_world.
Proof. exact (reachable_run flag_ops _ _ (reach_empty _) flag_world_run). Qed.

Lemma flag_reads_back : reads_back write_flag read_flag.
Proof. intros [] rest; reflexivity. Qed.

Lemma flag_ctx1_ok : ctx_ok flag_ctx1.
Proof.
  apply (RegisterBinary_ok SerializationContext.empty 0 "Flag" write_flag read_flag).
  - apply ctx_ok_empty.
  - intros s H. vm_compute in H. discriminate.
  - vm_compute. reflexivity.
  - exact flag_reads_back.
  - vm_compute. reflexivity.
Qed.

Lemma flag_ctx_ok : ctx_ok flag_ctx.
Proof.
  apply (RegisterBinary_ok flag_ctx1 3 "Mark" write_flag read_flag).
  - exact flag_ctx1_ok.
  - intros s H. vm_compute in H. discriminate.
  - vm_compute. reflexivity.
  - exact flag_reads_back.
  - vm_compute. reflexivity.
Qed.



Lemma X24_witness :
  ∃ ctx' serializer,
    SerializationContext.RegisterBinary flag_ctx1 3 "Mark" write_flag read_flag = Some ctx'
    ∧ ctx_ok ctx'
    ∧ SerializationContext.m_SerializersByID ctx' !! N.to_nat 3 = Some (Some "Mark"%string)
    ∧ SerializationContext.m_ComponentTypeToName ctx' !! 3 = Some "Mark"%string
    ∧ SerializationContext.m_SerializersByName ctx' !! "Mark"%string = Some serializer
    ∧ SerializationContext.binarySerialize serializer = Some (3, write_flag)
    ∧ SerializationContext.binaryDeserialize serializer = Some (3, read_flag)
    ∧ SerializationContext.serialize serializer
      = SerializationContext.serialize (SerializationContext.serializer_at flag_ctx1 "Mark")
    ∧ SerializationContext.deserialize serializer
      = SerializationContext.deserialize (SerializationContext.serializer_at flag_ctx1 "Mark")
    ∧ has_binary ctx' 3 = true
    ∧ ∀ other, other ≠ "Mark"%string →
        SerializationContext.m_SerializersByName ctx' !! other
        = SerializationContext.m_SerializersByName flag_ctx1 !! other.
Proof.
  apply (X24_registration flag_ctx1 3 "Mark").
  - exact flag_ctx1_ok.
  - intros s H. vm_compute in H. discriminate.
  - vm_compute. reflexivity.
  - exact flag_reads_back.
Defined.

Lemma X25_witness :
  ∃ bytes w2,
    SerializationContext.SerializeBinary flag_ctx flag_world = Some (Result.Ok, bytes, flag_world)
    ∧ SerializationContext.DeserializeBinary flag_ctx World.empty (MkIn bytes true)
      = Some (Result.Ok, w2, MkIn [] true, [], [])
    ∧ reachable w2
    ∧ World.GetEntityCount w2 = World.GetEntityCount flag_world
    ∧ World.m_EntityGenerations w2 = World.m_EntityGenerations flag_world
    ∧ World.m_FreeEntities w2 = []
    ∧ (∀ e, World.IsAlive w2 e = World.IsAlive flag_world e)
    ∧ (∀ e c, is_u64 e → World.IsAlive flag_world e = Some true →
         World.HasComponent w2 c e = World.HasComponent flag_world c e && has_binary flag_ctx c
         ∧ (World.HasComponent w2 c e = true →
            SparseSet.Get (store_of w2 c) e = SparseSet.Get (store_of flag_world c) e)).
Proof.
  apply (X25_binary_round_trip flag_ctx flag_world).
  - exact flag_ctx_ok.
  - exact flag_world_reachable.
  - vm_compute. reflexivity.
Defined.

(** tests/SerializationTests.cpp, BinarySerialization and MultipleEntities,
    on [flag_world]: the third slot was destroyed; after the round trip its
    next identifier is alive and the free list is empty, and the component
    without a serializer is gone. *)
Example flag_world_round_trip :
  ∃ bytes w2,
    SerializationContext.SerializeBinary flag_ctx flag_world = Some (Result.Ok, bytes, flag_world)
    ∧ SerializationContext.DeserializeBinary flag_ctx World.empty (MkIn bytes true)
      = Some (Result.Ok, w2, MkIn [] true, [], [])
    ∧ length bytes = 58%nat
    ∧ World.m_FreeEntities flag_world = [MakeEntityID 1 2]
    ∧ World.m_FreeEntities w2 = []
    ∧ World.IsAlive w2 (MakeEntityID 1 2) = Some true
    ∧ World.HasComponent flag_world 5 1 = true
    ∧ World.HasComponent w2 5 1 = false
    ∧ SparseSet.Get (store_of w2 3) 1 = Some false.
Proof. eexists _, _. split; [vm_compute; reflexivity|]. vm_compute. repeat split. Qed.

(** What was written with [flag_ctx], read with a context that does not
    know the name Mark: the call stops at that name, in the second entity,
    with the error reported once; the first entity is there. *)
Example flag_world_unknown_name :
  ∃ bytes res w2 stream,
    SerializationContext.SerializeBinary flag_ctx flag_world = Some (Result.Ok, bytes, flag_world)
    ∧ SerializationContext.DeserializeBinary flag_ctx1 World.empty (MkIn bytes true)
      = Some (res, w2, stream, [], [res])
    ∧ Result.code res = ErrorCode.ComponentNotRegistered
    ∧ World.GetEntityCount w2 = 2
    ∧ World.HasComponent w2 0 0 = true
    ∧ World.HasComponent w2 3 1 = false.
Proof.
  eexists _, _, _, _. split; [vm_compute; reflexivity|].
  split; [vm_compute; reflexivity|]. vm_compute. repeat split.
Qed.

(** ** World: uses of the interface outside the discipline *)

Section ApiTheorems.

Import World.

Context {Component : Type}.

Implicit Types (w : World.t Component) (e id : EntityID) (c : N).

(** C4, as the code has it.  [AddComponent<T>(e, v)] for a type whose
    component id is 256 or more does not reject, in any state reached
    through the public interface, used in any way: on a live entity the
    call has a result, the store of [T] contains [e] and holds [v] as the
    Added observers left it ([v] itself when they only read), the Added
    observers are called, and the signatures stay as they were
    ([ComponentMask::Set] does nothing from bit 256 on), so that
    [HasComponent<T>(e)] is false. *)
Theorem C4_AddComponent_id_overflow_accepted w c id (v : Component) :
  api_reachable w → 256 <= c → IsAlive w id = Some true →
  ∃ w', AddComponent w c id v
        = Some (w', snd (run_callbacks (observers w c Added) Added c id v)) ∧
        SparseSet.Contains (store_of w' c) id = Some true ∧
        SparseSet.Get (store_of w' c) id
        = Some (fst (run_callbacks (observers w c Added) Added c id v)) ∧
        ((∀ cb x, cb ∈ observers w c Added → cb_run cb id x = x) →
         SparseSet.Get (store_of w' c) id = Some v) ∧
        m_EntitySignatures w' = m_EntitySignatures w ∧
        HasComponent w' c id = false.
Proof.
  intros Hr Hc Halive. pose proof (api_reachable_inv w Hr) as Hinv.
  pose proof Halive as [Hlt Hgen]%IsAlive_true.
  destruct (AddComponent_spec w c id v (ai_stores w Hinv c) Hlt (ai_trig w Hinv))
    as (w' & sig & Hsig & Hadd & P1 & P2 & P3 & P4 & P5 & P6 & P7 & P8 & P9 & P10 & P11
        & P12 & P13 & P14 & P15).
  assert (Hset : ComponentMask.SetBit sig c = sig).
  { unfold ComponentMask.SetBit. destruct (N.ltb_spec c 256); [lia|reflexivity]. }
  rewrite Hset, list_insert_id in P1 by assumption.
  assert (Hfinal : match m_ComponentSignals w !! c with
                   | Some signals => fst (run_callbacks (onAdded signals) Added c id v)
                   | None => v
                   end = fst (run_callbacks (observers w c Added) Added c id v)).
  { unfold observers. destruct (m_ComponentSignals w !! c); reflexivity. }
  rewrite Hfinal in P15.
  exists w'. split.
  { rewrite Hadd. unfold observers. destruct (m_ComponentSignals w !! c); reflexivity. }
  split.
  { rewrite (Contains_spec _ _ P5). f_equal. apply bool_decide_eq_true_2, P6. left. reflexivity. }
  split; [exact P15|]. split.
  { intros Hro. rewrite P15, run_callbacks_readonly by assumption. reflexivity. }
  split; [assumption|].
  unfold HasComponent. rewrite P1, Hsig.
  unfold ComponentMask.Test. destruct (N.leb_spec 256 c); [reflexivity|lia].
Qed.

(** [CreateEntity(id)] for the last index: [index + 1] is 0 on 32 bits,
    both sequences are resized to 0 and [m_EntityGenerations[index]] is
    written out of range. *)
Lemma CreateEntity_id_last_index w id :
  Internal.GetIndex id = 2 ^ 32 - 1 →
  (length (m_EntitySignatures w) <= N.to_nat (Internal.GetIndex id))%nat →
  CreateEntity_id w id = None.
Proof.
  intros Hidx Hlen. unfold CreateEntity_id.
  assert (Hu : u32 (Internal.GetIndex id + 1) = 0) by (rewrite Hidx; reflexivity).
  set (idx := Internal.GetIndex id) in *.
  destruct (Nat.leb_spec (length (m_EntitySignatures w)) (N.to_nat idx)) as [_|]; [|lia].
  rewrite Hu. change (N.to_nat 0) with 0%nat. rewrite !resize_0.
  unfold IsAlive. wsimpl. fold idx. cbn [length].
  destruct (Nat.ltb_spec (N.to_nat idx) 0) as [|_]; [lia|]. obind. wsimpl.
  unfold vec_set. cbn [length].
  destruct (Nat.ltb_spec (N.to_nat idx) 0) as [|_]; [lia|]. reflexivity.
Qed.





End ApiTheorems.


Lemma overflow_world_run : run any_use World.empty overflow_ops = Some overflow_world.
Proof. vm_compute. reflexivity. Qed.






Lemma overflow_world_api : api_reachable overflow_world.
Proof. exact (api_reachable_run overflow_ops _ _ (reach_empty _) overflow_world_run). Qed.




(** C4 as it is written fails: component id 256 is accepted, the
    component is stored and the signature does not record it. *)
Lemma C4_counterexample :
  ∃ w calls,
    World.AddComponent (default World.empty (snd <$> World.CreateEntity (@World.empty N))) 256 0 7
    = Some (w, calls) ∧
    SparseSet.Contains (store_of w 256) 0 = Some true ∧
    SparseSet.Get (store_of w 256) 0 = Some 7 ∧
    World.HasComponent w 256 0 = false.
Proof. vm_compute. do 2 eexists. split; [reflexivity|]. repeat split; reflexivity. Qed.



Lemma C4_witness :
  ∃ w', World.AddComponent overflow_world 300 0 9
        = Some (w', snd (World.run_callbacks (observers overflow_world 300 Added) Added 300 0 9)) ∧
        SparseSet.Contains (store_of w' 300) 0 = Some true ∧
        SparseSet.Get (store_of w' 300) 0
        = Some (fst (World.run_callbacks (observers overflow_world 300 Added) Added 300 0 9)) ∧
        ((∀ cb x, cb ∈ observers overflow_world 300 Added → World.cb_run cb 0 x = x) →
         SparseSet.Get (store_of w' 300) 0 = Some 9) ∧
        World.m_EntitySignatures w' = World.m_EntitySignatures overflow_world ∧
        World.HasComponent w' 300 0 = false.
Proof.
  apply (C4_AddComponent_id_overflow_accepted overflow_world 300 0 9 overflow_world_api).
  - vm_compute. discriminate.
  - reflexivity.
Defined.

(** C10 as it is written, for every index, fails: for index 0xFFFFFFFF
    [CreateEntity(id)] has no result. *)
Lemma C10_counterexample :
  Internal.GetIndex 4294967295 = 4294967295
  ∧ World.CreateEntity_id (World.empty (Component := N)) 4294967295 = None.
Proof.
  split; [reflexivity|].
  apply CreateEntity_id_last_index; [reflexivity|].
  cbn [length World.m_EntitySignatures World.empty]. apply Nat.le_0_l.
Qed.
